(** * doublell: a doubly linked list with node references

    Shallow embedding of [src/DoubleLinkedList/index.ts].

    The TypeScript objects are mutable and shared by reference: a node is
    reachable from its list, from its two neighbours and from every caller
    that kept the reference returned by [append] and friends.  The embedding
    therefore keeps an explicit store: node objects and list objects live in
    two arrays, and a reference is an index into the array.  Allocation
    ([new DoubleLinkedList], a node literal) pushes at the end of the array,
    so that a reference, once handed out, stays valid.

    Methods become computations in a state-and-exception monad over that
    store.  The exceptions are the ones JavaScript raises on the paths the
    source has: a [TypeError] when a property of [undefined] is read or
    written (the [x![NEXT]] of the source) and a [RangeError] for
    [new Array(n)] with a negative [n].  [while] loops over the chain take a
    fuel argument; counted [for] loops recurse on their bound.

    JavaScript numbers are modelled as integers ([Z]): lengths, indices and
    counts are integers in every documented use.  Engine resource limits
    (memory, maximal array length) are outside the model. *)

From Stdlib Require Import ZArith Lia.
From stdpp Require Import prelude.

Open Scope Z_scope.
#[local] Set Warnings "-clear-no-such-hyp".

(** ** The monad *)

Inductive Exn := TypeError | RangeError | DanglingRef | OutOfFuel.

Inductive Res (S A : Type) :=
| Ok (a : A) (s : S)
| Throw (e : Exn).
Arguments Ok {S A} a s.
Arguments Throw {S A} e.

Definition M (S A : Type) : Type := S → Res S A.

Definition ret {S A} (a : A) : M S A := λ s, Ok a s.

Definition bind {S A B} (m : M S A) (k : A → M S B) : M S B :=
  λ s, match m s with
       | Ok a s' => k a s'
       | Throw e => Throw e
       end.

Definition throw {S A} (e : Exn) : M S A := λ _, Throw e.

Notation "x <- m ;; k" := (bind m (λ x, k))
  (at level 100, m at next level, right associativity, only parsing).
Notation "m ;;; k" := (bind m (λ _, k))
  (at level 100, right associativity, only parsing).

(** Weakest precondition of a computation: it returns, with a result and
    in a state that satisfy [Q]. *)
Definition wp {S A} (m : M S A) (s : S) (Q : A → S → Prop) : Prop :=
  match m s with
  | Ok a s' => Q a s'
  | Throw _ => False
  end.

Abbreviation NodeRef := nat.
Abbreviation ListRef := nat.

(** [x!] followed by a property access: a [TypeError] when [x] is
    [undefined]. *)
Definition nonNull {S} (o : option NodeRef) : M S NodeRef :=
  match o with
  | Some n => ret n
  | None => throw TypeError
  end.

(** [start: number | DoubleLinkedListNode | undefined] of [splice]. *)
Inductive SpliceStart :=
| StartUndefined
| StartNumber (index : Z)
| StartNode (node : NodeRef).

(** A JavaScript array with holes, as [new Array(n)] makes them. *)
Abbreviation JsArray A := (list (option A)).

Definition newArray {A} (n : nat) : JsArray A := replicate n None.

(** [output[index] = x]: in range the slot is overwritten, at or past the
    end the array grows, the gap being holes. *)
Definition arraySet {A} (output : JsArray A) (index : nat) (x : A) : JsArray A :=
  if decide (index < List.length output)%nat
  then <[index := Some x]> output
  else output ++ replicate (index - List.length output) None ++ [Some x].

(** ** The tuple-node implementation *)

Module V2.
Section Impl.
Context {ItemT : Type}.
(** [a === b] on items. *)
Variable strictEq : ItemT → ItemT → bool.

(** [[list, value, prev, next]], read through the constants [LIST],
    [VALUE], [PREV] and [NEXT]. *)
Record DoubleLinkedListNode := mkNode {
  LIST : option ListRef;
  VALUE : ItemT;
  PREV : option NodeRef;
  NEXT : option NodeRef
}.

Record DoubleLinkedList := mkList {
  firstNode : option NodeRef;
  lastNode : option NodeRef;
  length : Z
}.

Record Store := mkStore {
  nodes : list DoubleLinkedListNode;
  lists : list DoubleLinkedList
}.

Definition emptyStore : Store := mkStore [] [].

(** *** Object access *)

Definition readNode (n : NodeRef) : M Store DoubleLinkedListNode :=
  λ s, match nodes s !! n with
       | Some nd => Ok nd s
       | None => Throw DanglingRef
       end.

Definition writeNode (n : NodeRef) (nd : DoubleLinkedListNode) : M Store unit :=
  λ s, Ok tt (mkStore (<[n := nd]> (nodes s)) (lists s)).

Definition allocNode (nd : DoubleLinkedListNode) : M Store NodeRef :=
  λ s, Ok (List.length (nodes s)) (mkStore (nodes s ++ [nd]) (lists s)).

Definition readList (this : ListRef) : M Store DoubleLinkedList :=
  λ s, match lists s !! this with
       | Some l => Ok l s
       | None => Throw DanglingRef
       end.

Definition writeList (this : ListRef) (l : DoubleLinkedList) : M Store unit :=
  λ s, Ok tt (mkStore (nodes s) (<[this := l]> (lists s))).

Definition allocList (l : DoubleLinkedList) : M Store ListRef :=
  λ s, Ok (List.length (lists s)) (mkStore (nodes s) (lists s ++ [l])).

Definition get_LIST n : M Store (option ListRef) := nd <- readNode n;; ret (LIST nd).
Definition get_VALUE n : M Store ItemT := nd <- readNode n;; ret (VALUE nd).
Definition get_PREV n : M Store (option NodeRef) := nd <- readNode n;; ret (PREV nd).
Definition get_NEXT n : M Store (option NodeRef) := nd <- readNode n;; ret (NEXT nd).

Definition set_LIST n (v : option ListRef) : M Store unit :=
  nd <- readNode n;; writeNode n (mkNode v (VALUE nd) (PREV nd) (NEXT nd)).
Definition set_PREV n (v : option NodeRef) : M Store unit :=
  nd <- readNode n;; writeNode n (mkNode (LIST nd) (VALUE nd) v (NEXT nd)).
Definition set_NEXT n (v : option NodeRef) : M Store unit :=
  nd <- readNode n;; writeNode n (mkNode (LIST nd) (VALUE nd) (PREV nd) v).

Definition get_firstNode this : M Store (option NodeRef) := l <- readList this;; ret (firstNode l).
Definition get_lastNode this : M Store (option NodeRef) := l <- readList this;; ret (lastNode l).
Definition get_length this : M Store Z := l <- readList this;; ret (length l).

Definition set_firstNode this (v : option NodeRef) : M Store unit :=
  l <- readList this;; writeList this (mkList v (lastNode l) (length l)).
Definition set_lastNode this (v : option NodeRef) : M Store unit :=
  l <- readList this;; writeList this (mkList (firstNode l) v (length l)).
Definition set_length this (v : Z) : M Store unit :=
  l <- readList this;; writeList this (mkList (firstNode l) (lastNode l) v).

(** *** Methods *)

Definition getLength (this : ListRef) : M Store Z := get_length this.

Definition isEmpty (this : ListRef) : M Store bool :=
  f <- get_firstNode this;; ret (bool_decide (f = None)).

Definition append (this : ListRef) (item : ItemT) : M Store NodeRef :=
  last <- get_lastNode this;;
  newNode <- allocNode (mkNode (Some this) item last None);;
  len <- get_length this;;
  (if len =? 0 then set_firstNode this (Some newNode)
   else (last <- get_lastNode this;;
         last <- nonNull last;;
         set_NEXT last (Some newNode)));;;
  set_lastNode this (Some newNode);;;
  len <- get_length this;;
  set_length this (len + 1);;;
  ret newNode.

Definition prepend (this : ListRef) (item : ItemT) : M Store NodeRef :=
  first <- get_firstNode this;;
  newNode <- allocNode (mkNode (Some this) item None first);;
  len <- get_length this;;
  (if len =? 0 then set_lastNode this (Some newNode)
   else (first <- get_firstNode this;;
         first <- nonNull first;;
         set_PREV first (Some newNode)));;;
  set_firstNode this (Some newNode);;;
  len <- get_length this;;
  set_length this (len + 1);;;
  ret newNode.

(** [for (const item of items) this.append(item)] *)
Fixpoint appendAll (this : ListRef) (items : list ItemT) : M Store unit :=
  match items with
  | [] => ret tt
  | item :: rest => append this item;;; appendAll this rest
  end.

(** [new DoubleLinkedList(...items)] *)
Definition constructor (items : list ItemT) : M Store ListRef :=
  this <- allocList (mkList None None 0);;
  (if 0 <? Z.of_nat (List.length items) then appendAll this items else ret tt);;;
  ret this.

(** The three branches of [remove]; [false] is the early
    [return false] of the wrong-list test. *)
Definition remove_unlink (this : ListRef) (node : NodeRef) : M Store bool :=
  last <- get_lastNode this;;
  if decide (Some node = last) then
    newLast <- get_PREV node;;
    set_lastNode this newLast;;;
    match newLast with
    | Some nl => set_NEXT nl None
    | None => set_firstNode this None
    end;;;
    ret true
  else
    first <- get_firstNode this;;
    if decide (Some node = first) then
      newFirst <- get_NEXT node;;
      set_firstNode this newFirst;;;
      match newFirst with
      | Some nf => set_PREV nf None
      | None => set_lastNode this None
      end;;;
      ret true
    else
      owner <- get_LIST node;;
      if decide (owner ≠ Some this) then ret false
      else
        prev <- get_PREV node;;
        next <- get_NEXT node;;
        p <- nonNull prev;;
        set_NEXT p next;;;
        nx <- nonNull next;;
        set_PREV nx prev;;;
        ret true.

Definition remove (this : ListRef) (node : NodeRef) : M Store bool :=
  unlinked <- remove_unlink this node;;
  if unlinked then
    set_PREV node None;;;
    set_NEXT node None;;;
    set_LIST node None;;;
    len <- get_length this;;
    set_length this (len - 1);;;
    ret true
  else ret false.

(** [while (this.firstNode !== undefined) this.remove(this.firstNode)] *)
Fixpoint clear (fuel : nat) (this : ListRef) : M Store unit :=
  match fuel with
  | O => throw OutOfFuel
  | S fuel' =>
    first <- get_firstNode this;;
    match first with
    | None => ret tt
    | Some n => remove this n;;; clear fuel' this
    end
  end.

Definition getHead (this : ListRef) : M Store (option NodeRef) := get_firstNode this.
Definition getTail (this : ListRef) : M Store (option NodeRef) := get_lastNode this.

Fixpoint toArray_loop (fuel : nat) (output : JsArray ItemT)
    (cursor : option NodeRef) (index : nat) : M Store (JsArray ItemT) :=
  match fuel with
  | O => throw OutOfFuel
  | S fuel' =>
    match cursor with
    | None => ret output
    | Some c =>
      v <- get_VALUE c;;
      nx <- get_NEXT c;;
      toArray_loop fuel' (arraySet output index v) nx (S index)
    end
  end.

Definition toArray (fuel : nat) (this : ListRef) : M Store (JsArray ItemT) :=
  len <- get_length this;;
  if len <? 0 then throw RangeError
  else
    cursor <- get_firstNode this;;
    toArray_loop fuel (newArray (Z.to_nat len)) cursor 0%nat.

Definition insertAfterNode (this : ListRef) (node : NodeRef) (item : ItemT)
    : M Store (option NodeRef) :=
  owner <- get_LIST node;;
  if decide (owner ≠ Some this) then ret None
  else
    last <- get_lastNode this;;
    if decide (last = Some node) then
      n <- append this item;; ret (Some n)
    else
      nx <- get_NEXT node;;
      newNode <- allocNode (mkNode (Some this) item (Some node) nx);;
      nx <- get_NEXT node;;
      nx <- nonNull nx;;
      set_PREV nx (Some newNode);;;
      set_NEXT node (Some newNode);;;
      len <- get_length this;;
      set_length this (len + 1);;;
      ret (Some newNode).

Definition insertBeforeNode (this : ListRef) (node : NodeRef) (item : ItemT)
    : M Store (option NodeRef) :=
  owner <- get_LIST node;;
  if decide (owner ≠ Some this) then ret None
  else
    first <- get_firstNode this;;
    if decide (first = Some node) then
      n <- prepend this item;; ret (Some n)
    else
      pv <- get_PREV node;;
      newNode <- allocNode (mkNode (Some this) item pv (Some node));;
      pv <- get_PREV node;;
      pv <- nonNull pv;;
      set_NEXT pv (Some newNode);;;
      set_PREV node (Some newNode);;;
      len <- get_length this;;
      set_length this (len + 1);;;
      ret (Some newNode).

(** [[Symbol.iterator]()].  The iterator object holds one variable,
    [current]; it is represented by the value of that variable. *)
Definition iterator (this : ListRef) : M Store (option NodeRef) :=
  get_firstNode this.

(** [next()] on the iterator whose variable holds [current]: the new value
    of the variable, and the value yielded, [None] for [{ done: true }]. *)
Definition iterator_next (current : option NodeRef)
    : M Store (option NodeRef * option ItemT) :=
  match current with
  | None => ret (None, None)
  | Some c =>
    value <- get_VALUE c;;
    nx <- get_NEXT c;;
    ret (nx, Some value)
  end.

(** In [forEach], [map] and [find] the callback is a function of the value
    and the index: it does not touch the store. *)
Fixpoint forEach_loop (fuel : nat) (callback : ItemT → Z → unit)
    (index : Z) (cursor : option NodeRef) : M Store unit :=
  match fuel with
  | O => throw OutOfFuel
  | S fuel' =>
    match cursor with
    | None => ret tt
    | Some c =>
      v <- get_VALUE c;;
      ret (callback v index);;;
      nx <- get_NEXT c;;
      forEach_loop fuel' callback (index + 1) nx
    end
  end.

Definition forEach (fuel : nat) (this : ListRef)
    (callback : ItemT → Z → unit) : M Store unit :=
  cursor <- get_firstNode this;;
  forEach_loop fuel callback 0 cursor.

Fixpoint map_loop (fuel : nat) (result : ListRef)
    (callback : ItemT → Z → ItemT) (index : Z) (cursor : option NodeRef)
    : M Store unit :=
  match fuel with
  | O => throw OutOfFuel
  | S fuel' =>
    match cursor with
    | None => ret tt
    | Some c =>
      v <- get_VALUE c;;
      append result (callback v index);;;
      nx <- get_NEXT c;;
      map_loop fuel' result callback (index + 1) nx
    end
  end.

(** [map], for a callback that returns items of the type of the list (the
    store holds items of one type). *)
Definition map (fuel : nat) (this : ListRef)
    (callback : ItemT → Z → ItemT) : M Store ListRef :=
  result <- constructor [];;
  cursor <- get_firstNode this;;
  map_loop fuel result callback 0 cursor;;;
  ret result.

Fixpoint find_loop (fuel : nat) (predicate : ItemT → Z → bool)
    (index : Z) (cursor : option NodeRef) : M Store (option ItemT) :=
  match fuel with
  | O => throw OutOfFuel
  | S fuel' =>
    match cursor with
    | None => ret None
    | Some c =>
      v <- get_VALUE c;;
      if predicate v index then
        v <- get_VALUE c;; ret (Some v)
      else
        nx <- get_NEXT c;;
        find_loop fuel' predicate (index + 1) nx
    end
  end.

Definition find (fuel : nat) (this : ListRef)
    (predicate : ItemT → Z → bool) : M Store (option ItemT) :=
  cursor <- get_firstNode this;;
  find_loop fuel predicate 0 cursor.

(** The first loop of [indexOf]:
    [while (cursor !== undefined && index < fromIndex)]. *)
Fixpoint indexOf_skip (fuel : nat) (fromIndex : Z) (cursor : option NodeRef)
    (index : Z) : M Store (option NodeRef * Z) :=
  match fuel with
  | O => throw OutOfFuel
  | S fuel' =>
    match cursor with
    | Some c =>
      if index <? fromIndex then
        nx <- get_NEXT c;;
        indexOf_skip fuel' fromIndex nx (index + 1)
      else ret (cursor, index)
    | None => ret (cursor, index)
    end
  end.

(** The second loop of [indexOf]. *)
Fixpoint indexOf_scan (fuel : nat) (searchElement : ItemT)
    (cursor : option NodeRef) (index : Z) : M Store Z :=
  match fuel with
  | O => throw OutOfFuel
  | S fuel' =>
    match cursor with
    | None => ret (-1)
    | Some c =>
      v <- get_VALUE c;;
      if strictEq v searchElement then ret index
      else
        nx <- get_NEXT c;;
        indexOf_scan fuel' searchElement nx (index + 1)
    end
  end.

Definition indexOf (fuel : nat) (this : ListRef) (searchElement : ItemT)
    (fromIndex : Z) : M Store Z :=
  cursor <- get_firstNode this;;
  r <- indexOf_skip fuel fromIndex cursor 0;;
  indexOf_scan fuel searchElement (fst r) (snd r).

Definition includes (fuel : nat) (this : ListRef) (searchElement : ItemT)
    (fromIndex : Z) : M Store bool :=
  i <- indexOf fuel this searchElement fromIndex;;
  ret (negb (i =? -1)).

Definition push (this : ListRef) (item : ItemT) : M Store NodeRef :=
  append this item.

Definition pop (this : ListRef) : M Store (option ItemT) :=
  last <- get_lastNode this;;
  match last with
  | None => ret None
  | Some _ =>
    last <- get_lastNode this;;
    last <- nonNull last;;
    value <- get_VALUE last;;
    last <- get_lastNode this;;
    last <- nonNull last;;
    remove this last;;;
    ret (Some value)
  end.

Definition shift (this : ListRef) : M Store (option ItemT) :=
  first <- get_firstNode this;;
  match first with
  | None => ret None
  | Some _ =>
    first <- get_firstNode this;;
    first <- nonNull first;;
    value <- get_VALUE first;;
    first <- get_firstNode this;;
    first <- nonNull first;;
    remove this first;;;
    ret (Some value)
  end.

Definition unshift (this : ListRef) (item : ItemT) : M Store NodeRef :=
  prepend this item.

(** [for (let i = 0; i < bound && current; i += 1) current = current[NEXT]],
    the counter running over the integers below [bound]. *)
Fixpoint walkNext (bound : nat) (current : option NodeRef)
    : M Store (option NodeRef) :=
  match bound, current with
  | S bound', Some c => nx <- get_NEXT c;; walkNext bound' nx
  | _, _ => ret current
  end.

Fixpoint walkPrev (bound : nat) (current : option NodeRef)
    : M Store (option NodeRef) :=
  match bound, current with
  | S bound', Some c => pv <- get_PREV c;; walkPrev bound' pv
  | _, _ => ret current
  end.

Definition getNodeAt (this : ListRef) (index : Z) : M Store (option NodeRef) :=
  length <- get_length this;;
  let actualIndex := if index <? 0 then length + index else index in
  if (actualIndex <? 0) || (actualIndex >=? length) then ret None
  else
    let fromHead := actualIndex in
    let fromTail := length - 1 - actualIndex in
    if fromHead <=? fromTail then
      current <- get_firstNode this;;
      walkNext (Z.to_nat fromHead) current
    else
      current <- get_lastNode this;;
      walkPrev (Z.to_nat fromTail) current.

Definition get (this : ListRef) (index : Z) : M Store (option ItemT) :=
  node <- getNodeAt this index;;
  match node with
  | Some n => v <- get_VALUE n;; ret (Some v)
  | None => ret None
  end.

(** The deletion loop of [splice]:
    [for (let i = 0; i < deleteCount && nodeToRemove; i += 1)]. *)
Fixpoint splice_delete (this removed : ListRef) (count : nat)
    (nodeToRemove : option NodeRef) : M Store (option NodeRef) :=
  match count, nodeToRemove with
  | S count', Some n =>
    nextNode <- get_NEXT n;;
    v <- get_VALUE n;;
    append removed v;;;
    remove this n;;;
    splice_delete this removed count' nextNode
  | _, _ => ret nodeToRemove
  end.

(** The insertion loop of [splice] when a node follows the deleted span. *)
Fixpoint splice_insert (this : ListRef) (nodeToRemove : NodeRef)
    (lastInserted : option NodeRef) (items : list ItemT) : M Store unit :=
  match items with
  | [] => ret tt
  | item :: rest =>
    lastInserted' <-
      match lastInserted with
      | Some li => insertAfterNode this li item
      | None => insertBeforeNode this nodeToRemove item
      end;;
    splice_insert this nodeToRemove lastInserted' rest
  end.

(** [splice] once [start] is normalised to [startNode]. *)
Definition splice_from (this : ListRef) (startNode : option NodeRef)
    (deleteCount : Z) (items : list ItemT) : M Store ListRef :=
  removed <- constructor [];;
  nodeToRemove <- splice_delete this removed (Z.to_nat deleteCount) startNode;;
  (if 0 <? Z.of_nat (List.length items) then
     match nodeToRemove with
     | Some n => splice_insert this n None items
     | None => appendAll this items
     end
   else ret tt);;;
  ret removed.

Definition splice (this : ListRef) (start : SpliceStart) (deleteCount : Z)
    (items : list ItemT) : M Store ListRef :=
  match start with
  | StartUndefined => splice_from this None deleteCount items
  | StartNumber start =>
    length <- get_length this;;
    let actualStart :=
      if start <? 0 then Z.max 0 (length + start) else Z.min start length in
    startNode <- (if actualStart >=? length then ret None
                  else getNodeAt this actualStart);;
    splice_from this startNode deleteCount items
  | StartNode start =>
    owner <- get_LIST start;;
    if decide (owner ≠ Some this) then constructor []
    else splice_from this (Some start) deleteCount items
  end.

(** *** The node accessors

    The exported functions that read a node, each [node?.[FIELD]]. *)

Definition getNodeList (node : option NodeRef) : M Store (option ListRef) :=
  match node with
  | None => ret None
  | Some n => get_LIST n
  end.

Definition getNodeValue (node : option NodeRef) : M Store (option ItemT) :=
  match node with
  | None => ret None
  | Some n => v <- get_VALUE n;; ret (Some v)
  end.

Definition getPreviousNode (node : option NodeRef) : M Store (option NodeRef) :=
  match node with
  | None => ret None
  | Some n => get_PREV n
  end.

Definition getNextNode (node : option NodeRef) : M Store (option NodeRef) :=
  match node with
  | None => ret None
  | Some n => get_NEXT n
  end.

(** [[...list]], that is [for (const x of list) out.push(x)]: the iterator
    is made, and its [next()] is called until it says [done]. *)
Fixpoint spread_loop (fuel : nat) (current : option NodeRef)
    (out : list ItemT) : M Store (list ItemT) :=
  match fuel with
  | O => throw OutOfFuel
  | S fuel' =>
    r <- iterator_next current;;
    match snd r with
    | None => ret out
    | Some v => spread_loop fuel' (fst r) (out ++ [v])
    end
  end.

Definition spread (fuel : nat) (this : ListRef) : M Store (list ItemT) :=
  current <- iterator this;;
  spread_loop fuel current [].

End Impl.

(** *** Representation of a list in the store *)

Section Repr.
Context {ItemT : Type}.
Abbreviation Node := (@DoubleLinkedListNode ItemT).
Abbreviation Store := (@Store ItemT).
Local Close Scope Z_scope.

(** The chain of a list, head to tail: node reference and value. *)
Abbreviation Cells := (list (NodeRef * ItemT)%type).

Definition firstRef (cs : Cells) (dflt : option NodeRef) : option NodeRef :=
  match cs with
  | [] => dflt
  | c :: _ => Some c.1
  end.

Definition lastRef (cs : Cells) (dflt : option NodeRef) : option NodeRef :=
  match last cs with
  | None => dflt
  | Some c => Some c.1
  end.

(** The reference of the [i]-th cell, if any. *)
Definition refAt (cs : Cells) (i : nat) : option NodeRef := fst <$> cs !! i.

(** The node [getNodeAt] is specified to return: the one at the normalised
    index, counted from the head. *)
Definition nodeAt (cs : Cells) (index : Z) : option NodeRef :=
  let len := Z.of_nat (List.length cs) in
  let actualIndex := if (index <? 0)%Z then (len + index)%Z else index in
  if ((actualIndex <? 0) || (actualIndex >=? len))%Z then None
  else refAt cs (Z.to_nat actualIndex).

(** The values [map] produces from the values [vs], the first of them
    standing at position [index]. *)
Fixpoint mapFrom (callback : ItemT → Z → ItemT) (vs : list ItemT)
    (index : Z) : list ItemT :=
  match vs with
  | [] => []
  | v :: rest => callback v index :: mapFrom callback rest (index + 1)%Z
  end.

(** The value [find] returns over the values [vs]. *)
Fixpoint findFrom (predicate : ItemT → Z → bool) (vs : list ItemT)
    (index : Z) : option ItemT :=
  match vs with
  | [] => None
  | v :: rest =>
    if predicate v index then Some v
    else findFrom predicate rest (index + 1)%Z
  end.

(** What a scan for [x] over the values [vs] finds, the first of them
    standing at position [index]: the position of the first value that is
    [===] to [x], or [-1]. *)
Fixpoint scanFrom (strictEq : ItemT → ItemT → bool) (x : ItemT)
    (vs : list ItemT) (index : Z) : Z :=
  match vs with
  | [] => (-1)%Z
  | v :: rest =>
    if strictEq v x then index else scanFrom strictEq x rest (index + 1)%Z
  end.

(** [seg h L prev cs nxt]: the nodes of [cs] are owned by [L], carry the
    values of [cs], and are linked to each other in both directions, the
    first one pointing back to [prev] and the last one forward to [nxt]. *)
Fixpoint seg (h : list Node) (L : ListRef) (prev : option NodeRef)
    (cs : Cells) (nxt : option NodeRef) : Prop :=
  match cs with
  | [] => True
  | c :: rest =>
    h !! c.1 = Some (mkNode (Some L) c.2 prev (firstRef rest nxt))
    ∧ seg h L (Some c.1) rest nxt
  end.

(** [repr s L cs]: in store [s] the list object [L] holds exactly the
    chain [cs], and no other node claims [L] as its owner. *)
Record repr (s : Store) (L : ListRef) (cs : Cells) : Prop := mkRepr {
  repr_list :
    lists s !! L
    = Some (mkList (firstRef cs None) (lastRef cs None) (Z.of_nat (List.length cs)));
  repr_nodup : NoDup cs.*1;
  repr_seg : seg (nodes s) L None cs None;
  repr_owned : ∀ n nd, nodes s !! n = Some nd → LIST nd = Some L → n ∈ cs.*1
}.

(** The sequence of values a list holds. *)
Definition holds (s : Store) (L : ListRef) (vs : list ItemT) : Prop :=
  ∃ cs, repr s L cs ∧ cs.*2 = vs.

(** Owners are allocated lists. *)
Definition owner_valid (s : Store) : Prop :=
  ∀ n nd L, nodes s !! n = Some nd → LIST nd = Some L → L < List.length (lists s).

(** The store invariant: every list object is represented. *)
Definition Inv (s : Store) : Prop :=
  owner_valid s ∧ ∀ L, L < List.length (lists s) → ∃ cs, repr s L cs.

(** [modifies L s s']: going from [s] to [s'] only list [L] and nodes that
    belong to it were touched; the nodes that left [L] have no owner. *)
Record modifies (L : ListRef) (s s' : Store) : Prop := mkModifies {
  mod_lists_len : List.length (lists s') = List.length (lists s);
  mod_lists : ∀ L', L' ≠ L → lists s' !! L' = lists s !! L';
  mod_nodes_len : List.length (nodes s) ≤ List.length (nodes s');
  mod_keep : ∀ n nd, nodes s !! n = Some nd → LIST nd ≠ Some L →
                     nodes s' !! n = Some nd;
  mod_back : ∀ n nd, nodes s' !! n = Some nd → LIST nd ≠ Some L →
                     LIST nd ≠ None → nodes s !! n = Some nd
}.

(** [within X s s']: going from [s] to [s'] only the lists of [X], lists
    allocated on the way and the nodes that belong to those were touched. *)
Record within (X : list ListRef) (s s' : Store) : Prop := mkWithin {
  mod_lists_len' : List.length (lists s) ≤ List.length (lists s');
  mod_lists' : ∀ L', L' ∉ X → L' < List.length (lists s) →
                     lists s' !! L' = lists s !! L';
  mod_nodes_len' : List.length (nodes s) ≤ List.length (nodes s');
  mod_keep' : ∀ n nd, nodes s !! n = Some nd →
                      (∀ L, LIST nd = Some L → L ∉ X) →
                      nodes s' !! n = Some nd;
  mod_back' : ∀ n nd L, nodes s' !! n = Some nd → LIST nd = Some L →
                        L ∉ X → nodes s !! n = Some nd
}.

(** A computation that leaves the store as it found it. *)
Definition readonly {A} (m : M Store A) : Prop :=
  ∀ s a s', m s = Ok a s' → s' = s.

(** Where [splice] starts, as a number of cells from the head: the length
    for [undefined], the clamped index for a number, the position of the node
    for a node of the chain.  A node that is not in the chain has none. *)
Definition clampStart (len start : Z) : Z :=
  if (start <? 0)%Z then Z.max 0 (len + start) else Z.min start len.

Inductive resolves (cs : Cells) : SpliceStart → nat → Prop :=
| resolves_undefined : resolves cs StartUndefined (List.length cs)
| resolves_number start :
    resolves cs (StartNumber start)
      (Z.to_nat (clampStart (Z.of_nat (List.length cs)) start))
| resolves_node n p : refAt cs p = Some n → resolves cs (StartNode n) p.

(** The store [s] with one more list object, empty. *)
Definition withNewList (s : Store) : Store :=
  mkStore (nodes s) (lists s ++ [mkList None None 0]).

(** [kept s s']: every object of [s] is an object of [s']; a node has the
    value it had, and the owner it had or none. *)
Record kept (s s' : Store) : Prop := mkKept {
  kept_lists_len : List.length (lists s) ≤ List.length (lists s');
  kept_nodes_len : List.length (nodes s) ≤ List.length (nodes s');
  kept_node : ∀ n nd, nodes s !! n = Some nd →
    ∃ nd', nodes s' !! n = Some nd' ∧ VALUE nd' = VALUE nd
           ∧ (LIST nd' = LIST nd ∨ LIST nd' = None)
}.

(** A computation that keeps the objects it finds. *)
Definition keeps {A} (m : M Store A) : Prop :=
  ∀ s a s', m s = Ok a s' → kept s s'.

End Repr.
End V2.

(** ** The class-node implementation

    The variant of the list whose nodes are instances of a
    [DoubleLinkedListNode] class and which caches the array form in
    [allValues].  An array is a value here: [Object.freeze] keeps the
    callers from changing the one that is cached. *)

Module V1.
Section Impl.
Context {ItemT : Type}.
(** [a === b] on items. *)
Variable strictEq : ItemT → ItemT → bool.

(** The field [list] of the source is [node_list] here. *)
Record DoubleLinkedListNode := mkNode {
  node_list : option ListRef;
  value : ItemT;
  previousNode : option NodeRef;
  nextNode : option NodeRef
}.

Record DoubleLinkedList := mkList {
  allValues : option (list ItemT);
  firstNode : option NodeRef;
  lastNode : option NodeRef;
  length : Z
}.

Record Store := mkStore {
  nodes : list DoubleLinkedListNode;
  lists : list DoubleLinkedList
}.

Definition emptyStore : Store := mkStore [] [].

(** *** Object access *)

Definition readNode (n : NodeRef) : M Store DoubleLinkedListNode :=
  λ s, match nodes s !! n with
       | Some nd => Ok nd s
       | None => Throw DanglingRef
       end.

Definition writeNode (n : NodeRef) (nd : DoubleLinkedListNode) : M Store unit :=
  λ s, Ok tt (mkStore (<[n := nd]> (nodes s)) (lists s)).

Definition allocNode (nd : DoubleLinkedListNode) : M Store NodeRef :=
  λ s, Ok (List.length (nodes s)) (mkStore (nodes s ++ [nd]) (lists s)).

Definition readList (this : ListRef) : M Store DoubleLinkedList :=
  λ s, match lists s !! this with
       | Some l => Ok l s
       | None => Throw DanglingRef
       end.

Definition writeList (this : ListRef) (l : DoubleLinkedList) : M Store unit :=
  λ s, Ok tt (mkStore (nodes s) (<[this := l]> (lists s))).

Definition allocList (l : DoubleLinkedList) : M Store ListRef :=
  λ s, Ok (List.length (lists s)) (mkStore (nodes s) (lists s ++ [l])).

Definition get_list n : M Store (option ListRef) := nd <- readNode n;; ret (node_list nd).
Definition get_value n : M Store ItemT := nd <- readNode n;; ret (value nd).
Definition get_previousNode n : M Store (option NodeRef) := nd <- readNode n;; ret (previousNode nd).
Definition get_nextNode n : M Store (option NodeRef) := nd <- readNode n;; ret (nextNode nd).

Definition set_list n (v : option ListRef) : M Store unit :=
  nd <- readNode n;; writeNode n (mkNode v (value nd) (previousNode nd) (nextNode nd)).
Definition set_previousNode n (v : option NodeRef) : M Store unit :=
  nd <- readNode n;; writeNode n (mkNode (node_list nd) (value nd) v (nextNode nd)).
Definition set_nextNode n (v : option NodeRef) : M Store unit :=
  nd <- readNode n;; writeNode n (mkNode (node_list nd) (value nd) (previousNode nd) v).

Definition get_firstNode this : M Store (option NodeRef) := l <- readList this;; ret (firstNode l).
Definition get_lastNode this : M Store (option NodeRef) := l <- readList this;; ret (lastNode l).
Definition get_length this : M Store Z := l <- readList this;; ret (length l).

Definition get_allValues this : M Store (option (list ItemT)) :=
  l <- readList this;; ret (allValues l).

Definition set_allValues this (v : option (list ItemT)) : M Store unit :=
  l <- readList this;; writeList this (mkList v (firstNode l) (lastNode l) (length l)).
Definition set_firstNode this (v : option NodeRef) : M Store unit :=
  l <- readList this;; writeList this (mkList (allValues l) v (lastNode l) (length l)).
Definition set_lastNode this (v : option NodeRef) : M Store unit :=
  l <- readList this;; writeList this (mkList (allValues l) (firstNode l) v (length l)).
Definition set_length this (v : Z) : M Store unit :=
  l <- readList this;; writeList this (mkList (allValues l) (firstNode l) (lastNode l) v).

(** *** Methods *)

Definition getLength (this : ListRef) : M Store Z := get_length this.

Definition isEmpty (this : ListRef) : M Store bool :=
  f <- get_firstNode this;; ret (bool_decide (f = None)).

Definition append (this : ListRef) (item : ItemT) : M Store NodeRef :=
  newNode <- allocNode (mkNode (Some this) item None None);;
  first <- get_firstNode this;;
  match first with
  | None =>
    set_firstNode this (Some newNode);;;
    set_lastNode this (Some newNode)
  | Some _ =>
    last <- get_lastNode this;;
    set_previousNode newNode last;;;
    last <- get_lastNode this;;
    last <- nonNull last;;
    set_nextNode last (Some newNode);;;
    set_lastNode this (Some newNode)
  end;;;
  set_allValues this None;;;
  len <- get_length this;;
  set_length this (len + 1);;;
  ret newNode.

Definition prepend (this : ListRef) (item : ItemT) : M Store NodeRef :=
  newNode <- allocNode (mkNode (Some this) item None None);;
  first <- get_firstNode this;;
  match first with
  | None =>
    set_firstNode this (Some newNode);;;
    set_lastNode this (Some newNode)
  | Some _ =>
    first <- get_firstNode this;;
    set_nextNode newNode first;;;
    first <- get_firstNode this;;
    first <- nonNull first;;
    set_previousNode first (Some newNode);;;
    set_firstNode this (Some newNode)
  end;;;
  set_allValues this None;;;
  len <- get_length this;;
  set_length this (len + 1);;;
  ret newNode.

(** [for (const item of items) this.append(item)] *)
Fixpoint appendAll (this : ListRef) (items : list ItemT) : M Store unit :=
  match items with
  | [] => ret tt
  | item :: rest => append this item;;; appendAll this rest
  end.

(** [new DoubleLinkedList(...items)] *)
Definition constructor (items : list ItemT) : M Store ListRef :=
  this <- allocList (mkList None None None 0);;
  appendAll this items;;;
  ret this.

(** The branches of [remove] after the wrong-list test. *)
Definition remove_unlink (this : ListRef) (node : NodeRef) : M Store unit :=
  first <- get_firstNode this;;
  if decide (Some node = first) then
    nx <- get_nextNode node;;
    set_firstNode this nx;;;
    first <- get_firstNode this;;
    match first with
    | Some f => set_previousNode f None
    | None => set_lastNode this None
    end
  else
    last <- get_lastNode this;;
    if decide (Some node = last) then
      pv <- get_previousNode node;;
      set_lastNode this pv;;;
      last <- get_lastNode this;;
      match last with
      | Some l => set_nextNode l None
      | None => set_firstNode this None
      end
    else
      pv <- get_previousNode node;;
      p <- nonNull pv;;
      nx <- get_nextNode node;;
      set_nextNode p nx;;;
      nx <- get_nextNode node;;
      x <- nonNull nx;;
      pv <- get_previousNode node;;
      set_previousNode x pv.

Definition remove (this : ListRef) (node : NodeRef) : M Store bool :=
  owner <- get_list node;;
  if decide (owner ≠ Some this) then ret false
  else
    remove_unlink this node;;;
    set_previousNode node None;;;
    set_nextNode node None;;;
    set_list node None;;;
    set_allValues this None;;;
    len <- get_length this;;
    set_length this (len - 1);;;
    ret true.

(** [while (this.firstNode !== undefined) this.remove(this.firstNode)] *)
Fixpoint clear (fuel : nat) (this : ListRef) : M Store unit :=
  match fuel with
  | O => throw OutOfFuel
  | S fuel' =>
    first <- get_firstNode this;;
    match first with
    | None => ret tt
    | Some n => remove this n;;; clear fuel' this
    end
  end.

Definition getHead (this : ListRef) : M Store (option NodeRef) := get_firstNode this.
Definition getTail (this : ListRef) : M Store (option NodeRef) := get_lastNode this.

(** The loop of [toArray]: [output.push(cursor.value)]. *)
Fixpoint toArray_loop (fuel : nat) (output : list ItemT)
    (cursor : option NodeRef) : M Store (list ItemT) :=
  match fuel with
  | O => throw OutOfFuel
  | S fuel' =>
    match cursor with
    | None => ret output
    | Some c =>
      v <- get_value c;;
      nx <- get_nextNode c;;
      toArray_loop fuel' (output ++ [v]) nx
    end
  end.

(** [toArray]: the cached array when there is one (the test and the
    [return] read the same field, nothing running in between); otherwise
    the values are collected, and cached. *)
Definition toArray (fuel : nat) (this : ListRef) : M Store (list ItemT) :=
  cached <- get_allValues this;;
  match cached with
  | Some values => ret values
  | None =>
    cursor <- get_firstNode this;;
    output <- toArray_loop fuel [] cursor;;
    set_allValues this (Some output);;;
    ret output
  end.

Definition insertAfterNode (this : ListRef) (node : NodeRef) (item : ItemT)
    : M Store (option NodeRef) :=
  owner <- get_list node;;
  if decide (owner ≠ Some this) then ret None
  else
    newNode <- allocNode (mkNode (Some this) item None None);;
    owner <- get_list node;;
    last <- match owner with
            | Some l => get_lastNode l
            | None => throw TypeError
            end;;
    (if decide (last = Some node) then set_lastNode this (Some newNode)
     else ret tt);;;
    set_previousNode newNode (Some node);;;
    nx <- get_nextNode node;;
    match nx with
    | Some _ =>
      nx <- get_nextNode node;;
      set_nextNode newNode nx;;;
      nx <- get_nextNode node;;
      x <- nonNull nx;;
      set_previousNode x (Some newNode)
    | None => ret tt
    end;;;
    set_nextNode node (Some newNode);;;
    set_allValues this None;;;
    len <- get_length this;;
    set_length this (len + 1);;;
    ret (Some newNode).

Definition insertBeforeNode (this : ListRef) (node : NodeRef) (item : ItemT)
    : M Store (option NodeRef) :=
  owner <- get_list node;;
  if decide (owner ≠ Some this) then ret None
  else
    newNode <- allocNode (mkNode (Some this) item None None);;
    owner <- get_list node;;
    first <- match owner with
             | Some l => get_firstNode l
             | None => throw TypeError
             end;;
    (if decide (first = Some node) then set_firstNode this (Some newNode)
     else ret tt);;;
    set_nextNode newNode (Some node);;;
    pv <- get_previousNode node;;
    match pv with
    | Some _ =>
      pv <- get_previousNode node;;
      set_previousNode newNode pv;;;
      pv <- get_previousNode node;;
      p <- nonNull pv;;
      set_nextNode p (Some newNode)
    | None => ret tt
    end;;;
    set_previousNode node (Some newNode);;;
    set_allValues this None;;;
    len <- get_length this;;
    set_length this (len + 1);;;
    ret (Some newNode).

(** [[Symbol.iterator]()], the iterator being its variable [current]. *)
Definition iterator (this : ListRef) : M Store (option NodeRef) :=
  get_firstNode this.

Definition iterator_next (current : option NodeRef)
    : M Store (option NodeRef * option ItemT) :=
  match current with
  | None => ret (None, None)
  | Some c =>
    value <- get_value c;;
    nx <- get_nextNode c;;
    ret (nx, Some value)
  end.

(** In [forEach], [map] and [find] the callback is a function of the value
    and the index. *)
Fixpoint forEach_loop (fuel : nat) (callback : ItemT → Z → unit)
    (index : Z) (cursor : option NodeRef) : M Store unit :=
  match fuel with
  | O => throw OutOfFuel
  | S fuel' =>
    match cursor with
    | None => ret tt
    | Some c =>
      v <- get_value c;;
      ret (callback v index);;;
      nx <- get_nextNode c;;
      forEach_loop fuel' callback (index + 1) nx
    end
  end.

Definition forEach (fuel : nat) (this : ListRef)
    (callback : ItemT → Z → unit) : M Store unit :=
  cursor <- get_firstNode this;;
  forEach_loop fuel callback 0 cursor.

Fixpoint map_loop (fuel : nat) (result : ListRef)
    (callback : ItemT → Z → ItemT) (index : Z) (cursor : option NodeRef)
    : M Store unit :=
  match fuel with
  | O => throw OutOfFuel
  | S fuel' =>
    match cursor with
    | None => ret tt
    | Some c =>
      v <- get_value c;;
      append result (callback v index);;;
      nx <- get_nextNode c;;
      map_loop fuel' result callback (index + 1) nx
    end
  end.

Definition map (fuel : nat) (this : ListRef)
    (callback : ItemT → Z → ItemT) : M Store ListRef :=
  result <- constructor [];;
  cursor <- get_firstNode this;;
  map_loop fuel result callback 0 cursor;;;
  ret result.

Fixpoint find_loop (fuel : nat) (predicate : ItemT → Z → bool)
    (index : Z) (cursor : option NodeRef) : M Store (option ItemT) :=
  match fuel with
  | O => throw OutOfFuel
  | S fuel' =>
    match cursor with
    | None => ret None
    | Some c =>
      v <- get_value c;;
      if predicate v index then
        v <- get_value c;; ret (Some v)
      else
        nx <- get_nextNode c;;
        find_loop fuel' predicate (index + 1) nx
    end
  end.

Definition find (fuel : nat) (this : ListRef)
    (predicate : ItemT → Z → bool) : M Store (option ItemT) :=
  cursor <- get_firstNode this;;
  find_loop fuel predicate 0 cursor.

(** The first loop of [indexOf]:
    [while (cursor !== undefined && index < fromIndex)]. *)
Fixpoint indexOf_skip (fuel : nat) (fromIndex : Z) (cursor : option NodeRef)
    (index : Z) : M Store (option NodeRef * Z) :=
  match fuel with
  | O => throw OutOfFuel
  | S fuel' =>
    match cursor with
    | Some c =>
      if index <? fromIndex then
        nx <- get_nextNode c;;
        indexOf_skip fuel' fromIndex nx (index + 1)
      else ret (cursor, index)
    | None => ret (cursor, index)
    end
  end.

(** The second loop of [indexOf]. *)
Fixpoint indexOf_scan (fuel : nat) (searchElement : ItemT)
    (cursor : option NodeRef) (index : Z) : M Store Z :=
  match fuel with
  | O => throw OutOfFuel
  | S fuel' =>
    match cursor with
    | None => ret (-1)
    | Some c =>
      v <- get_value c;;
      if strictEq v searchElement then ret index
      else
        nx <- get_nextNode c;;
        indexOf_scan fuel' searchElement nx (index + 1)
    end
  end.

Definition indexOf (fuel : nat) (this : ListRef) (searchElement : ItemT)
    (fromIndex : Z) : M Store Z :=
  cursor <- get_firstNode this;;
  r <- indexOf_skip fuel fromIndex cursor 0;;
  indexOf_scan fuel searchElement (fst r) (snd r).

Definition includes (fuel : nat) (this : ListRef) (searchElement : ItemT)
    (fromIndex : Z) : M Store bool :=
  i <- indexOf fuel this searchElement fromIndex;;
  ret (negb (i =? -1)).

Definition push (this : ListRef) (item : ItemT) : M Store NodeRef :=
  append this item.

Definition pop (this : ListRef) : M Store (option ItemT) :=
  last <- get_lastNode this;;
  match last with
  | None => ret None
  | Some _ =>
    last <- get_lastNode this;;
    last <- nonNull last;;
    value <- get_value last;;
    last <- get_lastNode this;;
    last <- nonNull last;;
    remove this last;;;
    ret (Some value)
  end.

Definition shift (this : ListRef) : M Store (option ItemT) :=
  first <- get_firstNode this;;
  match first with
  | None => ret None
  | Some _ =>
    first <- get_firstNode this;;
    first <- nonNull first;;
    value <- get_value first;;
    first <- get_firstNode this;;
    first <- nonNull first;;
    remove this first;;;
    ret (Some value)
  end.

Definition unshift (this : ListRef) (item : ItemT) : M Store NodeRef :=
  prepend this item.

(** [for (let i = 0; i < bound && current; i += 1) current = current.nextNode],
    the counter running over the integers below [bound]. *)
Fixpoint walkNext (bound : nat) (current : option NodeRef)
    : M Store (option NodeRef) :=
  match bound, current with
  | S bound', Some c => nx <- get_nextNode c;; walkNext bound' nx
  | _, _ => ret current
  end.

Fixpoint walkPrev (bound : nat) (current : option NodeRef)
    : M Store (option NodeRef) :=
  match bound, current with
  | S bound', Some c => pv <- get_previousNode c;; walkPrev bound' pv
  | _, _ => ret current
  end.

Definition getNodeAt (this : ListRef) (index : Z) : M Store (option NodeRef) :=
  length <- get_length this;;
  let actualIndex := if index <? 0 then length + index else index in
  if (actualIndex <? 0) || (actualIndex >=? length) then ret None
  else
    let fromHead := actualIndex in
    let fromTail := length - 1 - actualIndex in
    if fromHead <=? fromTail then
      current <- get_firstNode this;;
      walkNext (Z.to_nat actualIndex) current
    else
      current <- get_lastNode this;;
      walkPrev (Z.to_nat fromTail) current.

Definition get (this : ListRef) (index : Z) : M Store (option ItemT) :=
  node <- getNodeAt this index;;
  match node with
  | Some n => v <- get_value n;; ret (Some v)
  | None => ret None
  end.

(** The deletion loop of [splice]:
    [for (let i = 0; i < actualDeleteCount && nodeToRemove; i += 1)]. *)
Fixpoint splice_delete (this removed : ListRef) (count : nat)
    (nodeToRemove : option NodeRef) : M Store (option NodeRef) :=
  match count, nodeToRemove with
  | S count', Some n =>
    nextNode <- get_nextNode n;;
    v <- get_value n;;
    append removed v;;;
    remove this n;;;
    splice_delete this removed count' nextNode
  | _, _ => ret nodeToRemove
  end.

(** The insertion loop of [splice] when a node follows the deleted span. *)
Fixpoint splice_insert (this : ListRef) (nodeToRemove : NodeRef)
    (lastInserted : option NodeRef) (items : list ItemT) : M Store unit :=
  match items with
  | [] => ret tt
  | item :: rest =>
    lastInserted' <-
      match lastInserted with
      | Some li => insertAfterNode this li item
      | None => insertBeforeNode this nodeToRemove item
      end;;
    splice_insert this nodeToRemove lastInserted' rest
  end.

(** [splice] once [start] is normalised to [startNode]. *)
Definition splice_from (this : ListRef) (startNode : option NodeRef)
    (deleteCount : Z) (items : list ItemT) : M Store ListRef :=
  removed <- constructor [];;
  let actualDeleteCount := Z.max 0 deleteCount in
  nodeToRemove <-
    splice_delete this removed (Z.to_nat actualDeleteCount) startNode;;
  (if 0 <? Z.of_nat (List.length items) then
     match nodeToRemove with
     | Some n => splice_insert this n None items
     | None => appendAll this items
     end
   else ret tt);;;
  ret removed.

Definition splice (this : ListRef) (start : SpliceStart) (deleteCount : Z)
    (items : list ItemT) : M Store ListRef :=
  match start with
  | StartUndefined => splice_from this None deleteCount items
  | StartNumber start =>
    length <- get_length this;;
    let actualStart :=
      if start <? 0 then Z.max 0 (length + start) else Z.min start length in
    startNode <- (if actualStart >=? length then ret None
                  else getNodeAt this actualStart);;
    splice_from this startNode deleteCount items
  | StartNode start =>
    owner <- get_list start;;
    if decide (owner ≠ Some this) then constructor []
    else splice_from this (Some start) deleteCount items
  end.

End Impl.

Section Closed.
Context {ItemT : Type}.
Local Close Scope Z_scope.

(** A reference held somewhere in the store points to an allocated node. *)
Definition refOk (s : @Store ItemT) (o : option NodeRef) : Prop :=
  match o with
  | Some n => n < List.length (nodes s)
  | None => True
  end.

(** No object of the store holds a dangling reference; JavaScript
    guarantees it. *)
Definition closed (s : @Store ItemT) : Prop :=
  Forall (λ nd, refOk s (previousNode nd) ∧ refOk s (nextNode nd)) (nodes s)
  ∧ Forall (λ l, refOk s (firstNode l) ∧ refOk s (lastNode l)) (lists s).

(** The store [s] with one more list object, empty. *)
Definition withNewList (s : @Store ItemT) : Store :=
  mkStore (nodes s) (lists s ++ [mkList None None None 0]).

End Closed.
End V1.

(** ** Operation sequences and well-formedness *)

Module V2Spec.
Import V2.
Section Spec.
Context {ItemT : Type}.
Variable strictEq : ItemT → ItemT → bool.
Local Close Scope Z_scope.

(** The public operations, with their arguments. *)
Inductive Op :=
| OpConstructor (items : list ItemT)
| OpAppend (this : ListRef) (item : ItemT)
| OpPrepend (this : ListRef) (item : ItemT)
| OpInsertAfterNode (this : ListRef) (node : NodeRef) (item : ItemT)
| OpInsertBeforeNode (this : ListRef) (node : NodeRef) (item : ItemT)
| OpRemove (this : ListRef) (node : NodeRef)
| OpSplice (this : ListRef) (start : SpliceStart) (deleteCount : Z)
    (items : list ItemT)
| OpClear (this : ListRef)
| OpPop (this : ListRef)
| OpShift (this : ListRef)
| OpPush (this : ListRef) (item : ItemT)
| OpUnshift (this : ListRef) (item : ItemT)
| OpGet (this : ListRef) (index : Z)
| OpGetNodeAt (this : ListRef) (index : Z)
| OpToArray (this : ListRef)
| OpIndexOf (this : ListRef) (searchElement : ItemT) (fromIndex : Z)
| OpIncludes (this : ListRef) (searchElement : ItemT) (fromIndex : Z)
| OpGetLength (this : ListRef)
| OpIsEmpty (this : ListRef)
| OpGetHead (this : ListRef)
| OpGetTail (this : ListRef)
| OpForEach (this : ListRef) (callback : ItemT → Z → unit)
| OpMap (this : ListRef) (callback : ItemT → Z → ItemT)
| OpFind (this : ListRef) (predicate : ItemT → Z → bool)
| OpIterator (this : ListRef)
| OpIteratorNext (current : option NodeRef).

(** Runs a computation for its effect. *)
Definition void {A} (m : M (@Store ItemT) A) : M Store unit := m;;; ret tt.

Definition exec (fuel : nat) (op : Op) : M (@Store ItemT) unit :=
  match op with
  | OpConstructor items => void (constructor items)
  | OpAppend this item => void (append this item)
  | OpPrepend this item => void (prepend this item)
  | OpInsertAfterNode this node item => void (insertAfterNode this node item)
  | OpInsertBeforeNode this node item => void (insertBeforeNode this node item)
  | OpRemove this node => void (remove this node)
  | OpSplice this start deleteCount items =>
    void (splice this start deleteCount items)
  | OpClear this => void (clear fuel this)
  | OpPop this => void (pop this)
  | OpShift this => void (shift this)
  | OpPush this item => void (push this item)
  | OpUnshift this item => void (unshift this item)
  | OpGet this index => void (get this index)
  | OpGetNodeAt this index => void (getNodeAt this index)
  | OpToArray this => void (toArray fuel this)
  | OpIndexOf this x fromIndex => void (indexOf strictEq fuel this x fromIndex)
  | OpIncludes this x fromIndex => void (includes strictEq fuel this x fromIndex)
  | OpGetLength this => void (getLength this)
  | OpIsEmpty this => void (isEmpty this)
  | OpGetHead this => void (getHead this)
  | OpGetTail this => void (getTail this)
  | OpForEach this callback => void (forEach fuel this callback)
  | OpMap this callback => void (map fuel this callback)
  | OpFind this predicate => void (find fuel this predicate)
  | OpIterator this => void (iterator this)
  | OpIteratorNext current => void (iterator_next current)
  end.

(** The list and node an operation is called with are objects of the
    store. *)
Definition thisOf (op : Op) : option ListRef :=
  match op with
  | OpConstructor _ => None
  | OpAppend this _ | OpPrepend this _ | OpInsertAfterNode this _ _
  | OpInsertBeforeNode this _ _ | OpRemove this _ | OpSplice this _ _ _
  | OpClear this | OpPop this | OpShift this | OpPush this _
  | OpUnshift this _ | OpGet this _ | OpGetNodeAt this _ | OpToArray this
  | OpIndexOf this _ _ | OpIncludes this _ _ | OpGetLength this
  | OpIsEmpty this | OpGetHead this | OpGetTail this | OpForEach this _
  | OpMap this _ | OpFind this _ | OpIterator this => Some this
  | OpIteratorNext _ => None
  end.

Definition nodeOf (op : Op) : option NodeRef :=
  match op with
  | OpInsertAfterNode _ node _ | OpInsertBeforeNode _ node _
  | OpRemove _ node | OpSplice _ (StartNode node) _ _ => Some node
  | OpIteratorNext current => current
  | _ => None
  end.

Definition argsOk (s : @Store ItemT) (op : Op) : Prop :=
  (∀ this, thisOf op = Some this → this < List.length (lists s))
  ∧ (∀ node, nodeOf op = Some node → node < List.length (nodes s)).

Definition argsOkb (s : @Store ItemT) (op : Op) : bool :=
  match thisOf op with
  | Some this => this <? List.length (lists s)
  | None => true
  end
  && match nodeOf op with
     | Some node => node <? List.length (nodes s)
     | None => true
     end.

(** Runs a sequence of operations, each on objects of the store it finds. *)
Fixpoint runOps (fuel : nat) (ops : list Op) (s : @Store ItemT)
    : option (@Store ItemT) :=
  match ops with
  | [] => Some s
  | op :: rest =>
    if argsOkb s op then
      match exec fuel op s with
      | Ok _ s' => runOps fuel rest s'
      | Throw _ => None
      end
    else None
  end.

(** The stores that a sequence of operations builds from nothing, each
    operation being called on objects of the store it runs in. *)
Inductive Reachable : @Store ItemT → Prop :=
| Reachable_empty : Reachable emptyStore
| Reachable_step s fuel op s' :
    Reachable s → argsOk s op → exec fuel op s = Ok tt s' → Reachable s'.

(** [nextCount h o k]: following [next] from [o] reaches [undefined] after
    exactly [k] nodes. *)
Inductive nextCount (h : list (@DoubleLinkedListNode ItemT))
    : option NodeRef → nat → Prop :=
| nextCount_end : nextCount h None 0
| nextCount_step n nd k :
    h !! n = Some nd → nextCount h (NEXT nd) k → nextCount h (Some n) (S k).

(** The same along [previous]. *)
Inductive prevCount (h : list (@DoubleLinkedListNode ItemT))
    : option NodeRef → nat → Prop :=
| prevCount_end : prevCount h None 0
| prevCount_step n nd k :
    h !! n = Some nd → prevCount h (PREV nd) k → prevCount h (Some n) (S k).

(** Well-formedness of the list object [l], which is the list [L] of the
    store. *)
Record WellFormed (s : @Store ItemT) (L : ListRef) (l : DoubleLinkedList)
    : Prop := mkWellFormed {
  wf_forward :
    ∃ k, length l = Z.of_nat k ∧ nextCount (nodes s) (firstNode l) k;
  wf_backward :
    ∃ k, length l = Z.of_nat k ∧ prevCount (nodes s) (lastNode l) k;
  wf_links :
    ∀ a b na nb,
      nodes s !! a = Some na → nodes s !! b = Some nb →
      LIST na = Some L → LIST nb = Some L →
      NEXT na = Some b ↔ PREV nb = Some a;
  wf_ends :
    length l ≠ 0%Z →
    ∃ hd tl nh nt,
      firstNode l = Some hd ∧ lastNode l = Some tl
      ∧ nodes s !! hd = Some nh ∧ nodes s !! tl = Some nt
      ∧ PREV nh = None ∧ NEXT nt = None;
  wf_empty :
    length l = 0%Z → firstNode l = None ∧ lastNode l = None
}.

End Spec.
End V2Spec.

(** ** The two implementations, side by side *)

Module Both.
Section Both.
Context {ItemT : Type}.
Variable strictEq : ItemT → ItemT → bool.
Local Close Scope Z_scope.

(** A class node as a tuple node, and a class-node list object without its
    cache. *)
Definition eraseNode (nd : @V1.DoubleLinkedListNode ItemT)
    : @V2.DoubleLinkedListNode ItemT :=
  V2.mkNode (V1.node_list nd) (V1.value nd) (V1.previousNode nd)
    (V1.nextNode nd).

Definition eraseList (l : @V1.DoubleLinkedList ItemT) : V2.DoubleLinkedList :=
  V2.mkList (V1.firstNode l) (V1.lastNode l) (V1.length l).

(** The tuple-node store that a class-node store stands for: the same
    objects under the same references, the caches left out. *)
Definition erase (s : @V1.Store ItemT) : @V2.Store ItemT :=
  V2.mkStore (eraseNode <$> V1.nodes s) (eraseList <$> V1.lists s).

(** A cached array is the values of its list. *)
Definition cacheOk (s : @V1.Store ItemT) : Prop :=
  ∀ L l a, V1.lists s !! L = Some l → V1.allValues l = Some a →
           V2.holds (erase s) L a.

(** The invariant of the class-node store. *)
Definition Inv1 (s : @V1.Store ItemT) : Prop := V2.Inv (erase s) ∧ cacheOk s.

(** What a call returns. *)
Inductive Result :=
| RUnit
| RBool (b : bool)
| RNumber (z : Z)
| RItem (v : option ItemT)
| RNode (n : option NodeRef)
| RList (L : ListRef)
| RArray (a : JsArray ItemT)
| RNext (current : option NodeRef) (v : option ItemT).

(** A call of the tuple-node implementation, with its result. *)
Definition call2 (fuel : nat) (op : @V2Spec.Op ItemT)
    : M (@V2.Store ItemT) Result :=
  match op with
  | V2Spec.OpConstructor items => L <- V2.constructor items;; ret (RList L)
  | V2Spec.OpAppend this item => n <- V2.append this item;; ret (RNode (Some n))
  | V2Spec.OpPrepend this item => n <- V2.prepend this item;; ret (RNode (Some n))
  | V2Spec.OpInsertAfterNode this node item =>
    n <- V2.insertAfterNode this node item;; ret (RNode n)
  | V2Spec.OpInsertBeforeNode this node item =>
    n <- V2.insertBeforeNode this node item;; ret (RNode n)
  | V2Spec.OpRemove this node => b <- V2.remove this node;; ret (RBool b)
  | V2Spec.OpSplice this start deleteCount items =>
    L <- V2.splice this start deleteCount items;; ret (RList L)
  | V2Spec.OpClear this => V2.clear fuel this;;; ret RUnit
  | V2Spec.OpPop this => v <- V2.pop this;; ret (RItem v)
  | V2Spec.OpShift this => v <- V2.shift this;; ret (RItem v)
  | V2Spec.OpPush this item => n <- V2.push this item;; ret (RNode (Some n))
  | V2Spec.OpUnshift this item => n <- V2.unshift this item;; ret (RNode (Some n))
  | V2Spec.OpGet this index => v <- V2.get this index;; ret (RItem v)
  | V2Spec.OpGetNodeAt this index => n <- V2.getNodeAt this index;; ret (RNode n)
  | V2Spec.OpToArray this => a <- V2.toArray fuel this;; ret (RArray a)
  | V2Spec.OpIndexOf this x fromIndex =>
    i <- V2.indexOf strictEq fuel this x fromIndex;; ret (RNumber i)
  | V2Spec.OpIncludes this x fromIndex =>
    b <- V2.includes strictEq fuel this x fromIndex;; ret (RBool b)
  | V2Spec.OpGetLength this => n <- V2.getLength this;; ret (RNumber n)
  | V2Spec.OpIsEmpty this => b <- V2.isEmpty this;; ret (RBool b)
  | V2Spec.OpGetHead this => n <- V2.getHead this;; ret (RNode n)
  | V2Spec.OpGetTail this => n <- V2.getTail this;; ret (RNode n)
  | V2Spec.OpForEach this callback => V2.forEach fuel this callback;;; ret RUnit
  | V2Spec.OpMap this callback => L <- V2.map fuel this callback;; ret (RList L)
  | V2Spec.OpFind this predicate => v <- V2.find fuel this predicate;; ret (RItem v)
  | V2Spec.OpIterator this => n <- V2.iterator this;; ret (RNode n)
  | V2Spec.OpIteratorNext current =>
    r <- V2.iterator_next current;; ret (RNext (fst r) (snd r))
  end.

(** The same call of the class-node implementation.  Its [toArray] gives
    an array without holes. *)
Definition call1 (fuel : nat) (op : @V2Spec.Op ItemT)
    : M (@V1.Store ItemT) Result :=
  match op with
  | V2Spec.OpConstructor items => L <- V1.constructor items;; ret (RList L)
  | V2Spec.OpAppend this item => n <- V1.append this item;; ret (RNode (Some n))
  | V2Spec.OpPrepend this item => n <- V1.prepend this item;; ret (RNode (Some n))
  | V2Spec.OpInsertAfterNode this node item =>
    n <- V1.insertAfterNode this node item;; ret (RNode n)
  | V2Spec.OpInsertBeforeNode this node item =>
    n <- V1.insertBeforeNode this node item;; ret (RNode n)
  | V2Spec.OpRemove this node => b <- V1.remove this node;; ret (RBool b)
  | V2Spec.OpSplice this start deleteCount items =>
    L <- V1.splice this start deleteCount items;; ret (RList L)
  | V2Spec.OpClear this => V1.clear fuel this;;; ret RUnit
  | V2Spec.OpPop this => v <- V1.pop this;; ret (RItem v)
  | V2Spec.OpShift this => v <- V1.shift this;; ret (RItem v)
  | V2Spec.OpPush this item => n <- V1.push this item;; ret (RNode (Some n))
  | V2Spec.OpUnshift this item => n <- V1.unshift this item;; ret (RNode (Some n))
  | V2Spec.OpGet this index => v <- V1.get this index;; ret (RItem v)
  | V2Spec.OpGetNodeAt this index => n <- V1.getNodeAt this index;; ret (RNode n)
  | V2Spec.OpToArray this => a <- V1.toArray fuel this;; ret (RArray (Some <$> a))
  | V2Spec.OpIndexOf this x fromIndex =>
    i <- V1.indexOf strictEq fuel this x fromIndex;; ret (RNumber i)
  | V2Spec.OpIncludes this x fromIndex =>
    b <- V1.includes strictEq fuel this x fromIndex;; ret (RBool b)
  | V2Spec.OpGetLength this => n <- V1.getLength this;; ret (RNumber n)
  | V2Spec.OpIsEmpty this => b <- V1.isEmpty this;; ret (RBool b)
  | V2Spec.OpGetHead this => n <- V1.getHead this;; ret (RNode n)
  | V2Spec.OpGetTail this => n <- V1.getTail this;; ret (RNode n)
  | V2Spec.OpForEach this callback => V1.forEach fuel this callback;;; ret RUnit
  | V2Spec.OpMap this callback => L <- V1.map fuel this callback;; ret (RList L)
  | V2Spec.OpFind this predicate => v <- V1.find fuel this predicate;; ret (RItem v)
  | V2Spec.OpIterator this => n <- V1.iterator this;; ret (RNode n)
  | V2Spec.OpIteratorNext current =>
    r <- V1.iterator_next current;; ret (RNext (fst r) (snd r))
  end.

(** A sequence of calls, each on objects of the store it finds; the
    results are collected. *)
Fixpoint calls2 (fuel : nat) (ops : list (@V2Spec.Op ItemT))
    (s : @V2.Store ItemT) : option (list Result * @V2.Store ItemT) :=
  match ops with
  | [] => Some ([], s)
  | op :: rest =>
    if V2Spec.argsOkb s op then
      match call2 fuel op s with
      | Ok r s' =>
        match calls2 fuel rest s' with
        | Some (rs, s'') => Some (r :: rs, s'')
        | None => None
        end
      | Throw _ => None
      end
    else None
  end.

Fixpoint calls1 (fuel : nat) (ops : list (@V2Spec.Op ItemT))
    (s : @V1.Store ItemT) : option (list Result * @V1.Store ItemT) :=
  match ops with
  | [] => Some ([], s)
  | op :: rest =>
    if V2Spec.argsOkb (erase s) op then
      match call1 fuel op s with
      | Ok r s' =>
        match calls1 fuel rest s' with
        | Some (rs, s'') => Some (r :: rs, s'')
        | None => None
        end
      | Throw _ => None
      end
    else None
  end.

(** [sim P m1 m2 Q]: from a class-node store that satisfies [P], whenever
    [m2] returns on the tuple-node store it stands for, [m1] returns the same
    result, in a store that stands for the one [m2] leaves and satisfies
    [Q]. *)
Definition sim {A} (P : @V1.Store ItemT → Prop) (m1 : M (@V1.Store ItemT) A)
    (m2 : M (@V2.Store ItemT) A) (Q : A → @V1.Store ItemT → Prop) : Prop :=
  ∀ s1 a s2', P s1 → m2 (erase s1) = Ok a s2' →
    ∃ s1', m1 s1 = Ok a s1' ∧ erase s1' = s2' ∧ Q a s1'.

(** The same for a computation that only reads: the store stays as it
    is. *)
Definition simr {A} (m1 : M (@V1.Store ItemT) A) (m2 : M (@V2.Store ItemT) A)
    : Prop :=
  ∀ u a t', m2 (erase u) = Ok a t' → m1 u = Ok a u ∧ t' = erase u.

(** The invariant, in a store of [k] list objects. *)
Definition InvN (k : nat) (u : @V1.Store ItemT) : Prop :=
  Inv1 u ∧ List.length (V1.lists u) = k.

End Both.
End Both.
(** ** Two small stores, to run the operations on *)

Module Examples.

(** [new DoubleLinkedList(1, 2, 3, 4)] and [new DoubleLinkedList(7, 8)]:
    the lists [0] and [1], the nodes [0] to [3] and [4], [5]. *)
Definition twoLists : @V2.Store Z :=
  Eval vm_compute in
    match (V2.constructor [1; 2; 3; 4];;; V2.constructor [7; 8]) V2.emptyStore with
    | Ok _ s => s
    | Throw _ => V2.emptyStore
    end.

(** The chain of list [0] in [twoLists]. *)
Definition chain0 : list (NodeRef * Z) :=
  [(0%nat, 1); (1%nat, 2); (2%nat, 3); (3%nat, 4)].

(** [twoLists] once node [1], which holds [2], is removed from list [0]. *)
Definition twoListsLess : @V2.Store Z :=
  Eval vm_compute in
    match V2.remove 0 1 twoLists with
    | Ok _ s => s
    | Throw _ => V2.emptyStore
    end.

(** A longer run, over every mutating operation, with nodes of the list
    itself, of the other list and removed ones as arguments. *)
Definition busyOps : list (@V2Spec.Op Z) :=
  [ V2Spec.OpConstructor [1; 2; 3];
    V2Spec.OpAppend 0 4;
    V2Spec.OpPrepend 0 0;
    V2Spec.OpInsertAfterNode 0 1 9;
    V2Spec.OpInsertBeforeNode 0 0 8;
    V2Spec.OpRemove 0 2;
    V2Spec.OpRemove 0 2;
    V2Spec.OpSplice 0 (StartNumber 1) 2 [5; 6];
    V2Spec.OpPop 0;
    V2Spec.OpShift 0;
    V2Spec.OpPush 0 7;
    V2Spec.OpUnshift 0 7;
    V2Spec.OpConstructor [10; 11];
    V2Spec.OpSplice 1 (StartNode 0) 1 [3];
    V2Spec.OpInsertAfterNode 1 2 12;
    V2Spec.OpSplice 0 (StartNode 0) 2 [13];
    V2Spec.OpSplice 0 StartUndefined 1 [14; 15];
    V2Spec.OpSplice 0 (StartNumber (-2)) 5 [];
    V2Spec.OpClear 1;
    V2Spec.OpPush 1 16;
    V2Spec.OpMap 0 (λ v i, v + i);
    V2Spec.OpIteratorNext (Some 3%nat) ].

Definition busyStore : @V2.Store Z :=
  Eval vm_compute in
    match V2Spec.runOps Z.eqb 20 busyOps V2.emptyStore with
    | Some s => s
    | None => V2.emptyStore
    end.

(** The same with the class nodes. *)
Definition twoLists1 : @V1.Store Z :=
  Eval vm_compute in
    match (V1.constructor [1; 2; 3; 4];;; V1.constructor [7; 8]) V1.emptyStore with
    | Ok _ s => s
    | Throw _ => V1.emptyStore
    end.

Definition twoLists1Less : @V1.Store Z :=
  Eval vm_compute in
    match V1.remove 0 1 twoLists1 with
    | Ok _ s => s
    | Throw _ => V1.emptyStore
    end.

(** A program over one list, the results of its calls, and the store it
    leaves in the tuple-node implementation. *)
Definition program : list (@V2Spec.Op Z) :=
  [ V2Spec.OpConstructor [1; 2; 3];
    V2Spec.OpToArray 0;
    V2Spec.OpPush 0 4;
    V2Spec.OpToArray 0;
    V2Spec.OpRemove 0 1;
    V2Spec.OpIndexOf 0 3 0;
    V2Spec.OpPop 0 ].

Definition programResults : list (@Both.Result Z) :=
  [ Both.RList 0;
    Both.RArray [Some 1; Some 2; Some 3];
    Both.RNode (Some 3%nat);
    Both.RArray [Some 1; Some 2; Some 3; Some 4];
    Both.RBool true;
    Both.RNumber 1;
    Both.RItem (Some 4) ].

Definition programStore : @V2.Store Z :=
  Eval vm_compute in
    match Both.calls2 Z.eqb 9 program V2.emptyStore with
    | Some (_, s) => s
    | None => V2.emptyStore
    end.

End Examples.

(** * Proofs *)

Close Scope Z_scope.

Ltac learn_lt :=
  repeat match goal with
  | H : ?l !! ?i = Some _ |- _ =>
    lazymatch goal with
    | _ : (i < List.length l)%nat |- _ => fail
    | _ => pose proof (lookup_lt_Some _ _ _ H)
    end
  end.

Ltac len := learn_lt; rewrite ?length_insert, ?length_app; simpl; lia.


(** ** The monad, for any store *)

Module MonadFacts.
Section MonadFacts.
Context {S : Type}.

Lemma bind_eq {A B} (m : M S A) (k : A → M S B) s a s' :
  m s = Ok a s' → bind m k s = k a s'.
Proof. unfold bind. by intros ->. Qed.

Lemma bind_inv {A B} (m : M S A) (k : A → M S B) s b s' :
  bind m k s = Ok b s' → ∃ a s1, m s = Ok a s1 ∧ k a s1 = Ok b s'.
Proof. unfold bind. destruct (m s) as [a s1|]; [eauto|done]. Qed.

Lemma Ok_inj {A} (a b : A) (s s' : S) :
  Ok a s = (Ok b s' : Res S A) → a = b ∧ s = s'.
Proof. by intros [= -> ->]. Qed.

Lemma bind_assoc {A B C} (m : M S A) (k : A → M S B) (k' : B → M S C) s :
  bind (bind m k) k' s = bind m (λ a, bind (k a) k') s.
Proof. unfold bind. by destruct (m s). Qed.

End MonadFacts.
End MonadFacts.

Module V2Facts.
Import V2.
Section Facts.
Context {ItemT : Type}.
Abbreviation Node := (@DoubleLinkedListNode ItemT).
Abbreviation Store := (@Store ItemT).
Abbreviation Cells := (list (NodeRef * ItemT)%type).
Implicit Types (h : list Node) (s : Store) (cs : Cells) (L this : ListRef)
  (n node : NodeRef).

(** ** The monad *)

Lemma wp_ret {A} (a : A) s Q : Q a s → wp (ret a) s Q.
Proof. done. Qed.

Lemma wp_bind {A B} (m : M Store A) (k : A → M Store B) s Q :
  wp m s (λ a s', wp (k a) s' Q) → wp (bind m k) s Q.
Proof. unfold wp, bind. by destruct (m s). Qed.

Lemma wp_mono {A} (m : M Store A) s (Q Q' : A → Store → Prop) :
  wp m s Q → (∀ a s', Q a s' → Q' a s') → wp m s Q'.
Proof. unfold wp. destruct (m s); naive_solver. Qed.

Lemma wp_elim {A} (m : M Store A) s Q :
  wp m s Q → ∃ a s', m s = Ok a s' ∧ Q a s'.
Proof. unfold wp. destruct (m s); naive_solver. Qed.

Lemma wp_elim_eq {A} (m : M Store A) s a s' :
  wp m s (λ r t, r = a ∧ t = s') → m s = Ok a s'.
Proof. unfold wp. destruct (m s); naive_solver. Qed.

Lemma wp_intro {A} (m : M Store A) s Q a s' :
  m s = Ok a s' → Q a s' → wp m s Q.
Proof. unfold wp. by intros ->. Qed.

Lemma wp_Ok {A} (m : M Store A) s Q a s' :
  m s = Ok a s' → wp m s Q → Q a s'.
Proof. unfold wp. by intros ->. Qed.

(** ** Object access *)

Lemma wp_get_LIST n nd s Q :
  nodes s !! n = Some nd → Q (LIST nd) s → wp (get_LIST n) s Q.
Proof. unfold wp, get_LIST, bind, readNode. by intros ->. Qed.

Lemma wp_get_VALUE n nd s Q :
  nodes s !! n = Some nd → Q (VALUE nd) s → wp (get_VALUE n) s Q.
Proof. unfold wp, get_VALUE, bind, readNode. by intros ->. Qed.

Lemma wp_get_PREV n nd s Q :
  nodes s !! n = Some nd → Q (PREV nd) s → wp (get_PREV n) s Q.
Proof. unfold wp, get_PREV, bind, readNode. by intros ->. Qed.

Lemma wp_get_NEXT n nd s Q :
  nodes s !! n = Some nd → Q (NEXT nd) s → wp (get_NEXT n) s Q.
Proof. unfold wp, get_NEXT, bind, readNode. by intros ->. Qed.

Lemma wp_set_LIST n v nd s Q :
  nodes s !! n = Some nd →
  Q tt (mkStore (<[n := mkNode v (VALUE nd) (PREV nd) (NEXT nd)]> (nodes s)) (lists s)) →
  wp (set_LIST n v) s Q.
Proof. unfold wp, set_LIST, bind, readNode. by intros ->. Qed.

Lemma wp_set_PREV n v nd s Q :
  nodes s !! n = Some nd →
  Q tt (mkStore (<[n := mkNode (LIST nd) (VALUE nd) v (NEXT nd)]> (nodes s)) (lists s)) →
  wp (set_PREV n v) s Q.
Proof. unfold wp, set_PREV, bind, readNode. by intros ->. Qed.

Lemma wp_set_NEXT n v nd s Q :
  nodes s !! n = Some nd →
  Q tt (mkStore (<[n := mkNode (LIST nd) (VALUE nd) (PREV nd) v]> (nodes s)) (lists s)) →
  wp (set_NEXT n v) s Q.
Proof. unfold wp, set_NEXT, bind, readNode. by intros ->. Qed.

Lemma wp_allocNode nd s Q :
  Q (List.length (nodes s)) (mkStore (nodes s ++ [nd]) (lists s)) →
  wp (allocNode nd) s Q.
Proof. done. Qed.

Lemma wp_allocList l s Q :
  Q (List.length (lists s)) (mkStore (nodes s) (lists s ++ [l])) →
  wp (allocList l) s Q.
Proof. done. Qed.

Lemma wp_get_firstNode this l s Q :
  lists s !! this = Some l → Q (firstNode l) s → wp (get_firstNode this) s Q.
Proof. unfold wp, get_firstNode, bind, readList. by intros ->. Qed.

Lemma wp_get_lastNode this l s Q :
  lists s !! this = Some l → Q (lastNode l) s → wp (get_lastNode this) s Q.
Proof. unfold wp, get_lastNode, bind, readList. by intros ->. Qed.

Lemma wp_get_length this l s Q :
  lists s !! this = Some l → Q (length l) s → wp (get_length this) s Q.
Proof. unfold wp, get_length, bind, readList. by intros ->. Qed.

Lemma wp_set_firstNode this v l s Q :
  lists s !! this = Some l →
  Q tt (mkStore (nodes s) (<[this := mkList v (lastNode l) (length l)]> (lists s))) →
  wp (set_firstNode this v) s Q.
Proof. unfold wp, set_firstNode, bind, readList. by intros ->. Qed.

Lemma wp_set_lastNode this v l s Q :
  lists s !! this = Some l →
  Q tt (mkStore (nodes s) (<[this := mkList (firstNode l) v (length l)]> (lists s))) →
  wp (set_lastNode this v) s Q.
Proof. unfold wp, set_lastNode, bind, readList. by intros ->. Qed.

Lemma wp_set_length this v l s Q :
  lists s !! this = Some l →
  Q tt (mkStore (nodes s) (<[this := mkList (firstNode l) (lastNode l) v]> (lists s))) →
  wp (set_length this v) s Q.
Proof. unfold wp, set_length, bind, readList. by intros ->. Qed.

Lemma wp_nonNull n s Q : Q n s → wp (nonNull (Some n)) s Q.
Proof. done. Qed.

(** The reads as equations. *)

Lemma bind_Ok {A B} (m : M Store A) (k : A → M Store B) s a s' :
  m s = Ok a s' → bind m k s = k a s'.
Proof. unfold bind. by intros ->. Qed.

Lemma get_LIST_Ok n nd s : nodes s !! n = Some nd → get_LIST n s = Ok (LIST nd) s.
Proof. unfold get_LIST, bind, readNode. by intros ->. Qed.

Lemma get_VALUE_Ok n nd s : nodes s !! n = Some nd → get_VALUE n s = Ok (VALUE nd) s.
Proof. unfold get_VALUE, bind, readNode. by intros ->. Qed.

Lemma get_PREV_Ok n nd s : nodes s !! n = Some nd → get_PREV n s = Ok (PREV nd) s.
Proof. unfold get_PREV, bind, readNode. by intros ->. Qed.

Lemma get_NEXT_Ok n nd s : nodes s !! n = Some nd → get_NEXT n s = Ok (NEXT nd) s.
Proof. unfold get_NEXT, bind, readNode. by intros ->. Qed.

Lemma get_firstNode_Ok this l s :
  lists s !! this = Some l → get_firstNode this s = Ok (firstNode l) s.
Proof. unfold get_firstNode, bind, readList. by intros ->. Qed.

Lemma get_lastNode_Ok this l s :
  lists s !! this = Some l → get_lastNode this s = Ok (lastNode l) s.
Proof. unfold get_lastNode, bind, readList. by intros ->. Qed.

Lemma get_length_Ok this l s :
  lists s !! this = Some l → get_length this s = Ok (length l) s.
Proof. unfold get_length, bind, readList. by intros ->. Qed.

(** ** Chains *)

Lemma snoc_case {A} (l : list A) : l = [] ∨ ∃ l' x, l = l' ++ [x].
Proof. induction l using rev_ind; eauto. Qed.

Lemma firstRef_app cs1 cs2 d :
  firstRef (cs1 ++ cs2) d = firstRef cs1 (firstRef cs2 d).
Proof. by destruct cs1. Qed.

Lemma lastRef_app cs1 cs2 d :
  lastRef (cs1 ++ cs2) d = lastRef cs2 (lastRef cs1 d).
Proof.
  unfold lastRef. rewrite last_app. by destruct (last cs2).
Qed.

Lemma lastRef_cons c cs d : lastRef (c :: cs) d = lastRef cs (Some c.1).
Proof. apply (lastRef_app [c] cs d). Qed.

Lemma lastRef_snoc cs c d : lastRef (cs ++ [c]) d = Some c.1.
Proof. by rewrite lastRef_app. Qed.

Lemma firstRef_fmap cs : firstRef cs None = head cs.*1.
Proof. by destruct cs. Qed.

Lemma lastRef_fmap cs : lastRef cs None = last cs.*1.
Proof. unfold lastRef. rewrite fmap_last. by destruct (last cs). Qed.

Lemma lastRef_dflt c cs d d' : lastRef (c :: cs) d = lastRef (c :: cs) d'.
Proof.
  destruct (snoc_case (c :: cs)) as [?|(cs' & c' & ->)]; [done|].
  by rewrite !lastRef_snoc.
Qed.

Lemma firstRef_elem cs c d :
  ∃ k, firstRef (cs ++ [c]) d = Some k ∧ k ∈ (cs ++ [c]).*1.
Proof. destruct cs as [|c0 cs]; [exists c.1|exists c0.1]; set_solver. Qed.

Lemma firstRef_None_elem cs k : firstRef cs None = Some k → k ∈ cs.*1.
Proof. destruct cs; [done|]. intros [= <-]. set_solver. Qed.

Lemma lastRef_None_elem cs k : lastRef cs None = Some k → k ∈ cs.*1.
Proof.
  destruct (snoc_case cs) as [->|(cs' & c' & ->)]; [done|].
  rewrite lastRef_snoc, fmap_app. intros [= <-]. set_solver.
Qed.

Lemma lastRef_elem c cs d : ∃ k, lastRef (c :: cs) d = Some k ∧ k ∈ (c :: cs).*1.
Proof.
  destruct (snoc_case (c :: cs)) as [?|(cs' & c' & ->)]; [done|].
  exists c'.1. rewrite lastRef_snoc, fmap_app. split; [done|]. set_solver.
Qed.

Lemma seg_app h L p cs1 cs2 nx :
  seg h L p (cs1 ++ cs2) nx ↔
  seg h L p cs1 (firstRef cs2 nx) ∧ seg h L (lastRef cs1 p) cs2 nx.
Proof.
  revert p. induction cs1 as [|c cs1 IH]; intros p; simpl.
  - tauto.
  - rewrite IH, firstRef_app, lastRef_cons. tauto.
Qed.

Lemma seg_frame h h' L p cs nx :
  (∀ n, n ∈ cs.*1 → h' !! n = h !! n) → seg h L p cs nx → seg h' L p cs nx.
Proof.
  revert p. induction cs as [|c cs IH]; intros p Hfr; simpl; [done|].
  intros [Hc Hrest]. split.
  - rewrite Hfr; [done|]. set_solver.
  - apply IH; [|done]. intros n Hn. apply Hfr. set_solver.
Qed.

Lemma seg_elem h L p cs nx n :
  seg h L p cs nx → n ∈ cs.*1 →
  ∃ v pv nxv, h !! n = Some (mkNode (Some L) v pv nxv).
Proof.
  revert p. induction cs as [|c cs IH]; intros p; simpl.
  - set_solver.
  - intros [Hc Hrest] [->|Hn]%elem_of_cons; eauto.
Qed.

Lemma seg_lt h L p cs nx n :
  seg h L p cs nx → n ∈ cs.*1 → n < List.length h.
Proof.
  intros Hs Hn. destruct (seg_elem _ _ _ _ _ _ Hs Hn) as (?&?&?&Hl).
  by apply lookup_lt_Some in Hl.
Qed.

Lemma seg_lookup h L p cs nx i c :
  seg h L p cs nx → cs !! i = Some c →
  h !! c.1 = Some (mkNode (Some L) c.2
                     (match i with 0 => p | S j => fst <$> cs !! j end)
                     (match cs !! S i with Some c' => Some c'.1 | None => nx end)).
Proof.
  revert p i. induction cs as [|c0 cs IH]; intros p i; simpl; [done|].
  intros [Hc Hrest]. destruct i as [|i]; simpl.
  - intros [= <-]. rewrite Hc. by destruct cs.
  - intros Hi. rewrite (IH _ _ Hrest Hi). by destruct i.
Qed.

Lemma snoc_lookup {A} (l : list A) x : (l ++ [x]) !! List.length l = Some x.
Proof. by rewrite lookup_app_r, Nat.sub_diag. Qed.

Lemma seg_fresh h L p cs nx : seg h L p cs nx → List.length h ∉ cs.*1.
Proof. intros Hs Hin. apply (seg_lt _ _ _ _ _ _ Hs) in Hin. lia. Qed.

Lemma NoDup_remove_mid (c1 : Cells) c c2 :
  NoDup (c1 ++ c :: c2).*1 → NoDup (c1 ++ c2).*1.
Proof.
  rewrite !fmap_app, fmap_cons, !NoDup_app, NoDup_cons. set_solver.
Qed.

Lemma NoDup_remove_mid' (c1 : Cells) c c2 :
  NoDup (c1 ++ c :: c2).*1 → (c.1 ∉ c1.*1) ∧ (c.1 ∉ c2.*1).
Proof.
  rewrite !fmap_app, fmap_cons, !NoDup_app, NoDup_cons. set_solver.
Qed.

Lemma NoDup_insert_after (c1 : Cells) c c' c2 :
  NoDup (c1 ++ c :: c2).*1 → c'.1 ∉ (c1 ++ c :: c2).*1 →
  NoDup (c1 ++ c :: c' :: c2).*1.
Proof.
  rewrite !fmap_app, !fmap_cons, !NoDup_app, !NoDup_cons. set_solver.
Qed.

Lemma NoDup_insert_mid (c1 : Cells) c c2 :
  NoDup (c1 ++ c2).*1 → c.1 ∉ (c1 ++ c2).*1 → NoDup (c1 ++ c :: c2).*1.
Proof.
  rewrite !fmap_app, fmap_cons, !NoDup_app, NoDup_cons. set_solver.
Qed.

Lemma repr_intro h ls L cs l :
  ls !! L = Some l →
  firstNode l = firstRef cs None →
  lastNode l = lastRef cs None →
  length l = Z.of_nat (List.length cs) →
  NoDup cs.*1 →
  seg h L None cs None →
  (∀ n nd, h !! n = Some nd → LIST nd = Some L → n ∈ cs.*1) →
  repr (mkStore h ls) L cs.
Proof.
  intros Hl Hf Hla Hlen ???. split; try done.
  cbn [lists]. rewrite Hl. f_equal. destruct l; cbn in *. congruence.
Qed.

Lemma repr_lt s L cs n : repr s L cs → n ∈ cs.*1 → n < List.length (nodes s).
Proof. intros [] ?. by eapply seg_lt. Qed.

Lemma repr_elem_owner s L cs n nd :
  repr s L cs → nodes s !! n = Some nd → n ∈ cs.*1 ↔ LIST nd = Some L.
Proof.
  intros [? ? Hseg Hown] Hn. split; [|by eauto].
  intros Hin. destruct (seg_elem _ _ _ _ _ _ Hseg Hin) as (?&?&?&Hl).
  rewrite Hn in Hl. by injection Hl as ->.
Qed.

(** ** Footprints *)

Lemma modifies_refl L s : modifies L s s.
Proof. by split. Qed.

Lemma modifies_trans L s1 s2 s3 :
  modifies L s1 s2 → modifies L s2 s3 → modifies L s1 s3.
Proof.
  intros [a1 b1 c1 d1 e1] [a2 b2 c2 d2 e2]. split.
  - congruence.
  - intros L' ?. rewrite b2, b1; done.
  - lia.
  - eauto.
  - eauto.
Qed.

Lemma modifies_write_list L h ls l :
  modifies L (mkStore h ls) (mkStore h (<[L := l]> ls)).
Proof.
  split; cbn [nodes lists]; try done.
  - apply length_insert.
  - intros L' ?. by apply list_lookup_insert_ne.
Qed.

Lemma modifies_alloc_node L h ls (nd : Node) :
  LIST nd = Some L → modifies L (mkStore h ls) (mkStore (h ++ [nd]) ls).
Proof.
  intros Hnd. split; cbn [nodes lists]; try done.
  - rewrite length_app. lia.
  - intros n nd' Hn _. by apply lookup_app_l_Some.
  - intros n nd' Hn HL _. apply lookup_app_Some in Hn as [Hn|[_ Hn]]; [done|].
    apply list_lookup_singleton_Some in Hn as [_ <-]. done.
Qed.

Lemma modifies_write_node L h ls n (nd nd' : Node) :
  h !! n = Some nd → LIST nd = Some L →
  LIST nd' = Some L ∨ LIST nd' = None →
  modifies L (mkStore h ls) (mkStore (<[n := nd']> h) ls).
Proof.
  intros Hn HL HL'. split; cbn [nodes lists]; try done.
  - by rewrite length_insert.
  - intros m md Hm Hmd. rewrite list_lookup_insert_ne; [done|].
    intros ?. by simplify_eq.
  - intros m md Hm Hmd Hmd'.
    apply list_lookup_insert_Some in Hm as [(-> & <- & _)|[_ Hm]]; [|done].
    destruct HL'; congruence.
Qed.

Lemma seg_frame_insert h L p cs nx n nd :
  n ∉ cs.*1 → seg h L p cs nx → seg (<[n := nd]> h) L p cs nx.
Proof.
  intros Hn. apply seg_frame. intros k Hk.
  apply list_lookup_insert_ne. by intros ->.
Qed.

Lemma seg_frame_alloc h L p cs nx nd :
  seg h L p cs nx → seg (h ++ [nd]) L p cs nx.
Proof.
  intros Hs. eapply seg_frame; [|exact Hs]. intros k Hk.
  apply lookup_app_l. by eapply seg_lt.
Qed.

Lemma NoDup_mid1 (l1 : list nat) a l2 :
  NoDup (l1 ++ a :: l2) → (a ∉ l1) ∧ (a ∉ l2).
Proof. rewrite NoDup_app, NoDup_cons. set_solver. Qed.

Lemma NoDup_mid2 (l1 : list nat) a b l2 :
  NoDup (l1 ++ a :: b :: l2) →
  (a ∉ l1) ∧ (b ∉ l1) ∧ a ≠ b ∧ b ≠ a ∧ (a ∉ l2) ∧ (b ∉ l2).
Proof. rewrite NoDup_app, !NoDup_cons. set_solver. Qed.

Lemma NoDup_mid3 (l1 : list nat) a b c l2 :
  NoDup (l1 ++ a :: b :: c :: l2) →
  (a ∉ l1) ∧ (b ∉ l1) ∧ (c ∉ l1)
  ∧ a ≠ b ∧ b ≠ a ∧ a ≠ c ∧ c ≠ a ∧ b ≠ c ∧ c ≠ b
  ∧ (a ∉ l2) ∧ (b ∉ l2) ∧ (c ∉ l2).
Proof. rewrite NoDup_app, !NoDup_cons. set_solver. Qed.

End Facts.

Ltac ne_solve :=
  first [ lia | congruence | (intros ->; contradiction) | done ].

Ltac lk :=
  cbn [nodes lists];
  repeat first
    [ rewrite list_lookup_insert_eq by len
    | rewrite list_lookup_insert_ne by ne_solve
    | rewrite snoc_lookup
    | rewrite lookup_app_l by len ];
  try first [eassumption | reflexivity].

(** The distinctness facts of a chain with up to three named cells. *)
Ltac nodup_facts H :=
  let H' := fresh "Hnd" in
  pose proof H as H';
  rewrite ?fmap_app, ?fmap_cons, ?fmap_nil in H';
  cbn [fst] in H'; rewrite <- ?app_assoc in H'; cbn [app] in H';
  lazymatch type of H' with
  | NoDup (_ ++ _ :: _ :: _ :: _) =>
    apply NoDup_mid3 in H' as (?&?&?&?&?&?&?&?&?&?&?&?)
  | NoDup (_ ++ _ :: _ :: _) => apply NoDup_mid2 in H' as (?&?&?&?&?&?)
  | NoDup (_ ++ _ :: _) => apply NoDup_mid1 in H' as (?&?)
  | NoDup (_ :: _ :: _ :: _) =>
    apply (NoDup_mid3 []) in H' as (?&?&?&?&?&?&?&?&?&?&?&?)
  | NoDup (_ :: _ :: _) => apply (NoDup_mid2 []) in H' as (?&?&?&?&?&?)
  | NoDup (_ :: _) => apply (NoDup_mid1 []) in H' as (?&?)
  end.

(** The nodes that claim the list are the cells of the new chain. *)
Ltac owned_solve Hown :=
  let m := fresh "m" in let md := fresh "md" in
  let Hm := fresh "Hm" in let HL := fresh "HL" in
  intros m md Hm HL; cbn [nodes lists] in Hm;
  repeat match goal with
  | H : <[_ := _]> _ !! _ = Some _ |- _ =>
    apply list_lookup_insert_Some in H as [(-> & <- & _)|[? H]]
  | H : (_ ++ [_]) !! _ = Some _ |- _ =>
    apply lookup_app_Some in H as [H|[? H]];
    [|apply list_lookup_singleton_Some in H as [? <-]]
  end;
  rewrite ?fmap_app, ?fmap_cons; cbn [fst];
  try match goal with
  | H1 : List.length ?h ≤ ?k, H2 : ?k - List.length ?h = 0 |- _ =>
    assert (k = List.length h) as -> by lia
  end;
  try (cbn in HL; discriminate);
  try (apply Hown in Hm; [|done];
       rewrite ?fmap_app, ?fmap_cons in Hm; cbn [fst] in Hm);
  repeat match goal with
  | H : NoDup _ |- _ => clear H
  | H : seg _ _ _ _ _ |- _ => clear H
  | H : repr _ _ _ |- _ => clear H
  | H : _ !! _ = _ |- _ => clear H
  | H : _ ∉ _ |- _ => clear H
  end;
  try clear Hown;
  set_solver.

Ltac wstep :=
  cbv beta iota;
  lazymatch goal with
  | |- wp (bind _ _) _ _ => apply wp_bind
  | |- wp (ret _) _ _ => apply wp_ret
  | |- wp (get_LIST _) _ _ => eapply wp_get_LIST; [lk|]
  | |- wp (get_VALUE _) _ _ => eapply wp_get_VALUE; [lk|]
  | |- wp (get_PREV _) _ _ => eapply wp_get_PREV; [lk|]
  | |- wp (get_NEXT _) _ _ => eapply wp_get_NEXT; [lk|]
  | |- wp (set_LIST _ _) _ _ => eapply wp_set_LIST; [lk|]
  | |- wp (set_PREV _ _) _ _ => eapply wp_set_PREV; [lk|]
  | |- wp (set_NEXT _ _) _ _ => eapply wp_set_NEXT; [lk|]
  | |- wp (allocNode _) _ _ => apply wp_allocNode
  | |- wp (allocList _) _ _ => apply wp_allocList
  | |- wp (get_firstNode _) _ _ => eapply wp_get_firstNode; [lk|]
  | |- wp (get_lastNode _) _ _ => eapply wp_get_lastNode; [lk|]
  | |- wp (get_length _) _ _ => eapply wp_get_length; [lk|]
  | |- wp (set_firstNode _ _) _ _ => eapply wp_set_firstNode; [lk|]
  | |- wp (set_lastNode _ _) _ _ => eapply wp_set_lastNode; [lk|]
  | |- wp (set_length _ _) _ _ => eapply wp_set_length; [lk|]
  | |- wp (nonNull (Some _)) _ _ => apply wp_nonNull
  end;
  cbn [LIST VALUE PREV NEXT firstNode lastNode length nodes lists];
  rewrite ?list_insert_insert_eq.

Ltac wsteps := repeat wstep.

(** Peels the writes of the final store one by one. *)
Ltac modifies_solve :=
  repeat first
    [ apply modifies_refl
    | (eapply modifies_trans; [|apply modifies_write_list])
    | (eapply modifies_trans;
       [|eapply modifies_write_node; [lk|done|cbn; auto]])
    | (eapply modifies_trans; [|apply modifies_alloc_node; done]) ].

Ltac cells_simpl :=
  cbn [lastRef last firstRef fst snd app fmap list_fmap List.length] in *.

Ltac frame_solve Hseg :=
  repeat first
    [ apply seg_frame_insert; [assumption|]
    | apply seg_frame_alloc ];
  exact Hseg.

Ltac ends_simpl :=
  cbn [firstNode lastNode length];
  rewrite ?firstRef_app, ?lastRef_app, ?length_app;
  cbn [firstRef lastRef last fst snd List.length].

Ltac ends_solve := ends_simpl; first [done | lia].

End V2Facts.

Module V2Ops.
Import V2 V2Facts.
Section Ops.
Context {ItemT : Type}.
Abbreviation Node := (@DoubleLinkedListNode ItemT).
Abbreviation Store := (@Store ItemT).
Abbreviation Cells := (list (NodeRef * ItemT)%type).
Implicit Types (h : list Node) (s : Store) (cs : Cells) (L this : ListRef)
  (n node : NodeRef).

Lemma append_spec s L cs v :
  repr s L cs →
  wp (append L v) s (λ n s',
    n = List.length (nodes s) ∧ repr s' L (cs ++ [(n, v)]) ∧ modifies L s s').
Proof.
  destruct s as [h ls]. intros Hr. pose proof Hr as [Hl Hnd Hseg Hown].
  cbn [nodes lists] in *. learn_lt. unfold append.
  destruct (snoc_case cs) as [->|(cs' & [m w] & ->)].
  - cbn in Hl. wsteps. change (Z.of_nat 0 =? 0)%Z with true. wsteps.
    split; [done|]. split.
    + eapply repr_intro; [lk|ends_solve..| | |].
      * apply NoDup_singleton.
      * cbn. split; [|done]. lk.
      * owned_solve Hown.
    + modifies_solve.
  - rewrite lastRef_snoc in Hl. cbn [fst] in Hl.
    apply seg_app in Hseg as [Hseg [Hm _]]. cbn [fst snd firstRef] in Hm.
    assert (Hlen : (Z.of_nat (List.length (cs' ++ [(m, w)])) =? 0)%Z = false)
      by (apply Z.eqb_neq; rewrite length_app; simpl; lia).
    learn_lt. wsteps. rewrite Hlen. wsteps.
    split; [done|]. split.
    + pose proof (seg_fresh _ _ _ _ _ Hseg) as Hfresh.
      eapply repr_intro; [lk|ends_solve..| | |].
      * rewrite fmap_app. apply NoDup_app. split; [done|]. split.
        -- intros k Hk. cbn. rewrite list_elem_of_singleton. intros ->.
           apply (repr_lt (mkStore h ls) L _ _ Hr) in Hk. cbn in Hk. lia.
        -- apply NoDup_singleton.
      * nodup_facts Hnd.
        rewrite !seg_app. cbn [seg firstRef fst snd]. rewrite lastRef_snoc.
        split_and!; try done.
        -- frame_solve Hseg.
        -- lk.
        -- lk.
      * owned_solve Hown.
    + modifies_solve.
Qed.


Lemma prepend_spec s L cs v :
  repr s L cs →
  wp (prepend L v) s (λ n s',
    n = List.length (nodes s) ∧ repr s' L ((n, v) :: cs) ∧ modifies L s s').
Proof.
  destruct s as [h ls]. intros Hr. pose proof Hr as [Hl Hnd Hseg Hown].
  cbn [nodes lists] in *. learn_lt. unfold prepend.
  destruct cs as [|[m w] cs'].
  - cbn in Hl. wsteps. change (Z.of_nat 0 =? 0)%Z with true. wsteps.
    split; [done|]. split.
    + eapply repr_intro; [lk|ends_solve..| | |].
      * apply NoDup_singleton.
      * cbn. split; [|done]. lk.
      * owned_solve Hown.
    + modifies_solve.
  - cbn [firstRef fst] in Hl. destruct Hseg as [Hm Hseg]. cbn [fst snd] in Hm.
    assert (Hlen : (Z.of_nat (List.length ((m, w) :: cs')) =? 0)%Z = false)
      by (apply Z.eqb_neq; simpl; lia).
    learn_lt. wsteps. rewrite Hlen. wsteps.
    split; [done|]. split.
    + pose proof (seg_fresh _ _ _ _ _ Hseg) as Hfresh.
      eapply repr_intro; [lk|ends_solve..| | |].
      * rewrite fmap_cons. apply NoDup_cons. split; [|done].
        intros Hk. apply (repr_lt (mkStore h ls) L _ _ Hr) in Hk. cbn in Hk. lia.
      * nodup_facts Hnd. cbn [seg firstRef fst snd].
        split_and!.
        -- lk.
        -- lk.
        -- frame_solve Hseg.
      * owned_solve Hown.
    + modifies_solve.
Qed.

Lemma remove_spec s L c1 n v c2 :
  repr s L (c1 ++ (n, v) :: c2) →
  wp (remove L n) s (λ r s',
    r = true ∧ repr s' L (c1 ++ c2) ∧ modifies L s s'
    ∧ nodes s' !! n = Some (mkNode None v None None)).
Proof.
  destruct s as [h ls]. intros Hr. pose proof Hr as [Hl Hnd Hseg Hown].
  cbn [nodes lists] in *. unfold remove, remove_unlink.
  pose proof (NoDup_remove_mid _ _ _ Hnd) as Hnd'.
  apply seg_app in Hseg as [Hseg1 [Hn Hseg2]]. cbn [fst snd firstRef] in *.
  rewrite firstRef_app, lastRef_app in Hl. cbn [firstRef fst] in Hl.
  destruct c2 as [|[x xv] c2].
  - (* the tail *)
    cbn [lastRef last fst] in Hl. wsteps.
    rewrite decide_True by done. wsteps.
    destruct (snoc_case c1) as [->|(c1' & [p pv] & ->)].
    + cells_simpl. wsteps. split; [done|]. split_and!.
      * eapply repr_intro; [lk|ends_solve..| | |].
        -- apply NoDup_nil_2.
        -- done.
        -- owned_solve Hown.
      * modifies_solve.
      * lk.
    + rewrite lastRef_snoc in *. cbn [fst] in *.
      apply seg_app in Hseg1 as [Hseg1 [Hp _]]. cbn [fst snd firstRef] in Hp.
      nodup_facts Hnd.
      wsteps. split; [done|]. split_and!.
      * eapply repr_intro; [lk|ends_solve..| | |].
        -- done.
        -- rewrite app_nil_r, seg_app. cbn [seg firstRef fst snd].
           split_and!; [frame_solve Hseg1|lk|done].
        -- owned_solve Hown.
      * modifies_solve.
      * lk.
  - rewrite lastRef_cons in Hl.
    destruct (lastRef_elem (x, xv) c2 (Some (n, v).1)) as (z & Hz & Hzin).
    rewrite Hz in Hl. destruct Hseg2 as [Hx Hseg2]. cells_simpl.
    assert (n ≠ z) as Hnz.
    { apply NoDup_remove_mid' in Hnd. intros ->. set_solver. }
    wsteps. rewrite decide_False by congruence. wsteps.
    destruct (snoc_case c1) as [->|(c1' & [p pv] & ->)].
    + (* the head *)
      cells_simpl. rewrite decide_True by done. nodup_facts Hnd.
      wsteps. split; [done|]. split_and!.
      * eapply repr_intro; [lk|..].
        -- ends_solve.
        -- cbn [lastNode]. rewrite <- Hz. apply lastRef_dflt.
        -- ends_solve.
        -- done.
        -- cbn [app seg firstRef fst snd].
           split_and!; [lk|frame_solve Hseg2].
        -- owned_solve Hown.
      * modifies_solve.
      * lk.
    + (* in the middle *)
      destruct (firstRef_elem c1' (p, pv) (Some n)) as (f & Hf & Hfin).
      rewrite Hf in *. rewrite lastRef_snoc in Hn. cbn [fst] in Hn.
      apply seg_app in Hseg1 as [Hseg1 [Hp _]]. cbn [fst snd firstRef] in Hp.
      assert (n ≠ f) as Hnf.
      { apply NoDup_remove_mid' in Hnd. intros ->. set_solver. }
      rewrite decide_False by congruence. nodup_facts Hnd.
      wsteps. rewrite decide_False by (intros ?; done).
      wsteps. split; [done|]. split_and!.
      * eapply repr_intro; [lk|..].
        -- rewrite firstRef_app in Hf. ends_simpl. by rewrite <- Hf.
        -- cbn [lastNode]. rewrite lastRef_app, <- Hz. apply lastRef_dflt.
        -- ends_solve.
        -- done.
        -- rewrite !seg_app. cbn [seg firstRef fst snd]. rewrite lastRef_snoc.
           split_and!; [frame_solve Hseg1|lk|done|lk|frame_solve Hseg2].
        -- owned_solve Hown.
      * modifies_solve.
      * lk.
Qed.

Lemma remove_foreign_spec s L cs n nd :
  repr s L cs → nodes s !! n = Some nd → LIST nd ≠ Some L →
  remove L n s = Ok false s.
Proof.
  intros Hr Hn Hnd.
  assert (n ∉ cs.*1) as Hnotin by (by rewrite (repr_elem_owner _ _ _ _ _ Hr Hn)).
  destruct Hr as [Hl _ _ _].
  apply (wp_elim_eq _ _ false s). unfold remove, remove_unlink.
  wsteps.
  rewrite decide_False by (intros Heq; symmetry in Heq;
                           by apply lastRef_None_elem in Heq).
  wsteps.
  rewrite decide_False by (intros Heq; symmetry in Heq;
                           by apply firstRef_None_elem in Heq).
  wsteps. rewrite decide_True by done. by wsteps.
Qed.

Lemma insertAfterNode_spec s L c1 n w c2 v :
  repr s L (c1 ++ (n, w) :: c2) →
  wp (insertAfterNode L n v) s (λ r s',
    r = Some (List.length (nodes s))
    ∧ repr s' L (c1 ++ (n, w) :: (List.length (nodes s), v) :: c2)
    ∧ modifies L s s').
Proof.
  destruct s as [h ls]. intros Hr. pose proof Hr as [Hl Hnd Hseg Hown].
  cbn [nodes lists] in *. unfold insertAfterNode.
  apply seg_app in Hseg as [Hseg1 [Hn Hseg2]]. cbn [fst snd firstRef] in *.
  rewrite firstRef_app, lastRef_app in Hl. cbn [firstRef fst] in Hl.
  wsteps. rewrite decide_False by (intros ?; done). wsteps.
  destruct c2 as [|[x xv] c2].
  - (* after the tail *)
    cbn [lastRef last fst]. rewrite decide_True by done. wsteps.
    eapply wp_mono; [by apply append_spec|]. cbn beta.
    intros r s' (-> & Hr' & Hm). wsteps.
    rewrite <- app_assoc in Hr'. done.
  - rewrite lastRef_cons in Hl |- *.
    destruct (lastRef_elem (x, xv) c2 (Some (n, w).1)) as (z & Hz & Hzin).
    rewrite Hz in Hl |- *. destruct Hseg2 as [Hx Hseg2]. cells_simpl.
    assert (n ≠ z) as Hnz.
    { apply NoDup_remove_mid' in Hnd. intros ->. set_solver. }
    rewrite decide_False by congruence.
    pose proof (seg_fresh _ _ _ _ _ Hseg1) as Hfresh1.
    pose proof (seg_fresh _ _ _ _ _ Hseg2) as Hfresh2.
    nodup_facts Hnd. learn_lt. wsteps. split; [done|]. split.
    + eapply repr_intro; [lk|..].
      * ends_solve.
      * cbn [lastNode]. rewrite lastRef_app, !lastRef_cons, <- Hz.
        by rewrite lastRef_cons.
      * ends_solve.
      * apply NoDup_insert_after; [done|].
        apply (seg_fresh _ _ _ _ _ (repr_seg _ _ _ Hr)).
      * rewrite seg_app. cbn [seg firstRef fst snd].
        split_and!; [frame_solve Hseg1|lk..|frame_solve Hseg2].
      * owned_solve Hown.
    + modifies_solve.
Qed.

Lemma insertBeforeNode_spec s L c1 n w c2 v :
  repr s L (c1 ++ (n, w) :: c2) →
  wp (insertBeforeNode L n v) s (λ r s',
    r = Some (List.length (nodes s))
    ∧ repr s' L (c1 ++ (List.length (nodes s), v) :: (n, w) :: c2)
    ∧ modifies L s s').
Proof.
  destruct s as [h ls]. intros Hr. pose proof Hr as [Hl Hnd Hseg Hown].
  cbn [nodes lists] in *. unfold insertBeforeNode.
  apply seg_app in Hseg as [Hseg1 [Hn Hseg2]]. cbn [fst snd firstRef] in *.
  rewrite firstRef_app, lastRef_app in Hl. cbn [firstRef fst] in Hl.
  wsteps. rewrite decide_False by (intros ?; done). wsteps.
  destruct (snoc_case c1) as [->|(c1' & [p pv] & ->)].
  - (* before the head *)
    cbn [firstRef]. rewrite decide_True by done. wsteps.
    eapply wp_mono; [by apply prepend_spec|]. cbn beta.
    intros r s' (-> & Hr' & Hm). by wsteps.
  - destruct (firstRef_elem c1' (p, pv) (Some n)) as (f & Hf & Hfin).
    rewrite Hf in Hl |- *. rewrite lastRef_snoc in Hn. cbn [fst] in Hn.
    apply seg_app in Hseg1 as [Hseg1 [Hp _]]. cbn [fst snd firstRef] in Hp.
    assert (n ≠ f) as Hnf.
    { apply NoDup_remove_mid' in Hnd. intros ->. set_solver. }
    rewrite decide_False by congruence.
    pose proof (seg_fresh _ _ _ _ _ Hseg1) as Hfresh1.
    pose proof (seg_fresh _ _ _ _ _ Hseg2) as Hfresh2.
    nodup_facts Hnd. learn_lt. wsteps. split; [done|]. split.
    + eapply repr_intro; [lk|..].
      * rewrite firstRef_app in Hf. ends_simpl. by rewrite <- Hf.
      * ends_solve.
      * ends_solve.
      * apply NoDup_insert_mid; [done|].
        apply (seg_fresh _ _ _ _ _ (repr_seg _ _ _ Hr)).
      * rewrite !seg_app. cbn [seg firstRef fst snd]. rewrite lastRef_snoc.
        split_and!; [frame_solve Hseg1|lk|done|lk..|frame_solve Hseg2].
      * owned_solve Hown.
    + modifies_solve.
Qed.

Lemma insertAfterNode_foreign_spec s L n nd v :
  nodes s !! n = Some nd → LIST nd ≠ Some L →
  insertAfterNode L n v s = Ok None s.
Proof.
  intros Hn Hnd. apply (wp_elim_eq _ _ None s). unfold insertAfterNode.
  wsteps. rewrite decide_True by done. by wsteps.
Qed.

Lemma insertBeforeNode_foreign_spec s L n nd v :
  nodes s !! n = Some nd → LIST nd ≠ Some L →
  insertBeforeNode L n v s = Ok None s.
Proof.
  intros Hn Hnd. apply (wp_elim_eq _ _ None s). unfold insertBeforeNode.
  wsteps. rewrite decide_True by done. by wsteps.
Qed.

End Ops.
End V2Ops.

Module V2Inv.
Import V2 V2Facts V2Ops.
Section Inv.
Context {ItemT : Type}.
Abbreviation Node := (@DoubleLinkedListNode ItemT).
Abbreviation Store := (@Store ItemT).
Abbreviation Cells := (list (NodeRef * ItemT)%type).
Implicit Types (h : list Node) (s : Store) (cs : Cells) (L this : ListRef)
  (n node : NodeRef) (X : list ListRef).

(** ** Footprints over several lists *)

Lemma modifies_within L X s s' : modifies L s s' → L ∈ X → within X s s'.
Proof.
  intros [a b c d e] HX. split.
  - lia.
  - intros L' HL' _. apply b. by intros ->.
  - done.
  - intros n nd Hn Hnd. apply d; [done|]. intros HL. by apply Hnd in HL.
  - intros n nd L' Hn HL HX'. apply e; [done| |].
    + rewrite HL. intros [= ->]. done.
    + by rewrite HL.
Qed.

Lemma within_refl X s : within X s s.
Proof. by split. Qed.

Lemma within_trans X s1 s2 s3 :
  within X s1 s2 → within X s2 s3 → within X s1 s3.
Proof.
  intros [a1 b1 c1 d1 e1] [a2 b2 c2 d2 e2]. split.
  - lia.
  - intros L' ? ?. rewrite b2, b1; [done..|lia].
  - lia.
  - eauto.
  - eauto.
Qed.

Lemma within_mono X Y s s' : X ⊆ Y → within X s s' → within Y s s'.
Proof.
  intros HXY [a b c d e]. split; [done| |done| |].
  - intros L' ? ?. apply b; [|done]. intros ?. by apply H, HXY.
  - intros n nd Hn Hnd. apply d; [done|]. intros L HL HX. by eapply Hnd, HXY.
  - intros n nd L Hn HL HY. eapply e; [done..|]. intros ?. by apply HY, HXY.
Qed.

Lemma within_alloc_list X h ls l :
  within X (mkStore h ls) (mkStore h (ls ++ [l])).
Proof.
  split; cbn [nodes lists]; try done.
  - rewrite length_app. lia.
  - intros L' _ ?. by apply lookup_app_l.
Qed.

Lemma repr_within X s s' L cs :
  within X s s' → L ∉ X → repr s L cs → repr s' L cs.
Proof.
  intros [a b c d e] HX [Hl Hnd Hseg Hown]. split; [|done| |].
  - rewrite b; [done..|]. by apply lookup_lt_Some in Hl.
  - eapply seg_frame; [|done]. intros n Hn.
    destruct (seg_elem _ _ _ _ _ _ Hseg Hn) as (v & pv & nx & Hlk).
    rewrite Hlk. apply d; [done|]. by intros L' [= <-].
  - intros n nd Hn HL. eapply Hown; [|done]. by eapply e.
Qed.

Lemma inv_within X s s' :
  Inv s → within X s s' →
  (∀ L, L ∈ X → ∃ cs, repr s' L cs) →
  (∀ L, L < List.length (lists s') → L ∈ X ∨ L < List.length (lists s)) →
  Inv s'.
Proof.
  intros [Hov Hall] Hw HX Hnew. split.
  - intros n nd L Hn HL. destruct (decide (L ∈ X)) as [Hin|Hin].
    + destruct (HX _ Hin) as [cs [Hl _ _ _]]. by apply lookup_lt_Some in Hl.
    + pose proof (mod_back' _ _ _ Hw _ _ _ Hn HL Hin) as Hn'.
      pose proof (Hov _ _ _ Hn' HL). pose proof (mod_lists_len' _ _ _ Hw). lia.
  - intros L HL. destruct (decide (L ∈ X)) as [Hin|Hin]; [by apply HX|].
    destruct (Hnew _ HL) as [?|Hold]; [done|].
    destruct (Hall _ Hold) as [cs Hcs]. exists cs. by eapply repr_within.
Qed.

Lemma inv_modifies L s s' cs' :
  Inv s → modifies L s s' → repr s' L cs' → Inv s'.
Proof.
  intros Hinv Hm Hr. apply (inv_within [L] s); [done|..].
  - eapply modifies_within; [done|]. set_solver.
  - intros L' ->%list_elem_of_singleton. eauto.
  - intros L' HL'. right. by rewrite <- (mod_lists_len _ _ _ Hm).
Qed.

(** A list is represented by one chain only. *)
Lemma seg_unique h L p cs cs' :
  seg h L p cs None → seg h L p cs' None →
  firstRef cs None = firstRef cs' None → cs = cs'.
Proof.
  revert p cs'. induction cs as [|[n v] cs IH]; intros p [|[n' v'] cs']; cbn;
    try done.
  intros [Hn Hs] [Hn' Hs'] [= <-]. rewrite Hn in Hn'.
  injection Hn' as <- Hnx. f_equal. eapply IH; [done..|].
  by destruct cs, cs'.
Qed.

Lemma repr_unique s L cs cs' : repr s L cs → repr s L cs' → cs = cs'.
Proof.
  intros [Hl _ Hs _] [Hl' _ Hs' _]. rewrite Hl in Hl'.
  injection Hl' as Hf _ _. by eapply seg_unique.
Qed.

Lemma holds_unique s L vs vs' : holds s L vs → holds s L vs' → vs = vs'.
Proof.
  intros (cs & Hr & <-) (cs' & Hr' & <-). by rewrite (repr_unique _ _ _ _ Hr Hr').
Qed.

Lemma inv_repr s L : Inv s → L < List.length (lists s) → ∃ cs, repr s L cs.
Proof. intros [_ H]. apply H. Qed.

Lemma inv_holds s L : Inv s → L < List.length (lists s) → ∃ vs, holds s L vs.
Proof.
  intros Hi HL. destruct (inv_repr _ _ Hi HL) as [cs Hcs].
  exists cs.*2, cs. done.
Qed.

Lemma inv_empty : Inv (@emptyStore ItemT).
Proof.
  split.
  - intros n nd L Hn. done.
  - intros L HL. cbn in HL. lia.
Qed.

End Inv.
End V2Inv.

Module V2Queries.
Import V2 V2Facts V2Ops V2Inv.
Section Queries.
Context {ItemT : Type}.
Abbreviation Node := (@DoubleLinkedListNode ItemT).
Abbreviation Store := (@Store ItemT).
Abbreviation Cells := (list (NodeRef * ItemT)%type).
Implicit Types (h : list Node) (s : Store) (cs : Cells) (L this : ListRef)
  (n node : NodeRef) (X : list ListRef).

(** ** Walking the chain *)

Lemma refAt_0 cs : refAt cs 0 = firstRef cs None.
Proof. by destruct cs. Qed.

Lemma refAt_last cs : refAt cs (pred (List.length cs)) = lastRef cs None.
Proof.
  unfold refAt, lastRef. rewrite last_lookup. by destruct (cs !! _).
Qed.

Lemma repr_lookup s L cs i c :
  repr s L cs → cs !! i = Some c →
  nodes s !! c.1
  = Some (mkNode (Some L) c.2
            (match i with 0 => None | S j => refAt cs j end) (refAt cs (S i))).
Proof.
  intros [_ _ Hs _] Hi. rewrite (seg_lookup _ _ _ _ _ _ _ Hs Hi).
  unfold refAt. by destruct (cs !! S i).
Qed.

Lemma walkNext_spec s L cs k j :
  repr s L cs →
  walkNext k (refAt cs j) s = Ok (refAt cs (j + k)) s.
Proof.
  intros Hr. revert j. induction k as [|k IH]; intros j.
  - rewrite Nat.add_0_r. by destruct (refAt cs j).
  - unfold refAt at 1. destruct (cs !! j) as [c|] eqn:Hc; cbn [fmap option_fmap option_map walkNext].
    + rewrite (bind_Ok _ _ _ _ _ (get_NEXT_Ok _ _ _ (repr_lookup _ _ _ _ _ Hr Hc))).
      cbn [NEXT]. rewrite IH. by rewrite Nat.add_succ_r.
    + unfold refAt. rewrite (lookup_ge_None_2 cs (j + S k)); [done|].
      apply lookup_ge_None_1 in Hc. lia.
Qed.

Lemma walkPrev_spec s L cs k j :
  repr s L cs → k ≤ j < List.length cs →
  walkPrev k (refAt cs j) s = Ok (refAt cs (j - k)) s.
Proof.
  intros Hr. revert j. induction k as [|k IH]; intros j Hkj.
  - rewrite Nat.sub_0_r. by destruct (refAt cs j).
  - unfold refAt at 1. destruct (cs !! j) as [c|] eqn:Hc; cbn [fmap option_fmap option_map walkPrev].
    + rewrite (bind_Ok _ _ _ _ _ (get_PREV_Ok _ _ _ (repr_lookup _ _ _ _ _ Hr Hc))).
      cbn [PREV]. destruct j as [|j]; [lia|]. rewrite IH by lia. done.
    + apply lookup_ge_None_1 in Hc. lia.
Qed.

Lemma getNodeAt_spec s L cs index :
  repr s L cs → getNodeAt L index s = Ok (nodeAt cs index) s.
Proof.
  intros Hr. pose proof Hr as [Hl _ _ _]. unfold getNodeAt, nodeAt.
  rewrite (bind_Ok _ _ _ _ _ (get_length_Ok _ _ _ Hl)). cbn [length].
  set (len := Z.of_nat (List.length cs)).
  set (ai := if (index <? 0)%Z then (len + index)%Z else index).
  destruct ((ai <? 0) || (ai >=? len))%Z eqn:Hb; [done|].
  apply orb_false_iff in Hb as [H1 H2].
  apply Z.ltb_ge in H1. rewrite Z.geb_leb in H2. apply Z.leb_gt in H2.
  destruct (ai <=? len - 1 - ai)%Z.
  - rewrite (bind_Ok _ _ _ _ _ (get_firstNode_Ok _ _ _ Hl)). cbn [firstNode].
    rewrite <- refAt_0. by rewrite (walkNext_spec _ L).
  - rewrite (bind_Ok _ _ _ _ _ (get_lastNode_Ok _ _ _ Hl)). cbn [lastNode].
    rewrite <- refAt_last. rewrite (walkPrev_spec _ L) by (done || lia).
    do 2 f_equal. lia.
Qed.

Lemma get_spec s L cs index :
  repr s L cs →
  get L index s
  = Ok (match nodeAt cs index with
        | Some n => snd <$> cs !! (Z.to_nat (if (index <? 0)%Z
                      then (Z.of_nat (List.length cs) + index)%Z else index))
        | None => None
        end) s.
Proof.
  intros Hr. unfold get.
  rewrite (bind_Ok _ _ _ _ _ (getNodeAt_spec _ _ _ _ Hr)).
  unfold nodeAt.
  set (ai := if (index <? 0)%Z then _ else index).
  destruct ((ai <? 0) || (ai >=? _))%Z; [done|].
  unfold refAt. destruct (cs !! Z.to_nat ai) as [c|] eqn:Hc; [|done].
  cbn [fmap option_fmap option_map].
  rewrite (bind_Ok _ _ _ _ _ (get_VALUE_Ok _ _ _ (repr_lookup _ _ _ _ _ Hr Hc))).
  done.
Qed.

(** ** toArray *)

Lemma arraySet_fill (vs : list ItemT) j v k :
  vs !! j = Some v → j < k →
  arraySet ((Some <$> take j vs) ++ replicate (k - j) None) j v
  = (Some <$> take (S j) vs) ++ replicate (k - S j) None.
Proof.
  intros Hj Hk. pose proof (lookup_lt_Some _ _ _ Hj) as Hlt.
  unfold arraySet.
  assert (List.length (Some <$> take j vs) = j) as Hlen
    by (rewrite length_fmap, length_take; lia).
  rewrite decide_True
    by (rewrite length_app, length_replicate, Hlen; lia).
  rewrite (take_S_r _ _ _ Hj), fmap_app, <- app_assoc. cbn.
  replace (k - j) with (S (k - S j)) by lia. cbn.
  rewrite insert_app_r_alt by lia. rewrite Hlen, Nat.sub_diag. done.
Qed.

Lemma toArray_loop_spec s L cs fuel j :
  repr s L cs → j ≤ List.length cs → List.length cs - j < fuel →
  toArray_loop fuel
    ((Some <$> take j cs.*2) ++ replicate (List.length cs - j) None)
    (refAt cs j) j s
  = Ok (Some <$> cs.*2) s.
Proof.
  intros Hr. revert j. induction fuel as [|fuel IH]; intros j Hj Hfuel; [lia|].
  cbn [toArray_loop]. unfold refAt.
  destruct (cs !! j) as [c|] eqn:Hc; cbn [fmap option_fmap option_map].
  - pose proof (lookup_lt_Some _ _ _ Hc).
    rewrite (bind_Ok _ _ _ _ _ (get_VALUE_Ok _ _ _ (repr_lookup _ _ _ _ _ Hr Hc))).
    rewrite (bind_Ok _ _ _ _ _ (get_NEXT_Ok _ _ _ (repr_lookup _ _ _ _ _ Hr Hc))).
    cbn [VALUE NEXT]. rewrite arraySet_fill.
    + apply IH; lia.
    + by rewrite list_lookup_fmap, Hc.
    + lia.
  - apply lookup_ge_None_1 in Hc.
    replace (List.length cs - j) with 0 by lia.
    rewrite take_ge by (rewrite length_fmap; lia).
    cbn. by rewrite app_nil_r.
Qed.

Lemma toArray_spec s L cs fuel :
  repr s L cs → List.length cs < fuel →
  toArray fuel L s = Ok (Some <$> cs.*2) s.
Proof.
  intros Hr Hfuel. pose proof Hr as [Hl _ _ _]. unfold toArray.
  rewrite (bind_Ok _ _ _ _ _ (get_length_Ok _ _ _ Hl)). cbn [length].
  rewrite (proj2 (Z.ltb_ge _ _)) by lia.
  rewrite (bind_Ok _ _ _ _ _ (get_firstNode_Ok _ _ _ Hl)). cbn [firstNode].
  rewrite Nat2Z.id, <- refAt_0.
  pose proof (toArray_loop_spec s L cs fuel 0 Hr) as H.
  rewrite Nat.sub_0_r in H. apply H; lia.
Qed.

(** ** indexOf *)

Lemma indexOf_skip_spec s L cs fuel fromIndex j :
  repr s L cs → j ≤ List.length cs → List.length cs - j < fuel →
  indexOf_skip fuel fromIndex (refAt cs j) (Z.of_nat j) s
  = Ok (refAt cs (j `max` (Z.to_nat fromIndex `min` List.length cs)),
        Z.of_nat (j `max` (Z.to_nat fromIndex `min` List.length cs))) s.
Proof.
  intros Hr. revert j. induction fuel as [|fuel IH]; intros j Hj Hfuel; [lia|].
  cbn [indexOf_skip]. unfold refAt at 1.
  destruct (cs !! j) as [c|] eqn:Hc; cbn [fmap option_fmap option_map].
  - pose proof (lookup_lt_Some _ _ _ Hc).
    destruct (Z.ltb_spec (Z.of_nat j) fromIndex).
    + rewrite (bind_Ok _ _ _ _ _ (get_NEXT_Ok _ _ _ (repr_lookup _ _ _ _ _ Hr Hc))).
      cbn [NEXT]. replace (Z.of_nat j + 1)%Z with (Z.of_nat (S j)) by lia.
      rewrite IH by lia.
      replace (S j `max` (Z.to_nat fromIndex `min` List.length cs))
        with (j `max` (Z.to_nat fromIndex `min` List.length cs)) by lia.
      done.
    + replace (j `max` (Z.to_nat fromIndex `min` List.length cs)) with j by lia.
      unfold ret, refAt. by rewrite Hc.
  - apply lookup_ge_None_1 in Hc.
    replace (j `max` (Z.to_nat fromIndex `min` List.length cs)) with j by lia.
    unfold ret, refAt. by rewrite (lookup_ge_None_2 cs j).
Qed.

Lemma indexOf_scan_spec strictEq s L cs fuel x j :
  repr s L cs → List.length cs - j < fuel →
  indexOf_scan strictEq fuel x (refAt cs j) (Z.of_nat j) s
  = Ok (scanFrom strictEq x (drop j cs.*2) (Z.of_nat j)) s.
Proof.
  intros Hr. revert j. induction fuel as [|fuel IH]; intros j Hfuel; [lia|].
  cbn [indexOf_scan]. unfold refAt at 1.
  destruct (cs !! j) as [c|] eqn:Hc; cbn [fmap option_fmap option_map].
  - pose proof (lookup_lt_Some _ _ _ Hc).
    rewrite (bind_Ok _ _ _ _ _ (get_VALUE_Ok _ _ _ (repr_lookup _ _ _ _ _ Hr Hc))).
    cbn [VALUE].
    rewrite (drop_S cs.*2 c.2 j) by (by rewrite list_lookup_fmap, Hc).
    cbn [scanFrom]. destruct (strictEq c.2 x); [done|].
    rewrite (bind_Ok _ _ _ _ _ (get_NEXT_Ok _ _ _ (repr_lookup _ _ _ _ _ Hr Hc))).
    cbn [NEXT]. replace (Z.of_nat j + 1)%Z with (Z.of_nat (S j)) by lia.
    apply IH. lia.
  - apply lookup_ge_None_1 in Hc.
    rewrite drop_ge by (rewrite length_fmap; lia). done.
Qed.

Lemma indexOf_spec strictEq s L cs fuel x fromIndex :
  repr s L cs → List.length cs < fuel →
  indexOf strictEq fuel L x fromIndex s
  = Ok (scanFrom strictEq x (drop (Z.to_nat fromIndex) cs.*2)
          (Z.of_nat (Z.to_nat fromIndex `min` List.length cs))) s.
Proof.
  intros Hr Hfuel. pose proof Hr as [Hl _ _ _]. unfold indexOf.
  rewrite (bind_Ok _ _ _ _ _ (get_firstNode_Ok _ _ _ Hl)). cbn [firstNode].
  rewrite <- refAt_0.
  rewrite (bind_Ok _ _ _ _ _ (indexOf_skip_spec s L cs fuel fromIndex 0 Hr
             ltac:(lia) ltac:(lia))).
  cbn [fst snd]. rewrite Nat.max_0_l.
  rewrite (indexOf_scan_spec strictEq s L) by (done || lia).
  destruct (decide (Z.to_nat fromIndex ≤ List.length cs)).
  - by rewrite Nat.min_l.
  - rewrite Nat.min_r by lia.
    by rewrite !drop_ge by (rewrite length_fmap; lia).
Qed.

Lemma includes_spec strictEq s L cs fuel x fromIndex :
  repr s L cs → List.length cs < fuel →
  includes strictEq fuel L x fromIndex s
  = Ok (negb (scanFrom strictEq x (drop (Z.to_nat fromIndex) cs.*2)
                (Z.of_nat (Z.to_nat fromIndex `min` List.length cs)) =? -1)%Z) s.
Proof.
  intros Hr Hfuel. unfold includes.
  by rewrite (bind_Ok _ _ _ _ _ (indexOf_spec strictEq s L cs fuel x fromIndex Hr Hfuel)).
Qed.

End Queries.
End V2Queries.

Module V2Mutators.
Import V2 V2Facts V2Ops V2Inv V2Queries.
Section Mutators.
Context {ItemT : Type}.
Abbreviation Node := (@DoubleLinkedListNode ItemT).
Abbreviation Store := (@Store ItemT).
Abbreviation Cells := (list (NodeRef * ItemT)%type).
Implicit Types (h : list Node) (s : Store) (cs : Cells) (L this : ListRef)
  (n node : NodeRef) (X : list ListRef).

Lemma appendAll_spec s L cs items :
  repr s L cs →
  wp (appendAll L items) s (λ _ s',
    ∃ cs', repr s' L (cs ++ cs') ∧ cs'.*2 = items ∧ modifies L s s').
Proof.
  revert s cs. induction items as [|item items IH]; intros s cs Hr.
  - cbn. exists []. rewrite app_nil_r. split_and!; [done..|apply modifies_refl].
  - cbn [appendAll]. wstep.
    eapply wp_mono; [by apply append_spec|]. cbn beta.
    intros n s1 (-> & Hr1 & Hm1).
    eapply wp_mono; [by apply IH|]. cbn beta.
    intros _ s2 (cs' & Hr2 & Hvs & Hm2).
    exists ((List.length (nodes s), item) :: cs').
    rewrite <- app_assoc in Hr2. split_and!; [done|by rewrite fmap_cons, Hvs|].
    by eapply modifies_trans.
Qed.

Lemma repr_alloc_list h ls :
  owner_valid (mkStore h ls) →
  repr (mkStore h (ls ++ [mkList None None 0])) (List.length ls) [].
Proof.
  intros Hov. split; cbn [nodes lists].
  - by rewrite snoc_lookup.
  - apply NoDup_nil_2.
  - done.
  - intros n nd Hn HL. apply (Hov _ _ _ Hn) in HL. cbn in HL. lia.
Qed.

Lemma constructor_spec s items :
  owner_valid s →
  wp (constructor items) s (λ L s',
    L = List.length (lists s)
    ∧ (∃ cs, repr s' L cs ∧ cs.*2 = items)
    ∧ within [L] s s'
    ∧ List.length (lists s') = S (List.length (lists s))).
Proof.
  destruct s as [h ls]. intros Hov. unfold constructor. wsteps.
  pose proof (repr_alloc_list h ls Hov) as Hr.
  assert (within [List.length ls] (mkStore h ls)
            (mkStore h (ls ++ [mkList None None 0]))) as Hw
    by apply within_alloc_list.
  destruct (0 <? Z.of_nat (List.length items))%Z eqn:Hlen.
  - eapply wp_mono; [by apply (appendAll_spec _ _ [])|]. cbn beta.
    intros _ s' (cs' & Hr' & Hvs & Hm). wsteps.
    split_and!; [done|by eauto| |].
    + eapply within_trans; [done|]. eapply modifies_within; [done|]. set_solver.
    + rewrite (mod_lists_len _ _ _ Hm). cbn. rewrite length_app. cbn. lia.
  - wsteps. split_and!; [done| |done|cbn; rewrite length_app; cbn; lia].
    exists []. split; [done|]. apply Z.ltb_ge in Hlen.
    destruct items; [done|]. cbn [List.length] in Hlen. lia.
Qed.

Lemma pop_spec s L cs n v :
  repr s L (cs ++ [(n, v)]) →
  wp (pop L) s (λ r s',
    r = Some v ∧ repr s' L cs ∧ modifies L s s'
    ∧ nodes s' !! n = Some (mkNode None v None None)).
Proof.
  intros Hr. pose proof Hr as [Hl _ Hseg _]. unfold pop.
  rewrite lastRef_snoc in Hl. cbn [fst] in Hl.
  apply seg_app in Hseg as [_ [Hn _]]. cbn [fst snd] in Hn.
  wsteps.
  eapply wp_mono; [by apply remove_spec|]. cbn beta.
  intros r s' (-> & Hr' & Hm & Hn'). wsteps.
  rewrite app_nil_r in Hr'. done.
Qed.

Lemma pop_empty_spec s L : repr s L [] → pop L s = Ok None s.
Proof.
  intros [Hl _ _ _]. apply (wp_elim_eq _ _ None s). unfold pop. by wsteps.
Qed.

Lemma shift_spec s L cs n v :
  repr s L ((n, v) :: cs) →
  wp (shift L) s (λ r s',
    r = Some v ∧ repr s' L cs ∧ modifies L s s'
    ∧ nodes s' !! n = Some (mkNode None v None None)).
Proof.
  intros Hr. pose proof Hr as [Hl _ Hseg _]. unfold shift.
  cbn [firstRef fst] in Hl. destruct Hseg as [Hn _]. cbn [fst snd] in Hn.
  wsteps.
  eapply wp_mono; [by apply (remove_spec _ _ [])|]. cbn beta.
  intros r s' (-> & Hr' & Hm & Hn'). by wsteps.
Qed.

Lemma shift_empty_spec s L : repr s L [] → shift L s = Ok None s.
Proof.
  intros [Hl _ _ _]. apply (wp_elim_eq _ _ None s). unfold shift. by wsteps.
Qed.

Lemma clear_spec s L cs fuel :
  repr s L cs → List.length cs < fuel →
  wp (clear fuel L) s (λ _ s', repr s' L [] ∧ modifies L s s').
Proof.
  revert s cs. induction fuel as [|fuel IH]; intros s cs Hr Hfuel; [lia|].
  pose proof Hr as [Hl _ _ _]. cbn [clear]. wsteps.
  destruct cs as [|[n v] cs]; cbn [firstRef fst].
  - wsteps. split; [done|apply modifies_refl].
  - wsteps.
    eapply wp_mono; [by apply (remove_spec _ _ [])|]. cbn beta.
    intros r s1 (-> & Hr1 & Hm1 & _). cbn [app List.length] in Hr1, Hfuel.
    eapply wp_mono; [eapply IH; [done|lia]|]. cbn beta.
    intros _ s2 (Hr2 & Hm2). split; [done|]. by eapply modifies_trans.
Qed.

End Mutators.
End V2Mutators.

Module V2Splice.
Import V2 V2Facts V2Ops V2Inv V2Queries V2Mutators.
Section Splice.
Context {ItemT : Type}.
Abbreviation Node := (@DoubleLinkedListNode ItemT).
Abbreviation Store := (@Store ItemT).
Abbreviation Cells := (list (NodeRef * ItemT)%type).
Implicit Types (h : list Node) (s : Store) (cs : Cells) (L this : ListRef)
  (n node : NodeRef) (X : list ListRef).

Lemma firstRef_drop cs j : firstRef (drop j cs) None = refAt cs j.
Proof.
  unfold refAt. rewrite <- (Nat.add_0_r j) at 2. rewrite <- lookup_drop.
  by destruct (drop j cs).
Qed.

(** The deletion loop moves the first [k] cells of [c2] to the end of the
    removed list. *)
Lemma splice_delete_spec s L R c1 c2 cr k :
  L ≠ R → repr s L (c1 ++ c2) → repr s R cr →
  wp (splice_delete L R k (firstRef c2 None)) s (λ r s',
    r = firstRef (drop k c2) None
    ∧ repr s' L (c1 ++ drop k c2)
    ∧ (∃ cr', repr s' R (cr ++ cr') ∧ cr'.*2 = (take k c2).*2)
    ∧ within [L; R] s s'
    ∧ List.length (lists s') = List.length (lists s)).
Proof.
  intros HLR. revert s c2 cr. induction k as [|k IH]; intros s c2 cr HrL HrR.
  - cbn [splice_delete]. wstep. rewrite drop_0.
    split_and!; [done..| |apply within_refl|done].
    exists []. by rewrite app_nil_r.
  - destruct c2 as [|[n v] c2]; cbn [splice_delete firstRef fst].
    + wstep. split_and!; [done..| |apply within_refl|done].
      exists []. by rewrite app_nil_r.
    + assert (nodes s !! n
              = Some (mkNode (Some L) v (lastRef c1 None) (firstRef c2 None)))
        as Hn.
      { destruct HrL as [_ _ Hseg _]. by apply seg_app in Hseg as [_ [Hn _]]. }
      wsteps.
      eapply wp_mono; [by apply append_spec|]. cbn beta.
      intros r s1 (-> & HrR1 & Hm1).
      assert (repr s1 L (c1 ++ (n, v) :: c2)) as HrL1.
      { eapply (repr_within [R]); [|set_solver|done].
        eapply modifies_within; [done|set_solver]. }
      wstep.
      eapply wp_mono; [by apply remove_spec|]. cbn beta.
      intros r s2 (-> & HrL2 & Hm2 & _).
      assert (repr s2 R (cr ++ [(List.length (nodes s), v)])) as HrR2.
      { eapply (repr_within [L]); [|set_solver|done].
        eapply modifies_within; [done|set_solver]. }
      eapply wp_mono; [by apply IH|]. cbn beta.
      intros r s3 (-> & HrL3 & (cr' & HrR3 & Hvs) & Hw3 & Hlen3).
      split_and!; [done..| | |].
      * exists ((List.length (nodes s), v) :: cr').
        rewrite <- app_assoc in HrR3. split; [done|].
        cbn. by rewrite Hvs.
      * eapply within_trans; [|eapply within_trans; [|done]].
        -- eapply modifies_within; [done|set_solver].
        -- eapply modifies_within; [done|set_solver].
      * rewrite Hlen3, (mod_lists_len _ _ _ Hm2). apply (mod_lists_len _ _ _ Hm1).
Qed.

(** The insertion loop, once a first item is in: the rest follows it. *)
Lemma splice_insert_after_spec s L x c1 li lv c2 items :
  repr s L (c1 ++ (li, lv) :: c2) →
  wp (splice_insert L x (Some li) items) s (λ _ s',
    ∃ ci, repr s' L (c1 ++ (li, lv) :: ci ++ c2) ∧ ci.*2 = items
          ∧ modifies L s s').
Proof.
  revert s c1 li lv. induction items as [|item items IH]; intros s c1 li lv Hr.
  - cbn [splice_insert]. wstep. exists [].
    split_and!; [done..|apply modifies_refl].
  - cbn [splice_insert]. wstep.
    eapply wp_mono; [by apply insertAfterNode_spec|]. cbn beta.
    intros r s1 (-> & Hr1 & Hm1).
    change (c1 ++ (li, lv) :: (List.length (nodes s), item) :: c2)
      with (c1 ++ [(li, lv)] ++ (List.length (nodes s), item) :: c2) in Hr1.
    rewrite app_assoc in Hr1.
    eapply wp_mono; [by apply IH|]. cbn beta.
    intros _ s2 (ci & Hr2 & Hvs & Hm2).
    exists ((List.length (nodes s), item) :: ci).
    rewrite <- app_assoc in Hr2.
    split_and!; [done|by rewrite fmap_cons, Hvs|by eapply modifies_trans].
Qed.

Lemma splice_insert_spec s L x xv c1 c2 items :
  repr s L (c1 ++ (x, xv) :: c2) →
  wp (splice_insert L x None items) s (λ _ s',
    ∃ ci, repr s' L (c1 ++ ci ++ (x, xv) :: c2) ∧ ci.*2 = items
          ∧ modifies L s s').
Proof.
  intros Hr. destruct items as [|item items].
  - cbn [splice_insert]. wstep. exists [].
    split_and!; [done..|apply modifies_refl].
  - cbn [splice_insert]. wstep.
    eapply wp_mono; [by apply insertBeforeNode_spec|]. cbn beta.
    intros r s1 (-> & Hr1 & Hm1).
    eapply wp_mono; [by apply splice_insert_after_spec|]. cbn beta.
    intros _ s2 (ci & Hr2 & Hvs & Hm2).
    exists ((List.length (nodes s), item) :: ci).
    split_and!; [done|by rewrite fmap_cons, Hvs|by eapply modifies_trans].
Qed.

Lemma splice_from_spec s L c1 c2 deleteCount items :
  owner_valid s → repr s L (c1 ++ c2) →
  wp (splice_from L (firstRef c2 None) deleteCount items) s (λ R s',
    R = List.length (lists s)
    ∧ (∃ ci, repr s' L (c1 ++ ci ++ drop (Z.to_nat deleteCount) c2)
             ∧ ci.*2 = items)
    ∧ (∃ cr, repr s' R cr ∧ cr.*2 = (take (Z.to_nat deleteCount) c2).*2)
    ∧ within [L; R] s s'
    ∧ List.length (lists s') = S (List.length (lists s))).
Proof.
  intros Hov HrL. unfold splice_from.
  assert (L < List.length (lists s)) as HL.
  { destruct HrL as [Hl _ _ _]. by apply lookup_lt_Some in Hl. }
  wstep. eapply wp_mono; [by apply constructor_spec|]. cbn beta.
  intros R s1 (-> & (cr0 & HrR1 & Hcr0) & Hw1 & Hlen1).
  apply fmap_nil_inv in Hcr0 as ->.
  set (R := List.length (lists s)) in *.
  assert (L ≠ R) as HLR by lia.
  assert (repr s1 L (c1 ++ c2)) as HrL1.
  { eapply (repr_within [R]); [done| |done]. set_solver. }
  wstep. eapply wp_mono; [by apply (splice_delete_spec _ L R c1 c2 [])|].
  cbn beta. intros r s2 (-> & HrL2 & (cr & HrR2 & Hcr) & Hw2 & Hlen2).
  cbn [app] in HrR2.
  assert (within [L; R] s s2) as Hw.
  { eapply within_trans; [|done]. eapply within_mono; [|done]. set_solver. }
  wstep.
  destruct (0 <? Z.of_nat (List.length items))%Z eqn:Hlen.
  - destruct (drop (Z.to_nat deleteCount) c2) as [|[x xv] c2'] eqn:Hdrop;
      cbn [firstRef fst].
    + rewrite app_nil_r in HrL2.
      eapply wp_mono; [by apply appendAll_spec|]. cbn beta.
      intros _ s3 (ci & HrL3 & Hci & Hm3). wsteps.
      split_and!; [done| | | |].
      * exists ci. by rewrite app_nil_r.
      * exists cr. split; [|done].
        eapply (repr_within [L]); [|set_solver|done].
        eapply modifies_within; [done|set_solver].
      * eapply within_trans; [done|].
        eapply modifies_within; [done|set_solver].
      * rewrite (mod_lists_len _ _ _ Hm3). lia.
    + eapply wp_mono; [by apply splice_insert_spec|]. cbn beta.
      intros _ s3 (ci & HrL3 & Hci & Hm3). wsteps.
      split_and!; [done| | | |].
      * by exists ci.
      * exists cr. split; [|done].
        eapply (repr_within [L]); [|set_solver|done].
        eapply modifies_within; [done|set_solver].
      * eapply within_trans; [done|].
        eapply modifies_within; [done|set_solver].
      * rewrite (mod_lists_len _ _ _ Hm3). lia.
  - wsteps. apply Z.ltb_ge in Hlen.
    assert (items = []) as -> by (destruct items; [done|cbn in Hlen; lia]).
    split_and!; [done| | |done|lia].
    + by exists [].
    + by exists cr.
Qed.

End Splice.
End V2Splice.

Module V2SpliceTop.
Import V2 V2Facts V2Ops V2Inv V2Queries V2Mutators V2Splice.
Section SpliceTop.
Context {ItemT : Type}.
Abbreviation Node := (@DoubleLinkedListNode ItemT).
Abbreviation Store := (@Store ItemT).
Abbreviation Cells := (list (NodeRef * ItemT)%type).
Implicit Types (h : list Node) (s : Store) (cs : Cells) (L this : ListRef)
  (n node : NodeRef) (X : list ListRef).

Lemma clampStart_range len start :
  (0 ≤ len → 0 ≤ clampStart len start ≤ len)%Z.
Proof. unfold clampStart. destruct (Z.ltb_spec start 0); lia. Qed.

Lemma constructor_nil s : constructor [] s = Ok (List.length (lists s)) (withNewList s).
Proof. done. Qed.

Lemma splice_spec s L cs start p deleteCount items :
  owner_valid s → repr s L cs → resolves cs start p →
  wp (splice L start deleteCount items) s (λ R s',
    R = List.length (lists s)
    ∧ (∃ ci, repr s' L (take p cs ++ ci ++ drop (p + Z.to_nat deleteCount) cs)
             ∧ ci.*2 = items)
    ∧ (∃ cr, repr s' R cr
             ∧ cr.*2 = (take (Z.to_nat deleteCount) (drop p cs)).*2)
    ∧ within [L; R] s s'
    ∧ List.length (lists s') = S (List.length (lists s))).
Proof.
  intros Hov Hr Hres.
  assert (wp (splice_from L (refAt cs p) deleteCount items) s (λ R s',
    R = List.length (lists s)
    ∧ (∃ ci, repr s' L (take p cs ++ ci ++ drop (p + Z.to_nat deleteCount) cs)
             ∧ ci.*2 = items)
    ∧ (∃ cr, repr s' R cr
             ∧ cr.*2 = (take (Z.to_nat deleteCount) (drop p cs)).*2)
    ∧ within [L; R] s s'
    ∧ List.length (lists s') = S (List.length (lists s)))) as Hfrom.
  { rewrite <- firstRef_drop, <- drop_drop.
    apply splice_from_spec; [done|]. by rewrite take_drop. }
  pose proof Hr as [Hl _ _ _].
  destruct Hres as [|start|n p Hn]; unfold splice.
  - unfold refAt in Hfrom. by rewrite (lookup_ge_None_2 cs) in Hfrom.
  - wsteps.
    change (if (start <? 0)%Z then _ else _)
      with (clampStart (Z.of_nat (List.length cs)) start).
    pose proof (clampStart_range (Z.of_nat (List.length cs)) start) as Ha.
    set (len := Z.of_nat (List.length cs)) in *.
    set (a := clampStart len start) in *.
    destruct (Z.geb_spec a len).
    + wsteps. unfold refAt in Hfrom.
      by rewrite (lookup_ge_None_2 cs) in Hfrom by lia.
    + eapply wp_intro; [by apply getNodeAt_spec|].
      unfold nodeAt. fold len.
      destruct (Z.ltb_spec a 0); [lia|].
      destruct (Z.ltb_spec a 0); [lia|].
      destruct (Z.geb_spec a len); [lia|]. done.
  - unfold refAt in Hn. destruct (cs !! p) as [c|] eqn:Hc; [|done].
    injection Hn as <-.
    pose proof (repr_lookup _ _ _ _ _ Hr Hc) as Hlk.
    wsteps. rewrite decide_False by (intros ?; done).
    unfold refAt in Hfrom. by rewrite Hc in Hfrom.
Qed.

Lemma splice_foreign_spec s L n nd deleteCount items :
  nodes s !! n = Some nd → LIST nd ≠ Some L →
  splice L (StartNode n) deleteCount items s
  = Ok (List.length (lists s)) (withNewList s).
Proof.
  intros Hn Hnd. unfold splice.
  rewrite (bind_Ok _ _ _ _ _ (get_LIST_Ok _ _ _ Hn)).
  by rewrite decide_True.
Qed.

(** [splice(i, 0)] with nothing to insert: only the list of removed values
    is made. *)
Lemma splice_nothing_spec s L cs start :
  repr s L cs →
  splice L (StartNumber start) 0 [] s
  = Ok (List.length (lists s)) (withNewList s).
Proof.
  intros Hr. pose proof Hr as [Hl _ _ _]. unfold splice.
  rewrite (bind_Ok _ _ _ _ _ (get_length_Ok _ _ _ Hl)). cbn [length].
  destruct (_ >=? _)%Z.
  - done.
  - by rewrite (bind_Ok _ _ _ _ _ (getNodeAt_spec _ _ _ _ Hr)).
Qed.

Lemma inv_withNewList s : Inv s → Inv (withNewList s).
Proof.
  intros Hi. pose proof Hi as [Hov _]. destruct s as [h ls].
  eapply (inv_within [List.length ls]); [done|apply within_alloc_list|..].
  - intros L ->%list_elem_of_singleton. exists []. by apply repr_alloc_list.
  - intros L. cbn. rewrite length_app. cbn. intros ?.
    destruct (decide (L = List.length ls)) as [->|]; [left; set_solver|right; lia].
Qed.

Lemma repr_withNewList s L cs : repr s L cs → repr (withNewList s) L cs.
Proof.
  destruct s as [h ls]. apply (repr_within []); [|set_solver].
  apply within_alloc_list.
Qed.

Lemma repr_withNewList_new s :
  owner_valid s → repr (withNewList s) (List.length (lists s)) [].
Proof. destruct s. apply repr_alloc_list. Qed.

End SpliceTop.
End V2SpliceTop.

Module V2Reach.
Import V2 V2Spec V2Facts V2Ops V2Inv V2Queries V2Mutators V2Splice V2SpliceTop.
Section Reach.
Context {ItemT : Type}.
Variable strictEq : ItemT → ItemT → bool.
Abbreviation Node := (@DoubleLinkedListNode ItemT).
Abbreviation Store := (@Store ItemT).
Abbreviation Cells := (list (NodeRef * ItemT)%type).
Implicit Types (h : list Node) (s : Store) (cs : Cells) (L this : ListRef)
  (n node : NodeRef) (X : list ListRef).

Lemma cells_split cs n :
  n ∈ cs.*1 → ∃ c1 v c2, cs = c1 ++ (n, v) :: c2.
Proof.
  intros ([n' v] & -> & Hin)%list_elem_of_fmap.
  apply list_elem_of_split in Hin as (c1 & c2 & ->). by exists c1, v, c2.
Qed.

Lemma void_wp {A} (m : M Store A) s (Q : Store → Prop) :
  wp m s (λ _ s', Q s') → wp (void m) s (λ _ s', Q s').
Proof. intros H. unfold void. wstep. eapply wp_mono; [done|]. done. Qed.

(** ** Each operation keeps the invariant *)

Lemma append_inv s L v :
  Inv s → L < List.length (lists s) → wp (append L v) s (λ _ s', Inv s').
Proof.
  intros Hi HL. destruct (inv_repr _ _ Hi HL) as [cs Hr].
  eapply wp_mono; [by apply append_spec|]. cbn beta.
  intros n s' (_ & Hr' & Hm). by eapply inv_modifies.
Qed.

Lemma prepend_inv s L v :
  Inv s → L < List.length (lists s) → wp (prepend L v) s (λ _ s', Inv s').
Proof.
  intros Hi HL. destruct (inv_repr _ _ Hi HL) as [cs Hr].
  eapply wp_mono; [by apply prepend_spec|]. cbn beta.
  intros n s' (_ & Hr' & Hm). by eapply inv_modifies.
Qed.

Lemma remove_inv s L n :
  Inv s → L < List.length (lists s) → n < List.length (nodes s) →
  wp (remove L n) s (λ _ s', Inv s').
Proof.
  intros Hi HL Hn. destruct (inv_repr _ _ Hi HL) as [cs Hr].
  apply lookup_lt_is_Some_2 in Hn as [nd Hnd].
  destruct (decide (LIST nd = Some L)) as [Hown|Hown].
  - apply (repr_owned _ _ _ Hr _ _ Hnd) in Hown.
    apply cells_split in Hown as (c1 & v & c2 & ->).
    eapply wp_mono; [by apply remove_spec|]. cbn beta.
    intros r s' (_ & Hr' & Hm & _). by eapply inv_modifies.
  - eapply wp_intro; [by eapply remove_foreign_spec|done].
Qed.

Lemma insertAfterNode_inv s L n v :
  Inv s → L < List.length (lists s) → n < List.length (nodes s) →
  wp (insertAfterNode L n v) s (λ _ s', Inv s').
Proof.
  intros Hi HL Hn. destruct (inv_repr _ _ Hi HL) as [cs Hr].
  apply lookup_lt_is_Some_2 in Hn as [nd Hnd].
  destruct (decide (LIST nd = Some L)) as [Hown|Hown].
  - apply (repr_owned _ _ _ Hr _ _ Hnd) in Hown.
    apply cells_split in Hown as (c1 & w & c2 & ->).
    eapply wp_mono; [by apply insertAfterNode_spec|]. cbn beta.
    intros r s' (_ & Hr' & Hm). by eapply inv_modifies.
  - eapply wp_intro; [by eapply insertAfterNode_foreign_spec|done].
Qed.

Lemma insertBeforeNode_inv s L n v :
  Inv s → L < List.length (lists s) → n < List.length (nodes s) →
  wp (insertBeforeNode L n v) s (λ _ s', Inv s').
Proof.
  intros Hi HL Hn. destruct (inv_repr _ _ Hi HL) as [cs Hr].
  apply lookup_lt_is_Some_2 in Hn as [nd Hnd].
  destruct (decide (LIST nd = Some L)) as [Hown|Hown].
  - apply (repr_owned _ _ _ Hr _ _ Hnd) in Hown.
    apply cells_split in Hown as (c1 & w & c2 & ->).
    eapply wp_mono; [by apply insertBeforeNode_spec|]. cbn beta.
    intros r s' (_ & Hr' & Hm). by eapply inv_modifies.
  - eapply wp_intro; [by eapply insertBeforeNode_foreign_spec|done].
Qed.

Lemma constructor_inv s items :
  Inv s → wp (constructor items) s (λ _ s', Inv s').
Proof.
  intros Hi. pose proof Hi as [Hov _].
  eapply wp_mono; [by apply constructor_spec|]. cbn beta.
  intros L s' (-> & (cs & Hr & _) & Hw & Hlen).
  eapply inv_within; [done..| |].
  - intros L ->%list_elem_of_singleton. eauto.
  - intros L HL. destruct (decide (L < List.length (lists s))); [by right|].
    left. apply list_elem_of_singleton. lia.
Qed.

Lemma resolves_total cs start :
  (∀ n, start = StartNode n → n ∈ cs.*1) → ∃ p, resolves cs start p.
Proof.
  destruct start as [|i|n]; intros Hn.
  - eexists. constructor.
  - eexists. constructor.
  - pose proof (Hn n eq_refl) as Hin.
    apply list_elem_of_lookup_1 in Hin as [p Hp].
    exists p. constructor. unfold refAt. by rewrite <- list_lookup_fmap.
Qed.

Lemma splice_inv s L start deleteCount items :
  Inv s → L < List.length (lists s) →
  (∀ n, start = StartNode n → n < List.length (nodes s)) →
  wp (splice L start deleteCount items) s (λ _ s', Inv s').
Proof.
  intros Hi HL Hstart. pose proof Hi as [Hov _].
  destruct (inv_repr _ _ Hi HL) as [cs Hr].
  assert ((∃ n nd, start = StartNode n ∧ nodes s !! n = Some nd
                   ∧ LIST nd ≠ Some L)
          ∨ ∃ p, resolves cs start p) as [(n & nd & -> & Hnd & Hown)|[p Hp]].
  { destruct start as [|i|n]; [right; eexists; constructor..|].
    destruct (lookup_lt_is_Some_2 (nodes s) n) as [nd Hnd]; [by apply Hstart|].
    destruct (decide (LIST nd = Some L)) as [Hown|Hown]; [|left; eauto].
    right. apply resolves_total. intros ? [= <-].
    by eapply repr_owned. }
  - eapply wp_intro; [by eapply splice_foreign_spec|].
    by apply inv_withNewList.
  - eapply wp_mono; [by apply splice_spec|]. cbn beta.
    intros R s' (-> & (ci & HrL & _) & (cr & HrR & _) & Hw & Hlen).
    eapply inv_within; [done..| |].
    + intros L' [->|[->|[]%elem_of_nil]%elem_of_cons]%elem_of_cons; eauto.
    + intros L' HL'. destruct (decide (L' < List.length (lists s))); [by right|].
      left. apply elem_of_cons. right. apply list_elem_of_singleton. lia.
Qed.

Lemma pop_inv s L :
  Inv s → L < List.length (lists s) → wp (pop L) s (λ _ s', Inv s').
Proof.
  intros Hi HL. destruct (inv_repr _ _ Hi HL) as [cs Hr].
  destruct (snoc_case cs) as [->|(cs' & [n v] & ->)].
  - eapply wp_intro; [by apply pop_empty_spec|done].
  - eapply wp_mono; [by apply pop_spec|]. cbn beta.
    intros r s' (_ & Hr' & Hm & _). by eapply inv_modifies.
Qed.

Lemma shift_inv s L :
  Inv s → L < List.length (lists s) → wp (shift L) s (λ _ s', Inv s').
Proof.
  intros Hi HL. destruct (inv_repr _ _ Hi HL) as [cs Hr].
  destruct cs as [|[n v] cs].
  - eapply wp_intro; [by apply shift_empty_spec|done].
  - eapply wp_mono; [by apply shift_spec|]. cbn beta.
    intros r s' (_ & Hr' & Hm & _). by eapply inv_modifies.
Qed.

(** A chain is no longer than the store has nodes. *)
Lemma repr_length_le s L cs : repr s L cs → List.length cs ≤ List.length (nodes s).
Proof.
  intros Hr. pose proof (repr_nodup _ _ _ Hr) as Hnd.
  assert (cs.*1 ⊆+ seq 0 (List.length (nodes s))) as Hsub.
  { apply NoDup_submseteq; [done|]. intros n Hn.
    apply elem_of_seq. pose proof (repr_lt _ _ _ _ Hr Hn). lia. }
  apply submseteq_length in Hsub. by rewrite length_fmap, length_seq in Hsub.
Qed.

Lemma clear_inv_total s L fuel :
  Inv s → L < List.length (lists s) → List.length (nodes s) < fuel →
  wp (clear fuel L) s (λ _ s', Inv s').
Proof.
  intros Hi HL Hfuel. destruct (inv_repr _ _ Hi HL) as [cs Hr].
  pose proof (repr_length_le _ _ _ Hr).
  eapply wp_mono; [eapply clear_spec; [done|lia]|]. cbn beta.
  intros _ s' (Hr' & Hm). by eapply inv_modifies.
Qed.

Lemma clear_inv_partial s L fuel r s' :
  Inv s → L < List.length (lists s) → clear fuel L s = Ok r s' → Inv s'.
Proof.
  revert s. induction fuel as [|fuel IH]; intros s Hi HL; [done|].
  destruct (inv_repr _ _ Hi HL) as [cs Hr]. pose proof Hr as [Hl _ _ _].
  cbn [clear]. rewrite (bind_Ok _ _ _ _ _ (get_firstNode_Ok _ _ _ Hl)).
  cbn [firstNode].
  destruct cs as [|[n v] cs]; cbn [firstRef fst].
  - by intros [= _ <-].
  - destruct (wp_elim _ _ _ (remove_spec s L [] n v cs Hr))
      as (b & s1 & Hrm & _ & Hr1 & Hm1 & _).
    rewrite (bind_Ok _ _ _ _ _ Hrm). apply IH.
    + by eapply inv_modifies.
    + by rewrite (mod_lists_len _ _ _ Hm1).
Qed.

End Reach.
End V2Reach.
Module V2Iteration.
Import V2 V2Facts V2Ops V2Inv V2Queries V2Mutators V2Reach.
Section Iteration.
Context {ItemT : Type}.
Abbreviation Node := (@DoubleLinkedListNode ItemT).
Abbreviation Store := (@Store ItemT).
Abbreviation Cells := (list (NodeRef * ItemT)%type).
Implicit Types (h : list Node) (s : Store) (cs : Cells) (L this : ListRef)
  (n node : NodeRef) (X : list ListRef).

(** ** The iterator *)

Lemma iterator_spec s L cs :
  repr s L cs → iterator L s = Ok (refAt cs 0) s.
Proof.
  intros [Hl _ _ _]. unfold iterator.
  rewrite (get_firstNode_Ok _ _ _ Hl). cbn [firstNode]. by rewrite refAt_0.
Qed.

Lemma iterator_next_spec s L cs j :
  repr s L cs →
  iterator_next (refAt cs j) s = Ok (refAt cs (S j), cs.*2 !! j) s.
Proof.
  intros Hr. unfold refAt at 1. rewrite list_lookup_fmap.
  destruct (cs !! j) as [c|] eqn:Hc; cbn [fmap option_fmap option_map].
  - cbn [iterator_next].
    rewrite (bind_Ok _ _ _ _ _ (get_VALUE_Ok _ _ _ (repr_lookup _ _ _ _ _ Hr Hc))).
    by rewrite (bind_Ok _ _ _ _ _ (get_NEXT_Ok _ _ _ (repr_lookup _ _ _ _ _ Hr Hc))).
  - cbn [iterator_next]. unfold refAt.
    apply lookup_ge_None_1 in Hc. rewrite lookup_ge_None_2 by lia. done.
Qed.

Lemma iterator_next_total s current :
  (∀ c, current = Some c → c < List.length (nodes s)) →
  ∃ r, iterator_next current s = Ok r s.
Proof.
  intros Hc. destruct current as [c|]; [|by eexists].
  destruct (lookup_lt_is_Some_2 (nodes s) c (Hc _ eq_refl)) as [nd Hnd].
  cbn [iterator_next].
  rewrite (bind_Ok _ _ _ _ _ (get_VALUE_Ok _ _ _ Hnd)).
  rewrite (bind_Ok _ _ _ _ _ (get_NEXT_Ok _ _ _ Hnd)). by eexists.
Qed.

(** ** forEach and find *)

Lemma forEach_loop_spec s L cs fuel callback j :
  repr s L cs → j ≤ List.length cs → List.length cs - j < fuel →
  forEach_loop fuel callback (Z.of_nat j) (refAt cs j) s = Ok tt s.
Proof.
  intros Hr. revert j. induction fuel as [|fuel IH]; intros j Hj Hfuel; [lia|].
  cbn [forEach_loop]. unfold refAt at 1.
  destruct (cs !! j) as [c|] eqn:Hc; cbn [fmap option_fmap option_map];
    [|done].
  pose proof (lookup_lt_Some _ _ _ Hc).
  rewrite (bind_Ok _ _ _ _ _ (get_VALUE_Ok _ _ _ (repr_lookup _ _ _ _ _ Hr Hc))).
  unfold bind at 1, ret at 1.
  rewrite (bind_Ok _ _ _ _ _ (get_NEXT_Ok _ _ _ (repr_lookup _ _ _ _ _ Hr Hc))).
  cbn [NEXT]. replace (Z.of_nat j + 1)%Z with (Z.of_nat (S j)) by lia.
  apply IH; lia.
Qed.

Lemma forEach_spec s L cs fuel callback :
  repr s L cs → List.length cs < fuel →
  forEach fuel L callback s = Ok tt s.
Proof.
  intros Hr Hfuel. pose proof Hr as [Hl _ _ _]. unfold forEach.
  rewrite (bind_Ok _ _ _ _ _ (get_firstNode_Ok _ _ _ Hl)). cbn [firstNode].
  rewrite <- refAt_0. apply (forEach_loop_spec s L cs fuel callback 0 Hr); lia.
Qed.

Lemma find_loop_spec s L cs fuel predicate j :
  repr s L cs → j ≤ List.length cs → List.length cs - j < fuel →
  find_loop fuel predicate (Z.of_nat j) (refAt cs j) s
  = Ok (findFrom predicate (drop j cs.*2) (Z.of_nat j)) s.
Proof.
  intros Hr. revert j. induction fuel as [|fuel IH]; intros j Hj Hfuel; [lia|].
  cbn [find_loop]. unfold refAt at 1.
  destruct (cs !! j) as [c|] eqn:Hc; cbn [fmap option_fmap option_map].
  - pose proof (lookup_lt_Some _ _ _ Hc).
    assert (cs.*2 !! j = Some c.2) as Hv by (by rewrite list_lookup_fmap, Hc).
    rewrite (drop_S _ _ _ Hv). cbn [findFrom].
    rewrite (bind_Ok _ _ _ _ _ (get_VALUE_Ok _ _ _ (repr_lookup _ _ _ _ _ Hr Hc))).
    cbn [VALUE]. destruct (predicate c.2 (Z.of_nat j)).
    + by rewrite (bind_Ok _ _ _ _ _ (get_VALUE_Ok _ _ _ (repr_lookup _ _ _ _ _ Hr Hc))).
    + rewrite (bind_Ok _ _ _ _ _ (get_NEXT_Ok _ _ _ (repr_lookup _ _ _ _ _ Hr Hc))).
      cbn [NEXT]. replace (Z.of_nat j + 1)%Z with (Z.of_nat (S j)) by lia.
      apply IH; lia.
  - apply lookup_ge_None_1 in Hc.
    rewrite drop_ge by (rewrite length_fmap; lia). done.
Qed.

Lemma find_spec s L cs fuel predicate :
  repr s L cs → List.length cs < fuel →
  find fuel L predicate s = Ok (findFrom predicate cs.*2 0%Z) s.
Proof.
  intros Hr Hfuel. pose proof Hr as [Hl _ _ _]. unfold find.
  rewrite (bind_Ok _ _ _ _ _ (get_firstNode_Ok _ _ _ Hl)). cbn [firstNode].
  rewrite <- refAt_0. apply (find_loop_spec s L cs fuel predicate 0 Hr); lia.
Qed.

(** ** map *)

Lemma map_loop_spec s L R cs rs fuel callback j :
  repr s L cs → repr s R rs → L ≠ R →
  j ≤ List.length cs → List.length cs - j < fuel →
  wp (map_loop fuel R callback (Z.of_nat j) (refAt cs j)) s (λ _ s',
    repr s' L cs
    ∧ (∃ rs', repr s' R rs'
         ∧ rs'.*2 = rs.*2 ++ mapFrom callback (drop j cs.*2) (Z.of_nat j))
    ∧ modifies R s s').
Proof.
  revert s rs j. induction fuel as [|fuel IH];
    intros s rs j Hr HR Hne Hj Hfuel; [lia|].
  cbn [map_loop]. unfold refAt at 1.
  destruct (cs !! j) as [c|] eqn:Hc; cbn [fmap option_fmap option_map].
  - pose proof (lookup_lt_Some _ _ _ Hc).
    assert (cs.*2 !! j = Some c.2) as Hv by (by rewrite list_lookup_fmap, Hc).
    rewrite (drop_S _ _ _ Hv). cbn [mapFrom].
    apply wp_bind. eapply wp_get_VALUE; [exact (repr_lookup _ _ _ _ _ Hr Hc)|]. cbn [VALUE].
    apply wp_bind. eapply wp_mono; [by apply append_spec|]. cbn beta.
    intros n s1 (_ & HR1 & Hm1).
    assert (repr s1 L cs) as Hr1.
    { apply (repr_within [R] s); [|set_solver|done].
      apply (modifies_within R); [done|set_solver]. }
    apply wp_bind. eapply wp_get_NEXT; [exact (repr_lookup _ _ _ _ _ Hr1 Hc)|]. cbn [NEXT].
    replace (Z.of_nat j + 1)%Z with (Z.of_nat (S j)) by lia.
    eapply wp_mono; [apply (IH s1 _ (S j) Hr1 HR1 Hne); lia|]. cbn beta.
    intros _ s2 (Hr2 & (rs' & HR2 & Hvs) & Hm2). split; [done|]. split.
    + exists rs'. split; [done|]. rewrite Hvs, fmap_app, <- app_assoc. done.
    + by eapply modifies_trans.
  - apply lookup_ge_None_1 in Hc.
    rewrite drop_ge by (rewrite length_fmap; lia). cbn [mapFrom].
    apply wp_ret. split; [done|]. split; [|apply modifies_refl].
    exists rs. by rewrite app_nil_r.
Qed.

Lemma map_spec s L cs fuel callback :
  owner_valid s → repr s L cs → List.length cs < fuel →
  wp (map fuel L callback) s (λ R s',
    R = List.length (lists s)
    ∧ repr s' L cs
    ∧ (∃ rs, repr s' R rs ∧ rs.*2 = mapFrom callback cs.*2 0%Z)
    ∧ within [R] s s'
    ∧ List.length (lists s') = S (List.length (lists s))).
Proof.
  intros Hov Hr Hfuel. pose proof Hr as [Hl _ _ _].
  pose proof (lookup_lt_Some _ _ _ Hl) as HL.
  unfold map. apply wp_bind.
  eapply wp_mono; [by apply constructor_spec|]. cbn beta.
  intros R s1 (-> & (rs & HR1 & Hrs) & Hw1 & Hlen1).
  assert (L ∉ [List.length (lists s)]) as Hnin
    by (intros ->%list_elem_of_singleton; lia).
  assert (repr s1 L cs) as Hr1 by (by eapply repr_within).
  apply wp_bind. eapply wp_get_firstNode; [by destruct Hr1|].
  rewrite <- refAt_0. apply wp_bind.
  eapply wp_mono.
  { apply (map_loop_spec s1 L _ cs rs fuel callback 0 Hr1 HR1); [|lia..].
    intros ->. lia. }
  cbn beta. intros _ s2 (Hr2 & (rs' & HR2 & Hvs) & Hm2). apply wp_ret.
  split_and!; [done|done| | |].
  - exists rs'. split; [done|].
    rewrite Hvs. destruct rs; [done|]. cbn in Hrs. done.
  - eapply within_trans; [done|]. eapply modifies_within; [done|set_solver].
  - by rewrite (mod_lists_len _ _ _ Hm2).
Qed.

Lemma map_inv s L fuel callback :
  Inv s → L < List.length (lists s) → List.length (nodes s) < fuel →
  wp (map fuel L callback) s (λ _ s', Inv s').
Proof.
  intros Hi HL Hfuel. destruct (inv_repr _ _ Hi HL) as [cs Hr].
  pose proof (repr_length_le _ _ _ Hr). pose proof Hi as [Hov _].
  eapply wp_mono; [eapply map_spec; [done..|lia]|]. cbn beta.
  intros R s' (-> & _ & (rs & HR & _) & Hw & Hlen).
  eapply inv_within; [done..| |].
  - intros R ->%list_elem_of_singleton. eauto.
  - intros R HR'. destruct (decide (R < List.length (lists s))); [by right|].
    left. apply list_elem_of_singleton. lia.
Qed.

(** Whatever the fuel, a run of [map] that returns keeps the invariant. *)
Lemma map_loop_inv_partial fuel R callback index cursor s r s' :
  Inv s → R < List.length (lists s) →
  map_loop fuel R callback index cursor s = Ok r s' → Inv s'.
Proof.
  revert s index cursor. induction fuel as [|fuel IH];
    intros s index cursor Hi HR; [done|].
  cbn [map_loop]. destruct cursor as [c|]; [|by intros [= _ <-]].
  unfold bind at 1. destruct (get_VALUE c s) as [v s0|] eqn:Hv; [|done].
  assert (s0 = s) as ->.
  { unfold get_VALUE, bind, readNode in Hv.
    destruct (nodes s !! c); [|done]. by injection Hv as _ <-. }
  destruct (inv_repr _ _ Hi HR) as [rs Hrs].
  destruct (wp_elim _ _ _ (append_spec s R rs (callback v index) Hrs))
    as (n & s1 & Hap & _ & Hrs1 & Hm1).
  rewrite (bind_Ok _ _ _ _ _ Hap).
  unfold bind at 1. destruct (get_NEXT c s1) as [nx s0|] eqn:Hnx; [|done].
  assert (s0 = s1) as ->.
  { unfold get_NEXT, bind, readNode in Hnx.
    destruct (nodes s1 !! c); [|done]. by injection Hnx as _ <-. }
  apply IH; [by eapply inv_modifies|].
  by rewrite (mod_lists_len _ _ _ Hm1).
Qed.

Lemma map_inv_partial fuel L callback s r s' :
  Inv s → map fuel L callback s = Ok r s' → Inv s'.
Proof.
  intros Hi. unfold map.
  destruct (wp_elim _ _ _ (constructor_inv s [] Hi)) as (R & s1 & Hc & Hi1).
  pose proof (wp_Ok _ _ _ _ _ Hc
                (constructor_spec s [] (proj1 Hi))) as (-> & _ & _ & Hlen).
  rewrite (bind_Ok _ _ _ _ _ Hc). unfold bind at 1.
  destruct (get_firstNode L s1) as [cursor s0|] eqn:Hf; [|done].
  assert (s0 = s1) as ->.
  { unfold get_firstNode, bind, readList in Hf.
    destruct (lists s1 !! L); [|done]. by injection Hf as _ <-. }
  unfold bind at 1.
  destruct (map_loop _ _ _ _ _ s1) as [[] s2|] eqn:Hloop; [|done].
  intros [= _ <-]. eapply map_loop_inv_partial; [done| |done]. lia.
Qed.

End Iteration.
End V2Iteration.
Module V2Exec.
Import V2 V2Spec V2Facts V2Ops V2Inv V2Queries V2Mutators V2Splice V2SpliceTop
  V2Reach V2Iteration.
Section Exec.
Context {ItemT : Type}.
Variable strictEq : ItemT → ItemT → bool.
Abbreviation Node := (@DoubleLinkedListNode ItemT).
Abbreviation Store := (@Store ItemT).
Abbreviation Cells := (list (NodeRef * ItemT)%type).
Implicit Types (h : list Node) (s : Store) (cs : Cells) (L this : ListRef)
  (n node : NodeRef) (X : list ListRef).

(** ** Every operation returns *)

Lemma exec_total s fuel (op : Op) :
  Inv s → argsOk s op → List.length (nodes s) < fuel →
  wp (exec strictEq fuel op) s (λ _ s', Inv s').
Proof.
  intros Hi [Hthis Hnode] Hfuel.
  destruct op; cbn [exec]; apply void_wp;
    try (specialize (Hthis _ eq_refl));
    try (destruct (inv_repr _ _ Hi Hthis) as [cs Hr];
         pose proof (repr_length_le _ _ _ Hr)).
  - by apply constructor_inv.
  - by apply append_inv.
  - by apply prepend_inv.
  - apply insertAfterNode_inv; [done..|]. by apply Hnode.
  - apply insertBeforeNode_inv; [done..|]. by apply Hnode.
  - apply remove_inv; [done..|]. by apply Hnode.
  - apply splice_inv; [done..|]. intros n ->. by apply Hnode.
  - by apply clear_inv_total.
  - by apply pop_inv.
  - by apply shift_inv.
  - by apply append_inv.
  - by apply prepend_inv.
  - eapply wp_intro; [by apply get_spec|done].
  - eapply wp_intro; [by apply getNodeAt_spec|done].
  - eapply wp_intro; [apply toArray_spec; [done|lia]|done].
  - eapply wp_intro; [apply indexOf_spec; [done|lia]|done].
  - eapply wp_intro; [apply includes_spec; [done|lia]|done].
  - destruct Hr as [Hl _ _ _]. unfold getLength. by wsteps.
  - destruct Hr as [Hl _ _ _]. unfold isEmpty. by wsteps.
  - destruct Hr as [Hl _ _ _]. unfold getHead. by wsteps.
  - destruct Hr as [Hl _ _ _]. unfold getTail. by wsteps.
  - eapply wp_intro; [apply (forEach_spec _ _ cs); [done|lia]|done].
  - by apply map_inv.
  - eapply wp_intro; [apply (find_spec _ _ cs); [done|lia]|done].
  - eapply wp_intro; [exact (iterator_spec _ _ _ Hr)|done].
  - destruct (iterator_next_total s current) as [r Hr]; [|by eapply wp_intro].
    intros c ->. by apply Hnode.
Qed.

(** ** The queries leave the store alone *)

Lemma readonly_ret {A} (a : A) : readonly (ret a : M Store A).
Proof. by intros s a' s' [= _ <-]. Qed.

Lemma readonly_throw {A} e : readonly (throw e : M Store A).
Proof. by intros s a' s'. Qed.

Lemma readonly_bind {A B} (m : M Store A) (k : A → M Store B) :
  readonly m → (∀ a, readonly (k a)) → readonly (bind m k).
Proof.
  intros Hm Hk s b s'. unfold bind. destruct (m s) as [a s1|] eqn:Hms; [|done].
  apply Hm in Hms as ->. apply Hk.
Qed.

Lemma readonly_readNode n : readonly (readNode n : M Store _).
Proof. intros s a s'. unfold readNode. by destruct (_ !! _); intros [= _ <-]. Qed.

Lemma readonly_readList L : readonly (readList L : M Store _).
Proof. intros s a s'. unfold readList. by destruct (_ !! _); intros [= _ <-]. Qed.

Lemma readonly_toArray_loop fuel output cursor index :
  readonly (toArray_loop fuel output cursor index : M Store _).
Proof.
  revert output cursor index. induction fuel as [|fuel IH]; intros output cursor index.
  - apply readonly_throw.
  - cbn [toArray_loop]. destruct cursor; [|apply readonly_ret].
    repeat (apply readonly_bind; [|intros ?]);
      auto using readonly_readNode, readonly_ret.
Qed.

Lemma readonly_toArray fuel L : readonly (toArray fuel L : M Store _).
Proof.
  unfold toArray, get_length, get_firstNode.
  repeat (apply readonly_bind; [|intros ?]);
    auto using readonly_readList, readonly_ret.
  destruct (_ <? _)%Z; [apply readonly_throw|].
  repeat (apply readonly_bind; [|intros ?]);
    auto using readonly_readList, readonly_ret, readonly_toArray_loop.
Qed.

Lemma readonly_indexOf_skip fuel fromIndex cursor index :
  readonly (indexOf_skip fuel fromIndex cursor index : M Store _).
Proof.
  revert cursor index. induction fuel as [|fuel IH]; intros cursor index.
  - apply readonly_throw.
  - cbn [indexOf_skip]. destruct cursor; [|apply readonly_ret].
    destruct (_ <? _)%Z; [|apply readonly_ret].
    repeat (apply readonly_bind; [|intros ?]);
      auto using readonly_readNode, readonly_ret.
Qed.

Lemma readonly_indexOf_scan fuel x cursor index :
  readonly (indexOf_scan strictEq fuel x cursor index : M Store _).
Proof.
  revert cursor index. induction fuel as [|fuel IH]; intros cursor index.
  - apply readonly_throw.
  - cbn [indexOf_scan]. destruct cursor; [|apply readonly_ret].
    repeat (apply readonly_bind; [|intros ?]);
      auto using readonly_readNode, readonly_ret.
    destruct (strictEq _ _); [apply readonly_ret|].
    repeat (apply readonly_bind; [|intros ?]);
      auto using readonly_readNode, readonly_ret.
Qed.

Lemma readonly_indexOf fuel L x fromIndex :
  readonly (indexOf strictEq fuel L x fromIndex : M Store _).
Proof.
  unfold indexOf, get_firstNode.
  repeat (apply readonly_bind; [|intros ?]);
    auto using readonly_readList, readonly_ret, readonly_indexOf_skip,
      readonly_indexOf_scan.
Qed.

Lemma readonly_includes fuel L x fromIndex :
  readonly (includes strictEq fuel L x fromIndex : M Store _).
Proof.
  unfold includes. apply readonly_bind; [apply readonly_indexOf|].
  intros i. apply readonly_ret.
Qed.

Lemma readonly_forEach_loop fuel callback index cursor :
  readonly (forEach_loop fuel callback index cursor : M Store _).
Proof.
  revert cursor index. induction fuel as [|fuel IH]; intros cursor index.
  - apply readonly_throw.
  - cbn [forEach_loop]. destruct cursor; [|apply readonly_ret].
    repeat (apply readonly_bind; [|intros ?]);
      auto using readonly_readNode, readonly_ret.
Qed.

Lemma readonly_forEach fuel L callback :
  readonly (forEach fuel L callback : M Store _).
Proof.
  unfold forEach, get_firstNode.
  repeat (apply readonly_bind; [|intros ?]);
    auto using readonly_readList, readonly_ret, readonly_forEach_loop.
Qed.

Lemma readonly_find_loop fuel predicate index cursor :
  readonly (find_loop fuel predicate index cursor : M Store _).
Proof.
  revert cursor index. induction fuel as [|fuel IH]; intros cursor index.
  - apply readonly_throw.
  - cbn [find_loop]. destruct cursor; [|apply readonly_ret].
    repeat (apply readonly_bind; [|intros ?]);
      auto using readonly_readNode, readonly_ret.
    destruct (predicate _ _);
      repeat (apply readonly_bind; [|intros ?]);
      auto using readonly_readNode, readonly_ret.
Qed.

Lemma readonly_find fuel L predicate :
  readonly (find fuel L predicate : M Store _).
Proof.
  unfold find, get_firstNode.
  repeat (apply readonly_bind; [|intros ?]);
    auto using readonly_readList, readonly_ret, readonly_find_loop.
Qed.

Lemma void_Ok {A} (m : M Store A) s s' :
  void m s = Ok tt s' → ∃ a, m s = Ok a s'.
Proof.
  unfold void, bind. destruct (m s) as [a s1|]; [|done].
  intros [= <-]. eauto.
Qed.

(** ** The invariant along operation sequences *)

Lemma exec_inv s fuel (op : Op) s' :
  Inv s → argsOk s op → exec strictEq fuel op s = Ok tt s' → Inv s'.
Proof.
  intros Hi Hargs Hex.
  assert (∀ fuel', List.length (nodes s) < fuel' →
            exec strictEq fuel' op s = exec strictEq fuel op s → Inv s')
    as Hsame.
  { intros fuel' Hfuel Heq.
    pose proof (exec_total s fuel' op Hi Hargs Hfuel) as Hwp.
    unfold wp in Hwp. by rewrite Heq, Hex in Hwp. }
  destruct Hargs as [Hthis _].
  destruct op; try (by apply (Hsame (S (List.length (nodes s)))); [lia|]);
    specialize (Hthis _ eq_refl); cbn [exec] in Hex;
    apply void_Ok in Hex as [a Hex].
  - by eapply clear_inv_partial.
  - by apply readonly_toArray in Hex as ->.
  - by apply readonly_indexOf in Hex as ->.
  - by apply readonly_includes in Hex as ->.
  - by apply readonly_forEach in Hex as ->.
  - by eapply map_inv_partial.
  - by apply readonly_find in Hex as ->.
Qed.

Lemma reachable_inv s : Reachable strictEq s → Inv s.
Proof.
  induction 1 as [|s fuel op s' _ IH Hargs Hex]; [apply inv_empty|].
  by eapply exec_inv.
Qed.

Lemma argsOkb_spec s (op : Op) : argsOkb s op = true → argsOk s op.
Proof.
  unfold argsOkb, argsOk. intros [H1 H2]%andb_true_iff. split.
  - intros this Hthis. rewrite Hthis in H1. by apply Nat.ltb_lt.
  - intros node Hnode. rewrite Hnode in H2. by apply Nat.ltb_lt.
Qed.

Lemma runOps_reachable fuel ops s s' :
  Reachable strictEq s → runOps strictEq fuel ops s = Some s' →
  Reachable strictEq s'.
Proof.
  revert s. induction ops as [|op ops IH]; intros s Hs; cbn [runOps].
  - by intros [= <-].
  - destruct (argsOkb s op) eqn:Hargs; [|done].
    destruct (exec strictEq fuel op s) as [[] s1|] eqn:Hex; [|done].
    apply IH. eapply Reachable_step; [done|by apply argsOkb_spec|done].
Qed.

End Exec.
End V2Exec.

Module V2WellFormed.
Import V2 V2Spec V2Facts V2Ops V2Inv V2Queries V2Mutators V2Splice V2SpliceTop
  V2Reach V2Exec.
Section WellFormed.
Context {ItemT : Type}.
Abbreviation Node := (@DoubleLinkedListNode ItemT).
Abbreviation Store := (@Store ItemT).
Abbreviation Cells := (list (NodeRef * ItemT)%type).
Implicit Types (h : list Node) (s : Store) (cs : Cells) (L this : ListRef)
  (n node : NodeRef) (X : list ListRef).

Lemma seg_nextCount h L p cs :
  seg h L p cs None → nextCount h (firstRef cs None) (List.length cs).
Proof.
  revert p. induction cs as [|c cs IH]; intros p; cbn [seg firstRef List.length].
  - constructor.
  - intros [Hc Hs]. econstructor; [done|]. cbn [NEXT]. by eapply IH.
Qed.

Lemma seg_prevCount h L cs nx :
  seg h L None cs nx → prevCount h (lastRef cs None) (List.length cs).
Proof.
  revert nx. induction cs as [|c cs IH] using rev_ind; intros nx.
  - constructor.
  - rewrite seg_app, lastRef_snoc, length_app. cbn [seg List.length].
    intros [Hs [Hc _]]. rewrite Nat.add_1_r.
    econstructor; [done|]. cbn [PREV]. by eapply IH.
Qed.

Lemma repr_index s L cs n nd :
  repr s L cs → nodes s !! n = Some nd → LIST nd = Some L →
  ∃ i, cs.*1 !! i = Some n
       ∧ PREV nd = match i with 0 => None | S j => cs.*1 !! j end
       ∧ NEXT nd = cs.*1 !! S i.
Proof.
  intros Hr Hn HL. pose proof (repr_owned _ _ _ Hr _ _ Hn HL) as Hin.
  apply list_elem_of_lookup_1 in Hin as [i Hi]. exists i. split; [done|].
  rewrite list_lookup_fmap in Hi.
  destruct (cs !! i) as [c|] eqn:Hc; [|done]. injection Hi as <-.
  rewrite (repr_lookup _ _ _ _ _ Hr Hc) in Hn. injection Hn as <-.
  cbn [PREV NEXT]. unfold refAt. destruct i; by rewrite !list_lookup_fmap.
Qed.

Lemma inv_wellformed s L l :
  Inv s → lists s !! L = Some l → WellFormed s L l.
Proof.
  intros Hi Hl. pose proof (lookup_lt_Some _ _ _ Hl) as HL.
  destruct (inv_repr _ _ Hi HL) as [cs Hr].
  pose proof Hr as [Hl' Hnd Hseg Hown]. rewrite Hl in Hl'. injection Hl' as ->.
  split; cbn [firstNode lastNode length].
  - exists (List.length cs). split; [done|]. by eapply seg_nextCount.
  - exists (List.length cs). split; [done|]. by eapply seg_prevCount.
  - intros a b na nb Ha Hb HLa HLb.
    destruct (repr_index _ _ _ _ _ Hr Ha HLa) as (i & Hi' & _ & Hnext).
    destruct (repr_index _ _ _ _ _ Hr Hb HLb) as (j & Hj & Hprev & _).
    rewrite Hnext, Hprev. split.
    + intros Hb'. pose proof (NoDup_lookup _ _ _ _ Hnd Hb' Hj) as <-. done.
    + destruct j as [|j]; [done|]. intros Ha'.
      by pose proof (NoDup_lookup _ _ _ _ Hnd Ha' Hi') as <-.
  - intros Hlen. destruct cs as [|c cs]; [done|].
    destruct (snoc_case (c :: cs)) as [?|(cs' & c' & Heq)]; [done|].
    assert ((c :: cs) !! 0 = Some c) as H0 by done.
    assert ((c :: cs) !! List.length cs' = Some c') as Hlast
      by (rewrite Heq; apply snoc_lookup).
    pose proof (repr_lookup _ _ _ _ _ Hr H0) as Hh.
    pose proof (repr_lookup _ _ _ _ _ Hr Hlast) as Ht.
    eexists c.1, c'.1, _, _. split_and!; [done| |done..| ].
    + rewrite Heq. by rewrite lastRef_snoc.
    + cbn [NEXT]. unfold refAt. rewrite (lookup_ge_None_2 (c :: cs)); [done|].
      rewrite Heq, length_app. cbn. lia.
  - intros Hlen. by destruct cs.
Qed.

(** A node of the list that is neither its head nor its tail has both
    neighbours. *)
Lemma inv_middle_links s L l n nd :
  Inv s → lists s !! L = Some l → nodes s !! n = Some nd →
  LIST nd = Some L → firstNode l ≠ Some n → lastNode l ≠ Some n →
  is_Some (PREV nd) ∧ is_Some (NEXT nd).
Proof.
  intros Hi Hl Hn HL Hfirst Hlast. pose proof (lookup_lt_Some _ _ _ Hl) as HL'.
  destruct (inv_repr _ _ Hi HL') as [cs Hr].
  pose proof Hr as [Hl' Hnd Hseg Hown]. rewrite Hl in Hl'. injection Hl' as ->.
  cbn [firstNode lastNode] in *.
  destruct (repr_index _ _ _ _ _ Hr Hn HL) as (i & Hi' & -> & ->).
  rewrite firstRef_fmap, head_lookup in Hfirst.
  rewrite lastRef_fmap, last_lookup in Hlast.
  pose proof (lookup_lt_Some _ _ _ Hi') as Hlt.
  split.
  - destruct i as [|i]; [done|]. apply lookup_lt_is_Some_2. lia.
  - apply lookup_lt_is_Some_2.
    destruct (decide (i = pred (List.length cs.*1))) as [->|]; [done|]. lia.
Qed.

(** ** From the array form back to the values held *)

Lemma holds_toArray s L vs fuel :
  holds s L vs → List.length (nodes s) < fuel →
  toArray fuel L s = Ok (Some <$> vs) s.
Proof.
  intros (cs & Hr & <-) Hfuel. apply toArray_spec; [done|].
  pose proof (repr_length_le _ _ _ Hr). lia.
Qed.

Lemma holds_of_toArray s L vs s' :
  Inv s → L < List.length (lists s) →
  toArray (S (List.length (nodes s))) L s = Ok (Some <$> vs) s' →
  holds s L vs.
Proof.
  intros Hi HL Hta. destruct (inv_holds _ _ Hi HL) as [vs' Hh].
  rewrite (holds_toArray _ _ _ _ Hh) in Hta by lia.
  injection Hta as Heq _.
  apply (inj (fmap Some)) in Heq as ->. done.
Qed.

End WellFormed.
End V2WellFormed.

(** ** The class-node implementation *)

Module V1Facts.
Import MonadFacts V1.
Section Facts.
Context {ItemT : Type}.
Variable strictEq : ItemT → ItemT → bool.
Abbreviation Node := (@DoubleLinkedListNode ItemT).
Abbreviation Store := (@Store ItemT).
Implicit Types (s : Store) (this : ListRef) (n node : NodeRef).

Lemma v1_get_list_Ok n nd s :
  nodes s !! n = Some nd → get_list n s = Ok (node_list nd) s.
Proof. unfold get_list, bind, readNode. by intros ->. Qed.

Lemma v1_get_nextNode_Ok n nd s :
  nodes s !! n = Some nd → get_nextNode n s = Ok (nextNode nd) s.
Proof. unfold get_nextNode, bind, readNode. by intros ->. Qed.

Lemma v1_get_previousNode_Ok n nd s :
  nodes s !! n = Some nd → get_previousNode n s = Ok (previousNode nd) s.
Proof. unfold get_previousNode, bind, readNode. by intros ->. Qed.

Lemma v1_get_length_Ok this l s :
  lists s !! this = Some l → get_length this s = Ok (length l) s.
Proof. unfold get_length, bind, readList. by intros ->. Qed.

Lemma v1_get_firstNode_Ok this l s :
  lists s !! this = Some l → get_firstNode this s = Ok (firstNode l) s.
Proof. unfold get_firstNode, bind, readList. by intros ->. Qed.

Lemma v1_get_lastNode_Ok this l s :
  lists s !! this = Some l → get_lastNode this s = Ok (lastNode l) s.
Proof. unfold get_lastNode, bind, readList. by intros ->. Qed.

Lemma v1_constructor_nil s :
  constructor [] s = Ok (List.length (lists s)) (withNewList s).
Proof. done. Qed.

(** *** A node of another list *)

Lemma v1_splice_foreign s this n nd deleteCount items :
  nodes s !! n = Some nd → node_list nd ≠ Some this →
  splice this (StartNode n) deleteCount items s
  = Ok (List.length (lists s)) (withNewList s).
Proof.
  intros Hn Hnd. unfold splice.
  rewrite (bind_eq _ _ _ _ _ (v1_get_list_Ok _ _ _ Hn)).
  by rewrite decide_True.
Qed.

Lemma v1_remove_foreign s this n nd :
  nodes s !! n = Some nd → node_list nd ≠ Some this →
  remove this n s = Ok false s.
Proof.
  intros Hn Hnd. unfold remove.
  rewrite (bind_eq _ _ _ _ _ (v1_get_list_Ok _ _ _ Hn)).
  by rewrite decide_True.
Qed.

(** *** What a successful removal leaves of the node *)

Lemma v1_set_list_inv n v s s' :
  set_list n v s = Ok tt s' →
  ∃ nd, nodes s' !! n = Some nd ∧ node_list nd = v.
Proof.
  unfold set_list, bind, readNode, writeNode.
  destruct (nodes s !! n) as [nd|] eqn:Hn; [|done]. intros [= <-].
  eexists. cbn [nodes]. split.
  - apply list_lookup_insert_eq. by eapply lookup_lt_Some.
  - done.
Qed.

Lemma v1_set_allValues_nodes this v s s' :
  set_allValues this v s = Ok tt s' → nodes s' = nodes s.
Proof.
  unfold set_allValues, bind, readList, writeList.
  destruct (lists s !! this); [|done]. by intros [= <-].
Qed.

Lemma v1_set_length_nodes this v s s' :
  set_length this v s = Ok tt s' → nodes s' = nodes s.
Proof.
  unfold set_length, bind, readList, writeList.
  destruct (lists s !! this); [|done]. by intros [= <-].
Qed.

Lemma v1_get_length_nodes this v s s' :
  get_length this s = Ok v s' → s' = s.
Proof.
  unfold get_length, bind, readList.
  destruct (lists s !! this); [|done]. by intros [= _ <-].
Qed.

Lemma v1_remove_clears s this n s' :
  remove this n s = Ok true s' →
  ∃ nd, nodes s' !! n = Some nd ∧ node_list nd = None.
Proof.
  unfold remove. intros (owner & s0 & _ & H)%bind_inv.
  destruct (decide (owner ≠ Some this)); [done|].
  apply bind_inv in H as (_ & s1 & _ & H).
  apply bind_inv in H as (_ & s2 & _ & H).
  apply bind_inv in H as (_ & s3 & _ & H).
  apply bind_inv in H as ([] & s4 & Hlist & H).
  apply bind_inv in H as ([] & s5 & Hall & H).
  apply bind_inv in H as (len & s6 & Hlen & H).
  apply bind_inv in H as ([] & s7 & Hset & H).
  injection H as <-.
  apply v1_set_list_inv in Hlist as (nd & Hnd & Hown).
  apply v1_set_allValues_nodes in Hall.
  apply v1_get_length_nodes in Hlen as ->.
  apply v1_set_length_nodes in Hset.
  exists nd. split; [|done]. by rewrite Hset, Hall.
Qed.

Lemma v1_remove_twice s this n s' :
  remove this n s = Ok true s' → remove this n s' = Ok false s'.
Proof.
  intros (nd & Hnd & Hown)%v1_remove_clears.
  eapply v1_remove_foreign; [done|]. by rewrite Hown.
Qed.

(** *** Walking a store without dangling references *)

Lemma v1_closed_node s n nd :
  closed s → nodes s !! n = Some nd →
  refOk s (previousNode nd) ∧ refOk s (nextNode nd).
Proof.
  intros [Hn _] Hlk. by apply (proj1 (Forall_lookup _ _) Hn _ _ Hlk).
Qed.

Lemma v1_closed_list s this l :
  closed s → lists s !! this = Some l →
  refOk s (firstNode l) ∧ refOk s (lastNode l).
Proof.
  intros [_ Hl] Hlk. by apply (proj1 (Forall_lookup _ _) Hl _ _ Hlk).
Qed.

Lemma v1_walkNext_total s k cur :
  closed s → refOk s cur → ∃ r, walkNext k cur s = Ok r s.
Proof.
  intros Hc. revert cur. induction k as [|k IH]; intros cur Hcur.
  - exists cur. by destruct cur.
  - destruct cur as [c|]; [|by exists None]. cbn [walkNext].
    cbn in Hcur. apply lookup_lt_is_Some_2 in Hcur as [nd Hnd].
    rewrite (bind_eq _ _ _ _ _ (v1_get_nextNode_Ok _ _ _ Hnd)).
    apply IH. by apply (v1_closed_node _ _ _ Hc Hnd).
Qed.

Lemma v1_walkPrev_total s k cur :
  closed s → refOk s cur → ∃ r, walkPrev k cur s = Ok r s.
Proof.
  intros Hc. revert cur. induction k as [|k IH]; intros cur Hcur.
  - exists cur. by destruct cur.
  - destruct cur as [c|]; [|by exists None]. cbn [walkPrev].
    cbn in Hcur. apply lookup_lt_is_Some_2 in Hcur as [nd Hnd].
    rewrite (bind_eq _ _ _ _ _ (v1_get_previousNode_Ok _ _ _ Hnd)).
    apply IH. by apply (v1_closed_node _ _ _ Hc Hnd).
Qed.

Lemma v1_getNodeAt_total s this l index :
  closed s → lists s !! this = Some l →
  ∃ r, getNodeAt this index s = Ok r s.
Proof.
  intros Hc Hl. unfold getNodeAt.
  rewrite (bind_eq _ _ _ _ _ (v1_get_length_Ok _ _ _ Hl)).
  destruct (_ || _); [by eexists|].
  destruct (_ <=? _)%Z.
  - rewrite (bind_eq _ _ _ _ _ (v1_get_firstNode_Ok _ _ _ Hl)).
    apply v1_walkNext_total; [done|]. by apply (v1_closed_list _ _ _ Hc Hl).
  - rewrite (bind_eq _ _ _ _ _ (v1_get_lastNode_Ok _ _ _ Hl)).
    apply v1_walkPrev_total; [done|]. by apply (v1_closed_list _ _ _ Hc Hl).
Qed.

Lemma v1_splice_nothing s this start :
  closed s → this < List.length (lists s) →
  splice this (StartNumber start) 0 [] s
  = Ok (List.length (lists s)) (withNewList s).
Proof.
  intros Hc [l Hl]%lookup_lt_is_Some_2. unfold splice.
  rewrite (bind_eq _ _ _ _ _ (v1_get_length_Ok _ _ _ Hl)).
  destruct (_ >=? _)%Z; [done|].
  destruct (v1_getNodeAt_total s this l
              (if (start <? 0)%Z then Z.max 0 (length l + start)
               else Z.min start (length l)) Hc Hl) as [r Hr].
  by rewrite (bind_eq _ _ _ _ _ Hr).
Qed.

(** *** A negative [fromIndex] *)

Lemma v1_indexOf_skip_negative fuel fromIndex cursor s :
  (fromIndex < 0)%Z →
  indexOf_skip fuel fromIndex cursor 0 s = indexOf_skip fuel 0 cursor 0 s.
Proof.
  intros Hneg. destruct fuel as [|fuel]; [done|]. cbn [indexOf_skip].
  destruct cursor; [|done].
  by rewrite (proj2 (Z.ltb_ge 0 fromIndex)), (proj2 (Z.ltb_ge 0 0)) by lia.
Qed.

Lemma v1_indexOf_negative fuel this x fromIndex s :
  (fromIndex < 0)%Z →
  indexOf strictEq fuel this x fromIndex s = indexOf strictEq fuel this x 0 s.
Proof.
  intros Hneg. unfold indexOf, bind.
  destruct (get_firstNode this s) as [cursor s1|]; [|done].
  by rewrite v1_indexOf_skip_negative.
Qed.

Lemma v1_includes_negative fuel this x fromIndex s :
  (fromIndex < 0)%Z →
  includes strictEq fuel this x fromIndex s
  = includes strictEq fuel this x 0 s.
Proof.
  intros Hneg. unfold includes, bind. by rewrite v1_indexOf_negative.
Qed.

End Facts.
End V1Facts.

Module V2Misc.
Import MonadFacts V2 V2Spec V2Facts V2Ops V2Inv V2Queries V2Mutators V2Splice
  V2SpliceTop V2Reach V2Exec V2WellFormed.
Section Misc.
Context {ItemT : Type}.
Variable strictEq : ItemT → ItemT → bool.
Abbreviation Node := (@DoubleLinkedListNode ItemT).
Abbreviation Store := (@Store ItemT).
Abbreviation Cells := (list (NodeRef * ItemT)%type).
Implicit Types (h : list Node) (s : Store) (cs : Cells) (L this : ListRef)
  (n node : NodeRef) (X : list ListRef).

(** ** Removing twice *)

Lemma remove_true_owned s L cs n s' :
  repr s L cs → remove L n s = Ok true s' → n ∈ cs.*1.
Proof.
  intros Hr Hrm. destruct (decide (n ∈ cs.*1)) as [|Hnotin]; [done|].
  exfalso. pose proof Hr as [Hl _ _ _].
  destruct (nodes s !! n) as [nd|] eqn:Hn.
  - rewrite (remove_foreign_spec _ _ _ _ _ Hr Hn) in Hrm; [done|].
    by rewrite <- (repr_elem_owner _ _ _ _ _ Hr Hn).
  - revert Hrm. unfold remove, remove_unlink.
    rewrite !bind_assoc.
    rewrite (bind_Ok _ _ _ _ _ (get_lastNode_Ok _ _ _ Hl)). cbn [lastNode].
    rewrite decide_False
      by (intros Heq; symmetry in Heq; by apply lastRef_None_elem in Heq).
    rewrite !bind_assoc.
    rewrite (bind_Ok _ _ _ _ _ (get_firstNode_Ok _ _ _ Hl)). cbn [firstNode].
    rewrite decide_False
      by (intros Heq; symmetry in Heq; by apply firstRef_None_elem in Heq).
    cbv [bind get_LIST readNode]. by rewrite Hn.
Qed.

Lemma remove_twice s L n s' :
  Inv s → L < List.length (lists s) →
  remove L n s = Ok true s' → remove L n s' = Ok false s' ∧ Inv s'.
Proof.
  intros Hi HL Hrm. destruct (inv_repr _ _ Hi HL) as [cs Hr].
  pose proof (remove_true_owned _ _ _ _ _ Hr Hrm) as Hin.
  apply cells_split in Hin as (c1 & v & c2 & ->).
  pose proof (remove_spec _ _ _ _ _ _ Hr) as Hwp.
  apply (wp_Ok _ _ _ _ _ Hrm) in Hwp as (_ & Hr' & Hm & Hn).
  split; [|by eapply inv_modifies].
  eapply remove_foreign_spec; [done..|]. done.
Qed.

(** ** A negative [fromIndex] *)

Lemma indexOf_skip_negative fuel fromIndex cursor s :
  (fromIndex < 0)%Z →
  indexOf_skip fuel fromIndex cursor 0 s
  = (indexOf_skip fuel 0 cursor 0 s : Res Store _).
Proof.
  intros Hneg. destruct fuel as [|fuel]; [done|]. cbn [indexOf_skip].
  destruct cursor; [|done].
  by rewrite (proj2 (Z.ltb_ge 0 fromIndex)), (proj2 (Z.ltb_ge 0 0)) by lia.
Qed.

Lemma indexOf_negative fuel L x fromIndex s :
  (fromIndex < 0)%Z →
  indexOf strictEq fuel L x fromIndex s = indexOf strictEq fuel L x 0 s.
Proof.
  intros Hneg. unfold indexOf, bind.
  destruct (get_firstNode L s) as [cursor s1|]; [|done].
  by rewrite indexOf_skip_negative.
Qed.

Lemma includes_negative fuel L x fromIndex s :
  (fromIndex < 0)%Z →
  includes strictEq fuel L x fromIndex s = includes strictEq fuel L x 0 s.
Proof.
  intros Hneg. unfold includes, bind. by rewrite indexOf_negative.
Qed.

Lemma indexOf_negative_result s L vs fuel x fromIndex :
  holds s L vs → List.length (nodes s) < fuel → (fromIndex ≤ 0)%Z →
  indexOf strictEq fuel L x fromIndex s = Ok (scanFrom strictEq x vs 0) s.
Proof.
  intros (cs & Hr & <-) Hfuel Hneg. pose proof (repr_length_le _ _ _ Hr).
  rewrite (indexOf_spec strictEq _ _ _ _ _ _ Hr) by lia.
  by replace (Z.to_nat fromIndex) with 0 by lia.
Qed.

(** ** Counting what a deletion takes *)

Lemma take_clamped {A} (l : list A) (p : nat) (deleteCount : Z) :
  let count := Z.min (Z.max deleteCount 0)
                 (Z.of_nat (List.length l) - Z.of_nat p) in
  p ≤ List.length l →
  take (Z.to_nat deleteCount) (drop p l) = take (Z.to_nat count) (drop p l)
  ∧ drop (p + Z.to_nat deleteCount) l = drop (p + Z.to_nat count) l.
Proof.
  intros count Hp. subst count.
  destruct (decide (Z.max deleteCount 0
                    ≤ Z.of_nat (List.length l) - Z.of_nat p)%Z).
  - rewrite Z.min_l by done. by replace (Z.to_nat (Z.max deleteCount 0))
      with (Z.to_nat deleteCount) by lia.
  - rewrite Z.min_r by lia. split.
    + rewrite !take_ge; [done|rewrite length_drop; lia..].
    + rewrite !drop_ge; [done|lia..].
Qed.

End Misc.
End V2Misc.

Module V2More.
Import V2 V2Spec V2Facts V2Ops V2Inv V2Queries V2Mutators V2Splice V2SpliceTop
  V2Reach V2Iteration V2Exec V2Misc.
Section More.
Context {ItemT : Type}.
Variable strictEq : ItemT → ItemT → bool.
Abbreviation Node := (@DoubleLinkedListNode ItemT).
Abbreviation Store := (@Store ItemT).
Abbreviation Cells := (list (NodeRef * ItemT)%type).
Implicit Types (h : list Node) (s : Store) (cs : Cells) (L this : ListRef)
  (n node : NodeRef) (X : list ListRef) (vs items : list ItemT)
  (v item : ItemT).

(** ** The other lists *)

Lemma holds_lt s L vs : holds s L vs → L < List.length (lists s).
Proof. intros (cs & [Hl _ _ _] & _). by apply lookup_lt_Some in Hl. Qed.

Lemma holds_within_other X L s s' vs :
  within X s s' → L ∉ X → holds s L vs → holds s' L vs.
Proof. intros Hw HX (cs & Hr & <-). exists cs. split; [|done]. by eapply repr_within. Qed.

Lemma holds_modifies_other L L' s s' vs :
  modifies L s s' → L' ≠ L → holds s L' vs → holds s' L' vs.
Proof.
  intros Hm Hne. apply (holds_within_other [L]).
  - apply (modifies_within L); [done|set_solver].
  - set_solver.
Qed.

(** ** The observers *)

Lemma repr_getLength s L cs :
  repr s L cs → getLength L s = Ok (Z.of_nat (List.length cs)) s.
Proof. intros [Hl _ _ _]. unfold getLength. by rewrite (get_length_Ok _ _ _ Hl). Qed.

Lemma repr_isEmpty s L cs :
  repr s L cs → isEmpty L s = Ok (bool_decide (cs = [])) s.
Proof.
  intros [Hl _ _ _]. unfold isEmpty.
  rewrite (bind_Ok _ _ _ _ _ (get_firstNode_Ok _ _ _ Hl)). cbn [firstNode].
  by destruct cs.
Qed.

Lemma repr_getHead s L cs :
  repr s L cs → getHead L s = Ok (head cs.*1) s.
Proof.
  intros [Hl _ _ _]. unfold getHead.
  rewrite (get_firstNode_Ok _ _ _ Hl). cbn [firstNode]. by rewrite firstRef_fmap.
Qed.

Lemma repr_getTail s L cs :
  repr s L cs → getTail L s = Ok (last cs.*1) s.
Proof.
  intros [Hl _ _ _]. unfold getTail.
  rewrite (get_lastNode_Ok _ _ _ Hl). cbn [lastNode]. by rewrite lastRef_fmap.
Qed.

(** ** The node accessors *)

Lemma repr_accessors s L cs i n v :
  repr s L cs → cs !! i = Some (n, v) →
  getNodeList (Some n) s = Ok (Some L) s
  ∧ getNodeValue (Some n) s = Ok (Some v) s
  ∧ getPreviousNode (Some n) s
    = Ok (match i with 0 => None | S j => cs.*1 !! j end) s
  ∧ getNextNode (Some n) s = Ok (cs.*1 !! S i) s.
Proof.
  intros Hr Hi. pose proof (repr_lookup _ _ _ _ _ Hr Hi) as Hn. cbn in Hn.
  unfold getNodeList, getNodeValue, getPreviousNode, getNextNode.
  rewrite (get_LIST_Ok _ _ _ Hn), (bind_Ok _ _ _ _ _ (get_VALUE_Ok _ _ _ Hn)),
    (get_PREV_Ok _ _ _ Hn), (get_NEXT_Ok _ _ _ Hn). cbn.
  unfold refAt. rewrite !list_lookup_fmap. split_and!; try done.
  by destruct i; [|rewrite list_lookup_fmap].
Qed.

Lemma detached_accessors s n v :
  nodes s !! n = Some (mkNode None v None None) →
  getNodeList (Some n) s = Ok None s
  ∧ getNodeValue (Some n) s = Ok (Some v) s
  ∧ getPreviousNode (Some n) s = Ok None s
  ∧ getNextNode (Some n) s = Ok None s.
Proof.
  intros Hn. unfold getNodeList, getNodeValue, getPreviousNode, getNextNode.
  by rewrite (get_LIST_Ok _ _ _ Hn), (bind_Ok _ _ _ _ _ (get_VALUE_Ok _ _ _ Hn)),
    (get_PREV_Ok _ _ _ Hn), (get_NEXT_Ok _ _ _ Hn).
Qed.

(** ** clear *)

Lemma clear_detaches s L cs fuel :
  repr s L cs → List.length cs < fuel →
  wp (clear fuel L) s (λ _ s',
    repr s' L [] ∧ modifies L s s'
    ∧ ∀ n v, (n, v) ∈ cs → nodes s' !! n = Some (mkNode None v None None)).
Proof.
  revert s cs. induction fuel as [|fuel IH]; intros s cs Hr Hfuel; [lia|].
  cbn [clear]. pose proof Hr as [Hl _ _ _].
  apply wp_bind. eapply wp_get_firstNode; [done|]. cbn [firstNode].
  destruct cs as [|[n v] cs]; cbn [firstRef fst].
  - apply wp_ret. split; [done|]. split; [apply modifies_refl|].
    intros n v Hin. by apply elem_of_nil in Hin.
  - apply wp_bind. eapply wp_mono; [by apply (remove_spec s L [] n v cs)|].
    cbn beta. intros _ s1 (_ & Hr1 & Hm1 & Hn1).
    cbn [app] in Hr1. cbn [List.length] in Hfuel.
    eapply wp_mono; [apply (IH s1 cs Hr1); lia|]. cbn beta.
    intros _ s2 (Hr2 & Hm2 & Hdet). split; [done|].
    split; [by eapply modifies_trans|].
    intros n' v' [[= -> ->]|Hin]%elem_of_cons; [|by apply Hdet].
    by apply (mod_keep _ _ _ Hm2).
Qed.

(** ** What the scans return *)

Lemma scanFrom_found x vs k r :
  scanFrom strictEq x vs k = r → (0 ≤ k)%Z → r ≠ (-1)%Z →
  ∃ i v, r = (k + Z.of_nat i)%Z ∧ vs !! i = Some v ∧ strictEq v x = true
         ∧ ∀ j w, j < i → vs !! j = Some w → strictEq w x = false.
Proof.
  revert k. induction vs as [|v vs IH]; intros k Hr Hk Hne; cbn in Hr; [lia|].
  destruct (strictEq v x) eqn:Hv.
  - exists 0, v. split_and!; [lia|done|done|lia].
  - destruct (IH _ Hr ltac:(lia) Hne) as (i & w & -> & Hi & Hw & Hlt).
    exists (S i), w. split_and!; [lia|done|done|].
    intros [|j] u Hj Hu; cbn in Hu; [by injection Hu as <-|].
    apply (Hlt j); [lia|done].
Qed.

Lemma scanFrom_missing x vs k :
  scanFrom strictEq x vs k = (-1)%Z → (0 ≤ k)%Z →
  ∀ i v, vs !! i = Some v → strictEq v x = false.
Proof.
  revert k. induction vs as [|v vs IH]; intros k Hr Hk i w Hi; [done|].
  cbn in Hr. destruct (strictEq v x) eqn:Hv; [lia|].
  destruct i as [|i]; cbn in Hi; [by injection Hi as <-|].
  eapply (IH (k + 1)%Z); [done|lia|done].
Qed.

Lemma findFrom_found predicate vs k v :
  findFrom predicate vs k = Some v →
  ∃ i, vs !! i = Some v ∧ predicate v (k + Z.of_nat i)%Z = true
       ∧ ∀ j w, j < i → vs !! j = Some w →
           predicate w (k + Z.of_nat j)%Z = false.
Proof.
  revert k. induction vs as [|u vs IH]; intros k Hr; cbn in Hr; [done|].
  destruct (predicate u k) eqn:Hu.
  - injection Hr as <-. exists 0. rewrite Z.add_0_r. split_and!; [done|done|lia].
  - destruct (IH _ Hr) as (i & Hi & Hp & Hlt). exists (S i).
    replace (k + Z.of_nat (S i))%Z with (k + 1 + Z.of_nat i)%Z by lia.
    split_and!; [done|done|].
    intros [|j] w Hj Hw; cbn in Hw.
    + injection Hw as <-. by rewrite Z.add_0_r.
    + replace (k + Z.of_nat (S j))%Z with (k + 1 + Z.of_nat j)%Z by lia.
      apply Hlt; [lia|done].
Qed.

Lemma findFrom_missing predicate vs k :
  findFrom predicate vs k = None →
  ∀ i v, vs !! i = Some v → predicate v (k + Z.of_nat i)%Z = false.
Proof.
  revert k. induction vs as [|u vs IH]; intros k Hr i v Hi; [done|].
  cbn in Hr. destruct (predicate u k) eqn:Hu; [done|].
  destruct i as [|i]; cbn in Hi.
  - injection Hi as <-. by rewrite Z.add_0_r.
  - replace (k + Z.of_nat (S i))%Z with (k + 1 + Z.of_nat i)%Z by lia.
    by apply IH.
Qed.

Lemma mapFrom_lookup callback vs k i :
  mapFrom callback vs k !! i
  = (λ v, callback v (k + Z.of_nat i)%Z) <$> vs !! i.
Proof.
  revert k i. induction vs as [|v vs IH]; intros k i; [done|].
  destruct i as [|i]; cbn.
  - by rewrite Z.add_0_r.
  - rewrite IH. by replace (k + 1 + Z.of_nat i)%Z with (k + Z.of_nat (S i))%Z by lia.
Qed.

Lemma mapFrom_length callback vs k :
  List.length (mapFrom callback vs k) = List.length vs.
Proof. revert k. induction vs as [|v vs IH]; intros k; cbn; [done|]. by rewrite IH. Qed.

(** ** The iterator, run to its end *)

Lemma spread_loop_spec s L cs fuel j out :
  repr s L cs → j ≤ List.length cs → List.length cs - j < fuel →
  spread_loop fuel (refAt cs j) out s = Ok (out ++ drop j cs.*2) s.
Proof.
  intros Hr. revert j out.
  induction fuel as [|fuel IH]; intros j out Hj Hfuel; [lia|].
  cbn [spread_loop].
  rewrite (bind_Ok _ _ _ _ _ (iterator_next_spec s L cs j Hr)). cbn [fst snd].
  destruct (cs.*2 !! j) as [v|] eqn:Hv.
  - pose proof (lookup_lt_Some _ _ _ Hv) as Hlt. rewrite length_fmap in Hlt.
    rewrite IH by lia. by rewrite (drop_S _ _ _ Hv), <- app_assoc.
  - apply lookup_ge_None_1 in Hv. by rewrite drop_ge, app_nil_r.
Qed.

Lemma spread_spec s L cs fuel :
  repr s L cs → List.length cs < fuel → spread fuel L s = Ok cs.*2 s.
Proof.
  intros Hr Hfuel. unfold spread.
  rewrite (bind_Ok _ _ _ _ _ (iterator_spec s L cs Hr)).
  by rewrite (spread_loop_spec s L cs fuel 0 [] Hr) by lia.
Qed.

(** ** What no operation does *)

Lemma kept_refl s : kept s s.
Proof. split; [done..|]. intros n nd Hn. exists nd. auto. Qed.

Lemma kept_trans s1 s2 s3 : kept s1 s2 → kept s2 s3 → kept s1 s3.
Proof.
  intros [a1 b1 c1] [a2 b2 c2]. split; [lia..|].
  intros n nd Hn. destruct (c1 _ _ Hn) as (nd1 & Hn1 & Hv1 & Ho1).
  destruct (c2 _ _ Hn1) as (nd2 & Hn2 & Hv2 & Ho2).
  exists nd2. split; [done|]. split; [congruence|].
  destruct Ho1 as [<-|Ho1]; [done|]. rewrite Ho1 in Ho2. by destruct Ho2; right.
Qed.

Lemma keeps_ret {A} (a : A) : keeps (ret a : M Store A).
Proof. intros s a' s' [= _ <-]. apply kept_refl. Qed.

Lemma keeps_throw {A} e : keeps (throw e : M Store A).
Proof. by intros s a s'. Qed.

Lemma keeps_bind {A B} (m : M Store A) (k : A → M Store B) :
  keeps m → (∀ a, keeps (k a)) → keeps (bind m k).
Proof.
  intros Hm Hk s b s'. unfold bind. destruct (m s) as [a s1|] eqn:Hms; [|done].
  intros Hks. eapply kept_trans; [by eapply Hm|by eapply Hk].
Qed.

Lemma keeps_readonly {A} (m : M Store A) : readonly m → keeps m.
Proof. intros Hm s a s' ->%Hm. apply kept_refl. Qed.

Lemma keeps_readNode n : keeps (readNode n : M Store _).
Proof. apply keeps_readonly, readonly_readNode. Qed.

Lemma keeps_readList L : keeps (readList L : M Store _).
Proof. apply keeps_readonly, readonly_readList. Qed.

Lemma keeps_nonNull (o : option NodeRef) : keeps (nonNull o : M Store _).
Proof. destruct o; [apply keeps_ret|apply keeps_throw]. Qed.

Lemma keeps_writeList L l : keeps (writeList L l : M Store _).
Proof. intros s a s' [= _ <-]. split; cbn; [by rewrite length_insert|done|eauto]. Qed.

Lemma keeps_allocList l : keeps (allocList l : M Store _).
Proof.
  intros s a s' [= _ <-]. split; cbn; [rewrite length_app; lia|done|eauto].
Qed.

Lemma keeps_allocNode nd : keeps (allocNode nd : M Store _).
Proof.
  intros s a s' [= _ <-]. split; cbn; [done|rewrite length_app; lia|].
  intros n nd' Hn. exists nd'. split; [|auto].
  rewrite lookup_app_l; [done|]. by eapply lookup_lt_Some.
Qed.

Lemma kept_write_node h ls n nd nd' :
  h !! n = Some nd → VALUE nd' = VALUE nd →
  LIST nd' = LIST nd ∨ LIST nd' = None →
  kept (mkStore h ls) (mkStore (<[n := nd']> h) ls).
Proof.
  intros Hn Hv Ho. split; cbn; [done|by rewrite length_insert|].
  intros m md Hm. destruct (decide (m = n)) as [->|Hne].
  - exists nd'. rewrite list_lookup_insert_eq by (by eapply lookup_lt_Some).
    rewrite Hn in Hm. injection Hm as <-. done.
  - exists md. rewrite list_lookup_insert_ne by done. auto.
Qed.

Lemma keeps_set_PREV n o : keeps (set_PREV n o : M Store _).
Proof.
  intros [h ls] a s'. unfold set_PREV, bind, readNode, writeNode. cbn.
  destruct (h !! n) as [nd|] eqn:Hn; [|done]. intros [= _ <-].
  eapply kept_write_node; cbn; eauto.
Qed.

Lemma keeps_set_NEXT n o : keeps (set_NEXT n o : M Store _).
Proof.
  intros [h ls] a s'. unfold set_NEXT, bind, readNode, writeNode. cbn.
  destruct (h !! n) as [nd|] eqn:Hn; [|done]. intros [= _ <-].
  eapply kept_write_node; cbn; eauto.
Qed.

(** The only owner that is ever written is [undefined]. *)
Lemma keeps_set_LIST n : keeps (set_LIST n None : M Store _).
Proof.
  intros [h ls] a s'. unfold set_LIST, bind, readNode, writeNode. cbn.
  destruct (h !! n) as [nd|] eqn:Hn; [|done]. intros [= _ <-].
  eapply kept_write_node; cbn; eauto.
Qed.

Ltac keeps_step :=
  first
    [ solve [auto 1]
    | apply keeps_ret | apply keeps_throw | apply keeps_nonNull
    | apply keeps_set_PREV | apply keeps_set_NEXT | apply keeps_set_LIST
    | apply keeps_readNode | apply keeps_readList | apply keeps_writeList
    | apply keeps_allocNode | apply keeps_allocList
    | (apply keeps_bind; [|intros ?])
    | match goal with
      | |- keeps (if ?b then _ else _) => destruct b
      | |- keeps (match ?x with _ => _ end) => destruct x
      end ].

Ltac keeps_solve :=
  unfold get_LIST, get_VALUE, get_PREV, get_NEXT, get_firstNode, get_lastNode,
    get_length, set_firstNode, set_lastNode, set_length;
  repeat keeps_step.

Lemma keeps_append L v : keeps (append L v).
Proof. unfold append. keeps_solve. Qed.

Lemma keeps_prepend L v : keeps (prepend L v).
Proof. unfold prepend. keeps_solve. Qed.

Lemma keeps_appendAll L items : keeps (appendAll L items).
Proof.
  induction items as [|v items IH]; cbn [appendAll]; [apply keeps_ret|].
  apply keeps_bind; [apply keeps_append|done].
Qed.

Lemma keeps_constructor items : keeps (constructor items).
Proof. unfold constructor. pose proof (keeps_appendAll). keeps_solve. Qed.

Lemma keeps_remove L n : keeps (remove L n : M Store _).
Proof. unfold remove, remove_unlink. keeps_solve. Qed.

Lemma keeps_clear fuel L : keeps (clear fuel L : M Store _).
Proof.
  induction fuel as [|fuel IH]; cbn [clear]; [apply keeps_throw|].
  pose proof (keeps_remove). keeps_solve.
Qed.

Lemma keeps_insertAfterNode L n v : keeps (insertAfterNode L n v).
Proof. unfold insertAfterNode. pose proof (keeps_append). keeps_solve. Qed.

Lemma keeps_insertBeforeNode L n v : keeps (insertBeforeNode L n v).
Proof. unfold insertBeforeNode. pose proof (keeps_prepend). keeps_solve. Qed.

Lemma keeps_pop L : keeps (pop L : M Store _).
Proof. unfold pop. pose proof (keeps_remove). keeps_solve. Qed.

Lemma keeps_shift L : keeps (shift L : M Store _).
Proof. unfold shift. pose proof (keeps_remove). keeps_solve. Qed.

Lemma keeps_map fuel L (callback : ItemT → Z → ItemT) :
  keeps (map fuel L callback).
Proof.
  unfold map. apply keeps_bind; [apply keeps_constructor|]. intros R.
  apply keeps_bind; [keeps_solve|]. intros cursor.
  apply keeps_bind; [|intros ?; apply keeps_ret].
  generalize 0%Z. revert cursor.
  induction fuel as [|fuel IH]; intros cursor index; cbn [map_loop];
    [apply keeps_throw|].
  pose proof (keeps_append). keeps_solve.
Qed.

Lemma keeps_splice_delete L R k o :
  keeps (splice_delete L R k o : M Store _).
Proof.
  revert o. induction k as [|k IH]; intros o; cbn [splice_delete];
    [apply keeps_ret|].
  pose proof (keeps_append). pose proof (keeps_remove).
  destruct o; keeps_solve.
Qed.

Lemma keeps_splice_insert L x li items : keeps (splice_insert L x li items).
Proof.
  revert li. induction items as [|v items IH]; intros li; cbn [splice_insert];
    [apply keeps_ret|].
  apply keeps_bind; [|done].
  destruct li; [apply keeps_insertAfterNode|apply keeps_insertBeforeNode].
Qed.

Lemma keeps_splice_from L o deleteCount items :
  keeps (splice_from L o deleteCount items).
Proof.
  unfold splice_from.
  pose proof (keeps_constructor). pose proof (keeps_splice_delete).
  pose proof (keeps_splice_insert). pose proof (keeps_appendAll).
  keeps_solve.
Qed.

Ltac ro_solve :=
  unfold get_LIST, get_VALUE, get_PREV, get_NEXT, get_firstNode, get_lastNode,
    get_length;
  repeat first
    [ solve [auto 1]
    | apply readonly_ret | apply readonly_throw
    | apply readonly_readNode | apply readonly_readList
    | (apply readonly_bind; [|intros ?])
    | match goal with
      | |- readonly (if ?b then _ else _) => destruct b
      | |- readonly (match ?x with _ => _ end) => destruct x
      end ].

Lemma readonly_walkNext k o : readonly (walkNext k o : M Store _).
Proof.
  revert o. induction k as [|k IH]; intros [c|]; cbn [walkNext]; ro_solve.
Qed.

Lemma readonly_walkPrev k o : readonly (walkPrev k o : M Store _).
Proof.
  revert o. induction k as [|k IH]; intros [c|]; cbn [walkPrev]; ro_solve.
Qed.

Lemma readonly_getNodeAt L index : readonly (getNodeAt L index : M Store _).
Proof.
  unfold getNodeAt.
  pose proof readonly_walkNext. pose proof readonly_walkPrev. ro_solve.
Qed.

Lemma readonly_get L index : readonly (get L index : M Store _).
Proof. unfold get. pose proof readonly_getNodeAt. ro_solve. Qed.

Lemma readonly_iterator_next o : readonly (iterator_next o : M Store _).
Proof. unfold iterator_next. ro_solve. Qed.

Lemma keeps_splice L start deleteCount items :
  keeps (splice L start deleteCount items).
Proof.
  unfold splice.
  pose proof (keeps_constructor). pose proof (keeps_splice_from).
  pose proof (λ L i, keeps_readonly _ (readonly_getNodeAt L i)).
  keeps_solve.
Qed.

Lemma exec_keeps fuel (op : Op) s s' :
  exec strictEq fuel op s = Ok tt s' → kept s s'.
Proof.
  intros Hex.
  destruct op; cbn [exec] in Hex; apply void_Ok in Hex as [a Hex];
    revert Hex;
    first
      [ apply keeps_constructor | apply keeps_append | apply keeps_prepend
      | apply keeps_insertAfterNode | apply keeps_insertBeforeNode
      | apply keeps_remove | apply keeps_splice | apply keeps_clear
      | apply keeps_pop | apply keeps_shift | apply keeps_map
      | apply keeps_readonly ];
    first
      [ apply readonly_get | apply readonly_getNodeAt
      | apply readonly_toArray | apply readonly_indexOf
      | apply readonly_includes | apply readonly_forEach
      | apply readonly_find | apply readonly_iterator_next
      | unfold getLength, isEmpty, getHead, getTail, iterator; ro_solve ].
Qed.

(** ** Reading in range *)

Lemma nodeAt_in_range cs i c :
  cs !! i = Some c → nodeAt cs (Z.of_nat i) = Some c.1.
Proof.
  intros Hc. pose proof (lookup_lt_Some _ _ _ Hc) as Hlt.
  unfold nodeAt. cbv zeta.
  rewrite (proj2 (Z.ltb_ge (Z.of_nat i) 0)) by lia. cbv iota.
  rewrite (proj2 (Z.ltb_ge (Z.of_nat i) 0)) by lia.
  rewrite Z.geb_leb, (proj2 (Z.leb_gt _ _)) by lia. cbn [orb].
  unfold refAt. by rewrite Nat2Z.id, Hc.
Qed.

Lemma nodeAt_from_end cs i c :
  cs !! i = Some c →
  nodeAt cs (Z.of_nat i - Z.of_nat (List.length cs)) = Some c.1.
Proof.
  intros Hc. pose proof (lookup_lt_Some _ _ _ Hc) as Hlt.
  unfold nodeAt. cbv zeta.
  rewrite (proj2 (Z.ltb_lt (Z.of_nat i - Z.of_nat (List.length cs)) 0)) by lia.
  cbv iota. rewrite (proj2 (Z.ltb_ge _ 0)) by lia.
  rewrite Z.geb_leb, (proj2 (Z.leb_gt _ _)) by lia. cbn [orb].
  unfold refAt.
  replace (Z.to_nat (Z.of_nat (List.length cs)
                     + (Z.of_nat i - Z.of_nat (List.length cs)))) with i by lia.
  by rewrite Hc.
Qed.

Lemma get_in_range s L cs i v :
  repr s L cs → cs.*2 !! i = Some v → get L (Z.of_nat i) s = Ok (Some v) s.
Proof.
  intros Hr Hv. rewrite list_lookup_fmap in Hv.
  destruct (cs !! i) as [c|] eqn:Hc; [|done]. injection Hv as <-.
  unfold get. rewrite (bind_Ok _ _ _ _ _ (getNodeAt_spec s L cs _ Hr)).
  rewrite (nodeAt_in_range _ _ _ Hc).
  pose proof (repr_lookup _ _ _ _ _ Hr Hc) as Hn.
  by rewrite (bind_Ok _ _ _ _ _ (get_VALUE_Ok _ _ _ Hn)).
Qed.

End More.
End V2More.
(** ** The class-node implementation against the tuple-node one *)

Module BothFacts.
Import MonadFacts Both V2Facts V2Ops V2Inv V2Queries V2Mutators V2Reach V2More.
Section Facts.
Context {ItemT : Type}.
Local Abbreviation simr := (@Both.simr ItemT).
Abbreviation Node1 := (@V1.DoubleLinkedListNode ItemT).
Abbreviation List1 := (@V1.DoubleLinkedList ItemT).
Abbreviation Store1 := (@V1.Store ItemT).
Abbreviation Store2 := (@V2.Store ItemT).
Implicit Types (h : list Node1) (ls : list List1) (u : Store1)
  (L this : ListRef) (n node : NodeRef).

(** *** Weakest preconditions over the class-node store *)

Lemma wp1_ret {A} (a : A) u (Q : A → Store1 → Prop) : Q a u → wp (ret a) u Q.
Proof. done. Qed.

Lemma wp1_bind {A B} (m : M Store1 A) (k : A → M Store1 B) u Q :
  wp m u (λ a s', wp (k a) s' Q) → wp (bind m k) u Q.
Proof. unfold wp, bind. by destruct (m u). Qed.

Lemma wp1_elim_eq {A} (m : M Store1 A) u a u' :
  wp m u (λ r t, r = a ∧ t = u') → m u = Ok a u'.
Proof. unfold wp. destruct (m u); naive_solver. Qed.

Lemma wp1_get_list n nd u Q :
  V1.nodes u !! n = Some nd → Q (V1.node_list nd) u → wp (V1.get_list n) u Q.
Proof. unfold wp, V1.get_list, bind, V1.readNode. by intros ->. Qed.

Lemma wp1_get_value n nd u Q :
  V1.nodes u !! n = Some nd → Q (V1.value nd) u → wp (V1.get_value n) u Q.
Proof. unfold wp, V1.get_value, bind, V1.readNode. by intros ->. Qed.

Lemma wp1_get_previousNode n nd u Q :
  V1.nodes u !! n = Some nd → Q (V1.previousNode nd) u →
  wp (V1.get_previousNode n) u Q.
Proof. unfold wp, V1.get_previousNode, bind, V1.readNode. by intros ->. Qed.

Lemma wp1_get_nextNode n nd u Q :
  V1.nodes u !! n = Some nd → Q (V1.nextNode nd) u →
  wp (V1.get_nextNode n) u Q.
Proof. unfold wp, V1.get_nextNode, bind, V1.readNode. by intros ->. Qed.

Lemma wp1_set_list n v nd u Q :
  V1.nodes u !! n = Some nd →
  Q tt (V1.mkStore
          (<[n := V1.mkNode v (V1.value nd) (V1.previousNode nd)
                    (V1.nextNode nd)]> (V1.nodes u)) (V1.lists u)) →
  wp (V1.set_list n v) u Q.
Proof. unfold wp, V1.set_list, bind, V1.readNode. by intros ->. Qed.

Lemma wp1_set_previousNode n v nd u Q :
  V1.nodes u !! n = Some nd →
  Q tt (V1.mkStore
          (<[n := V1.mkNode (V1.node_list nd) (V1.value nd) v
                    (V1.nextNode nd)]> (V1.nodes u)) (V1.lists u)) →
  wp (V1.set_previousNode n v) u Q.
Proof. unfold wp, V1.set_previousNode, bind, V1.readNode. by intros ->. Qed.

Lemma wp1_set_nextNode n v nd u Q :
  V1.nodes u !! n = Some nd →
  Q tt (V1.mkStore
          (<[n := V1.mkNode (V1.node_list nd) (V1.value nd)
                    (V1.previousNode nd) v]> (V1.nodes u)) (V1.lists u)) →
  wp (V1.set_nextNode n v) u Q.
Proof. unfold wp, V1.set_nextNode, bind, V1.readNode. by intros ->. Qed.

Lemma wp1_allocNode nd u Q :
  Q (List.length (V1.nodes u))
    (V1.mkStore (V1.nodes u ++ [nd]) (V1.lists u)) →
  wp (V1.allocNode nd) u Q.
Proof. done. Qed.

Lemma wp1_allocList l u Q :
  Q (List.length (V1.lists u))
    (V1.mkStore (V1.nodes u) (V1.lists u ++ [l])) →
  wp (V1.allocList l) u Q.
Proof. done. Qed.

Lemma wp1_get_allValues this l u Q :
  V1.lists u !! this = Some l → Q (V1.allValues l) u →
  wp (V1.get_allValues this) u Q.
Proof. unfold wp, V1.get_allValues, bind, V1.readList. by intros ->. Qed.

Lemma wp1_get_firstNode this l u Q :
  V1.lists u !! this = Some l → Q (V1.firstNode l) u →
  wp (V1.get_firstNode this) u Q.
Proof. unfold wp, V1.get_firstNode, bind, V1.readList. by intros ->. Qed.

Lemma wp1_get_lastNode this l u Q :
  V1.lists u !! this = Some l → Q (V1.lastNode l) u →
  wp (V1.get_lastNode this) u Q.
Proof. unfold wp, V1.get_lastNode, bind, V1.readList. by intros ->. Qed.

Lemma wp1_get_length this l u Q :
  V1.lists u !! this = Some l → Q (V1.length l) u →
  wp (V1.get_length this) u Q.
Proof. unfold wp, V1.get_length, bind, V1.readList. by intros ->. Qed.

Lemma wp1_set_allValues this v l u Q :
  V1.lists u !! this = Some l →
  Q tt (V1.mkStore (V1.nodes u)
          (<[this := V1.mkList v (V1.firstNode l) (V1.lastNode l)
                       (V1.length l)]> (V1.lists u))) →
  wp (V1.set_allValues this v) u Q.
Proof. unfold wp, V1.set_allValues, bind, V1.readList. by intros ->. Qed.

Lemma wp1_set_firstNode this v l u Q :
  V1.lists u !! this = Some l →
  Q tt (V1.mkStore (V1.nodes u)
          (<[this := V1.mkList (V1.allValues l) v (V1.lastNode l)
                       (V1.length l)]> (V1.lists u))) →
  wp (V1.set_firstNode this v) u Q.
Proof. unfold wp, V1.set_firstNode, bind, V1.readList. by intros ->. Qed.

Lemma wp1_set_lastNode this v l u Q :
  V1.lists u !! this = Some l →
  Q tt (V1.mkStore (V1.nodes u)
          (<[this := V1.mkList (V1.allValues l) (V1.firstNode l) v
                       (V1.length l)]> (V1.lists u))) →
  wp (V1.set_lastNode this v) u Q.
Proof. unfold wp, V1.set_lastNode, bind, V1.readList. by intros ->. Qed.

Lemma wp1_set_length this v l u Q :
  V1.lists u !! this = Some l →
  Q tt (V1.mkStore (V1.nodes u)
          (<[this := V1.mkList (V1.allValues l) (V1.firstNode l)
                       (V1.lastNode l) v]> (V1.lists u))) →
  wp (V1.set_length this v) u Q.
Proof. unfold wp, V1.set_length, bind, V1.readList. by intros ->. Qed.

Lemma wp1_nonNull n u (Q : NodeRef → Store1 → Prop) :
  Q n u → wp (nonNull (Some n)) u Q.
Proof. done. Qed.

(** *** The store a class-node store stands for *)

Lemma erase_node_lookup h n o v p x :
  (eraseNode <$> h) !! n = Some (V2.mkNode o v p x) →
  h !! n = Some (V1.mkNode o v p x).
Proof.
  rewrite list_lookup_fmap. destruct (h !! n) as [[]|]; cbn; [|done].
  by intros [= -> -> -> ->].
Qed.

Lemma erase_list_lookup ls L f la len :
  (eraseList <$> ls) !! L = Some (V2.mkList f la len) →
  ∃ a, ls !! L = Some (V1.mkList a f la len).
Proof.
  rewrite list_lookup_fmap. destruct (ls !! L) as [[a]|]; cbn; [|done].
  intros [= -> -> ->]. by exists a.
Qed.

Lemma erase_intro (ha : list Node1) (la : list List1) hb lb :
  (∀ i, eraseNode <$> ha !! i = hb !! i) →
  (∀ i, eraseList <$> la !! i = lb !! i) →
  erase (V1.mkStore ha la) = V2.mkStore hb lb.
Proof.
  intros Hn Hl. unfold erase. cbn. f_equal; apply list_eq; intros i.
  - by rewrite list_lookup_fmap.
  - by rewrite list_lookup_fmap.
Qed.

Lemma lookup_snoc_fmap {A B} (f : A → B) (l : list A) x :
  ((f <$> l) ++ [x]) !! List.length l = Some x.
Proof.
  rewrite lookup_app_r by (by rewrite length_fmap).
  by rewrite length_fmap, Nat.sub_diag.
Qed.

Lemma lookup_snoc_other {A B} (f : A → B) (l : list A) x y i :
  i ≠ List.length l → f <$> (l ++ [x]) !! i = ((f <$> l) ++ [y]) !! i.
Proof.
  intros Hi. destruct (decide (i < List.length l)).
  - rewrite !lookup_app_l by (by rewrite ?length_fmap).
    by rewrite list_lookup_fmap.
  - rewrite !lookup_ge_None_2; [done|..];
      rewrite length_app, ?length_fmap; cbn; lia.
Qed.

(** *** The simulation *)

Lemma sim_ret {A} (P : Store1 → Prop) (a : A) (Q : A → Store1 → Prop) :
  (∀ u, P u → Q a u) → sim P (ret a) (ret a) Q.
Proof. intros HQ u a' t' HP [= <- <-]. exists u. auto. Qed.

Lemma sim_bind {A B} (P : Store1 → Prop) (Q' : A → Store1 → Prop)
    (m1 : M Store1 A) (m2 : M Store2 A) (k1 : A → M Store1 B)
    (k2 : A → M Store2 B) (Q : B → Store1 → Prop) :
  sim P m1 m2 Q' → (∀ a, sim (Q' a) (k1 a) (k2 a) Q) →
  sim P (bind m1 k1) (bind m2 k2) Q.
Proof.
  intros Hm Hk u b t' HP H2.
  apply bind_inv in H2 as (a & t2 & H2 & Hk2).
  destruct (Hm _ _ _ HP H2) as (t1 & H1 & <- & HQ').
  destruct (Hk a _ _ _ HQ' Hk2) as (u' & Hk1 & <- & HQ).
  exists u'. split; [|done]. by rewrite (bind_eq _ _ _ _ _ H1).
Qed.

Lemma sim_conseq {A} (P P' : Store1 → Prop) (Q Q' : A → Store1 → Prop)
    (m1 : M Store1 A) (m2 : M Store2 A) :
  sim P' m1 m2 Q' → (∀ u, P u → P' u) → (∀ a u, Q' a u → Q a u) →
  sim P m1 m2 Q.
Proof.
  intros Hm HP HQ u a t' HP1 H2.
  destruct (Hm _ _ _ (HP _ HP1) H2) as (u' & H1 & He & HQ'). eauto.
Qed.

Lemma sim_throw {A} (P : Store1 → Prop) e (m1 : M Store1 A) Q :
  sim P m1 (throw e) Q.
Proof. by intros u a t' HP. Qed.

(** The reads, which leave the store as it is. *)

Lemma simr_sim {A} (P : Store1 → Prop) (m1 : M Store1 A) (m2 : M Store2 A) :
  simr m1 m2 → sim P m1 m2 (λ _ u', P u').
Proof.
  intros Hm u a t' HP H2. destruct (Hm _ _ _ H2) as [H1 ->]. eauto.
Qed.

Lemma simr_ret {A} (a : A) : simr (ret a : M Store1 A) (ret a).
Proof. by intros u a' t' [= <- <-]. Qed.

Lemma simr_throw {A} e (m1 : M Store1 A) : simr m1 (throw e).
Proof. by intros u a t'. Qed.

Lemma simr_bind {A B} (m1 : M Store1 A) (m2 : M Store2 A)
    (k1 : A → M Store1 B) (k2 : A → M Store2 B) :
  simr m1 m2 → (∀ a, simr (k1 a) (k2 a)) → simr (bind m1 k1) (bind m2 k2).
Proof.
  intros Hm Hk u b t' H2.
  apply bind_inv in H2 as (a & t2 & H2 & Hk2).
  destruct (Hm _ _ _ H2) as [H1 ->].
  destruct (Hk a _ _ _ Hk2) as [Hk1 ->].
  split; [|done]. by rewrite (bind_eq _ _ _ _ _ H1).
Qed.

Lemma simr_get_list n : simr (V1.get_list n) (V2.get_LIST n).
Proof.
  intros u a t'. unfold V2.get_LIST, V1.get_list, bind, V2.readNode, V1.readNode.
  cbn. rewrite list_lookup_fmap. destruct (V1.nodes u !! n) as [nd|]; [|done].
  cbn. by intros [= <- <-].
Qed.

Lemma simr_get_value n : simr (V1.get_value n) (V2.get_VALUE n).
Proof.
  intros u a t'. unfold V2.get_VALUE, V1.get_value, bind, V2.readNode, V1.readNode.
  cbn. rewrite list_lookup_fmap. destruct (V1.nodes u !! n) as [nd|]; [|done].
  cbn. by intros [= <- <-].
Qed.

Lemma simr_get_previousNode n : simr (V1.get_previousNode n) (V2.get_PREV n).
Proof.
  intros u a t'.
  unfold V2.get_PREV, V1.get_previousNode, bind, V2.readNode, V1.readNode.
  cbn. rewrite list_lookup_fmap. destruct (V1.nodes u !! n) as [nd|]; [|done].
  cbn. by intros [= <- <-].
Qed.

Lemma simr_get_nextNode n : simr (V1.get_nextNode n) (V2.get_NEXT n).
Proof.
  intros u a t'.
  unfold V2.get_NEXT, V1.get_nextNode, bind, V2.readNode, V1.readNode.
  cbn. rewrite list_lookup_fmap. destruct (V1.nodes u !! n) as [nd|]; [|done].
  cbn. by intros [= <- <-].
Qed.

Lemma simr_get_firstNode L : simr (V1.get_firstNode L) (V2.get_firstNode L).
Proof.
  intros u a t'.
  unfold V2.get_firstNode, V1.get_firstNode, bind, V2.readList, V1.readList.
  cbn. rewrite list_lookup_fmap. destruct (V1.lists u !! L) as [l|]; [|done].
  cbn. by intros [= <- <-].
Qed.

Lemma simr_get_lastNode L : simr (V1.get_lastNode L) (V2.get_lastNode L).
Proof.
  intros u a t'.
  unfold V2.get_lastNode, V1.get_lastNode, bind, V2.readList, V1.readList.
  cbn. rewrite list_lookup_fmap. destruct (V1.lists u !! L) as [l|]; [|done].
  cbn. by intros [= <- <-].
Qed.

Lemma simr_get_length L : simr (V1.get_length L) (V2.get_length L).
Proof.
  intros u a t'.
  unfold V2.get_length, V1.get_length, bind, V2.readList, V1.readList.
  cbn. rewrite list_lookup_fmap. destruct (V1.lists u !! L) as [l|]; [|done].
  cbn. by intros [= <- <-].
Qed.

Lemma simr_nonNull o : simr (nonNull o : M Store1 _) (nonNull o).
Proof. destruct o; [apply simr_ret|apply simr_throw]. Qed.

(** *** The invariant *)

Lemma erase_lists_length u :
  List.length (V2.lists (erase u)) = List.length (V1.lists u).
Proof. unfold erase. cbn. by rewrite length_fmap. Qed.

Lemma erase_nodes_length u :
  List.length (V2.nodes (erase u)) = List.length (V1.nodes u).
Proof. unfold erase. cbn. by rewrite length_fmap. Qed.

(** An operation that touched list [L] only, and emptied its cache. *)
Lemma InvN_step k u u' L cs' :
  InvN k u →
  V2.modifies L (erase u) (erase u') → V2.repr (erase u') L cs' →
  (∀ L', L' ≠ L → V1.lists u' !! L' = V1.lists u !! L') →
  (∀ l, V1.lists u' !! L = Some l → V1.allValues l = None) →
  InvN k u'.
Proof.
  intros [[Hi Hc] Hk] Hm Hr Hother Hthis. split; [split|].
  - by eapply inv_modifies.
  - intros L' l a Hl Ha. destruct (decide (L' = L)) as [->|Hne].
    + apply Hthis in Hl. congruence.
    + rewrite Hother in Hl by done.
      eapply holds_modifies_other; [done..|]. by eapply Hc.
  - rewrite <- Hk, <- !erase_lists_length. apply (V2.mod_lists_len _ _ _ Hm).
Qed.

End Facts.

Ltac lk1 :=
  cbn [V1.nodes V1.lists];
  repeat first
    [ rewrite list_lookup_insert_eq by len
    | rewrite list_lookup_insert_ne by ne_solve
    | rewrite snoc_lookup
    | rewrite lookup_app_l by len ];
  try first [eassumption | reflexivity].

Ltac w1step :=
  cbv beta iota;
  lazymatch goal with
  | |- wp (bind _ _) _ _ => apply wp1_bind
  | |- wp (ret _) _ _ => apply wp1_ret
  | |- wp (V1.get_list _) _ _ => eapply wp1_get_list; [lk1|]
  | |- wp (V1.get_value _) _ _ => eapply wp1_get_value; [lk1|]
  | |- wp (V1.get_previousNode _) _ _ => eapply wp1_get_previousNode; [lk1|]
  | |- wp (V1.get_nextNode _) _ _ => eapply wp1_get_nextNode; [lk1|]
  | |- wp (V1.set_list _ _) _ _ => eapply wp1_set_list; [lk1|]
  | |- wp (V1.set_previousNode _ _) _ _ => eapply wp1_set_previousNode; [lk1|]
  | |- wp (V1.set_nextNode _ _) _ _ => eapply wp1_set_nextNode; [lk1|]
  | |- wp (V1.allocNode _) _ _ => apply wp1_allocNode
  | |- wp (V1.allocList _) _ _ => apply wp1_allocList
  | |- wp (V1.get_allValues _) _ _ => eapply wp1_get_allValues; [lk1|]
  | |- wp (V1.get_firstNode _) _ _ => eapply wp1_get_firstNode; [lk1|]
  | |- wp (V1.get_lastNode _) _ _ => eapply wp1_get_lastNode; [lk1|]
  | |- wp (V1.get_length _) _ _ => eapply wp1_get_length; [lk1|]
  | |- wp (V1.set_allValues _ _) _ _ => eapply wp1_set_allValues; [lk1|]
  | |- wp (V1.set_firstNode _ _) _ _ => eapply wp1_set_firstNode; [lk1|]
  | |- wp (V1.set_lastNode _ _) _ _ => eapply wp1_set_lastNode; [lk1|]
  | |- wp (V1.set_length _ _) _ _ => eapply wp1_set_length; [lk1|]
  | |- wp (nonNull (Some _)) _ _ => apply wp1_nonNull
  end;
  cbn [V1.node_list V1.value V1.previousNode V1.nextNode V1.allValues
       V1.firstNode V1.lastNode V1.length V1.nodes V1.lists];
  rewrite ?list_insert_insert_eq.

Ltac w1steps := repeat w1step.

(** The class-node facts that the tuple-node facts of the context give. *)
Ltac to_v1 :=
  repeat match goal with
  | H : (eraseNode <$> ?h) !! ?n = Some (V2.mkNode ?o ?v ?p ?x) |- _ =>
    lazymatch goal with
    | _ : h !! n = Some (V1.mkNode o v p x) |- _ => fail
    | _ => pose proof (erase_node_lookup _ _ _ _ _ _ H)
    end
  end.

(** Equality of the store that the class-node run leaves, once erased,
    and the store that the tuple-node run leaves. *)
Ltac split_index i :=
  repeat match goal with
  | |- context [<[?a := _]> _] =>
    lazymatch goal with
    | _ : i ≠ a |- _ => fail
    | _ => destruct (decide (i = a)) as [->|?]
    end
  end.

Ltac lk_both :=
  repeat first
    [ rewrite list_lookup_insert_eq by len
    | rewrite list_lookup_insert_ne by ne_solve
    | rewrite snoc_lookup
    | rewrite lookup_snoc_fmap ];
  cbn [fmap option_fmap option_map]; unfold eraseNode, eraseList;
  cbn [V1.node_list V1.value V1.previousNode V1.nextNode
       V1.firstNode V1.lastNode V1.length];
  try first
    [ reflexivity
    | by rewrite list_lookup_fmap
    | by apply lookup_snoc_other
    | lazymatch goal with
      | |- _ <$> (?l ++ [_]) !! ?i = _ =>
        destruct (decide (i = List.length l)) as [->|?];
        [ by rewrite snoc_lookup, lookup_snoc_fmap
        | by apply lookup_snoc_other ]
      end ].

Ltac store_eq :=
  apply erase_intro; intros ?i;
  [ match goal with i : nat |- _ => split_index i end; lk_both
  | match goal with i : nat |- _ => split_index i end; lk_both ].

(** Runs the tuple-node side of [Hb : m t = Ok r t'], which gives [t']. *)
Ltac run2 Hb tac :=
  lazymatch type of Hb with
  | ?m ?t = Ok _ _ =>
    let H := fresh "Hrun" in
    eassert (m t = Ok _ _) as H;
    [ apply wp_elim_eq; tac; split; reflexivity
    | rewrite H in Hb; clear H; apply Ok_inj in Hb as [_ <-];
      rewrite ?length_fmap in * ]
  end.

(** Runs the class-node side, which gives the store it leaves. *)
Ltac run1 tac :=
  eexists; split; [apply wp1_elim_eq; tac; split; reflexivity|].

(** The two stores agree; the equation is kept as [He]. *)
Ltac erased He :=
  lazymatch goal with
  | |- erase ?u = ?t ∧ _ =>
    assert (erase u = t) as He by store_eq; split; [exact He|]
  end.

End BothFacts.
Module BothLeaves.
Import MonadFacts Both BothFacts V2Facts V2Ops V2Inv V2Queries V2Mutators
  V2Reach V2More.
Section Leaves.
Context {ItemT : Type}.
Abbreviation Node1 := (@V1.DoubleLinkedListNode ItemT).
Abbreviation List1 := (@V1.DoubleLinkedList ItemT).
Abbreviation Store1 := (@V1.Store ItemT).
Abbreviation Store2 := (@V2.Store ItemT).
Abbreviation Cells := (list (NodeRef * ItemT)%type).
Implicit Types (h : list Node1) (ls : list List1) (u : Store1)
  (L this : ListRef) (n node : NodeRef) (cs : Cells) (v item : ItemT).

Lemma sim_append k L v :
  L < k →
  sim (InvN k) (V1.append L v) (V2.append L v) (λ _ u', InvN k u').
Proof.
  intros HL [h ls] r t' Hinv Hb.
  pose proof Hinv as [[Hi Hc] Hk].
  destruct (inv_repr _ L Hi) as [cs Hr];
    [by rewrite erase_lists_length, Hk|].
  pose proof (wp_Ok _ _ _ _ _ Hb (append_spec _ _ _ v Hr)) as (-> & Hr' & Hm).
  rewrite erase_nodes_length in *.
  pose proof Hr as [Hl Hnd Hseg Hown].
  unfold erase in * |-. cbn [V1.nodes V1.lists V2.nodes V2.lists] in *.
  rewrite ?length_fmap in *.
  destruct (snoc_case cs) as [->|(cs' & [m w] & ->)].
  - cbn [V2.firstRef V2.lastRef last List.length] in *.
    destruct (erase_list_lookup _ _ _ _ _ Hl) as [c Hla].
    run2 Hb ltac:(unfold V2.append; wsteps;
                  change (Z.of_nat 0 =? 0)%Z with true; wsteps).
    run1 ltac:(unfold V1.append; w1steps).
    erased He.
    rewrite <- He in Hr', Hm.
    eapply (InvN_step k (V1.mkStore h ls)); [done|exact Hm|exact Hr'|..].
    + intros L' HL'. lk1.
    + intros l. lk1. by intros [= <-].
  - rewrite lastRef_snoc in Hl. cbn [fst] in Hl.
    apply seg_app in Hseg as [Hseg [Hmn _]]. cbn [fst snd V2.firstRef] in Hmn.
    assert (Hlen : (Z.of_nat (List.length (cs' ++ [(m, w)])) =? 0)%Z = false)
      by (apply Z.eqb_neq; rewrite length_app; simpl; lia).
    destruct (firstRef_elem cs' (m, w) None) as (f & Hf & _).
    rewrite Hf in Hl.
    destruct (erase_list_lookup _ _ _ _ _ Hl) as [c Hla].
    to_v1. learn_lt.
    run2 Hb ltac:(unfold V2.append; wsteps; rewrite Hlen; wsteps).
    run1 ltac:(unfold V1.append; w1steps).
    erased He.
    rewrite <- He in Hr', Hm.
    eapply (InvN_step k (V1.mkStore h ls)); [done|exact Hm|exact Hr'|..].
    + intros L' HL'. lk1.
    + intros l. lk1. by intros [= <-].
Qed.

Lemma sim_prepend k L v :
  L < k →
  sim (InvN k) (V1.prepend L v) (V2.prepend L v) (λ _ u', InvN k u').
Proof.
  intros HL [h ls] r t' Hinv Hb.
  pose proof Hinv as [[Hi Hc] Hk].
  destruct (inv_repr _ L Hi) as [cs Hr];
    [by rewrite erase_lists_length, Hk|].
  pose proof (wp_Ok _ _ _ _ _ Hb (prepend_spec _ _ _ v Hr)) as (-> & Hr' & Hm).
  rewrite erase_nodes_length in *.
  pose proof Hr as [Hl Hnd Hseg Hown].
  unfold erase in * |-. cbn [V1.nodes V1.lists V2.nodes V2.lists] in *.
  rewrite ?length_fmap in *.
  destruct cs as [|[m w] cs'].
  - cbn [V2.firstRef V2.lastRef last List.length] in *.
    destruct (erase_list_lookup _ _ _ _ _ Hl) as [c Hla].
    run2 Hb ltac:(unfold V2.prepend; wsteps;
                  change (Z.of_nat 0 =? 0)%Z with true; wsteps).
    run1 ltac:(unfold V1.prepend; w1steps).
    erased He.
    rewrite <- He in Hr', Hm.
    eapply (InvN_step k (V1.mkStore h ls)); [done|exact Hm|exact Hr'|..].
    + intros L' HL'. lk1.
    + intros l. lk1. by intros [= <-].
  - cbn [V2.firstRef fst] in Hl. destruct Hseg as [Hmn Hseg].
    cbn [fst snd] in Hmn.
    assert (Hlen : (Z.of_nat (List.length ((m, w) :: cs')) =? 0)%Z = false)
      by (apply Z.eqb_neq; simpl; lia).
    destruct (erase_list_lookup _ _ _ _ _ Hl) as [c Hla].
    to_v1. learn_lt.
    run2 Hb ltac:(unfold V2.prepend; wsteps; rewrite Hlen; wsteps).
    run1 ltac:(unfold V1.prepend; w1steps).
    erased He.
    rewrite <- He in Hr', Hm.
    eapply (InvN_step k (V1.mkStore h ls)); [done|exact Hm|exact Hr'|..].
    + intros L' HL'. lk1.
    + intros l. lk1. by intros [= <-].
Qed.

(** *** remove *)

Lemma remove_Ok_node (t : Store2) L cs n r t' :
  V2.repr t L cs → V2.remove L n t = Ok r t' → is_Some (V2.nodes t !! n).
Proof.
  intros Hr Hrm. destruct (V2.nodes t !! n) as [nd|] eqn:Hn; [by eauto|].
  exfalso. assert (n ∉ cs.*1) as Hnotin.
  { intros Hin. apply (repr_lt _ _ _ _ Hr) in Hin.
    apply lookup_ge_None_1 in Hn. lia. }
  destruct Hr as [Hl _ _ _]. revert Hrm. unfold V2.remove, V2.remove_unlink.
  rewrite !bind_assoc.
  rewrite (bind_Ok _ _ _ _ _ (get_lastNode_Ok _ _ _ Hl)). cbn [V2.lastNode].
  rewrite decide_False by (intros Heq; symmetry in Heq;
                           by apply lastRef_None_elem in Heq).
  rewrite !bind_assoc.
  rewrite (bind_Ok _ _ _ _ _ (get_firstNode_Ok _ _ _ Hl)). cbn [V2.firstNode].
  rewrite decide_False by (intros Heq; symmetry in Heq;
                           by apply firstRef_None_elem in Heq).
  unfold V2.get_LIST, bind, V2.readNode. by rewrite Hn.
Qed.

Lemma sim_remove_owned k L c1 n v c2 u r t' :
  InvN k u → V2.repr (erase u) L (c1 ++ (n, v) :: c2) →
  V2.remove L n (erase u) = Ok r t' →
  ∃ u', V1.remove L n u = Ok r u' ∧ erase u' = t' ∧ InvN k u'.
Proof.
  destruct u as [h ls]. intros Hinv Hr Hb.
  pose proof Hinv as [[Hi Hc] Hk].
  pose proof (wp_Ok _ _ _ _ _ Hb (remove_spec _ _ _ _ _ _ Hr))
    as (-> & Hr' & Hm & _).
  pose proof Hr as [Hl Hnd Hseg Hown].
  unfold erase in * |-. cbn [V1.nodes V1.lists V2.nodes V2.lists] in *.
  apply seg_app in Hseg as [Hseg1 [Hn Hseg2]]. cbn [fst snd V2.firstRef] in *.
  rewrite firstRef_app, lastRef_app in Hl. cbn [V2.firstRef fst] in Hl.
  destruct c2 as [|[x xv] c2].
  - (* the tail *)
    cbn [V2.lastRef last fst] in Hl.
    destruct (snoc_case c1) as [->|(c1' & [p pv] & ->)].
    + cells_simpl.
      destruct (erase_list_lookup _ _ _ _ _ Hl) as [c Hla]. to_v1.
      run2 Hb ltac:(unfold V2.remove, V2.remove_unlink; wsteps;
                    rewrite decide_True by done; wsteps).
      run1 ltac:(unfold V1.remove, V1.remove_unlink; w1steps;
                 rewrite decide_False by (intros ?; done); w1steps;
                 rewrite decide_True by done; w1steps).
      erased He.
      rewrite <- He in Hr', Hm.
      eapply (InvN_step k (V1.mkStore h ls)); [done|exact Hm|exact Hr'|..].
      * intros L' HL'. lk1.
      * intros l. lk1. by intros [= <-].
    + rewrite lastRef_snoc in *. cbn [fst] in *.
      apply seg_app in Hseg1 as [Hseg1 [Hp _]]. cbn [fst snd V2.firstRef] in Hp.
      destruct (firstRef_elem c1' (p, pv) (Some n)) as (f & Hf & Hfin).
      rewrite Hf in Hl.
      assert (n ≠ f) as Hnf.
      { apply NoDup_remove_mid' in Hnd. intros ->. set_solver. }
      nodup_facts Hnd.
      destruct (erase_list_lookup _ _ _ _ _ Hl) as [c Hla]. to_v1.
      run2 Hb ltac:(unfold V2.remove, V2.remove_unlink; wsteps;
                    rewrite decide_True by done; wsteps).
      run1 ltac:(unfold V1.remove, V1.remove_unlink; w1steps;
                 rewrite decide_False by (intros ?; done); w1steps;
                 rewrite decide_False by congruence; w1steps;
                 rewrite decide_True by done; w1steps).
      erased He.
      rewrite <- He in Hr', Hm.
      eapply (InvN_step k (V1.mkStore h ls)); [done|exact Hm|exact Hr'|..].
      * intros L' HL'. lk1.
      * intros l. lk1. by intros [= <-].
  - rewrite lastRef_cons in Hl.
    destruct (lastRef_elem (x, xv) c2 (Some (n, v).1)) as (z & Hz & Hzin).
    rewrite Hz in Hl. destruct Hseg2 as [Hx Hseg2]. cells_simpl.
    assert (n ≠ z) as Hnz.
    { apply NoDup_remove_mid' in Hnd. intros ->. set_solver. }
    destruct (snoc_case c1) as [->|(c1' & [p pv] & ->)].
    + (* the head *)
      cells_simpl. nodup_facts Hnd.
      destruct (erase_list_lookup _ _ _ _ _ Hl) as [c Hla]. to_v1.
      run2 Hb ltac:(unfold V2.remove, V2.remove_unlink; wsteps;
                    rewrite decide_False by congruence; wsteps;
                    rewrite decide_True by done; wsteps).
      run1 ltac:(unfold V1.remove, V1.remove_unlink; w1steps;
                 rewrite decide_False by (intros ?; done); w1steps;
                 rewrite decide_True by done; w1steps).
      erased He.
      rewrite <- He in Hr', Hm.
      eapply (InvN_step k (V1.mkStore h ls)); [done|exact Hm|exact Hr'|..].
      * intros L' HL'. lk1.
      * intros l. lk1. by intros [= <-].
    + (* in the middle *)
      destruct (firstRef_elem c1' (p, pv) (Some n)) as (f & Hf & Hfin).
      rewrite Hf in *. rewrite lastRef_snoc in Hn. cbn [fst] in Hn.
      apply seg_app in Hseg1 as [Hseg1 [Hp _]]. cbn [fst snd V2.firstRef] in Hp.
      assert (n ≠ f) as Hnf.
      { apply NoDup_remove_mid' in Hnd. intros ->. set_solver. }
      nodup_facts Hnd.
      destruct (erase_list_lookup _ _ _ _ _ Hl) as [c Hla]. to_v1.
      run2 Hb ltac:(unfold V2.remove, V2.remove_unlink; wsteps;
                    rewrite decide_False by congruence; wsteps;
                    rewrite decide_False by congruence; wsteps;
                    rewrite decide_False by (intros ?; done); wsteps).
      run1 ltac:(unfold V1.remove, V1.remove_unlink; w1steps;
                 rewrite decide_False by (intros ?; done); w1steps;
                 rewrite decide_False by congruence; w1steps;
                 rewrite decide_False by congruence; w1steps).
      erased He.
      rewrite <- He in Hr', Hm.
      eapply (InvN_step k (V1.mkStore h ls)); [done|exact Hm|exact Hr'|..].
      * intros L' HL'. lk1.
      * intros l. lk1. by intros [= <-].
Qed.

Lemma sim_remove k L n :
  L < k →
  sim (InvN k) (V1.remove L n) (V2.remove L n) (λ _ u', InvN k u').
Proof.
  intros HL u r t' Hinv Hb. pose proof Hinv as [[Hi Hc] Hk].
  destruct (inv_repr _ L Hi) as [cs Hr];
    [by rewrite erase_lists_length, Hk|].
  destruct (remove_Ok_node _ _ _ _ _ _ Hr Hb) as [nd Hn].
  destruct (decide (V2.LIST nd = Some L)) as [Hown|Hown].
  - apply (V2.repr_owned _ _ _ Hr _ _ Hn) in Hown.
    apply cells_split in Hown as (c1 & v & c2 & ->).
    by eapply sim_remove_owned.
  - rewrite (remove_foreign_spec _ _ _ _ _ Hr Hn Hown) in Hb.
    injection Hb as <- <-. exists u. split; [|done].
    unfold erase in Hn. cbn in Hn. rewrite list_lookup_fmap in Hn.
    destruct (V1.nodes u !! n) as [nd1|] eqn:Hn1; [|done].
    injection Hn as <-.
    by eapply V1Facts.v1_remove_foreign.
Qed.

(** *** insertAfterNode *)

Lemma sim_insertAfterNode_owned k L c1 n w c2 v u r t' :
  InvN k u → V2.repr (erase u) L (c1 ++ (n, w) :: c2) →
  V2.insertAfterNode L n v (erase u) = Ok r t' →
  ∃ u', V1.insertAfterNode L n v u = Ok r u' ∧ erase u' = t' ∧ InvN k u'.
Proof.
  destruct u as [h ls]. intros Hinv Hr Hb.
  pose proof Hinv as [[Hi Hc] Hk].
  pose proof (wp_Ok _ _ _ _ _ Hb (insertAfterNode_spec _ _ _ _ _ _ v Hr))
    as (-> & Hr' & Hm).
  rewrite erase_nodes_length in *.
  pose proof Hr as [Hl Hnd Hseg Hown].
  unfold erase in * |-. cbn [V1.nodes V1.lists V2.nodes V2.lists] in *.
  rewrite ?length_fmap in *.
  apply seg_app in Hseg as [Hseg1 [Hn Hseg2]]. cbn [fst snd V2.firstRef] in *.
  rewrite firstRef_app, lastRef_app in Hl. cbn [V2.firstRef fst] in Hl.
  assert (Hlen : (Z.of_nat (List.length (c1 ++ (n, w) :: c2)) =? 0)%Z = false)
    by (apply Z.eqb_neq; rewrite length_app; simpl; lia).
  destruct c2 as [|[x xv] c2].
  - (* after the tail *)
    cbn [V2.lastRef last fst] in Hl. cbn [V2.firstRef] in Hn.
    destruct (erase_list_lookup _ _ _ _ _ Hl) as [c Hla]. to_v1. learn_lt.
    run2 Hb ltac:(unfold V2.insertAfterNode, V2.append; wsteps;
                  rewrite decide_False by (intros ?; done); wsteps;
                  rewrite decide_True by done; wsteps;
                  rewrite Hlen; wsteps).
    run1 ltac:(unfold V1.insertAfterNode; w1steps;
               rewrite decide_False by (intros ?; done); w1steps;
               rewrite decide_True by done; w1steps).
    erased He.
    rewrite <- He in Hr', Hm.
    eapply (InvN_step k (V1.mkStore h ls)); [done|exact Hm|exact Hr'|..].
    + intros L' HL'. lk1.
    + intros l. lk1. by intros [= <-].
  - rewrite lastRef_cons in Hl.
    destruct (lastRef_elem (x, xv) c2 (Some (n, w).1)) as (z & Hz & Hzin).
    rewrite Hz in Hl. destruct Hseg2 as [Hx Hseg2]. cells_simpl.
    assert (n ≠ z) as Hnz.
    { apply NoDup_remove_mid' in Hnd. intros ->. set_solver. }
    nodup_facts Hnd.
    destruct (erase_list_lookup _ _ _ _ _ Hl) as [c Hla]. to_v1. learn_lt.
    run2 Hb ltac:(unfold V2.insertAfterNode; wsteps;
                  rewrite decide_False by (intros ?; done); wsteps;
                  rewrite decide_False by congruence; wsteps).
    run1 ltac:(unfold V1.insertAfterNode; w1steps;
               rewrite decide_False by (intros ?; done); w1steps;
               rewrite decide_False by congruence; w1steps).
    erased He.
    rewrite <- He in Hr', Hm.
    eapply (InvN_step k (V1.mkStore h ls)); [done|exact Hm|exact Hr'|..].
    + intros L' HL'. lk1.
    + intros l. lk1. by intros [= <-].
Qed.

Lemma insert_Ok_node {A} (t : Store2) n (k2 : option ListRef → M Store2 A)
    r t' :
  bind (V2.get_LIST n) k2 t = Ok r t' → is_Some (V2.nodes t !! n).
Proof.
  unfold V2.get_LIST, V2.readNode, bind.
  destruct (V2.nodes t !! n); [by eauto|by cbn].
Qed.

Lemma erase_foreign u n nd L :
  V2.nodes (erase u) !! n = Some nd → V2.LIST nd ≠ Some L →
  ∃ nd1, V1.nodes u !! n = Some nd1 ∧ V1.node_list nd1 ≠ Some L.
Proof.
  unfold erase. cbn. rewrite list_lookup_fmap.
  destruct (V1.nodes u !! n) as [nd1|]; [|done]. intros [= <-] Ho. eauto.
Qed.

Lemma sim_insertAfterNode k L n v :
  L < k →
  sim (InvN k) (V1.insertAfterNode L n v) (V2.insertAfterNode L n v)
    (λ _ u', InvN k u').
Proof.
  intros HL u r t' Hinv Hb. pose proof Hinv as [[Hi Hc] Hk].
  destruct (inv_repr _ L Hi) as [cs Hr];
    [by rewrite erase_lists_length, Hk|].
  destruct (insert_Ok_node _ _ _ _ _ Hb) as [nd Hn].
  destruct (decide (V2.LIST nd = Some L)) as [Hown|Hown].
  - apply (V2.repr_owned _ _ _ Hr _ _ Hn) in Hown.
    apply cells_split in Hown as (c1 & w & c2 & ->).
    by eapply sim_insertAfterNode_owned.
  - rewrite (insertAfterNode_foreign_spec _ _ _ _ v Hn Hown) in Hb.
    injection Hb as <- <-. exists u. split; [|done].
    destruct (erase_foreign _ _ _ _ Hn Hown) as (nd1 & Hn1 & Ho1).
    apply (wp1_elim_eq _ _ None u). unfold V1.insertAfterNode.
    w1steps. rewrite decide_True by done. by w1steps.
Qed.

(** *** insertBeforeNode *)

Lemma sim_insertBeforeNode_owned k L c1 n w c2 v u r t' :
  InvN k u → V2.repr (erase u) L (c1 ++ (n, w) :: c2) →
  V2.insertBeforeNode L n v (erase u) = Ok r t' →
  ∃ u', V1.insertBeforeNode L n v u = Ok r u' ∧ erase u' = t' ∧ InvN k u'.
Proof.
  destruct u as [h ls]. intros Hinv Hr Hb.
  pose proof Hinv as [[Hi Hc] Hk].
  pose proof (wp_Ok _ _ _ _ _ Hb (insertBeforeNode_spec _ _ _ _ _ _ v Hr))
    as (-> & Hr' & Hm).
  rewrite erase_nodes_length in *.
  pose proof Hr as [Hl Hnd Hseg Hown].
  unfold erase in * |-. cbn [V1.nodes V1.lists V2.nodes V2.lists] in *.
  rewrite ?length_fmap in *.
  apply seg_app in Hseg as [Hseg1 [Hn Hseg2]]. cbn [fst snd V2.firstRef] in *.
  rewrite firstRef_app, lastRef_app in Hl. cbn [V2.firstRef fst] in Hl.
  assert (Hlen : (Z.of_nat (List.length (c1 ++ (n, w) :: c2)) =? 0)%Z = false)
    by (apply Z.eqb_neq; rewrite length_app; simpl; lia).
  destruct (snoc_case c1) as [->|(c1' & [p pv] & ->)].
  - (* before the head *)
    cbn [V2.firstRef V2.lastRef last app] in *.
    destruct (erase_list_lookup _ _ _ _ _ Hl) as [c Hla]. to_v1. learn_lt.
    run2 Hb ltac:(unfold V2.insertBeforeNode, V2.prepend; wsteps;
                  rewrite decide_False by (intros ?; done); wsteps;
                  rewrite decide_True by done; wsteps;
                  rewrite Hlen; wsteps).
    run1 ltac:(unfold V1.insertBeforeNode; w1steps;
               rewrite decide_False by (intros ?; done); w1steps;
               rewrite decide_True by done; w1steps).
    erased He.
    rewrite <- He in Hr', Hm.
    eapply (InvN_step k (V1.mkStore h ls)); [done|exact Hm|exact Hr'|..].
    + intros L' HL'. lk1.
    + intros l. lk1. by intros [= <-].
  - destruct (firstRef_elem c1' (p, pv) (Some n)) as (f & Hf & Hfin).
    rewrite Hf in Hl. rewrite lastRef_snoc in Hn. cbn [fst] in Hn.
    apply seg_app in Hseg1 as [Hseg1 [Hp _]]. cbn [fst snd V2.firstRef] in Hp.
    assert (n ≠ f) as Hnf.
    { apply NoDup_remove_mid' in Hnd. intros ->. set_solver. }
    nodup_facts Hnd.
    destruct (erase_list_lookup _ _ _ _ _ Hl) as [c Hla]. to_v1. learn_lt.
    run2 Hb ltac:(unfold V2.insertBeforeNode; wsteps;
                  rewrite decide_False by (intros ?; done); wsteps;
                  rewrite decide_False by congruence; wsteps).
    run1 ltac:(unfold V1.insertBeforeNode; w1steps;
               rewrite decide_False by (intros ?; done); w1steps;
               rewrite decide_False by congruence; w1steps).
    erased He.
    rewrite <- He in Hr', Hm.
    eapply (InvN_step k (V1.mkStore h ls)); [done|exact Hm|exact Hr'|..].
    + intros L' HL'. lk1.
    + intros l. lk1. by intros [= <-].
Qed.

Lemma sim_insertBeforeNode k L n v :
  L < k →
  sim (InvN k) (V1.insertBeforeNode L n v) (V2.insertBeforeNode L n v)
    (λ _ u', InvN k u').
Proof.
  intros HL u r t' Hinv Hb. pose proof Hinv as [[Hi Hc] Hk].
  destruct (inv_repr _ L Hi) as [cs Hr];
    [by rewrite erase_lists_length, Hk|].
  destruct (insert_Ok_node _ _ _ _ _ Hb) as [nd Hn].
  destruct (decide (V2.LIST nd = Some L)) as [Hown|Hown].
  - apply (V2.repr_owned _ _ _ Hr _ _ Hn) in Hown.
    apply cells_split in Hown as (c1 & w & c2 & ->).
    by eapply sim_insertBeforeNode_owned.
  - rewrite (insertBeforeNode_foreign_spec _ _ _ _ v Hn Hown) in Hb.
    injection Hb as <- <-. exists u. split; [|done].
    destruct (erase_foreign _ _ _ _ Hn Hown) as (nd1 & Hn1 & Ho1).
    apply (wp1_elim_eq _ _ None u). unfold V1.insertBeforeNode.
    w1steps. rewrite decide_True by done. by w1steps.
Qed.

End Leaves.
End BothLeaves.
Module BothOps.
Import MonadFacts Both BothFacts BothLeaves V2Facts V2Ops V2Inv V2Queries
  V2Mutators V2SpliceTop V2Reach V2More.
Section Ops.
Context {ItemT : Type}.
Local Abbreviation simr := (@Both.simr ItemT).
Variable strictEq : ItemT → ItemT → bool.
Abbreviation Node1 := (@V1.DoubleLinkedListNode ItemT).
Abbreviation List1 := (@V1.DoubleLinkedList ItemT).
Abbreviation Store1 := (@V1.Store ItemT).
Abbreviation Store2 := (@V2.Store ItemT).
Abbreviation Cells := (list (NodeRef * ItemT)%type).
Implicit Types (h : list Node1) (ls : list List1) (u : Store1)
  (L this : ListRef) (n node : NodeRef) (cs : Cells) (v item : ItemT)
  (items : list ItemT).

(** *** The reads *)

Ltac simr_solve :=
  repeat first
    [ solve [auto 1]
    | apply simr_ret | apply simr_throw | apply simr_nonNull
    | apply simr_get_list | apply simr_get_value
    | apply simr_get_previousNode | apply simr_get_nextNode
    | apply simr_get_firstNode | apply simr_get_lastNode
    | apply simr_get_length
    | (apply simr_bind; [|intros ?])
    | match goal with
      | |- simr (if ?b then _ else _) (if ?b then _ else _) => destruct b
      | |- simr (match ?x with _ => _ end) (match ?x with _ => _ end) =>
        destruct x
      end ].

Lemma simr_walkNext k o : simr (V1.walkNext k o) (V2.walkNext k o : M Store2 _).
Proof.
  revert o. induction k as [|k IH]; intros [c|]; cbn [V1.walkNext V2.walkNext];
    simr_solve.
Qed.

Lemma simr_walkPrev k o : simr (V1.walkPrev k o) (V2.walkPrev k o : M Store2 _).
Proof.
  revert o. induction k as [|k IH]; intros [c|]; cbn [V1.walkPrev V2.walkPrev];
    simr_solve.
Qed.

Lemma simr_getNodeAt L index :
  simr (V1.getNodeAt L index) (V2.getNodeAt L index : M Store2 _).
Proof.
  unfold V1.getNodeAt, V2.getNodeAt.
  pose proof simr_walkNext. pose proof simr_walkPrev. simr_solve.
Qed.

Lemma simr_get L index : simr (V1.get L index) (V2.get L index : M Store2 _).
Proof. unfold V1.get, V2.get. pose proof simr_getNodeAt. simr_solve. Qed.

Lemma simr_indexOf_skip fuel fromIndex o index :
  simr (V1.indexOf_skip fuel fromIndex o index)
    (V2.indexOf_skip fuel fromIndex o index : M Store2 _).
Proof.
  revert o index. induction fuel as [|fuel IH]; intros o index;
    cbn [V1.indexOf_skip V2.indexOf_skip]; simr_solve.
Qed.

Lemma simr_indexOf_scan fuel x o index :
  simr (V1.indexOf_scan strictEq fuel x o index)
    (V2.indexOf_scan strictEq fuel x o index : M Store2 _).
Proof.
  revert o index. induction fuel as [|fuel IH]; intros o index;
    cbn [V1.indexOf_scan V2.indexOf_scan]; simr_solve.
Qed.

Lemma simr_indexOf fuel L x fromIndex :
  simr (V1.indexOf strictEq fuel L x fromIndex)
    (V2.indexOf strictEq fuel L x fromIndex).
Proof.
  unfold V1.indexOf, V2.indexOf.
  pose proof simr_indexOf_skip. pose proof simr_indexOf_scan. simr_solve.
Qed.

Lemma simr_includes fuel L x fromIndex :
  simr (V1.includes strictEq fuel L x fromIndex)
    (V2.includes strictEq fuel L x fromIndex).
Proof. unfold V1.includes, V2.includes. pose proof simr_indexOf. simr_solve. Qed.

Lemma simr_forEach fuel L callback :
  simr (V1.forEach fuel L callback) (V2.forEach fuel L callback : M Store2 _).
Proof.
  unfold V1.forEach, V2.forEach. apply simr_bind; [simr_solve|]. intros o.
  generalize 0%Z. revert o.
  induction fuel as [|fuel IH]; intros o index;
    cbn [V1.forEach_loop V2.forEach_loop]; simr_solve.
Qed.

Lemma simr_find fuel L predicate :
  simr (V1.find fuel L predicate) (V2.find fuel L predicate : M Store2 _).
Proof.
  unfold V1.find, V2.find. apply simr_bind; [simr_solve|]. intros o.
  generalize 0%Z. revert o.
  induction fuel as [|fuel IH]; intros o index;
    cbn [V1.find_loop V2.find_loop]; simr_solve.
Qed.

Lemma simr_iterator_next o :
  simr (V1.iterator_next o) (V2.iterator_next o : M Store2 _).
Proof. unfold V1.iterator_next, V2.iterator_next. simr_solve. Qed.

(** *** The operations made of the five above *)

Lemma simk_ret {A} k (a : A) :
  sim (InvN k) (ret a) (ret a) (λ _ u', InvN k u').
Proof. by apply sim_ret. Qed.

Lemma simk_read {A} k (m1 : M Store1 A) (m2 : M Store2 A) :
  simr m1 m2 → sim (InvN k) m1 m2 (λ _ u', InvN k u').
Proof. apply simr_sim. Qed.

Lemma simk_bind {A B} k (m1 : M Store1 A) (m2 : M Store2 A)
    (k1 : A → M Store1 B) (k2 : A → M Store2 B) Q :
  sim (InvN k) m1 m2 (λ _ u', InvN k u') →
  (∀ a, sim (InvN k) (k1 a) (k2 a) Q) →
  sim (InvN k) (bind m1 k1) (bind m2 k2) Q.
Proof. intros Hm Hk. by eapply sim_bind. Qed.

Ltac simk_solve :=
  repeat first
    [ solve [auto 1]
    | apply simk_ret | apply sim_throw
    | (apply simk_read; solve [simr_solve])
    | (apply sim_append; lia) | (apply sim_prepend; lia)
    | (apply sim_remove; lia)
    | (apply sim_insertAfterNode; lia) | (apply sim_insertBeforeNode; lia)
    | (apply simk_bind; [|intros ?])
    | match goal with
      | |- sim _ (if ?b then _ else _) (if ?b then _ else _) _ => destruct b
      | |- sim _ (match ?x with _ => _ end) (match ?x with _ => _ end) _ =>
        destruct x
      end ].

Lemma sim_appendAll k L items :
  L < k →
  sim (InvN k) (V1.appendAll L items) (V2.appendAll L items)
    (λ _ u', InvN k u').
Proof.
  intros HL. induction items as [|v items IH];
    cbn [V1.appendAll V2.appendAll]; simk_solve.
Qed.

Lemma sim_allocList k :
  sim (InvN k) (V1.allocList (V1.mkList None None None 0))
    (V2.allocList (V2.mkList None None 0))
    (λ R u', R = k ∧ InvN (S k) u').
Proof.
  intros [h ls] R t' [[Hi Hc] Hk] Hb. injection Hb as HR Ht.
  cbn in HR. rewrite length_fmap in HR. cbn [V1.lists] in Hk. subst R t'.
  exists (V1.mkStore h (ls ++ [V1.mkList None None None 0])).
  split; [done|].
  assert (erase (V1.mkStore h (ls ++ [V1.mkList None None None 0]))
          = V2.withNewList (erase (V1.mkStore h ls))) as He.
  { unfold erase, V2.withNewList. cbn. by rewrite fmap_app. }
  split; [done|]. split; [done|].
  split; [split|].
  - rewrite He. by apply inv_withNewList.
  - intros L l a Hl Ha. cbn [V1.lists] in Hl.
    apply lookup_app_Some in Hl as [Hl|[_ Hl]].
    + rewrite He. destruct (Hc _ _ _ Hl Ha) as (cs & Hr & Hvs).
      exists cs. split; [|done]. by apply repr_withNewList.
    + apply list_lookup_singleton_Some in Hl as [_ <-]. done.
  - cbn. rewrite length_app. cbn. lia.
Qed.

Lemma sim_constructor k items :
  sim (InvN k) (V1.constructor items) (V2.constructor items)
    (λ R u', R = k ∧ InvN (S k) u').
Proof.
  unfold V1.constructor, V2.constructor.
  eapply sim_bind; [apply sim_allocList|]. intros R.
  eapply sim_conseq with (P' := λ u, R = k ∧ InvN (S k) u)
                         (Q' := λ R' u', R' = k ∧ InvN (S k) u');
    [|done|done].
  intros u a t' [-> Hinv]. revert u a t' Hinv.
  change (sim (InvN (S k))
            (V1.appendAll k items;;; ret k)
            ((if (0 <? Z.of_nat (List.length items))%Z
              then V2.appendAll k items else ret tt);;; ret k)
            (λ R' u', R' = k ∧ InvN (S k) u')).
  eapply sim_bind with (Q' := λ _ u', InvN (S k) u').
  - destruct items as [|v items]; [apply simk_ret|].
    change (0 <? Z.of_nat (List.length (v :: items)))%Z with true.
    apply sim_appendAll. lia.
  - intros _. by apply sim_ret.
Qed.

Lemma sim_clear k fuel L :
  L < k →
  sim (InvN k) (V1.clear fuel L) (V2.clear fuel L) (λ _ u', InvN k u').
Proof.
  intros HL. induction fuel as [|fuel IH]; cbn [V1.clear V2.clear]; simk_solve.
Qed.

Lemma sim_pop k L :
  L < k → sim (InvN k) (V1.pop L) (V2.pop L) (λ _ u', InvN k u').
Proof. intros HL. unfold V1.pop, V2.pop. simk_solve. Qed.

Lemma sim_shift k L :
  L < k → sim (InvN k) (V1.shift L) (V2.shift L) (λ _ u', InvN k u').
Proof. intros HL. unfold V1.shift, V2.shift. simk_solve. Qed.

Lemma sim_splice_delete k L R count o :
  L < k → R < k →
  sim (InvN k) (V1.splice_delete L R count o) (V2.splice_delete L R count o)
    (λ _ u', InvN k u').
Proof.
  intros HL HR. revert o.
  induction count as [|count IH]; intros [c|];
    cbn [V1.splice_delete V2.splice_delete]; simk_solve.
Qed.

Lemma sim_splice_insert k L x o items :
  L < k →
  sim (InvN k) (V1.splice_insert L x o items) (V2.splice_insert L x o items)
    (λ _ u', InvN k u').
Proof.
  intros HL. revert o.
  induction items as [|v items IH]; intros o;
    cbn [V1.splice_insert V2.splice_insert]; simk_solve.
Qed.

Lemma sim_splice_from k L o deleteCount items :
  L < k →
  sim (InvN k) (V1.splice_from L o deleteCount items)
    (V2.splice_from L o deleteCount items)
    (λ _ u', InvN (S k) u').
Proof.
  intros HL. unfold V1.splice_from, V2.splice_from.
  eapply sim_bind; [apply sim_constructor|]. intros R.
  eapply sim_conseq with (P' := λ u, R = k ∧ InvN (S k) u)
                         (Q' := λ _ u', InvN (S k) u'); [|done|done].
  intros u a t' [-> Hinv]. revert u a t' Hinv.
  replace (Z.to_nat (Z.max 0 deleteCount)) with (Z.to_nat deleteCount) by lia.
  pose proof (sim_splice_delete (S k)). pose proof (sim_splice_insert (S k)).
  pose proof (sim_appendAll (S k)).
  change (sim (InvN (S k))
    (nodeToRemove <- V1.splice_delete L k (Z.to_nat deleteCount) o;;
     (if (0 <? Z.of_nat (List.length items))%Z then
        match nodeToRemove with
        | Some n => V1.splice_insert L n None items
        | None => V1.appendAll L items
        end
      else ret tt);;; ret k)
    (nodeToRemove <- V2.splice_delete L k (Z.to_nat deleteCount) o;;
     (if (0 <? Z.of_nat (List.length items))%Z then
        match nodeToRemove with
        | Some n => V2.splice_insert L n None items
        | None => V2.appendAll L items
        end
      else ret tt);;; ret k)
    (λ _ u', InvN (S k) u')).
  apply simk_bind; [apply sim_splice_delete; lia|]. intros nodeToRemove.
  apply simk_bind; [|intros ?; apply simk_ret].
  destruct (0 <? _)%Z; [|apply simk_ret].
  destruct nodeToRemove; [apply sim_splice_insert; lia|apply sim_appendAll; lia].
Qed.

Lemma sim_splice k L start deleteCount items :
  L < k →
  sim (InvN k) (V1.splice L start deleteCount items)
    (V2.splice L start deleteCount items)
    (λ _ u', InvN (S k) u').
Proof.
  intros HL. unfold V1.splice, V2.splice.
  pose proof (sim_splice_from k L) as Hfrom.
  destruct start as [|start|start].
  - by apply Hfrom.
  - eapply sim_bind; [apply simk_read, simr_get_length|]. intros len.
    eapply sim_bind; [|intros a; by apply Hfrom].
    apply simk_read. destruct (_ >=? _)%Z; [apply simr_ret|apply simr_getNodeAt].
  - eapply sim_bind; [apply simk_read, simr_get_list|]. intros owner.
    destruct (decide (owner ≠ Some L)); [|by apply Hfrom].
    eapply sim_conseq; [apply sim_constructor|done|]. by intros a u [_ ?].
Qed.

Lemma sim_map k fuel L callback :
  L < k →
  sim (InvN k) (V1.map fuel L callback) (V2.map fuel L callback)
    (λ _ u', InvN (S k) u').
Proof.
  intros HL. unfold V1.map, V2.map.
  eapply sim_bind; [apply sim_constructor|]. intros R.
  eapply sim_conseq with (P' := λ u, R = k ∧ InvN (S k) u)
                         (Q' := λ _ u', InvN (S k) u'); [|done|done].
  intros u a t' [-> Hinv]. revert u a t' Hinv.
  change (sim (InvN (S k))
    (cursor <- V1.get_firstNode L;;
     V1.map_loop fuel k callback 0%Z cursor;;; ret k)
    (cursor <- V2.get_firstNode L;;
     V2.map_loop fuel k callback 0%Z cursor;;; ret k)
    (λ _ u', InvN (S k) u')).
  apply simk_bind; [apply simk_read, simr_get_firstNode|]. intros cursor.
  apply simk_bind; [|intros ?; apply simk_ret].
  generalize 0%Z. revert cursor.
  induction fuel as [|fuel IH]; intros cursor index;
    cbn [V1.map_loop V2.map_loop]; simk_solve.
Qed.

End Ops.
End BothOps.
Module BothExec.
Import MonadFacts Both BothFacts BothLeaves BothOps V2Facts V2Ops V2Inv
  V2Queries V2Mutators V2SpliceTop V2Reach V2Exec V2More.
Import V2Spec.
Section Exec.
Context {ItemT : Type}.
Variable strictEq : ItemT → ItemT → bool.
Abbreviation Node1 := (@V1.DoubleLinkedListNode ItemT).
Abbreviation List1 := (@V1.DoubleLinkedList ItemT).
Abbreviation Store1 := (@V1.Store ItemT).
Abbreviation Store2 := (@V2.Store ItemT).
Abbreviation Cells := (list (NodeRef * ItemT)%type).
Implicit Types (h : list Node1) (ls : list List1) (u : Store1)
  (L this : ListRef) (n node : NodeRef) (cs : Cells) (v item : ItemT)
  (items : list ItemT).

(** *** toArray and its cache *)

Lemma repr_lookup_erased u L cs i c :
  V2.repr (erase u) L cs → cs !! i = Some c →
  ∃ pv nx, V1.nodes u !! c.1 = Some (V1.mkNode (Some L) c.2 pv nx)
           ∧ nx = V2.refAt cs (S i).
Proof.
  intros Hr Hc. pose proof (repr_lookup _ _ _ _ _ Hr Hc) as Hn.
  unfold erase in Hn. cbn [V2.nodes] in Hn.
  apply erase_node_lookup in Hn. eauto.
Qed.

Lemma get_value_Ok n (nd : Node1) u :
  V1.nodes u !! n = Some nd → V1.get_value n u = Ok (V1.value nd) u.
Proof. unfold V1.get_value, bind, V1.readNode. by intros ->. Qed.

Lemma get_allValues_Ok L (l : List1) u :
  V1.lists u !! L = Some l → V1.get_allValues L u = Ok (V1.allValues l) u.
Proof. unfold V1.get_allValues, bind, V1.readList. by intros ->. Qed.

Lemma set_allValues_Ok L o (l : List1) u :
  V1.lists u !! L = Some l →
  V1.set_allValues L o u
  = Ok tt (V1.mkStore (V1.nodes u)
             (<[L := V1.mkList o (V1.firstNode l) (V1.lastNode l)
                       (V1.length l)]> (V1.lists u))).
Proof. unfold V1.set_allValues, bind, V1.readList. by intros ->. Qed.

Lemma toArray_loop_erased u L cs fuel j out :
  V2.repr (erase u) L cs → j ≤ List.length cs → List.length cs - j < fuel →
  V1.toArray_loop fuel out (V2.refAt cs j) u = Ok (out ++ drop j cs.*2) u.
Proof.
  intros Hr. revert j out.
  induction fuel as [|fuel IH]; intros j out Hj Hfuel; [lia|].
  cbn [V1.toArray_loop]. unfold V2.refAt at 1.
  destruct (cs !! j) as [c|] eqn:Hc; cbn [fmap option_fmap option_map].
  - pose proof (lookup_lt_Some _ _ _ Hc).
    destruct (repr_lookup_erased _ _ _ _ _ Hr Hc) as (pv & nx & Hn & ->).
    rewrite (bind_eq _ _ _ _ _ (get_value_Ok _ _ _ Hn)).
    rewrite (bind_eq _ _ _ _ _ (V1Facts.v1_get_nextNode_Ok _ _ _ Hn)).
    cbn [V1.value V1.nextNode]. rewrite IH by lia.
    assert (cs.*2 !! j = Some c.2) as Hv by (by rewrite list_lookup_fmap, Hc).
    by rewrite (drop_S _ _ _ Hv), <- app_assoc.
  - apply lookup_ge_None_1 in Hc.
    rewrite drop_ge by (rewrite length_fmap; lia). by rewrite app_nil_r.
Qed.

Lemma erase_set_allValues h ls L l o :
  ls !! L = Some l →
  erase (V1.mkStore h
           (<[L := V1.mkList o (V1.firstNode l) (V1.lastNode l)
                     (V1.length l)]> ls))
  = erase (V1.mkStore h ls).
Proof.
  intros Hl. unfold erase. cbn. f_equal. rewrite list_fmap_insert.
  apply list_insert_id. rewrite list_lookup_fmap, Hl. by destruct l.
Qed.

(** [toArray] returns the values of the list; the store it leaves stands
    for the same tuple-node store, and holds the values in the cache, from
    where the next call takes them. *)
Lemma toArray_erased u L cs fuel :
  Inv1 u → V2.repr (erase u) L cs → List.length cs < fuel →
  ∃ u', V1.toArray fuel L u = Ok cs.*2 u'
        ∧ erase u' = erase u ∧ Inv1 u'
        ∧ (∃ l, V1.lists u' !! L = Some l ∧ V1.allValues l = Some cs.*2)
        ∧ ∀ fuel', V1.toArray fuel' L u' = Ok cs.*2 u'.
Proof.
  destruct u as [h ls]. intros [Hi Hc] Hr Hfuel. pose proof Hr as [Hl _ _ _].
  unfold erase in Hl. cbn [V2.lists] in Hl.
  destruct (erase_list_lookup _ _ _ _ _ Hl) as [c Hla].
  assert (∀ (u0 : Store1) l fuel',
            V1.lists u0 !! L = Some l → V1.allValues l = Some cs.*2 →
            V1.toArray fuel' L u0 = Ok cs.*2 u0) as Hcached.
  { intros u0 l fuel' Hl' Ha. unfold V1.toArray.
    rewrite (bind_eq _ _ _ _ _ (get_allValues_Ok _ _ _ Hl')). by rewrite Ha. }
  destruct c as [a|].
  - assert (a = cs.*2) as ->.
    { destruct (Hc L _ a Hla eq_refl) as (cs' & Hr' & <-).
      by rewrite (repr_unique _ _ _ _ Hr Hr'). }
    exists (V1.mkStore h ls). split_and!; try done.
    + by eapply Hcached.
    + by eauto.
    + intros fuel'. by eapply Hcached.
  - pose proof (erase_set_allValues h ls L _ (Some cs.*2) Hla) as He.
    cbn [V1.firstNode V1.lastNode V1.length] in He.
    eexists. split_and!.
    + unfold V1.toArray.
      rewrite (bind_eq _ _ _ _ _ (get_allValues_Ok _ _ _ Hla)).
      cbn [V1.allValues].
      rewrite (bind_eq _ _ _ _ _ (V1Facts.v1_get_firstNode_Ok _ _ _ Hla)).
      cbn [V1.firstNode]. rewrite <- refAt_0.
      rewrite (bind_eq _ _ _ _ _ (toArray_loop_erased _ _ _ fuel 0 [] Hr
                                    ltac:(lia) ltac:(lia))).
      cbn [app]. rewrite drop_0.
      rewrite (bind_eq _ _ _ _ _ (set_allValues_Ok _ _ _ _ Hla)).
      cbn [V1.firstNode V1.lastNode V1.length V1.nodes V1.lists].
      reflexivity.
    + exact He.
    + split; [by rewrite He|].
      intros L' l a Hl' Ha. cbn [V1.lists] in Hl'. rewrite He.
      destruct (decide (L' = L)) as [->|Hne].
      * rewrite list_lookup_insert_eq in Hl' by (by eapply lookup_lt_Some).
        injection Hl' as <-. cbn in Ha. injection Ha as <-. by exists cs.
      * rewrite list_lookup_insert_ne in Hl' by done. by eapply Hc.
    + eexists. cbn [V1.lists].
      rewrite list_lookup_insert_eq by (by eapply lookup_lt_Some). done.
    + intros fuel'. eapply Hcached.
      * cbn [V1.lists]. apply list_lookup_insert_eq. by eapply lookup_lt_Some.
      * reflexivity.
Qed.

Lemma toArray_loop_fuel (t : Store2) L cs fuel j out a t' :
  V2.repr t L cs →
  V2.toArray_loop fuel out (V2.refAt cs j) j t = Ok a t' →
  List.length cs - j < fuel.
Proof.
  intros Hr. revert j out.
  induction fuel as [|fuel IH]; intros j out; [done|].
  cbn [V2.toArray_loop]. unfold V2.refAt at 1.
  destruct (cs !! j) as [c|] eqn:Hc; cbn [fmap option_fmap option_map].
  - rewrite (bind_Ok _ _ _ _ _ (get_VALUE_Ok _ _ _ (repr_lookup _ _ _ _ _ Hr Hc))).
    rewrite (bind_Ok _ _ _ _ _ (get_NEXT_Ok _ _ _ (repr_lookup _ _ _ _ _ Hr Hc))).
    cbn [V2.NEXT]. intros Hloop. apply IH in Hloop. lia.
  - apply lookup_ge_None_1 in Hc. lia.
Qed.

Lemma toArray_fuel (t : Store2) L cs fuel a t' :
  V2.repr t L cs → V2.toArray fuel L t = Ok a t' → List.length cs < fuel.
Proof.
  intros Hr. pose proof Hr as [Hl _ _ _]. unfold V2.toArray.
  rewrite (bind_Ok _ _ _ _ _ (get_length_Ok _ _ _ Hl)). cbn [V2.length].
  rewrite (proj2 (Z.ltb_ge _ _)) by lia.
  rewrite (bind_Ok _ _ _ _ _ (get_firstNode_Ok _ _ _ Hl)). cbn [V2.firstNode].
  rewrite <- refAt_0. intros Hloop.
  apply (toArray_loop_fuel _ _ _ _ _ _ _ _ Hr) in Hloop. lia.
Qed.

Lemma sim_toArray k fuel L :
  L < k →
  sim (InvN k) (a <- V1.toArray fuel L;; ret (RArray (Some <$> a)))
    (a <- V2.toArray fuel L;; ret (RArray a)) (λ _ u', Inv1 u').
Proof.
  intros HL u r t' [Hinv Hk] Hb. pose proof Hinv as [Hi Hc].
  destruct (inv_repr _ L Hi) as [cs Hr];
    [by rewrite erase_lists_length, Hk|].
  apply bind_inv in Hb as (a & t1 & Hta & Hret).
  pose proof (toArray_fuel _ _ _ _ _ _ Hr Hta) as Hfuel.
  rewrite (toArray_spec _ _ _ fuel Hr Hfuel) in Hta. injection Hta as <- <-.
  injection Hret as <- <-.
  destruct (toArray_erased u L cs fuel Hinv Hr Hfuel)
    as (u' & Hta1 & He & Hinv' & _).
  exists u'. by rewrite (bind_eq _ _ _ _ _ Hta1).
Qed.

(** *** Calls *)

Lemma exec_call2 fuel (op : Op) (s s' : Store2) :
  exec strictEq fuel op s = Ok tt s' →
  ∃ r, call2 strictEq fuel op s = Ok r s'.
Proof.
  destruct op; cbn [exec call2]; unfold void, bind;
    match goal with |- context [match ?m s with _ => _ end] => destruct (m s) end;
    cbn; intros [= <-]; eauto.
Qed.

Lemma InvN_Inv1 k u : InvN k u → Inv1 u.
Proof. by intros [? _]. Qed.

Lemma call_sim k fuel (op : Op) :
  (∀ this, thisOf op = Some this → this < k) →
  sim (InvN k) (call1 strictEq fuel op) (call2 strictEq fuel op)
    (λ _ u', Inv1 u').
Proof.
  intros Hthis.
  destruct op; cbn [call1 call2 thisOf] in *;
    try (specialize (Hthis _ eq_refl));
    try (by apply sim_toArray);
    (eapply sim_bind;
     [|intros ?; apply sim_ret; intros ?; apply id]).
  - eapply sim_conseq; [apply (sim_constructor k)|done|].
    by intros a u [_ [? _]].
  - eapply sim_conseq; [apply (sim_append k); assumption|done|]. by intros ? ? [? _].
  - eapply sim_conseq; [apply (sim_prepend k); assumption|done|]. by intros ? ? [? _].
  - eapply sim_conseq; [apply (sim_insertAfterNode k); assumption|done|].
    by intros ? ? [? _].
  - eapply sim_conseq; [apply (sim_insertBeforeNode k); assumption|done|].
    by intros ? ? [? _].
  - eapply sim_conseq; [apply (sim_remove k); assumption|done|]. by intros ? ? [? _].
  - eapply sim_conseq; [apply (sim_splice k); assumption|done|]. by intros ? ? [? _].
  - eapply sim_conseq; [apply (sim_clear k); assumption|done|]. by intros ? ? [? _].
  - eapply sim_conseq; [apply (sim_pop k); assumption|done|]. by intros ? ? [? _].
  - eapply sim_conseq; [apply (sim_shift k); assumption|done|]. by intros ? ? [? _].
  - eapply sim_conseq; [apply (sim_append k); assumption|done|]. by intros ? ? [? _].
  - eapply sim_conseq; [apply (sim_prepend k); assumption|done|]. by intros ? ? [? _].
  - eapply sim_conseq; [apply (simk_read k), simr_get|done|].
    by intros ? ? [? _].
  - eapply sim_conseq; [apply (simk_read k), simr_getNodeAt|done|].
    by intros ? ? [? _].
  - eapply sim_conseq; [apply (simk_read k), simr_indexOf|done|].
    by intros ? ? [? _].
  - eapply sim_conseq; [apply (simk_read k), simr_includes|done|].
    by intros ? ? [? _].
  - eapply sim_conseq; [apply (simk_read k), simr_get_length|done|].
    by intros ? ? [? _].
  - eapply sim_conseq; [apply (simk_read k)|done|]; [|by intros ? ? [? _]].
    unfold V1.isEmpty, V2.isEmpty.
    apply simr_bind; [apply simr_get_firstNode|intros; apply simr_ret].
  - eapply sim_conseq; [apply (simk_read k), simr_get_firstNode|done|].
    by intros ? ? [? _].
  - eapply sim_conseq; [apply (simk_read k), simr_get_lastNode|done|].
    by intros ? ? [? _].
  - eapply sim_conseq; [apply (simk_read k), simr_forEach|done|].
    by intros ? ? [? _].
  - eapply sim_conseq; [apply (sim_map k); assumption|done|]. by intros ? ? [? _].
  - eapply sim_conseq; [apply (simk_read k), simr_find|done|].
    by intros ? ? [? _].
  - eapply sim_conseq; [apply (simk_read k), simr_get_firstNode|done|].
    by intros ? ? [? _].
  - eapply sim_conseq; [apply (simk_read k), simr_iterator_next|done|].
    by intros ? ? [? _].
Qed.

Lemma argsOk_erase u (op : Op) :
  argsOk (erase u) op ↔
  (∀ this, thisOf op = Some this → this < List.length (V1.lists u))
  ∧ (∀ node, nodeOf op = Some node → node < List.length (V1.nodes u)).
Proof. unfold argsOk. by rewrite erase_lists_length, erase_nodes_length. Qed.

(** Every call returns in both implementations, with the same result and
    stores that stand for each other. *)
Lemma call_agree u fuel (op : Op) :
  Inv1 u → argsOk (erase u) op → List.length (V1.nodes u) < fuel →
  ∃ r u', call1 strictEq fuel op u = Ok r u'
          ∧ call2 strictEq fuel op (erase u) = Ok r (erase u')
          ∧ Inv1 u'.
Proof.
  intros Hinv Hargs Hfuel. pose proof Hinv as [Hi Hc].
  assert (List.length (V2.nodes (erase u)) < fuel) as Hfuel2
    by (by rewrite erase_nodes_length).
  destruct (wp_elim _ _ _ (exec_total strictEq _ fuel op Hi Hargs Hfuel2))
    as ([] & t' & Hex & _).
  apply exec_call2 in Hex as [r Hcall].
  apply argsOk_erase in Hargs as [Hthis _].
  destruct (call_sim (List.length (V1.lists u)) fuel op Hthis
              u r t' ltac:(by split) Hcall) as (u' & H1 & <- & Hinv').
  by exists r, u'.
Qed.

(** A sequence of calls that runs in the tuple-node implementation runs in
    the class-node one, with the same results. *)
Lemma calls_agree fuel (ops : list Op) u rs t' :
  Inv1 u → calls2 strictEq fuel ops (erase u) = Some (rs, t') →
  ∃ u', calls1 strictEq fuel ops u = Some (rs, u') ∧ erase u' = t' ∧ Inv1 u'.
Proof.
  revert u rs. induction ops as [|op ops IH]; intros u rs Hinv;
    cbn [calls1 calls2].
  - intros [= <- <-]. by exists u.
  - destruct (argsOkb (erase u) op) eqn:Hargs; [|done].
    destruct (call2 strictEq fuel op (erase u)) as [r t1|] eqn:Hcall; [|done].
    apply argsOkb_spec, argsOk_erase in Hargs as [Hthis _].
    destruct (call_sim (List.length (V1.lists u)) fuel op Hthis
                u r t1 ltac:(by split) Hcall) as (u1 & H1 & <- & Hinv1).
    rewrite H1.
    destruct (calls2 strictEq fuel ops (erase u1)) as [[rs' t2]|] eqn:Hrest;
      [|done].
    intros [= <- <-].
    destruct (IH u1 rs' Hinv1 Hrest) as (u' & Hrest1 & He & Hinv').
    exists u'. by rewrite Hrest1.
Qed.

Lemma inv1_empty : Inv1 (@V1.emptyStore ItemT).
Proof.
  split; [apply (inv_empty (ItemT := ItemT))|]. by intros L l a Hl.
Qed.

End Exec.
End BothExec.
(** * The specification, claim by claim *)

Import V2Facts V2Ops V2Inv V2Queries V2Mutators V2Splice V2SpliceTop V2Reach
  V2Exec V2WellFormed V2Misc V1Facts Examples.
Import V2Spec.

(** ** The example stores *)

Lemma twoLists_reachable : Reachable Z.eqb twoLists.
Proof.
  eapply (Reachable_step _ _ 0 (OpConstructor [7; 8]%Z)).
  - eapply (Reachable_step _ _ 0 (OpConstructor [1; 2; 3; 4]%Z)).
    + apply Reachable_empty.
    + by split.
    + vm_compute. reflexivity.
  - by split.
  - vm_compute. reflexivity.
Qed.

Lemma twoLists_inv : V2.Inv twoLists.
Proof. apply (reachable_inv Z.eqb), twoLists_reachable. Qed.

Lemma twoLists_holds_0 : V2.holds twoLists 0 [1; 2; 3; 4]%Z.
Proof.
  eapply holds_of_toArray; [apply twoLists_inv|cbn; lia|vm_compute; reflexivity].
Qed.

Lemma twoLists_holds_1 : V2.holds twoLists 1 [7; 8]%Z.
Proof.
  eapply holds_of_toArray; [apply twoLists_inv|cbn; lia|vm_compute; reflexivity].
Qed.

Lemma twoLists1_closed : V1.closed twoLists1.
Proof. split; repeat constructor; cbn; lia. Qed.

(** ** C1 *)

(** C1.  [splice(start, deleteCount)] with a numeric [start] and nothing to
    insert: the start is clamped to [[0, length]] (a negative one to
    [max(0, length + start)], one at or above the length to the end), then
    [min(max(deleteCount, 0), length - clamped)] values are taken out from
    the clamped position on and come back, in their order, as the values of
    a list that did not exist before; the source list keeps the values before
    and after them, in their order. *)
Theorem splice_numeric_deletes {ItemT} (s : @V2.Store ItemT) (this : ListRef)
    (vs : list ItemT) (start deleteCount : Z) :
  V2.Inv s → V2.holds s this vs →
  let len := Z.of_nat (List.length vs) in
  let clamped :=
    if (start <? 0)%Z then Z.max 0 (len + start) else Z.min start len in
  let count := Z.min (Z.max deleteCount 0) (len - clamped) in
  (0 ≤ clamped ≤ len)%Z ∧ (len ≤ start → clamped = len)%Z ∧ (0 ≤ count)%Z
  ∧ ∃ removed s',
      V2.splice this (StartNumber start) deleteCount [] s = Ok removed s'
      ∧ removed = List.length (V2.lists s)
      ∧ V2.holds s' removed
          (take (Z.to_nat count) (drop (Z.to_nat clamped) vs))
      ∧ V2.holds s' this
          (take (Z.to_nat clamped) vs
           ++ drop (Z.to_nat clamped + Z.to_nat count) vs)
      ∧ V2.Inv s'.
Proof.
  intros Hi (cs & Hr & <-) len clamped count.
  assert (len = Z.of_nat (List.length cs)) as Hlen
    by (subst len; by rewrite length_fmap).
  assert (0 ≤ clamped ≤ len)%Z as Hcl
    by (subst clamped; destruct (Z.ltb_spec start 0); lia).
  split; [done|]. split; [subst clamped; destruct (Z.ltb_spec start 0); lia|].
  split; [lia|].
  pose proof Hi as [Hov _].
  assert (this < List.length (V2.lists s)) as Hthis.
  { destruct Hr as [Hl _ _ _]. by apply lookup_lt_Some in Hl. }
  pose proof (V2.resolves_number cs start) as Hres.
  fold (V2.clampStart (Z.of_nat (List.length cs)) start) in clamped.
  destruct (wp_elim _ _ _
    (splice_spec s this cs _ _ deleteCount [] Hov Hr Hres))
    as (R & s' & Hsp & -> & (ci & HrL & Hci) & (cr & HrR & Hcr) & Hw & Hll).
  apply fmap_nil_inv in Hci as ->. cbn [app] in HrL.
  exists (List.length (V2.lists s)), s'. split; [by rewrite Hsp|].
  split; [done|].
  replace (V2.clampStart (Z.of_nat (List.length cs)) start) with clamped
    in * by (subst clamped len; by rewrite length_fmap).
  destruct (take_clamped cs.*2 (Z.to_nat clamped) deleteCount) as [Ht Hd].
  { rewrite length_fmap. lia. }
  rewrite length_fmap, Z2Nat.id in Ht, Hd by lia.
  subst count. rewrite Hlen. rewrite <- Ht, <- Hd.
  split_and!.
  - exists cr. split; [done|]. by rewrite Hcr, fmap_take, fmap_drop.
  - eexists. split; [done|]. by rewrite fmap_app, fmap_take, fmap_drop.
  - eapply inv_within; [done..| |].
    + intros L' [->|[->|[]%elem_of_nil]%elem_of_cons]%elem_of_cons; eauto.
    + intros L' HL'.
      destruct (decide (L' < List.length (V2.lists s))); [by right|].
      left. apply elem_of_cons. right. apply list_elem_of_singleton. lia.
Qed.

Lemma splice_numeric_deletes_witness :
  V2.Inv twoLists ∧ V2.holds twoLists 0 [1; 2; 3; 4]%Z
  ∧ ∃ removed s',
      V2.splice 0 (StartNumber 1) 2 [] twoLists = Ok removed s'
      ∧ V2.holds s' removed [2; 3]%Z ∧ V2.holds s' 0 [1; 4]%Z.
Proof.
  split; [apply twoLists_inv|]. split; [apply twoLists_holds_0|].
  destruct (splice_numeric_deletes twoLists 0 [1; 2; 3; 4]%Z 1 2
              twoLists_inv twoLists_holds_0)
    as (_ & _ & _ & removed & s' & Hsp & _ & Hrem & Hthis & _).
  exists removed, s'. split; [exact Hsp|]. split; [exact Hrem|exact Hthis].
Defined.

(** ** C2 *)

Lemma twoLists_repr_0 :
  V2.repr twoLists 0 chain0.
Proof.
  destruct (inv_repr _ 0 twoLists_inv) as [cs Hr]; [cbn; lia|].
  assert (cs = chain0) as <-; [|done].
  pose proof Hr as [Hl _ Hs _]. injection Hl as Hf _ _.
  eapply seg_unique; [exact Hs| |by rewrite <- Hf].
  cbn. by repeat split.
Qed.

(** C2, as amended.  [splice(start, deleteCount, ...items)] whose [start]
    is a number, [undefined] or a node of the list: the chain of the list
    becomes the cells before the start position, then new cells that carry
    the items in their order, then the cells that follow the deleted span.
    So the items stand right before the node that follows the deleted span,
    or at the tail when none follows; the values of the list are the prefix,
    the items and the suffix, and the deleted values are those of the
    returned list. *)
Theorem splice_inserts_at_start {ItemT} (s : @V2.Store ItemT)
    (this : ListRef) (cs : list (NodeRef * ItemT)) (start : SpliceStart)
    (p : nat) (deleteCount : Z) (items : list ItemT) :
  V2.Inv s → V2.repr s this cs → V2.resolves cs start p →
  ∃ removed s' ci,
    V2.splice this start deleteCount items s = Ok removed s'
    ∧ ci.*2 = items
    ∧ V2.repr s' this
        (take p cs ++ ci ++ drop (p + Z.to_nat deleteCount) cs)
    ∧ V2.holds s' this
        (take p cs.*2 ++ items ++ drop (p + Z.to_nat deleteCount) cs.*2)
    ∧ V2.holds s' removed (take (Z.to_nat deleteCount) (drop p cs.*2))
    ∧ V2.Inv s'.
Proof.
  intros Hi Hr Hres. pose proof Hi as [Hov _].
  assert (this < List.length (V2.lists s)) as Hthis.
  { destruct Hr as [Hl _ _ _]. by apply lookup_lt_Some in Hl. }
  destruct (wp_elim _ _ _
    (splice_spec s this cs start p deleteCount items Hov Hr Hres))
    as (R & s' & Hsp & -> & (ci & HrL & Hci) & (cr & HrR & Hcr) & Hw & Hll).
  exists (List.length (V2.lists s)), s', ci. split_and!; [done..| | |].
  - eexists. split; [done|].
    by rewrite !fmap_app, fmap_take, fmap_drop, Hci.
  - exists cr. split; [done|]. by rewrite Hcr, fmap_take, fmap_drop.
  - eapply inv_within; [done..| |].
    + intros L' [->|[->|[]%elem_of_nil]%elem_of_cons]%elem_of_cons; eauto.
    + intros L' HL'.
      destruct (decide (L' < List.length (V2.lists s))); [by right|].
      left. apply elem_of_cons. right. apply list_elem_of_singleton. lia.
Qed.

Lemma splice_inserts_at_start_witness :
  V2.Inv twoLists
  ∧ V2.repr twoLists 0 chain0
  ∧ V2.resolves chain0 (StartNode 1) 1
  ∧ ∃ removed s',
      V2.splice 0 (StartNode 1) 1 [20; 30]%Z twoLists = Ok removed s'
      ∧ V2.holds s' 0 [1; 20; 30; 3; 4]%Z ∧ V2.holds s' removed [2]%Z.
Proof.
  assert (V2.resolves chain0 (StartNode 1) 1)
    as Hres by (by constructor).
  split; [apply twoLists_inv|]. split; [apply twoLists_repr_0|].
  split; [exact Hres|].
  destruct (splice_inserts_at_start twoLists 0 _ (StartNode 1) 1 1
              [20; 30]%Z twoLists_inv twoLists_repr_0 Hres)
    as (removed & s' & ci & Hsp & _ & _ & Hthis & Hrem & _).
  exists removed, s'. split; [exact Hsp|]. split; [exact Hthis|exact Hrem].
Defined.

(** C2 as it is stated fails for a start node of another list: node [4]
    belongs to list [1], and [splice(node4, 0, 9)] on list [0] inserts
    nothing, so that no prefix and suffix of [[1, 2, 3, 4]] enclose the item
    in the result. *)
Lemma splice_inserts_foreign_start_counterexample :
  ¬ (∀ vs, V2.holds twoLists 0 vs →
       ∃ removed s' pre deleted suf,
         V2.splice 0 (StartNode 4) 0 [9]%Z twoLists = Ok removed s'
         ∧ vs = pre ++ deleted ++ suf
         ∧ V2.holds s' 0 (pre ++ [9]%Z ++ suf)).
Proof.
  intros H.
  destruct (H _ twoLists_holds_0)
    as (removed & s' & pre & deleted & suf & Hsp & Hvs & Hh).
  assert (V2.nodes twoLists !! 4 = Some (V2.mkNode (Some 1) 7%Z None (Some 5)))
    as Hn by reflexivity.
  rewrite (splice_foreign_spec _ 0 _ _ 0 [9]%Z Hn) in Hsp by done.
  injection Hsp as _ <-.
  destruct twoLists_holds_0 as (cs & Hr & Hcs).
  pose proof (holds_unique _ _ _ _ Hh
                (ex_intro _ cs (conj (repr_withNewList _ _ _ Hr) Hcs))) as Heq.
  assert (9%Z ∈ pre ++ [9%Z] ++ suf) as Hin by set_solver.
  rewrite Heq in Hin. set_solver.
Qed.

(** ** C3 *)

(** C3.  [splice(n, deleteCount, ...items)] with a node [n] whose owner is
    not the list (another list, or none after a removal): the nodes and the
    list objects of the store stay as they are, whatever the items, and the
    result is a new list object that is empty.  Both implementations. *)
Theorem splice_foreign_node_noop :
  (∀ ItemT (s : @V2.Store ItemT) this n nd deleteCount items,
     V2.nodes s !! n = Some nd → V2.LIST nd ≠ Some this →
     V2.splice this (StartNode n) deleteCount items s
     = Ok (List.length (V2.lists s))
          (V2.mkStore (V2.nodes s) (V2.lists s ++ [V2.mkList None None 0])))
  ∧ (∀ ItemT (s : @V1.Store ItemT) this n nd deleteCount items,
       V1.nodes s !! n = Some nd → V1.node_list nd ≠ Some this →
       V1.splice this (StartNode n) deleteCount items s
       = Ok (List.length (V1.lists s))
            (V1.mkStore (V1.nodes s)
               (V1.lists s ++ [V1.mkList None None None 0]))).
Proof.
  split.
  - intros. by eapply splice_foreign_spec.
  - intros. by eapply v1_splice_foreign.
Qed.

Lemma splice_foreign_node_noop_witness :
  (V2.nodes twoLists !! 4 = Some (V2.mkNode (Some 1) 7%Z None (Some 5))
   ∧ Some 1 ≠ Some 0
   ∧ V2.splice 0 (StartNode 4) 2 [9]%Z twoLists
     = Ok 2 (V2.mkStore (V2.nodes twoLists)
               (V2.lists twoLists ++ [V2.mkList None None 0])))
  ∧ (V1.nodes twoLists1 !! 4 = Some (V1.mkNode (Some 1) 7%Z None (Some 5))
     ∧ Some 1 ≠ Some 0
     ∧ V1.splice 0 (StartNode 4) 2 [9]%Z twoLists1
       = Ok 2 (V1.mkStore (V1.nodes twoLists1)
                 (V1.lists twoLists1 ++ [V1.mkList None None None 0]))).
Proof.
  split.
  - split; [reflexivity|]. split; [discriminate|].
    apply (proj1 splice_foreign_node_noop Z twoLists 0 4
             (V2.mkNode (Some 1) 7%Z None (Some 5)) 2%Z [9]%Z);
      [reflexivity|discriminate].
  - split; [reflexivity|]. split; [discriminate|].
    apply (proj2 splice_foreign_node_noop Z twoLists1 0 4
             (V1.mkNode (Some 1) 7%Z None (Some 5)) 2%Z [9]%Z);
      [reflexivity|discriminate].
Defined.

(** ** C4 *)

Lemma busyStore_reachable : Reachable Z.eqb busyStore.
Proof.
  apply (runOps_reachable Z.eqb 20 busyOps V2.emptyStore);
    [apply Reachable_empty|vm_compute; reflexivity].
Qed.

(** C4.  Whatever sequence of operations (constructor, [append], [prepend],
    [insertAfterNode], [insertBeforeNode], [remove], [splice], [clear],
    [pop], [shift], [push], [unshift] and the queries) built the store,
    every list object in it is well formed: its [length] is the number of
    nodes from the head along [next] and from the tail along [previous];
    for nodes [a] and [b] of the list, [a.next] is [b] exactly when
    [b.previous] is [a]; a list that is not empty has a head without
    [previous] and a tail without [next]; an empty one has neither head nor
    tail. *)
Theorem wellformed_invariant {ItemT} (strictEq : ItemT → ItemT → bool)
    (s : @V2.Store ItemT) (L : ListRef) (l : V2.DoubleLinkedList) :
  Reachable strictEq s → V2.lists s !! L = Some l → WellFormed s L l.
Proof.
  intros Hs Hl. apply inv_wellformed; [|done]. by eapply reachable_inv.
Qed.

Lemma wellformed_invariant_witness :
  Reachable Z.eqb busyStore
  ∧ V2.lists busyStore !! 0 = Some (V2.mkList (Some 12) (Some 11) 6)
  ∧ WellFormed busyStore 0 (V2.mkList (Some 12) (Some 11) 6).
Proof.
  split; [apply busyStore_reachable|]. split; [reflexivity|].
  apply (wellformed_invariant Z.eqb busyStore 0);
    [apply busyStore_reachable|reflexivity].
Defined.

(** ** C5 *)

(** C5.  [getNodeAt(i)] on a list of length [n] takes a negative [i] as
    [n + i]; it returns [undefined] exactly when that index is outside
    [[0, n)]; inside, the node it returns is the one that [i] steps along
    [next] from the head reach, and also the one that [n - 1 - i] steps
    along [previous] from the tail reach, so that the two traversals agree;
    [get(i)] is the value of that node, or [undefined]. *)
Theorem getNodeAt_resolves {ItemT} (s : @V2.Store ItemT) (this : ListRef)
    (l : V2.DoubleLinkedList) (index : Z) :
  V2.Inv s → V2.lists s !! this = Some l →
  let n := V2.length l in
  let actualIndex := if (index <? 0)%Z then (n + index)%Z else index in
  ∃ r,
    V2.getNodeAt this index s = Ok r s
    ∧ (r = None ↔ (actualIndex < 0 ∨ n ≤ actualIndex)%Z)
    ∧ ((0 ≤ actualIndex < n)%Z →
       V2.walkNext (Z.to_nat actualIndex) (V2.firstNode l) s = Ok r s
       ∧ V2.walkPrev (Z.to_nat (n - 1 - actualIndex)) (V2.lastNode l) s
         = Ok r s
       ∧ ∃ node nd,
           r = Some node ∧ V2.nodes s !! node = Some nd
           ∧ V2.get this index s = Ok (Some (V2.VALUE nd)) s)
    ∧ (r = None → V2.get this index s = Ok None s).
Proof.
  intros Hi Hl n ai. pose proof (lookup_lt_Some _ _ _ Hl) as Hthis.
  destruct (inv_repr _ _ Hi Hthis) as [cs Hr].
  pose proof Hr as [Hl' _ _ _]. rewrite Hl in Hl'. injection Hl' as ->.
  subst n ai. cbn [V2.length V2.firstNode V2.lastNode] in *.
  exists (V2.nodeAt cs index). split; [by apply getNodeAt_spec|].
  pose proof (get_spec _ _ _ index Hr) as Hget.
  unfold V2.nodeAt in *.
  set (n := Z.of_nat (List.length cs)) in *.
  set (ai := if (index <? 0)%Z then (n + index)%Z else index) in *.
  destruct (Z.ltb_spec ai 0); cbn [orb] in *.
  { split_and!; [split; [lia|done]|lia|done]. }
  destruct (Z.geb_spec ai n); cbn [orb] in *.
  { split_and!; [split; [lia|done]|lia|done]. }
  assert (Z.to_nat ai < List.length cs) as Hlt by lia.
  destruct (lookup_lt_is_Some_2 cs _ Hlt) as [c Hc].
  assert (V2.refAt cs (Z.to_nat ai) = Some c.1) as Href
    by (unfold V2.refAt; by rewrite Hc).
  rewrite Href, Hc in Hget. rewrite Href.
  split_and!; [split; [done|lia]| |done].
  intros _. split_and!.
  - rewrite <- refAt_0. by rewrite (walkNext_spec _ _ _ _ _ Hr), <- Href.
  - rewrite <- refAt_last.
    rewrite (walkPrev_spec _ _ _ _ _ Hr) by lia.
    replace (pred (List.length cs) - Z.to_nat (n - 1 - ai))
      with (Z.to_nat ai) by lia.
    by rewrite Href.
  - eexists _, _. split; [done|].
    split; [by apply (repr_lookup _ _ _ _ _ Hr Hc)|]. done.
Qed.

Lemma getNodeAt_resolves_witness :
  V2.Inv twoLists
  ∧ V2.lists twoLists !! 0 = Some (V2.mkList (Some 0) (Some 3) 4)
  ∧ V2.getNodeAt 0 (-1) twoLists = Ok (Some 3) twoLists
  ∧ V2.walkNext 3 (Some 0) twoLists = Ok (Some 3) twoLists
  ∧ V2.walkPrev 0 (Some 3) twoLists = Ok (Some 3) twoLists
  ∧ V2.get 0 (-1) twoLists = Ok (Some 4%Z) twoLists.
Proof.
  split; [apply twoLists_inv|]. split; [reflexivity|].
  destruct (getNodeAt_resolves twoLists 0 (V2.mkList (Some 0) (Some 3) 4)
              (-1) twoLists_inv eq_refl)
    as (r & Hg & _ & Hin & _).
  destruct Hin as (Hn & Hp & node & nd & -> & Hnd & Hget); [cbn; lia|].
  assert (node = 3) as -> by (vm_compute in Hg; congruence).
  assert (nd = V2.mkNode (Some 0) 4%Z (Some 2) None) as ->
    by (vm_compute in Hnd; congruence).
  split; [exact Hg|]. split; [exact Hn|]. split; [exact Hp|exact Hget].
Defined.

(** ** C6 *)

(** C6.  [remove(n)] with a node [n] whose owner is not the list returns
    [false] and leaves the store as it is.  A removal that succeeds clears
    the owner of the node, so that removing the same node again returns
    [false] and changes nothing.  Both implementations. *)
Theorem remove_foreign_node_noop :
  (∀ ItemT (s : @V2.Store ItemT) this n nd,
     V2.Inv s → this < List.length (V2.lists s) →
     V2.nodes s !! n = Some nd → V2.LIST nd ≠ Some this →
     V2.remove this n s = Ok false s)
  ∧ (∀ ItemT (s : @V2.Store ItemT) this n s',
       V2.Inv s → this < List.length (V2.lists s) →
       V2.remove this n s = Ok true s' →
       (∃ nd, V2.nodes s' !! n = Some nd ∧ V2.LIST nd = None)
       ∧ V2.remove this n s' = Ok false s')
  ∧ (∀ ItemT (s : @V1.Store ItemT) this n nd,
       V1.nodes s !! n = Some nd → V1.node_list nd ≠ Some this →
       V1.remove this n s = Ok false s)
  ∧ (∀ ItemT (s : @V1.Store ItemT) this n s',
       V1.remove this n s = Ok true s' →
       (∃ nd, V1.nodes s' !! n = Some nd ∧ V1.node_list nd = None)
       ∧ V1.remove this n s' = Ok false s').
Proof.
  split_and!.
  - intros ItemT s this n nd Hi Hthis Hn Hown.
    destruct (inv_repr _ _ Hi Hthis) as [cs Hr].
    by eapply remove_foreign_spec.
  - intros ItemT s this n s' Hi Hthis Hrm.
    destruct (inv_repr _ _ Hi Hthis) as [cs Hr].
    pose proof (remove_true_owned _ _ _ _ _ Hr Hrm) as Hin.
    apply cells_split in Hin as (c1 & v & c2 & ->).
    pose proof (remove_spec _ _ _ _ _ _ Hr) as Hwp.
    apply (wp_Ok _ _ _ _ _ Hrm) in Hwp as (_ & Hr' & Hm & Hn).
    split; [by eexists|]. by eapply remove_foreign_spec.
  - intros. by eapply v1_remove_foreign.
  - intros ItemT s this n s' Hrm. split.
    + exact (v1_remove_clears s this n s' Hrm).
    + exact (v1_remove_twice s this n s' Hrm).
Qed.

Lemma remove_foreign_node_noop_witness :
  (V2.Inv twoLists ∧ 0 < List.length (V2.lists twoLists)
   ∧ V2.nodes twoLists !! 4 = Some (V2.mkNode (Some 1) 7%Z None (Some 5))
   ∧ Some 1 ≠ Some 0
   ∧ V2.remove 0 4 twoLists = Ok false twoLists)
  ∧ (V2.remove 0 1 twoLists = Ok true twoListsLess
     ∧ V2.remove 0 1 twoListsLess = Ok false twoListsLess)
  ∧ (V1.nodes twoLists1 !! 4 = Some (V1.mkNode (Some 1) 7%Z None (Some 5))
     ∧ V1.remove 0 4 twoLists1 = Ok false twoLists1)
  ∧ (V1.remove 0 1 twoLists1 = Ok true twoLists1Less
     ∧ V1.remove 0 1 twoLists1Less = Ok false twoLists1Less).
Proof.
  destruct remove_foreign_node_noop as (H1 & H2 & H3 & H4).
  assert (0 < List.length (V2.lists twoLists)) as Hthis by (cbn; lia).
  assert (V2.remove 0 1 twoLists = Ok true twoListsLess) as Hrm
    by (vm_compute; reflexivity).
  assert (V1.remove 0 1 twoLists1 = Ok true twoLists1Less) as Hrm1
    by (vm_compute; reflexivity).
  split_and!.
  - apply twoLists_inv.
  - exact Hthis.
  - reflexivity.
  - discriminate.
  - apply (H1 Z twoLists 0 4 (V2.mkNode (Some 1) 7%Z None (Some 5)));
      [apply twoLists_inv|exact Hthis|reflexivity|discriminate].
  - exact Hrm.
  - apply (H2 Z twoLists 0 1 twoListsLess twoLists_inv Hthis Hrm).
  - reflexivity.
  - apply (H3 Z twoLists1 0 4 (V1.mkNode (Some 1) 7%Z None (Some 5)));
      [reflexivity|discriminate].
  - exact Hrm1.
  - apply (H4 Z twoLists1 0 1 twoLists1Less Hrm1).
Defined.

(** ** C7 *)

(** C7.  [splice(i, 0)] with no item, for any integer [i]: the nodes and
    the list objects of the store, the list itself among them, stay as they
    are (head, tail, length, links and values), and the result is a new list
    object that is empty.  Both implementations. *)
Theorem splice_nothing_noop :
  (∀ ItemT (s : @V2.Store ItemT) this (i : Z),
     V2.Inv s → this < List.length (V2.lists s) →
     V2.splice this (StartNumber i) 0 [] s
     = Ok (List.length (V2.lists s))
          (V2.mkStore (V2.nodes s) (V2.lists s ++ [V2.mkList None None 0])))
  ∧ (∀ ItemT (s : @V1.Store ItemT) this (i : Z),
       V1.closed s → this < List.length (V1.lists s) →
       V1.splice this (StartNumber i) 0 [] s
       = Ok (List.length (V1.lists s))
            (V1.mkStore (V1.nodes s)
               (V1.lists s ++ [V1.mkList None None None 0]))).
Proof.
  split.
  - intros ItemT s this i Hi Hthis.
    destruct (inv_repr _ _ Hi Hthis) as [cs Hr].
    by eapply splice_nothing_spec.
  - intros ItemT s this i Hc Hthis. by apply v1_splice_nothing.
Qed.

Lemma splice_nothing_noop_witness :
  (V2.Inv twoLists ∧ 0 < List.length (V2.lists twoLists)
   ∧ V2.splice 0 (StartNumber (-7)) 0 [] twoLists
     = Ok 2 (V2.mkStore (V2.nodes twoLists)
               (V2.lists twoLists ++ [V2.mkList None None 0])))
  ∧ (V1.closed twoLists1 ∧ 0 < List.length (V1.lists twoLists1)
     ∧ V1.splice 0 (StartNumber 3) 0 [] twoLists1
       = Ok 2 (V1.mkStore (V1.nodes twoLists1)
                 (V1.lists twoLists1 ++ [V1.mkList None None None 0]))).
Proof.
  assert (0 < List.length (V2.lists twoLists)) as Hthis by (cbn; lia).
  assert (0 < List.length (V1.lists twoLists1)) as Hthis1 by (cbn; lia).
  split.
  - split; [apply twoLists_inv|]. split; [exact Hthis|].
    apply (proj1 splice_nothing_noop Z twoLists 0 (-7)%Z twoLists_inv Hthis).
  - split; [apply twoLists1_closed|]. split; [exact Hthis1|].
    apply (proj2 splice_nothing_noop Z twoLists1 0 3%Z twoLists1_closed Hthis1).
Defined.

(** ** C8 *)

(** C8.  In a store that operations built, every operation called on
    objects of the store returns (given fuel for its loop), and leaves such a
    store: no path raises.  The dereferences without a guard are safe
    because a node of a list that is neither its head nor its tail has both
    its neighbours. *)
Theorem operations_never_crash {ItemT} (strictEq : ItemT → ItemT → bool)
    (s : @V2.Store ItemT) :
  Reachable strictEq s →
  (∀ op fuel,
     argsOk s op → List.length (V2.nodes s) < fuel →
     ∃ s', exec strictEq fuel op s = Ok tt s' ∧ Reachable strictEq s')
  ∧ (∀ L l n nd,
       V2.lists s !! L = Some l → V2.nodes s !! n = Some nd →
       V2.LIST nd = Some L →
       V2.firstNode l ≠ Some n → V2.lastNode l ≠ Some n →
       is_Some (V2.PREV nd) ∧ is_Some (V2.NEXT nd)).
Proof.
  intros Hs. pose proof (reachable_inv _ _ Hs) as Hi. split.
  - intros op fuel Hargs Hfuel.
    destruct (wp_elim _ _ _ (exec_total strictEq s fuel op Hi Hargs Hfuel))
      as ([] & s' & Hex & _).
    exists s'. split; [done|]. by eapply Reachable_step.
  - intros L l n nd. by apply inv_middle_links.
Qed.

Lemma operations_never_crash_witness :
  Reachable Z.eqb busyStore
  ∧ (∃ s', exec Z.eqb 40 (OpRemove 0 10) busyStore = Ok tt s')
  ∧ is_Some (V2.PREV (V2.mkNode (Some 0) 6%Z (Some 9) (Some 1)))
  ∧ is_Some (V2.NEXT (V2.mkNode (Some 0) 6%Z (Some 9) (Some 1))).
Proof.
  destruct (operations_never_crash Z.eqb busyStore busyStore_reachable)
    as [Hop Hmid].
  split; [apply busyStore_reachable|]. split.
  - destruct (Hop (OpRemove 0 10) 40) as (s' & Hex & _).
    + split; intros ? [= <-]; cbn; lia.
    + cbn; lia.
    + by exists s'.
  - apply (Hmid 0 (V2.mkList (Some 12) (Some 11) 6) 10
             (V2.mkNode (Some 0) 6%Z (Some 9) (Some 1)));
      [reflexivity|reflexivity|reflexivity|discriminate|discriminate].
Defined.

(** ** C9 *)

(** C9.  The array form of a list has no hole and gives its values in
    order; a list constructed from these values has the same array form. *)
Theorem toArray_roundtrip {ItemT} (s : @V2.Store ItemT) (this : ListRef)
    (fuel : nat) :
  V2.Inv s → this < List.length (V2.lists s) →
  List.length (V2.nodes s) < fuel →
  ∃ vs copy s',
    V2.toArray fuel this s = Ok (Some <$> vs) s
    ∧ V2.constructor vs s = Ok copy s'
    ∧ ∀ fuel', List.length (V2.nodes s') < fuel' →
        V2.toArray fuel' copy s' = Ok (Some <$> vs) s'.
Proof.
  intros Hi Hthis Hfuel. pose proof Hi as [Hov _].
  destruct (inv_holds _ _ Hi Hthis) as [vs Hvs].
  destruct (wp_elim _ _ _ (constructor_spec s vs Hov))
    as (copy & s' & Hc & -> & (cs & Hr & Hcs) & _).
  exists vs, (List.length (V2.lists s)), s'.
  split; [by apply holds_toArray|]. split; [done|].
  intros fuel' Hfuel'. apply holds_toArray; [|done]. by exists cs.
Qed.

Lemma toArray_roundtrip_witness :
  V2.Inv twoLists ∧ 0 < List.length (V2.lists twoLists)
  ∧ List.length (V2.nodes twoLists) < 7
  ∧ ∃ copy s',
      V2.toArray 7 0 twoLists = Ok [Some 1; Some 2; Some 3; Some 4]%Z twoLists
      ∧ V2.constructor [1; 2; 3; 4]%Z twoLists = Ok copy s'
      ∧ V2.toArray 11 copy s' = Ok [Some 1; Some 2; Some 3; Some 4]%Z s'.
Proof.
  assert (0 < List.length (V2.lists twoLists)) as Hthis by (cbn; lia).
  assert (List.length (V2.nodes twoLists) < 7) as Hfuel by (cbn; lia).
  split; [apply twoLists_inv|]. split; [exact Hthis|]. split; [exact Hfuel|].
  destruct (toArray_roundtrip twoLists 0 7 twoLists_inv Hthis Hfuel)
    as (vs & copy & s' & Hta & Hc & Hta').
  assert (vs = [1; 2; 3; 4]%Z) as ->.
  { assert (V2.toArray 7 0 twoLists = Ok (Some <$> [1; 2; 3; 4]%Z) twoLists)
      as Hrun by (vm_compute; reflexivity).
    rewrite Hrun in Hta. apply MonadFacts.Ok_inj in Hta as [Heq _].
    by apply (inj (fmap Some)) in Heq. }
  exists copy, s'. split; [exact Hta|]. split; [exact Hc|].
  apply Hta'. vm_compute in Hc. injection Hc as _ <-. cbn. lia.
Defined.

(** ** C10 *)

(** C10.  With a negative [fromIndex], [indexOf] and [includes] do what
    they do with [fromIndex = 0], in both implementations: the search runs
    from the head, and finds the first position that holds the element, or
    [-1]. *)
Theorem indexOf_negative_fromIndex {ItemT} (strictEq : ItemT → ItemT → bool) :
  (∀ (s : @V2.Store ItemT) this x fromIndex fuel,
     (fromIndex < 0)%Z →
     V2.indexOf strictEq fuel this x fromIndex s
     = V2.indexOf strictEq fuel this x 0 s
     ∧ V2.includes strictEq fuel this x fromIndex s
       = V2.includes strictEq fuel this x 0 s)
  ∧ (∀ (s : @V2.Store ItemT) this vs x fromIndex fuel,
       V2.Inv s → V2.holds s this vs → List.length (V2.nodes s) < fuel →
       (fromIndex < 0)%Z →
       V2.indexOf strictEq fuel this x fromIndex s
       = Ok (V2.scanFrom strictEq x vs 0) s
       ∧ V2.indexOf strictEq fuel this x 0 s
         = Ok (V2.scanFrom strictEq x vs 0) s)
  ∧ (∀ (s : @V1.Store ItemT) this x fromIndex fuel,
       (fromIndex < 0)%Z →
       V1.indexOf strictEq fuel this x fromIndex s
       = V1.indexOf strictEq fuel this x 0 s
       ∧ V1.includes strictEq fuel this x fromIndex s
         = V1.includes strictEq fuel this x 0 s).
Proof.
  split_and!.
  - intros s this x fromIndex fuel Hneg. split.
    + by apply indexOf_negative.
    + by apply includes_negative.
  - intros s this vs x fromIndex fuel Hi Hvs Hfuel Hneg. split.
    + apply indexOf_negative_result; [done..|lia].
    + by apply indexOf_negative_result.
  - intros s this x fromIndex fuel Hneg. split.
    + by apply v1_indexOf_negative.
    + by apply v1_includes_negative.
Qed.

Lemma indexOf_negative_fromIndex_witness :
  (-3 < 0)%Z
  ∧ V2.Inv twoLists ∧ V2.holds twoLists 0 [1; 2; 3; 4]%Z
  ∧ List.length (V2.nodes twoLists) < 7
  ∧ V2.indexOf Z.eqb 7 0 3%Z (-3) twoLists = Ok 2%Z twoLists
  ∧ V2.indexOf Z.eqb 7 0 3%Z (-3) twoLists = V2.indexOf Z.eqb 7 0 3%Z 0 twoLists
  ∧ V1.indexOf Z.eqb 7 0 3%Z (-3) twoLists1
    = V1.indexOf Z.eqb 7 0 3%Z 0 twoLists1.
Proof.
  destruct (indexOf_negative_fromIndex Z.eqb) as (H1 & H2 & H3).
  assert (-3 < 0)%Z as Hneg by lia.
  assert (List.length (V2.nodes twoLists) < 7) as Hfuel by (cbn; lia).
  split; [exact Hneg|]. split; [apply twoLists_inv|].
  split; [apply twoLists_holds_0|]. split; [exact Hfuel|]. split_and!.
  - apply (H2 twoLists 0 [1; 2; 3; 4]%Z 3%Z (-3)%Z 7
             twoLists_inv twoLists_holds_0 Hfuel Hneg).
  - apply (H1 twoLists 0 3%Z (-3)%Z 7 Hneg).
  - apply (H3 twoLists1 0 3%Z (-3)%Z 7 Hneg).
Defined.
(** * Further properties of the tuple-node list *)

Import V2Facts V2Ops V2Inv V2Queries V2Mutators V2Splice V2SpliceTop V2Reach
  V2Exec V2WellFormed V2Misc V2Iteration V2More Examples.
Import V2Spec.

(** ** Construction and the ends *)

(** X1.  [new DoubleLinkedList(...items)] makes a list object that did not
    exist, which holds the items in their order; its length is their number
    and it is empty exactly when there is no item.  The lists that existed
    hold what they held. *)
Theorem constructor_builds_list {ItemT} (s : @V2.Store ItemT)
    (items : list ItemT) :
  V2.Inv s →
  ∃ this s',
    V2.constructor items s = Ok this s'
    ∧ this = List.length (V2.lists s)
    ∧ V2.holds s' this items
    ∧ V2.getLength this s' = Ok (Z.of_nat (List.length items)) s'
    ∧ V2.isEmpty this s' = Ok (bool_decide (items = [])) s'
    ∧ V2.Inv s'
    ∧ ∀ L vs, V2.holds s L vs → V2.holds s' L vs.
Proof.
  intros Hi.
  destruct (wp_elim _ _ _ (constructor_spec s items (proj1 Hi)))
    as (this & s' & Hc & -> & (cs & Hr & Hvs) & Hw & _).
  exists (List.length (V2.lists s)), s'. split_and!; try done.
  - by exists cs.
  - rewrite (repr_getLength _ _ _ Hr). by rewrite <- Hvs, length_fmap.
  - rewrite (repr_isEmpty _ _ _ Hr). subst items. by destruct cs.
  - exact (wp_Ok _ _ _ _ _ Hc (constructor_inv s items Hi)).
  - intros L vs HL. eapply holds_within_other; [done| |done].
    apply holds_lt in HL. intros ->%list_elem_of_singleton. lia.
Qed.

Lemma constructor_builds_list_witness :
  V2.Inv twoLists
  ∧ ∃ s', V2.constructor [5; 6]%Z twoLists = Ok 2 s'
          ∧ V2.holds s' 2 [5; 6]%Z ∧ V2.holds s' 0 [1; 2; 3; 4]%Z.
Proof.
  split; [apply twoLists_inv|].
  destruct (constructor_builds_list twoLists [5; 6]%Z twoLists_inv)
    as (this & s' & Hc & -> & Hh & _ & _ & _ & Hf).
  exists s'. split_and!; [done|done|]. apply Hf, twoLists_holds_0.
Defined.

(** X2.  [append(item)], and [push(item)] which is the same call, put the
    item after the last value of the list.  The node returned is a node that
    did not exist; it is the tail of the list, it carries the item and its
    owner is the list.  The length grows by one, and the other lists hold
    what they held. *)
Theorem append_at_tail {ItemT} (s : @V2.Store ItemT) (this : ListRef)
    (vs : list ItemT) (item : ItemT) :
  V2.Inv s → V2.holds s this vs →
  ∃ node s',
    V2.append this item s = Ok node s'
    ∧ V2.push this item s = Ok node s'
    ∧ node = List.length (V2.nodes s)
    ∧ V2.holds s' this (vs ++ [item])
    ∧ V2.getTail this s' = Ok (Some node) s'
    ∧ V2.getNodeValue (Some node) s' = Ok (Some item) s'
    ∧ V2.getNodeList (Some node) s' = Ok (Some this) s'
    ∧ V2.getLength this s' = Ok (Z.of_nat (List.length vs) + 1)%Z s'
    ∧ V2.Inv s'
    ∧ ∀ L ws, L ≠ this → V2.holds s L ws → V2.holds s' L ws.
Proof.
  intros Hi (cs & Hr & <-).
  destruct (wp_elim _ _ _ (append_spec s this cs item Hr))
    as (node & s' & Ha & -> & Hr' & Hm).
  assert ((cs ++ [(List.length (V2.nodes s), item)]) !! List.length cs
          = Some (List.length (V2.nodes s), item)) as Hlk
    by apply snoc_lookup.
  destruct (repr_accessors _ _ _ _ _ _ Hr' Hlk) as (Hol & Hov & _ & _).
  exists (List.length (V2.nodes s)), s'. split_and!; try done.
  - exists (cs ++ [(List.length (V2.nodes s), item)]).
    split; [done|]. by rewrite fmap_app.
  - rewrite (repr_getTail _ _ _ Hr'). rewrite fmap_app. cbn [fmap list_fmap].
    by rewrite last_snoc.
  - rewrite (repr_getLength _ _ _ Hr'). rewrite length_app, length_fmap.
    cbn. f_equal. lia.
  - by eapply inv_modifies.
  - intros L ws HL. by apply (holds_modifies_other this).
Qed.

Lemma append_at_tail_witness :
  V2.Inv twoLists ∧ V2.holds twoLists 0 [1; 2; 3; 4]%Z
  ∧ ∃ s', V2.append 0 9%Z twoLists = Ok 6 s'
          ∧ V2.holds s' 0 [1; 2; 3; 4; 9]%Z
          ∧ V2.getTail 0 s' = Ok (Some 6) s'.
Proof.
  split; [apply twoLists_inv|]. split; [apply twoLists_holds_0|].
  destruct (append_at_tail twoLists 0 [1; 2; 3; 4]%Z 9%Z twoLists_inv
              twoLists_holds_0)
    as (node & s' & Ha & _ & -> & Hh & Ht & _).
  by exists s'.
Defined.

(** X3.  [prepend(item)], and [unshift(item)] which is the same call, put
    the item before the first value of the list.  The node returned is a
    node that did not exist; it is the head of the list, it carries the item
    and its owner is the list.  The length grows by one, and the other lists
    hold what they held. *)
Theorem prepend_at_head {ItemT} (s : @V2.Store ItemT) (this : ListRef)
    (vs : list ItemT) (item : ItemT) :
  V2.Inv s → V2.holds s this vs →
  ∃ node s',
    V2.prepend this item s = Ok node s'
    ∧ V2.unshift this item s = Ok node s'
    ∧ node = List.length (V2.nodes s)
    ∧ V2.holds s' this (item :: vs)
    ∧ V2.getHead this s' = Ok (Some node) s'
    ∧ V2.getNodeValue (Some node) s' = Ok (Some item) s'
    ∧ V2.getNodeList (Some node) s' = Ok (Some this) s'
    ∧ V2.getLength this s' = Ok (Z.of_nat (List.length vs) + 1)%Z s'
    ∧ V2.Inv s'
    ∧ ∀ L ws, L ≠ this → V2.holds s L ws → V2.holds s' L ws.
Proof.
  intros Hi (cs & Hr & <-).
  destruct (wp_elim _ _ _ (prepend_spec s this cs item Hr))
    as (node & s' & Ha & -> & Hr' & Hm).
  destruct (repr_accessors _ _ _ 0 _ _ Hr' eq_refl) as (Hol & Hov & _ & _).
  exists (List.length (V2.nodes s)), s'. split_and!; try done.
  - by exists ((List.length (V2.nodes s), item) :: cs).
  - by rewrite (repr_getHead _ _ _ Hr').
  - rewrite (repr_getLength _ _ _ Hr'). rewrite length_fmap.
    cbn [List.length]. f_equal. lia.
  - by eapply inv_modifies.
  - intros L ws HL. by apply (holds_modifies_other this).
Qed.

Lemma prepend_at_head_witness :
  V2.Inv twoLists ∧ V2.holds twoLists 0 [1; 2; 3; 4]%Z
  ∧ ∃ s', V2.prepend 0 9%Z twoLists = Ok 6 s'
          ∧ V2.holds s' 0 [9; 1; 2; 3; 4]%Z
          ∧ V2.getHead 0 s' = Ok (Some 6) s'.
Proof.
  split; [apply twoLists_inv|]. split; [apply twoLists_holds_0|].
  destruct (prepend_at_head twoLists 0 [1; 2; 3; 4]%Z 9%Z twoLists_inv
              twoLists_holds_0)
    as (node & s' & Ha & _ & -> & Hh & Ht & _).
  by exists s'.
Defined.

(** ** Operations on a node of the list *)

(** X4.  [insertAfterNode(node, item)] with a node of the list puts the item
    right after the value of that node, the values before and after staying
    in their order.  The node returned did not exist; it is the [next] of
    the given node and has the given node as its [previous].  The other
    lists hold what they held. *)
Theorem insertAfterNode_inserts {ItemT} (s : @V2.Store ItemT)
    (this : ListRef) (c1 : list (NodeRef * ItemT)) (n : NodeRef) (w : ItemT)
    (c2 : list (NodeRef * ItemT)) (item : ItemT) :
  V2.Inv s → V2.repr s this (c1 ++ (n, w) :: c2) →
  ∃ node s',
    V2.insertAfterNode this n item s = Ok (Some node) s'
    ∧ node = List.length (V2.nodes s)
    ∧ V2.repr s' this (c1 ++ (n, w) :: (node, item) :: c2)
    ∧ V2.holds s' this (c1.*2 ++ w :: item :: c2.*2)
    ∧ V2.getNextNode (Some n) s' = Ok (Some node) s'
    ∧ V2.getPreviousNode (Some node) s' = Ok (Some n) s'
    ∧ V2.Inv s'
    ∧ ∀ L ws, L ≠ this → V2.holds s L ws → V2.holds s' L ws.
Proof.
  intros Hi Hr.
  destruct (wp_elim _ _ _ (insertAfterNode_spec s this c1 n w c2 item Hr))
    as (r & s' & Ha & -> & Hr' & Hm).
  set (node := List.length (V2.nodes s)) in *.
  assert ((c1 ++ (n, w) :: (node, item) :: c2) !! List.length c1
          = Some (n, w)) as Hn by (by rewrite list_lookup_middle).
  assert ((c1 ++ (n, w) :: (node, item) :: c2) !! S (List.length c1)
          = Some (node, item)) as Hnew.
  { rewrite lookup_app_r by lia.
    by replace (S (List.length c1) - List.length c1) with 1 by lia. }
  destruct (repr_accessors _ _ _ _ _ _ Hr' Hn) as (_ & _ & _ & Hnx).
  destruct (repr_accessors _ _ _ _ _ _ Hr' Hnew) as (_ & _ & Hpv & _).
  rewrite list_lookup_fmap, Hnew in Hnx. rewrite list_lookup_fmap, Hn in Hpv.
  exists node, s'. split_and!; try done.
  - eexists. split; [done|]. by rewrite fmap_app.
  - by eapply inv_modifies.
  - intros L ws HL. by apply (holds_modifies_other this).
Qed.

Lemma insertAfterNode_inserts_witness :
  V2.Inv twoLists
  ∧ V2.repr twoLists 0 ([(0, 1%Z)] ++ (1, 2%Z) :: [(2, 3%Z); (3, 4%Z)])
  ∧ ∃ s', V2.insertAfterNode 0 1 9%Z twoLists = Ok (Some 6) s'
          ∧ V2.holds s' 0 [1; 2; 9; 3; 4]%Z.
Proof.
  split; [apply twoLists_inv|]. split; [apply twoLists_repr_0|].
  destruct (insertAfterNode_inserts twoLists 0 [(0, 1%Z)] 1 2%Z
              [(2, 3%Z); (3, 4%Z)] 9%Z twoLists_inv twoLists_repr_0)
    as (node & s' & Ha & -> & _ & Hh & _).
  by exists s'.
Defined.

(** X5.  [insertBeforeNode(node, item)] with a node of the list puts the
    item right before the value of that node.  The node returned did not
    exist; it is the [previous] of the given node and has the given node as
    its [next].  The other lists hold what they held. *)
Theorem insertBeforeNode_inserts {ItemT} (s : @V2.Store ItemT)
    (this : ListRef) (c1 : list (NodeRef * ItemT)) (n : NodeRef) (w : ItemT)
    (c2 : list (NodeRef * ItemT)) (item : ItemT) :
  V2.Inv s → V2.repr s this (c1 ++ (n, w) :: c2) →
  ∃ node s',
    V2.insertBeforeNode this n item s = Ok (Some node) s'
    ∧ node = List.length (V2.nodes s)
    ∧ V2.repr s' this (c1 ++ (node, item) :: (n, w) :: c2)
    ∧ V2.holds s' this (c1.*2 ++ item :: w :: c2.*2)
    ∧ V2.getPreviousNode (Some n) s' = Ok (Some node) s'
    ∧ V2.getNextNode (Some node) s' = Ok (Some n) s'
    ∧ V2.Inv s'
    ∧ ∀ L ws, L ≠ this → V2.holds s L ws → V2.holds s' L ws.
Proof.
  intros Hi Hr.
  destruct (wp_elim _ _ _ (insertBeforeNode_spec s this c1 n w c2 item Hr))
    as (r & s' & Ha & -> & Hr' & Hm).
  set (node := List.length (V2.nodes s)) in *.
  assert ((c1 ++ (node, item) :: (n, w) :: c2) !! List.length c1
          = Some (node, item)) as Hnew by (by rewrite list_lookup_middle).
  assert ((c1 ++ (node, item) :: (n, w) :: c2) !! S (List.length c1)
          = Some (n, w)) as Hn.
  { rewrite lookup_app_r by lia.
    by replace (S (List.length c1) - List.length c1) with 1 by lia. }
  destruct (repr_accessors _ _ _ _ _ _ Hr' Hn) as (_ & _ & Hpv & _).
  destruct (repr_accessors _ _ _ _ _ _ Hr' Hnew) as (_ & _ & _ & Hnx).
  rewrite list_lookup_fmap, Hn in Hnx. rewrite list_lookup_fmap, Hnew in Hpv.
  exists node, s'. split_and!; try done.
  - eexists. split; [done|]. by rewrite fmap_app.
  - by eapply inv_modifies.
  - intros L ws HL. by apply (holds_modifies_other this).
Qed.

Lemma insertBeforeNode_inserts_witness :
  V2.Inv twoLists
  ∧ V2.repr twoLists 0 ([(0, 1%Z)] ++ (1, 2%Z) :: [(2, 3%Z); (3, 4%Z)])
  ∧ ∃ s', V2.insertBeforeNode 0 1 9%Z twoLists = Ok (Some 6) s'
          ∧ V2.holds s' 0 [1; 9; 2; 3; 4]%Z.
Proof.
  split; [apply twoLists_inv|]. split; [apply twoLists_repr_0|].
  destruct (insertBeforeNode_inserts twoLists 0 [(0, 1%Z)] 1 2%Z
              [(2, 3%Z); (3, 4%Z)] 9%Z twoLists_inv twoLists_repr_0)
    as (node & s' & Ha & -> & _ & Hh & _).
  by exists s'.
Defined.

(** X6.  [remove(node)] with a node of the list returns [true] and takes
    the value of that node, and no other, out of the list; the length goes
    down by one.  The node keeps its value and loses its owner and both its
    links.  The other lists hold what they held. *)
Theorem remove_takes_out {ItemT} (s : @V2.Store ItemT) (this : ListRef)
    (c1 : list (NodeRef * ItemT)) (n : NodeRef) (v : ItemT)
    (c2 : list (NodeRef * ItemT)) :
  V2.Inv s → V2.repr s this (c1 ++ (n, v) :: c2) →
  ∃ s',
    V2.remove this n s = Ok true s'
    ∧ V2.repr s' this (c1 ++ c2)
    ∧ V2.holds s' this (c1.*2 ++ c2.*2)
    ∧ V2.getLength this s'
      = Ok (Z.of_nat (List.length (c1 ++ (n, v) :: c2)) - 1)%Z s'
    ∧ V2.nodes s' !! n = Some (V2.mkNode None v None None)
    ∧ V2.Inv s'
    ∧ ∀ L ws, L ≠ this → V2.holds s L ws → V2.holds s' L ws.
Proof.
  intros Hi Hr.
  destruct (wp_elim _ _ _ (remove_spec s this c1 n v c2 Hr))
    as (r & s' & Ha & -> & Hr' & Hm & Hn).
  exists s'. split_and!; try done.
  - eexists. split; [done|]. by rewrite fmap_app.
  - rewrite (repr_getLength _ _ _ Hr'). rewrite !length_app. cbn [List.length].
    f_equal. lia.
  - by eapply inv_modifies.
  - intros L ws HL. by apply (holds_modifies_other this).
Qed.

Lemma remove_takes_out_witness :
  V2.Inv twoLists
  ∧ V2.repr twoLists 0 ([(0, 1%Z)] ++ (1, 2%Z) :: [(2, 3%Z); (3, 4%Z)])
  ∧ ∃ s', V2.remove 0 1 twoLists = Ok true s'
          ∧ V2.holds s' 0 [1; 3; 4]%Z
          ∧ V2.nodes s' !! 1 = Some (V2.mkNode None 2%Z None None).
Proof.
  split; [apply twoLists_inv|]. split; [apply twoLists_repr_0|].
  destruct (remove_takes_out twoLists 0 [(0, 1%Z)] 1 2%Z
              [(2, 3%Z); (3, 4%Z)] twoLists_inv twoLists_repr_0)
    as (s' & Ha & _ & Hh & _ & Hn & _).
  by exists s'.
Defined.

(** X7.  A node that [remove] took out of its list is refused by every
    list afterwards: [insertAfterNode] and [insertBeforeNode] return
    [undefined], [remove] returns [false], and none of them changes the
    store; the accessors give no owner and no neighbour for it. *)
Theorem removed_node_is_refused {ItemT} (s : @V2.Store ItemT)
    (this L : ListRef) (n : NodeRef) (s' : @V2.Store ItemT) (item : ItemT) :
  V2.Inv s → this < List.length (V2.lists s) →
  L < List.length (V2.lists s) →
  V2.remove this n s = Ok true s' →
  V2.insertAfterNode L n item s' = Ok None s'
  ∧ V2.insertBeforeNode L n item s' = Ok None s'
  ∧ V2.remove L n s' = Ok false s'
  ∧ V2.getNodeList (Some n) s' = Ok None s'
  ∧ V2.getPreviousNode (Some n) s' = Ok None s'
  ∧ V2.getNextNode (Some n) s' = Ok None s'.
Proof.
  intros Hi Hthis HL Hrm.
  destruct (inv_repr _ _ Hi Hthis) as [cs Hr].
  pose proof (remove_true_owned _ _ _ _ _ Hr Hrm) as Hin.
  apply cells_split in Hin as (c1 & v & c2 & ->).
  destruct (wp_elim _ _ _ (remove_spec s this c1 n v c2 Hr))
    as (r & s1 & Hrm' & -> & Hr' & Hm & Hn).
  rewrite Hrm in Hrm'. injection Hrm' as <-.
  assert (V2.Inv s') as Hi' by (by eapply inv_modifies).
  assert (L < List.length (V2.lists s')) as HL'
    by (by rewrite (V2.mod_lists_len _ _ _ Hm)).
  destruct (inv_repr _ _ Hi' HL') as [cL HrL].
  destruct (detached_accessors _ _ _ Hn) as (Hol & _ & Hpv & Hnx).
  split_and!; try done.
  - by eapply insertAfterNode_foreign_spec.
  - by eapply insertBeforeNode_foreign_spec.
  - by eapply remove_foreign_spec.
Qed.

Lemma removed_node_is_refused_witness :
  V2.Inv twoLists ∧ 0 < List.length (V2.lists twoLists)
  ∧ 1 < List.length (V2.lists twoLists)
  ∧ V2.remove 0 1 twoLists = Ok true twoListsLess
  ∧ V2.insertAfterNode 1 1 9%Z twoListsLess = Ok None twoListsLess
  ∧ V2.remove 1 1 twoListsLess = Ok false twoListsLess.
Proof.
  assert (V2.remove 0 1 twoLists = Ok true twoListsLess) as Hrm
    by (vm_compute; reflexivity).
  assert (0 < List.length (V2.lists twoLists)) as H0 by (cbn; lia).
  assert (1 < List.length (V2.lists twoLists)) as H1 by (cbn; lia).
  destruct (removed_node_is_refused twoLists 0 1 1 twoListsLess 9%Z
              twoLists_inv H0 H1 Hrm) as (Ha & _ & Hr & _).
  split_and!; [apply twoLists_inv|done..].
Defined.

(** ** Emptying a list, from either end or at once *)

(** X8.  [clear()] leaves the list empty: no value, length [0], neither
    head nor tail.  Every node the list had keeps its value and is left
    without owner and without links.  The other lists hold what they
    held. *)
Theorem clear_empties {ItemT} (s : @V2.Store ItemT) (this : ListRef)
    (cs : list (NodeRef * ItemT)) (fuel : nat) :
  V2.Inv s → V2.repr s this cs → List.length cs < fuel →
  ∃ s',
    V2.clear fuel this s = Ok tt s'
    ∧ V2.holds s' this []
    ∧ V2.getLength this s' = Ok 0%Z s'
    ∧ V2.isEmpty this s' = Ok true s'
    ∧ V2.getHead this s' = Ok None s'
    ∧ V2.getTail this s' = Ok None s'
    ∧ (∀ n v, (n, v) ∈ cs →
         V2.nodes s' !! n = Some (V2.mkNode None v None None))
    ∧ V2.Inv s'
    ∧ ∀ L ws, L ≠ this → V2.holds s L ws → V2.holds s' L ws.
Proof.
  intros Hi Hr Hfuel.
  destruct (wp_elim _ _ _ (clear_detaches s this cs fuel Hr Hfuel))
    as ([] & s' & Hc & Hr' & Hm & Hdet).
  exists s'. split_and!; try done.
  - by exists [].
  - by rewrite (repr_getLength _ _ _ Hr').
  - by rewrite (repr_isEmpty _ _ _ Hr').
  - by rewrite (repr_getHead _ _ _ Hr').
  - by rewrite (repr_getTail _ _ _ Hr').
  - by eapply inv_modifies.
  - intros L ws HL. by apply (holds_modifies_other this).
Qed.

Lemma clear_empties_witness :
  V2.Inv twoLists ∧ V2.repr twoLists 0 chain0
  ∧ List.length chain0 < 5
  ∧ ∃ s', V2.clear 5 0 twoLists = Ok tt s'
          ∧ V2.holds s' 0 []
          ∧ V2.nodes s' !! 2 = Some (V2.mkNode None 3%Z None None)
          ∧ V2.holds s' 1 [7; 8]%Z.
Proof.
  assert (List.length chain0 < 5) as Hlt by (cbn; lia).
  split; [apply twoLists_inv|]. split; [apply twoLists_repr_0|].
  split; [done|].
  destruct (clear_empties twoLists 0 chain0 5 twoLists_inv twoLists_repr_0 Hlt)
    as (s' & Hc & Hh & _ & _ & _ & _ & Hdet & _ & Hf).
  exists s'. split_and!; [done|done| |].
  - apply Hdet. by apply (list_elem_of_lookup_2 _ 2).
  - apply Hf; [lia|apply twoLists_holds_1].
Defined.

(** X9.  [pop()] returns the last value of the list and takes it out, the
    values before it staying; on an empty list it returns [undefined] and
    changes nothing.  The other lists hold what they held. *)
Theorem pop_takes_last {ItemT} (s : @V2.Store ItemT) (this : ListRef)
    (vs : list ItemT) :
  V2.Inv s → V2.holds s this vs →
  ∃ s',
    V2.pop this s = Ok (last vs) s'
    ∧ V2.holds s' this (take (List.length vs - 1) vs)
    ∧ (vs = [] → s' = s)
    ∧ V2.Inv s'
    ∧ ∀ L ws, L ≠ this → V2.holds s L ws → V2.holds s' L ws.
Proof.
  intros Hi (cs & Hr & <-).
  destruct (snoc_case cs) as [->|(cs' & [n v] & ->)].
  - exists s. rewrite (pop_empty_spec _ _ Hr). split_and!; try done.
    by exists [].
  - destruct (wp_elim _ _ _ (pop_spec s this cs' n v Hr))
      as (r & s' & Hp & -> & Hr' & Hm & _).
    exists s'. rewrite fmap_app. cbn [fmap list_fmap]. rewrite last_snoc.
    split_and!; try done.
    + exists cs'. split; [done|].
      rewrite length_app. cbn [List.length].
      replace (List.length (cs'.*2) + 1 - 1) with (List.length cs'.*2) by lia.
      by rewrite take_app_length.
    + intros Heq. by apply app_nil in Heq as [_ ?].
    + by eapply inv_modifies.
    + intros L ws HL. by apply (holds_modifies_other this).
Qed.

Lemma pop_takes_last_witness :
  V2.Inv twoLists ∧ V2.holds twoLists 0 [1; 2; 3; 4]%Z
  ∧ ∃ s', V2.pop 0 twoLists = Ok (Some 4%Z) s'
          ∧ V2.holds s' 0 [1; 2; 3]%Z.
Proof.
  split; [apply twoLists_inv|]. split; [apply twoLists_holds_0|].
  destruct (pop_takes_last twoLists 0 [1; 2; 3; 4]%Z twoLists_inv
              twoLists_holds_0) as (s' & Hp & Hh & _).
  by exists s'.
Defined.

(** X10.  [shift()] returns the first value of the list and takes it out,
    the values after it staying; on an empty list it returns [undefined] and
    changes nothing.  The other lists hold what they held. *)
Theorem shift_takes_first {ItemT} (s : @V2.Store ItemT) (this : ListRef)
    (vs : list ItemT) :
  V2.Inv s → V2.holds s this vs →
  ∃ s',
    V2.shift this s = Ok (head vs) s'
    ∧ V2.holds s' this (drop 1 vs)
    ∧ (vs = [] → s' = s)
    ∧ V2.Inv s'
    ∧ ∀ L ws, L ≠ this → V2.holds s L ws → V2.holds s' L ws.
Proof.
  intros Hi (cs & Hr & <-).
  destruct cs as [|[n v] cs'].
  - exists s. rewrite (shift_empty_spec _ _ Hr). split_and!; try done.
    by exists [].
  - destruct (wp_elim _ _ _ (shift_spec s this cs' n v Hr))
      as (r & s' & Hp & -> & Hr' & Hm & _).
    exists s'. split_and!; try done.
    + by exists cs'.
    + by eapply inv_modifies.
    + intros L ws HL. by apply (holds_modifies_other this).
Qed.

Lemma shift_takes_first_witness :
  V2.Inv twoLists ∧ V2.holds twoLists 0 [1; 2; 3; 4]%Z
  ∧ ∃ s', V2.shift 0 twoLists = Ok (Some 1%Z) s'
          ∧ V2.holds s' 0 [2; 3; 4]%Z.
Proof.
  split; [apply twoLists_inv|]. split; [apply twoLists_holds_0|].
  destruct (shift_takes_first twoLists 0 [1; 2; 3; 4]%Z twoLists_inv
              twoLists_holds_0) as (s' & Hp & Hh & _).
  by exists s'.
Defined.
Import V2Facts V2Ops V2Inv V2Queries V2Mutators V2Splice V2SpliceTop V2Reach
  V2Exec V2WellFormed V2Misc V2Iteration V2More Examples.
Import V2Spec.

(** X11.  The two ends work as a stack and as a queue.  A [push] followed
    by a [pop] gives back the item pushed and leaves the values as they
    were; so does an [unshift] followed by a [shift].  A [push] followed by
    a [shift] gives the first of the values with the item added at the
    end. *)
Theorem push_pop_roundtrip {ItemT} (s : @V2.Store ItemT) (this : ListRef)
    (vs : list ItemT) (item : ItemT) :
  V2.Inv s → V2.holds s this vs →
  let n := List.length (V2.nodes s) in
  (∃ s1 s2,
     V2.push this item s = Ok n s1 ∧ V2.pop this s1 = Ok (Some item) s2
     ∧ V2.holds s2 this vs ∧ V2.Inv s2)
  ∧ (∃ s1 s2,
       V2.unshift this item s = Ok n s1
       ∧ V2.shift this s1 = Ok (Some item) s2
       ∧ V2.holds s2 this vs ∧ V2.Inv s2)
  ∧ (∃ s1 s2,
       V2.push this item s = Ok n s1
       ∧ V2.shift this s1 = Ok (head (vs ++ [item])) s2
       ∧ V2.holds s2 this (drop 1 (vs ++ [item])) ∧ V2.Inv s2).
Proof.
  intros Hi (cs & Hr & <-) n.
  destruct (wp_elim _ _ _ (append_spec s this cs item Hr))
    as (n1 & s1 & Ha & -> & Hr1 & Hm1).
  destruct (wp_elim _ _ _ (prepend_spec s this cs item Hr))
    as (n' & t1 & Hp & -> & Ht1 & Hn1).
  fold n in Ha, Hr1, Hp, Ht1.
  assert (V2.Inv s1) as Hi1 by exact (inv_modifies _ _ _ _ Hi Hm1 Hr1).
  assert (V2.Inv t1) as Hj1 by exact (inv_modifies _ _ _ _ Hi Hn1 Ht1).
  split_and!.
  - destruct (wp_elim _ _ _ (pop_spec s1 this cs n item Hr1))
      as (r & s2 & Hpop & -> & Hr2 & Hm2 & _).
    exists s1, s2.
    split_and!; [exact Ha|done|by exists cs|].
    exact (inv_modifies _ _ _ _ Hi1 Hm2 Hr2).
  - destruct (wp_elim _ _ _ (shift_spec t1 this cs n item Ht1))
      as (r & t2 & Hsh & -> & Ht2 & Hn2 & _).
    exists t1, t2.
    split_and!; [exact Hp|done|by exists cs|].
    exact (inv_modifies _ _ _ _ Hj1 Hn2 Ht2).
  - destruct cs as [|[m w] cs'].
    + destruct (wp_elim _ _ _ (shift_spec s1 this [] n item Hr1))
        as (r & s2 & Hsh & -> & Hr2 & Hm2 & _).
      exists s1, s2.
      split_and!; [exact Ha|done|by exists []|].
      exact (inv_modifies _ _ _ _ Hi1 Hm2 Hr2).
    + destruct (wp_elim _ _ _ (shift_spec s1 this (cs' ++ [(n, item)]) m w Hr1))
        as (r & s2 & Hsh & -> & Hr2 & Hm2 & _).
      exists s1, s2.
      split_and!; [exact Ha|done| |exact (inv_modifies _ _ _ _ Hi1 Hm2 Hr2)].
      exists (cs' ++ [(n, item)]). split; [done|].
      cbn. by rewrite drop_0, fmap_app.
Qed.

Lemma push_pop_roundtrip_witness :
  V2.Inv twoLists ∧ V2.holds twoLists 1 [7; 8]%Z
  ∧ (∃ s1 s2,
       V2.push 1 9%Z twoLists = Ok 6 s1 ∧ V2.pop 1 s1 = Ok (Some 9%Z) s2
       ∧ V2.holds s2 1 [7; 8]%Z)
  ∧ (∃ s1 s2,
       V2.push 1 9%Z twoLists = Ok 6 s1 ∧ V2.shift 1 s1 = Ok (Some 7%Z) s2
       ∧ V2.holds s2 1 [8; 9]%Z).
Proof.
  split; [apply twoLists_inv|]. split; [apply twoLists_holds_1|].
  destruct (push_pop_roundtrip twoLists 1 [7; 8]%Z 9%Z twoLists_inv
              twoLists_holds_1)
    as ((s1 & s2 & Hpush & Hpop & Hh & _) & _
        & (t1 & t2 & Hpush' & Hsh & Hh' & _)).
  split; [by exists s1, s2|by exists t1, t2].
Defined.

(** ** Reading by position *)

(** X12.  [get(index)] on a list of [n] values: for [0 <= index < n] it is
    the value at [index]; for [-n <= index < 0] it is the value at
    [n + index]; for every other index it is [undefined].  It is the value
    of the node that [getNodeAt(index)] returns, and the store stays as it
    is. *)
Theorem get_by_index {ItemT} (s : @V2.Store ItemT) (this : ListRef)
    (vs : list ItemT) (index : Z) :
  V2.holds s this vs →
  let len := Z.of_nat (List.length vs) in
  ((0 ≤ index < len)%Z →
     V2.get this index s = Ok (vs !! Z.to_nat index) s
     ∧ is_Some (vs !! Z.to_nat index))
  ∧ ((- len ≤ index < 0)%Z →
       V2.get this index s = Ok (vs !! Z.to_nat (len + index)) s
       ∧ is_Some (vs !! Z.to_nat (len + index)))
  ∧ ((index < - len ∨ len ≤ index)%Z → V2.get this index s = Ok None s)
  ∧ ∃ node,
      V2.getNodeAt this index s = Ok node s
      ∧ V2.getNodeValue node s = V2.get this index s.
Proof.
  intros (cs & Hr & <-) len. subst len. rewrite length_fmap.
  pose proof (get_spec s this cs index Hr) as Hg.
  pose proof (getNodeAt_spec s this cs index Hr) as Hn.
  assert (∃ node, V2.getNodeAt this index s = Ok node s
                  ∧ V2.getNodeValue node s = V2.get this index s) as Hnode.
  { eexists. split; [done|]. unfold V2.get. rewrite (bind_Ok _ _ _ _ _ Hn).
    unfold V2.getNodeValue. by destruct (V2.nodeAt cs index). }
  clear Hn. unfold V2.nodeAt, V2.refAt in Hg. rewrite Z.geb_leb in Hg.
  set (len := Z.of_nat (List.length cs)) in *.
  assert (∀ i, (0 ≤ i < len)%Z →
            is_Some (cs.*2 !! Z.to_nat i)
            ∧ match fst <$> cs !! Z.to_nat i with
              | Some _ => snd <$> cs !! Z.to_nat i
              | None => None
              end = cs.*2 !! Z.to_nat i) as Hin.
  { intros i Hi. rewrite list_lookup_fmap.
    destruct (lookup_lt_is_Some_2 cs (Z.to_nat i)) as [c Hc]; [lia|].
    rewrite Hc. cbn. eauto. }
  destruct (Z.ltb_spec index 0) as [Hneg|Hneg].
  - destruct (Z.ltb_spec (len + index) 0) as [Hlow|Hlow]; cbn [orb] in Hg.
    + split_and!; [lia|lia|done|done].
    + destruct (Z.leb_spec len (len + index)); [lia|].
      destruct (Hin (len + index)%Z) as [Hsome Heq]; [lia|].
      rewrite Heq in Hg. split_and!; [lia|done|lia|done].
  - destruct (Z.ltb_spec index 0) as [?|_]; [lia|]. cbn [orb] in Hg.
    destruct (Z.leb_spec len index) as [Hhigh|Hhigh].
    + split_and!; [lia|lia|done|done].
    + destruct (Hin index) as [Hsome Heq]; [lia|].
      rewrite Heq in Hg. split_and!; [done|lia|lia|done].
Qed.

Lemma get_by_index_witness :
  V2.holds twoLists 0 [1; 2; 3; 4]%Z
  ∧ V2.get 0 2 twoLists = Ok (Some 3%Z) twoLists
  ∧ V2.get 0 (-1) twoLists = Ok (Some 4%Z) twoLists
  ∧ V2.get 0 4 twoLists = Ok None twoLists
  ∧ V2.get 0 (-5) twoLists = Ok None twoLists.
Proof.
  split; [apply twoLists_holds_0|].
  split_and!.
  - destruct (get_by_index twoLists 0 [1; 2; 3; 4]%Z 2%Z twoLists_holds_0)
      as (H & _). apply H. cbn. lia.
  - destruct (get_by_index twoLists 0 [1; 2; 3; 4]%Z (-1)%Z twoLists_holds_0)
      as (_ & H & _). apply H. cbn. lia.
  - destruct (get_by_index twoLists 0 [1; 2; 3; 4]%Z 4%Z twoLists_holds_0)
      as (_ & _ & H & _). apply H. cbn. lia.
  - destruct (get_by_index twoLists 0 [1; 2; 3; 4]%Z (-5)%Z twoLists_holds_0)
      as (_ & _ & H & _). apply H. cbn. lia.
Defined.
Import V2Facts V2Ops V2Inv V2Queries V2Mutators V2Splice V2SpliceTop V2Reach
  V2Exec V2WellFormed V2Misc V2Iteration V2More Examples.
Import V2Spec.

(** ** Searching *)

(** X13.  [indexOf(x, fromIndex)] looks at the positions from [fromIndex]
    on (from [0] when it is negative).  When it returns [-1] no value there
    is [===] to [x]; otherwise it returns the first such position, and
    [get] at that position gives a value [===] to [x].  [includes] says
    whether the result is not [-1].  The store stays as it is. *)
Theorem indexOf_finds_first {ItemT} (strictEq : ItemT → ItemT → bool)
    (s : @V2.Store ItemT) (this : ListRef) (vs : list ItemT) (x : ItemT)
    (fromIndex : Z) (fuel : nat) :
  V2.holds s this vs → List.length (V2.nodes s) < fuel →
  let from := Z.to_nat fromIndex in
  ∃ r,
    V2.indexOf strictEq fuel this x fromIndex s = Ok r s
    ∧ V2.includes strictEq fuel this x fromIndex s
      = Ok (negb (r =? -1)%Z) s
    ∧ (r = (-1)%Z →
       ∀ i v, from ≤ i → vs !! i = Some v → strictEq v x = false)
    ∧ (r ≠ (-1)%Z →
       ∃ i v,
         r = Z.of_nat i ∧ from ≤ i ∧ vs !! i = Some v
         ∧ strictEq v x = true
         ∧ (∀ j w, from ≤ j < i → vs !! j = Some w → strictEq w x = false)
         ∧ V2.get this r s = Ok (Some v) s).
Proof.
  intros (cs & Hr & <-) Hfuel from.
  pose proof (repr_length_le _ _ _ Hr) as Hle.
  eexists. split; [apply (indexOf_spec strictEq s this cs); [done|lia]|].
  split; [apply (includes_spec strictEq s this cs); [done|lia]|].
  fold from.
  destruct (decide (from ≤ List.length cs)) as [Hin|Hout].
  - replace (from `min` List.length cs) with from by lia. split.
    + intros Hm i v Hi Hv.
      eapply (scanFrom_missing strictEq _ _ _ Hm); [lia|].
      rewrite lookup_drop. by replace i with (from + (i - from)) in Hv by lia.
    + intros Hf.
      edestruct (scanFrom_found strictEq) as (i & v & Heq & Hv & Hx & Hlt);
        [reflexivity| |exact Hf|]; [lia|].
      rewrite lookup_drop in Hv.
      exists (from + i), v. split_and!; [lia|lia|done|done| |].
      * intros j w Hj Hw. apply (Hlt (j - from)); [lia|].
        rewrite lookup_drop. by replace (from + (j - from)) with j by lia.
      * rewrite Heq. replace (Z.of_nat from + Z.of_nat i)%Z
          with (Z.of_nat (from + i)) by lia.
        by apply (get_in_range _ _ cs).
  - rewrite drop_ge by (rewrite length_fmap; lia). cbn [V2.scanFrom].
    split; [|done]. intros _ i v Hi Hv.
    apply lookup_lt_Some in Hv. rewrite length_fmap in Hv. lia.
Qed.

Lemma indexOf_finds_first_witness :
  V2.holds twoLists 0 [1; 2; 3; 4]%Z ∧ List.length (V2.nodes twoLists) < 7
  ∧ ∃ r, V2.indexOf Z.eqb 7 0 3%Z 1 twoLists = Ok r twoLists
         ∧ V2.includes Z.eqb 7 0 3%Z 1 twoLists
           = Ok (negb (r =? -1)%Z) twoLists.
Proof.
  assert (List.length (V2.nodes twoLists) < 7) as Hlt by (cbn; lia).
  split; [apply twoLists_holds_0|]. split; [done|].
  destruct (indexOf_finds_first Z.eqb twoLists 0 [1; 2; 3; 4]%Z 3%Z 1 7
              twoLists_holds_0 Hlt) as (r & Hi & Hinc & _).
  by exists r.
Defined.

(** X14.  [find(predicate)] returns the first value, in list order, that
    the predicate accepts at its position, and [undefined] when the
    predicate accepts none.  The store stays as it is. *)
Theorem find_returns_first {ItemT} (s : @V2.Store ItemT) (this : ListRef)
    (vs : list ItemT) (predicate : ItemT → Z → bool) (fuel : nat) :
  V2.holds s this vs → List.length (V2.nodes s) < fuel →
  ∃ r,
    V2.find fuel this predicate s = Ok r s
    ∧ (r = None →
       ∀ i v, vs !! i = Some v → predicate v (Z.of_nat i) = false)
    ∧ (∀ v, r = Some v →
       ∃ i, vs !! i = Some v ∧ predicate v (Z.of_nat i) = true
            ∧ ∀ j w, j < i → vs !! j = Some w →
                predicate w (Z.of_nat j) = false).
Proof.
  intros (cs & Hr & <-) Hfuel.
  pose proof (repr_length_le _ _ _ Hr) as Hle.
  eexists. split; [apply (find_spec s this cs); [done|lia]|]. split.
  - intros Hm i v Hv. by apply (findFrom_missing _ _ _ Hm).
  - intros v Hf. by apply (findFrom_found _ _ _ _ Hf).
Qed.

Lemma find_returns_first_witness :
  V2.holds twoLists 0 [1; 2; 3; 4]%Z ∧ List.length (V2.nodes twoLists) < 7
  ∧ V2.find 7 0 (λ v _, 2 <? v)%Z twoLists = Ok (Some 3%Z) twoLists.
Proof.
  assert (List.length (V2.nodes twoLists) < 7) as Hlt by (cbn; lia).
  split; [apply twoLists_holds_0|]. split; [done|].
  destruct (find_returns_first twoLists 0 [1; 2; 3; 4]%Z (λ v _, 2 <? v)%Z 7
              twoLists_holds_0 Hlt) as (r & Hf & _).
  rewrite Hf. f_equal. revert Hf. vm_compute. by intros [= <-].
Defined.

(** ** Copies *)

(** X15.  [map(callback)] returns a list object that did not exist; its
    values are the results of the callback on each value of the list and its
    position, in order, so it is as long as the list.  The list itself, and
    every other list that existed, holds what it held. *)
Theorem map_builds_image {ItemT} (s : @V2.Store ItemT) (this : ListRef)
    (vs : list ItemT) (callback : ItemT → Z → ItemT) (fuel : nat) :
  V2.Inv s → V2.holds s this vs → List.length (V2.nodes s) < fuel →
  ∃ result s' ws,
    V2.map fuel this callback s = Ok result s'
    ∧ result = List.length (V2.lists s)
    ∧ V2.holds s' result ws
    ∧ List.length ws = List.length vs
    ∧ (∀ i, ws !! i = (λ v, callback v (Z.of_nat i)) <$> vs !! i)
    ∧ V2.Inv s'
    ∧ ∀ L us, V2.holds s L us → V2.holds s' L us.
Proof.
  intros Hi (cs & Hr & <-) Hfuel.
  pose proof (repr_length_le _ _ _ Hr) as Hle.
  assert (List.length cs < fuel) as Hfuel' by lia.
  destruct (wp_elim _ _ _ (map_spec s this cs fuel callback (proj1 Hi) Hr Hfuel'))
    as (R & s' & Hmap & -> & Hr' & (rs & HR & Hrs) & Hw & Hlen).
  exists (List.length (V2.lists s)), s', (rs.*2). split_and!; try done.
  - by exists rs.
  - by rewrite Hrs, mapFrom_length.
  - intros i. rewrite Hrs, mapFrom_lookup. by rewrite Z.add_0_l.
  - assert (this < List.length (V2.lists s)) as Hthis.
    { destruct Hr as [Hl _ _ _]. by apply lookup_lt_Some in Hl. }
    exact (wp_Ok _ _ _ _ _ Hmap (map_inv s this fuel callback Hi Hthis Hfuel)).
  - intros L us HL. eapply holds_within_other; [done| |done].
    apply holds_lt in HL. intros ->%list_elem_of_singleton. lia.
Qed.

Lemma map_builds_image_witness :
  V2.Inv twoLists ∧ V2.holds twoLists 1 [7; 8]%Z
  ∧ List.length (V2.nodes twoLists) < 7
  ∧ ∃ s' ws, V2.map 7 1 (λ v i, v * 10 + i)%Z twoLists = Ok 2 s'
             ∧ V2.holds s' 2 ws
             ∧ ws !! 1 = Some 81%Z
             ∧ V2.holds s' 1 [7; 8]%Z.
Proof.
  assert (List.length (V2.nodes twoLists) < 7) as Hlt by (cbn; lia).
  split; [apply twoLists_inv|]. split; [apply twoLists_holds_1|].
  split; [done|].
  destruct (map_builds_image twoLists 1 [7; 8]%Z (λ v i, v * 10 + i)%Z 7
              twoLists_inv twoLists_holds_1 Hlt)
    as (result & s' & ws & Hm & -> & Hh & _ & Hws & _ & Hf).
  exists s', ws. split_and!; [done|done|by rewrite Hws|].
  apply Hf, twoLists_holds_1.
Defined.

(** X16.  Running the iterator of a list to its end ([[...list]]) yields
    the values of the list in order, which are what [toArray()] returns;
    [forEach] returns; none of the three changes the store. *)
Theorem iteration_yields_values {ItemT} (s : @V2.Store ItemT)
    (this : ListRef) (vs : list ItemT) (callback : ItemT → Z → unit)
    (fuel : nat) :
  V2.holds s this vs → List.length (V2.nodes s) < fuel →
  V2.spread fuel this s = Ok vs s
  ∧ V2.toArray fuel this s = Ok (Some <$> vs) s
  ∧ V2.forEach fuel this callback s = Ok tt s.
Proof.
  intros (cs & Hr & <-) Hfuel.
  pose proof (repr_length_le _ _ _ Hr) as Hle.
  split_and!.
  - apply (spread_spec s this cs); [done|lia].
  - apply (toArray_spec s this cs); [done|lia].
  - apply (forEach_spec s this cs); [done|lia].
Qed.

Lemma iteration_yields_values_witness :
  V2.holds twoLists 0 [1; 2; 3; 4]%Z ∧ List.length (V2.nodes twoLists) < 7
  ∧ V2.spread 7 0 twoLists = Ok [1; 2; 3; 4]%Z twoLists
  ∧ V2.toArray 7 0 twoLists = Ok [Some 1; Some 2; Some 3; Some 4]%Z twoLists.
Proof.
  assert (List.length (V2.nodes twoLists) < 7) as Hlt by (cbn; lia).
  split; [apply twoLists_holds_0|]. split; [done|].
  destruct (iteration_yields_values twoLists 0 [1; 2; 3; 4]%Z (λ _ _, tt) 7
              twoLists_holds_0 Hlt) as (Hs & Ht & _).
  by split.
Defined.
Import V2Facts V2Ops V2Inv V2Queries V2Mutators V2Splice V2SpliceTop V2Reach
  V2Exec V2WellFormed V2Misc V2Iteration V2More Examples.
Import V2Spec.

(** ** The ends and the links, as the accessors show them *)

(** X17.  On a list that holds [vs]: [getLength()] is the number of values,
    [isEmpty()] says whether there is none, the value of the node
    [getHead()] returns is the first value and that of [getTail()] the last
    one ([undefined] for both on an empty list), and these are also the
    values [get(0)] and [get(-1)] return. *)
Theorem ends_show_values {ItemT} (s : @V2.Store ItemT) (this : ListRef)
    (vs : list ItemT) :
  V2.holds s this vs →
  V2.getLength this s = Ok (Z.of_nat (List.length vs)) s
  ∧ V2.isEmpty this s = Ok (bool_decide (vs = [])) s
  ∧ (∃ h, V2.getHead this s = Ok h s
          ∧ V2.getNodeValue h s = Ok (head vs) s
          ∧ V2.getPreviousNode h s = Ok None s
          ∧ V2.getNodeAt this 0 s = Ok h s)
  ∧ (∃ t, V2.getTail this s = Ok t s
          ∧ V2.getNodeValue t s = Ok (last vs) s
          ∧ V2.getNextNode t s = Ok None s
          ∧ V2.getNodeAt this (-1) s = Ok t s)
  ∧ V2.get this 0 s = Ok (head vs) s
  ∧ V2.get this (-1) s = Ok (last vs) s.
Proof.
  intros (cs & Hr & <-).
  assert (∃ h, V2.getHead this s = Ok h s
               ∧ V2.getNodeValue h s = Ok (head cs.*2) s
               ∧ V2.getPreviousNode h s = Ok None s
               ∧ V2.getNodeAt this 0 s = Ok h s) as Hhead.
  { exists (head cs.*1). split; [by apply repr_getHead|].
    rewrite (getNodeAt_spec _ _ _ _ Hr).
    destruct cs as [|[n v] cs']; [done|].
    destruct (repr_accessors _ _ _ 0 _ _ Hr eq_refl) as (_ & Hv & Hp & _).
    done. }
  assert (∃ t, V2.getTail this s = Ok t s
               ∧ V2.getNodeValue t s = Ok (last cs.*2) s
               ∧ V2.getNextNode t s = Ok None s
               ∧ V2.getNodeAt this (-1) s = Ok t s) as Htail.
  { exists (last cs.*1). split; [by apply repr_getTail|].
    rewrite (getNodeAt_spec _ _ _ _ Hr).
    destruct (snoc_case cs) as [->|(cs' & [n v] & ->)]; [done|].
    destruct (repr_accessors _ _ _ (List.length cs') n v Hr)
      as (_ & Hv & _ & Hnx); [apply snoc_lookup|].
    rewrite !fmap_app. cbn [fmap list_fmap fst snd]. rewrite !last_snoc.
    split_and!; [done| |].
    - rewrite Hnx. rewrite lookup_ge_None_2; [done|].
      rewrite length_fmap, length_app. cbn. lia.
    - pose proof (nodeAt_from_end (cs' ++ [(n, v)]) (List.length cs') (n, v)
                    (snoc_lookup _ _)) as Hat.
      rewrite length_app in Hat. cbn [List.length] in Hat.
      replace (Z.of_nat (List.length cs') - Z.of_nat (List.length cs' + 1))%Z
        with (-1)%Z in Hat by lia.
      by rewrite Hat. }
  split_and!; try done.
  - rewrite (repr_getLength _ _ _ Hr). by rewrite length_fmap.
  - rewrite (repr_isEmpty _ _ _ Hr). by destruct cs.
  - destruct Hhead as (h & _ & Hv & _ & Hat).
    unfold V2.get. rewrite (bind_Ok _ _ _ _ _ Hat).
    unfold V2.getNodeValue in Hv. by destruct h.
  - destruct Htail as (t & _ & Hv & _ & Hat).
    unfold V2.get. rewrite (bind_Ok _ _ _ _ _ Hat).
    unfold V2.getNodeValue in Hv. by destruct t.
Qed.

Lemma ends_show_values_witness :
  V2.holds twoLists 0 [1; 2; 3; 4]%Z
  ∧ V2.getLength 0 twoLists = Ok 4%Z twoLists
  ∧ V2.isEmpty 0 twoLists = Ok false twoLists
  ∧ V2.get 0 0 twoLists = Ok (Some 1%Z) twoLists
  ∧ V2.get 0 (-1) twoLists = Ok (Some 4%Z) twoLists.
Proof.
  split; [apply twoLists_holds_0|].
  destruct (ends_show_values twoLists 0 [1; 2; 3; 4]%Z twoLists_holds_0)
    as (Hl & He & _ & _ & Hg0 & Hg1).
  by split_and!.
Defined.

(** X18.  The node accessors follow the chain of the list.  For the node at
    position [i]: its owner is the list, its value is the value at [i], its
    previous node is the node at [i - 1] (none for the head) and its next
    node is the node at [i + 1] (none for the tail); it is the node that
    [getNodeAt(i)] and [getNodeAt(i - length)] return.  Going to the next
    node and back gives the node again.  An accessor applied to [undefined]
    gives [undefined]. *)
Theorem accessors_follow_chain {ItemT} (s : @V2.Store ItemT)
    (this : ListRef) (cs : list (NodeRef * ItemT)) (i : nat) (n : NodeRef)
    (v : ItemT) :
  V2.repr s this cs → cs !! i = Some (n, v) →
  V2.getNodeList (Some n) s = Ok (Some this) s
  ∧ V2.getNodeValue (Some n) s = Ok (Some v) s
  ∧ V2.getPreviousNode (Some n) s
    = Ok (match i with 0 => None | S j => cs.*1 !! j end) s
  ∧ V2.getNextNode (Some n) s = Ok (cs.*1 !! S i) s
  ∧ V2.getNodeAt this (Z.of_nat i) s = Ok (Some n) s
  ∧ V2.getNodeAt this (Z.of_nat i - Z.of_nat (List.length cs)) s
    = Ok (Some n) s
  ∧ (∀ m, cs.*1 !! S i = Some m →
       V2.getPreviousNode (Some m) s = Ok (Some n) s)
  ∧ (V2.getNodeList None s = Ok None s
     ∧ V2.getNodeValue None s = Ok None s
     ∧ V2.getPreviousNode None s = Ok None s
     ∧ V2.getNextNode None s = Ok None s).
Proof.
  intros Hr Hi.
  destruct (repr_accessors _ _ _ _ _ _ Hr Hi) as (Ho & Hv & Hp & Hnx).
  split_and!; try done.
  - rewrite (getNodeAt_spec _ _ _ _ Hr). by rewrite (nodeAt_in_range _ _ _ Hi).
  - rewrite (getNodeAt_spec _ _ _ _ Hr). by rewrite (nodeAt_from_end _ _ _ Hi).
  - intros m Hm. rewrite list_lookup_fmap in Hm.
    destruct (cs !! S i) as [[m' w]|] eqn:Hc; [|done]. injection Hm as <-.
    destruct (repr_accessors _ _ _ _ _ _ Hr Hc) as (_ & _ & Hp' & _).
    rewrite Hp'. by rewrite list_lookup_fmap, Hi.
Qed.

Lemma accessors_follow_chain_witness :
  V2.repr twoLists 0 chain0
  ∧ chain0 !! 1 = Some (1, 2%Z)
  ∧ V2.getPreviousNode (Some 1) twoLists = Ok (Some 0) twoLists
  ∧ V2.getNextNode (Some 1) twoLists = Ok (Some 2) twoLists
  ∧ V2.getNodeAt 0 (-3) twoLists = Ok (Some 1) twoLists.
Proof.
  split; [apply twoLists_repr_0|]. split; [reflexivity|].
  destruct (accessors_follow_chain twoLists 0 chain0 1 1 2%Z twoLists_repr_0
              eq_refl) as (_ & _ & Hp & Hn & _ & Hat & _).
  by split_and!.
Defined.

(** ** What no operation does *)

(** X19.  No operation frees or renumbers an object, changes the value a
    node carries, or hands a node over to another list: after any
    operation, every list object is still there, every node is still there
    with the value it had, and its owner is the one it had or none. *)
Theorem operations_keep_objects {ItemT} (strictEq : ItemT → ItemT → bool)
    (fuel : nat) (op : Op) (s s' : @V2.Store ItemT) :
  exec strictEq fuel op s = Ok tt s' →
  List.length (V2.lists s) ≤ List.length (V2.lists s')
  ∧ List.length (V2.nodes s) ≤ List.length (V2.nodes s')
  ∧ ∀ n nd, V2.nodes s !! n = Some nd →
      ∃ nd', V2.nodes s' !! n = Some nd'
             ∧ V2.VALUE nd' = V2.VALUE nd
             ∧ (V2.LIST nd' = V2.LIST nd ∨ V2.LIST nd' = None).
Proof. intros Hex. by destruct (exec_keeps strictEq fuel op s s' Hex). Qed.

Lemma operations_keep_objects_witness :
  exec Z.eqb 7 (OpRemove 0 1) twoLists = Ok tt twoListsLess
  ∧ ∃ nd', V2.nodes twoListsLess !! 1 = Some nd'
           ∧ V2.VALUE nd' = 2%Z
           ∧ (V2.LIST nd' = Some 0 ∨ V2.LIST nd' = None).
Proof.
  assert (exec Z.eqb 7 (OpRemove 0 1) twoLists = Ok tt twoListsLess) as Hex
    by (vm_compute; reflexivity).
  split; [done|].
  destruct (operations_keep_objects Z.eqb 7 _ _ _ Hex) as (_ & _ & Hk).
  exact (Hk 1 (V2.mkNode (Some 0) 2%Z (Some 0) (Some 2)) eq_refl).
Defined.

(** ** splice from a node *)

(** X20.  Starting [splice] from the node at position [p] of the list is
    starting it from the index [p], and from the negative index
    [p - length]: the three calls return the same result and leave the same
    store. *)
Theorem splice_node_is_splice_index {ItemT} (s : @V2.Store ItemT)
    (this : ListRef) (cs : list (NodeRef * ItemT)) (p : nat) (n : NodeRef)
    (v : ItemT) (deleteCount : Z) (items : list ItemT) :
  V2.repr s this cs → cs !! p = Some (n, v) →
  V2.splice this (StartNode n) deleteCount items s
  = V2.splice this (StartNumber (Z.of_nat p)) deleteCount items s
  ∧ V2.splice this (StartNode n) deleteCount items s
    = V2.splice this
        (StartNumber (Z.of_nat p - Z.of_nat (List.length cs))) deleteCount
        items s.
Proof.
  intros Hr Hp. pose proof (lookup_lt_Some _ _ _ Hp) as Hlt.
  pose proof Hr as [Hl _ _ _].
  pose proof (repr_lookup _ _ _ _ _ Hr Hp) as Hn. cbn [fst snd] in Hn.
  assert (V2.splice this (StartNode n) deleteCount items s
          = V2.splice_from this (Some n) deleteCount items s) as ->.
  { unfold V2.splice. rewrite (bind_Ok _ _ _ _ _ (get_LIST_Ok _ _ _ Hn)).
    cbn [V2.LIST]. by rewrite decide_False by (by intros ?). }
  unfold V2.splice.
  rewrite !(bind_Ok _ _ _ _ _ (get_length_Ok _ _ _ Hl)). cbn [V2.length].
  split.
  - rewrite (proj2 (Z.ltb_ge (Z.of_nat p) 0)) by lia.
    rewrite Z.min_l by lia.
    rewrite Z.geb_leb, (proj2 (Z.leb_gt _ _)) by lia.
    rewrite (bind_Ok _ _ _ _ _ (getNodeAt_spec _ _ _ _ Hr)).
    by rewrite (nodeAt_in_range _ _ _ Hp).
  - rewrite (proj2 (Z.ltb_lt (Z.of_nat p - Z.of_nat (List.length cs)) 0))
      by lia.
    replace (Z.of_nat (List.length cs)
             + (Z.of_nat p - Z.of_nat (List.length cs)))%Z
      with (Z.of_nat p) by lia.
    rewrite Z.max_r by lia.
    rewrite Z.geb_leb, (proj2 (Z.leb_gt _ _)) by lia.
    rewrite (bind_Ok _ _ _ _ _ (getNodeAt_spec _ _ _ _ Hr)).
    by rewrite (nodeAt_in_range _ _ _ Hp).
Qed.

Lemma splice_node_is_splice_index_witness :
  V2.repr twoLists 0 chain0 ∧ chain0 !! 2 = Some (2, 3%Z)
  ∧ V2.splice 0 (StartNode 2) 1 [9]%Z twoLists
    = V2.splice 0 (StartNumber 2) 1 [9]%Z twoLists
  ∧ V2.splice 0 (StartNode 2) 1 [9]%Z twoLists
    = V2.splice 0 (StartNumber (-2)) 1 [9]%Z twoLists.
Proof.
  split; [apply twoLists_repr_0|]. split; [reflexivity|].
  exact (splice_node_is_splice_index twoLists 0 chain0 2 2 3%Z 1 [9]%Z
           twoLists_repr_0 eq_refl).
Defined.

(** ** Lists do not share nodes *)



(** * The class-node list *)

Import V2Facts V2Ops V2Inv V2Queries V2Mutators V2Splice V2SpliceTop V2Reach
  V2Exec V2WellFormed V2Misc V2Iteration V2More Examples.
Import V2Spec Both BothFacts BothLeaves BothOps BothExec.

Lemma twoLists1_inv1 : Inv1 twoLists1.
Proof.
  destruct (calls_agree Z.eqb 0
              [OpConstructor [1; 2; 3; 4]%Z; OpConstructor [7; 8]%Z]
              V1.emptyStore
              [RList 0; RList 1] twoLists inv1_empty)
    as (u' & Hrun & _ & Hinv); [vm_compute; reflexivity|].
  assert (u' = twoLists1) as ->; [|done].
  revert Hrun. vm_compute. by intros [= <-].
Qed.

Lemma twoLists1_erase : erase twoLists1 = twoLists.
Proof. vm_compute. reflexivity. Qed.

(** X21.  The class-node list does what the tuple-node list does.  In a
    store that calls built, every call of a public method on objects of the
    store returns in both implementations, with the same result; the stores
    the two leave are the same objects under the same references, the
    class-node one holding its caches besides; and the store is again one
    that calls built. *)
Theorem class_nodes_agree {ItemT} (strictEq : ItemT → ItemT → bool)
    (u : @V1.Store ItemT) (fuel : nat) (op : Op) :
  Inv1 u → argsOk (erase u) op → List.length (V1.nodes u) < fuel →
  ∃ r u',
    call1 strictEq fuel op u = Ok r u'
    ∧ call2 strictEq fuel op (erase u) = Ok r (erase u')
    ∧ Inv1 u'.
Proof. apply call_agree. Qed.

Lemma class_nodes_agree_witness :
  Inv1 twoLists1
  ∧ argsOk (erase twoLists1) (OpSplice 0 (StartNumber 1) 2 [9]%Z)
  ∧ List.length (V1.nodes twoLists1) < 7
  ∧ ∃ u',
      call1 Z.eqb 7 (OpSplice 0 (StartNumber 1) 2 [9]%Z) twoLists1
      = Ok (RList 2) u'
      ∧ call2 Z.eqb 7 (OpSplice 0 (StartNumber 1) 2 [9]%Z) twoLists
        = Ok (RList 2) (erase u').
Proof.
  assert (argsOk (erase twoLists1) (OpSplice 0 (StartNumber 1) 2 [9]%Z))
    as Hargs by (split; intros ? [= <-]; cbn; lia).
  assert (List.length (V1.nodes twoLists1) < 7) as Hfuel by (cbn; lia).
  split; [apply twoLists1_inv1|]. split; [exact Hargs|]. split; [exact Hfuel|].
  destruct (class_nodes_agree Z.eqb twoLists1 7 _ twoLists1_inv1 Hargs Hfuel)
    as (r & u' & H1 & H2 & _).
  rewrite twoLists1_erase in H2.
  assert (r = RList 2) as ->.
  { revert H1. vm_compute. by intros [= <- _]. }
  exists u'. exact (conj H1 H2).
Defined.

(** X22.  A program over the list, that is a sequence of calls starting
    from nothing, each on objects that exist when it is made: if it runs in
    the tuple-node implementation, it runs in the class-node one and every
    call returns the same result; the final stores are the same objects
    under the same references. *)
Theorem class_nodes_run_the_same {ItemT} (strictEq : ItemT → ItemT → bool)
    (fuel : nat) (ops : list Op) (rs : list (@Result ItemT))
    (t' : @V2.Store ItemT) :
  calls2 strictEq fuel ops V2.emptyStore = Some (rs, t') →
  ∃ u',
    calls1 strictEq fuel ops V1.emptyStore = Some (rs, u')
    ∧ erase u' = t' ∧ Inv1 u'.
Proof. intros Hrun. by apply calls_agree; [apply inv1_empty|]. Qed.

Lemma class_nodes_run_the_same_witness :
  calls2 Z.eqb 9 program V2.emptyStore = Some (programResults, programStore)
  ∧ ∃ u',
      calls1 Z.eqb 9 program V1.emptyStore = Some (programResults, u')
      ∧ erase u' = programStore.
Proof.
  assert (calls2 Z.eqb 9 program V2.emptyStore
          = Some (programResults, programStore)) as Hrun
    by (vm_compute; reflexivity).
  split; [exact Hrun|].
  destruct (class_nodes_run_the_same Z.eqb 9 _ _ _ Hrun) as (u' & H1 & He & _).
  exists u'. exact (conj H1 He).
Defined.

(** X23.  [toArray()] of the class-node list returns the values the list
    holds, whether it takes them from the cache or walks the nodes; the call
    changes nothing but the cache.  The next call returns the same values
    without a walk (no fuel is needed).  After a change of the list the
    cache is not used: once an item is appended, [toArray()] returns the
    values with the item at the end. *)
Theorem toArray_cache_is_fresh {ItemT} (u : @V1.Store ItemT)
    (this : ListRef) (vs : list ItemT) (fuel : nat) (item : ItemT) :
  Inv1 u → V2.holds (erase u) this vs → List.length (V1.nodes u) < fuel →
  ∃ u',
    V1.toArray fuel this u = Ok vs u'
    ∧ erase u' = erase u ∧ Inv1 u'
    ∧ V1.toArray 0 this u' = Ok vs u'
    ∧ ∃ n u2 u3,
        V1.append this item u' = Ok n u2
        ∧ V1.toArray (S fuel) this u2 = Ok (vs ++ [item]) u3.
Proof.
  intros Hinv (cs & Hr & <-) Hfuel.
  pose proof (repr_length_le _ _ _ Hr) as Hle.
  rewrite erase_nodes_length in Hle.
  destruct (toArray_erased u this cs fuel Hinv Hr ltac:(lia))
    as (u' & Hta & He & Hinv' & _ & Hcached).
  exists u'. split_and!; try done.
  rewrite <- He in Hr.
  assert (this < List.length (V1.lists u')) as Hthis.
  { destruct Hr as [Hl _ _ _]. apply lookup_lt_Some in Hl.
    by rewrite erase_lists_length in Hl. }
  destruct (wp_elim _ _ _ (append_spec _ _ _ item Hr))
    as (n & t2 & Hap2 & -> & Hr2 & _).
  destruct (sim_append (List.length (V1.lists u')) this item Hthis
              u' _ _ ltac:(by split) Hap2) as (u2 & Hap1 & <- & [Hinv2 _]).
  pose proof (repr_length_le _ _ _ Hr2) as Hle2.
  destruct (toArray_erased u2 this _ (S fuel) Hinv2 Hr2)
    as (u3 & Hta3 & _).
  { rewrite length_app. cbn. rewrite length_app in Hle2. cbn in Hle2.
    pose proof (repr_length_le _ _ _ Hr) as Hle'.
    rewrite He, erase_nodes_length in Hle'. lia. }
  eexists _, u2, u3. split; [exact Hap1|].
  rewrite Hta3. by rewrite fmap_app.
Qed.

Lemma toArray_cache_is_fresh_witness :
  Inv1 twoLists1 ∧ V2.holds (erase twoLists1) 1 [7; 8]%Z
  ∧ List.length (V1.nodes twoLists1) < 7
  ∧ ∃ u',
      V1.toArray 7 1 twoLists1 = Ok [7; 8]%Z u'
      ∧ V1.toArray 0 1 u' = Ok [7; 8]%Z u'
      ∧ ∃ n u2 u3,
          V1.append 1 9%Z u' = Ok n u2
          ∧ V1.toArray 8 1 u2 = Ok [7; 8; 9]%Z u3.
Proof.
  assert (V2.holds (erase twoLists1) 1 [7; 8]%Z) as Hh
    by (rewrite twoLists1_erase; apply twoLists_holds_1).
  assert (List.length (V1.nodes twoLists1) < 7) as Hfuel by (cbn; lia).
  split; [apply twoLists1_inv1|]. split; [exact Hh|]. split; [exact Hfuel|].
  destruct (toArray_cache_is_fresh twoLists1 1 [7; 8]%Z 7 9%Z twoLists1_inv1
              Hh Hfuel) as (u' & Hta & _ & _ & Hc & Hrest).
  exists u'. exact (conj Hta (conj Hc Hrest)).
Defined.
